(** * Monotone polygon triangulation (src/polygon/src/polygon.cpp)

    A shallow embedding of the sweep-line subdivision and of the reflex-chain
    triangulator, and the properties of the specification checked against it.

    Conventions of the embedding.
    - [float] values are idealised as exact rationals ([Q]); comparisons and
      arithmetic are those of the source with rounding left out.
    - [int] values are [Z]; list sizes are assumed to stay below 2^31, where
      the source itself has no defined behaviour.
    - A [std::list] is an arena ([list] of records, addressed by position, never
      shrinking) together with the list of live positions in list order, so
      that iterators stay stable under [splice] and [insert].
    - A [std::vector] used as a stack is a [list] whose head is [back()].
    - Dereferencing an iterator that designates no element is undefined
      behaviour in the source and is the outcome [Undef] here.  Loops that the
      source does not bound take a fuel argument; running out is [Diverge].
    - Output to [std::cout] ([PRINT], [Dump], [PrintFailure], [ListActive]) has
      no effect on the state and is left out; so are [CloseEnd] and
      [ShiftEast], which nothing calls. *)

From Stdlib Require Import QArith Qabs ZArith Lia Lqa Bool Permutation Sorted.
From stdpp Require Import base decidable option list.

Open Scope Z_scope.

(** ** Numbers *)

Definition Qltb (a b : Q) : bool := negb (Qle_bool b a).
Definition Qgtb (a b : Q) : bool := Qltb b a.
Definition Qgeb (a b : Q) : bool := Qle_bool b a.
Definition Qeqb (a b : Q) : bool := Qeq_bool a b.

(** [glm::max(a, b)] is [(a < b) ? b : a]; [glm::abs] is the absolute value. *)
Definition glm_max (a b : Q) : Q := if Qltb a b then b else a.
Definition glm_abs (a : Q) : Q := Qabs a.

Record vec2 := mkvec2 { vx : Q; vy : Q }.

(** Modelled from the spec: the constant [kTolerance] (declared in public.h,
    which is not among the sources); the specification gives it as 2^-13. *)
Definition kTolerance : Q := 1 # 8192.

(** Modelled from the spec: the orientation predicate [CCW] (declared in
    public.h, which is not among the sources): the sign of [(b-a) x (c-a)],
    and [0] whenever the altitude [|cross| / max(|b-a|, |c-a|)] of the triangle
    is at most [tol].  The comparison is made on squares, which is the same
    for a non-negative [tol]. *)
Definition CCW (p0 p1 p2 : vec2) (tol : Q) : Z :=
  let v1x := (vx p1 - vx p0)%Q in
  let v1y := (vy p1 - vy p0)%Q in
  let v2x := (vx p2 - vx p0)%Q in
  let v2y := (vy p2 - vy p0)%Q in
  let area := (v1x * v2y - v1y * v2x)%Q in
  let base2 := glm_max (v1x * v1x + v1y * v1y)%Q (v2x * v2x + v2y * v2y)%Q in
  if Qle_bool (area * area)%Q (base2 * tol * tol)%Q then 0
  else if Qgtb area 0%Q then 1 else -1.

(** ** Iterators and records *)

(** [VertItr]: an element of [monotones_], [monotones_.end()], or a
    default-constructed iterator. *)
Inductive VertItr := vAt (n : nat) | vEnd | vNone.

(** [EdgeItr]: an element of one of the two edge lists, [activeEdges_.end()],
    [inactiveEdges_.end()], or a default-constructed iterator. *)
Inductive EdgeItr := eAt (n : nat) | eActiveEnd | eInactiveEnd | eNone.

#[global] Instance VertItr_eq_dec : EqDecision VertItr.
Proof. solve_decision. Defined.
#[global] Instance EdgeItr_eq_dec : EqDecision EdgeItr.
Proof. solve_decision. Defined.

Record VertAdj := mkVertAdj {
  pos : vec2;
  mesh_idx : Z;
  index : Z;
  left : VertItr;
  right : VertItr;
  edgeL : EdgeItr;
  edgeR : EdgeItr
}.

Record Edge := mkEdge {
  south : VertItr;
  linked : EdgeItr;
  next : EdgeItr;
  forward : bool;
  linked2east : bool;
  flipped : bool;
  eastCertain : bool;
  minDegenerateY : Q
}.

Inductive VertType := Start | Backward | Forward | Merge | End | Skip.

#[global] Instance VertType_eq_dec : EqDecision VertType.
Proof. solve_decision. Defined.

Definition set_index (i : Z) (v : VertAdj) : VertAdj :=
  mkVertAdj (pos v) (mesh_idx v) i (left v) (right v) (edgeL v) (edgeR v).
Definition set_left (l : VertItr) (v : VertAdj) : VertAdj :=
  mkVertAdj (pos v) (mesh_idx v) (index v) l (right v) (edgeL v) (edgeR v).
Definition set_right (r : VertItr) (v : VertAdj) : VertAdj :=
  mkVertAdj (pos v) (mesh_idx v) (index v) (left v) r (edgeL v) (edgeR v).
Definition set_edgeL (e : EdgeItr) (v : VertAdj) : VertAdj :=
  mkVertAdj (pos v) (mesh_idx v) (index v) (left v) (right v) e (edgeR v).
Definition set_edgeR (e : EdgeItr) (v : VertAdj) : VertAdj :=
  mkVertAdj (pos v) (mesh_idx v) (index v) (left v) (right v) (edgeL v) e.

Definition set_south (s : VertItr) (e : Edge) : Edge :=
  mkEdge s (linked e) (next e) (forward e) (linked2east e) (flipped e)
         (eastCertain e) (minDegenerateY e).
Definition set_linked (l : EdgeItr) (e : Edge) : Edge :=
  mkEdge (south e) l (next e) (forward e) (linked2east e) (flipped e)
         (eastCertain e) (minDegenerateY e).
Definition set_next (n : EdgeItr) (e : Edge) : Edge :=
  mkEdge (south e) (linked e) n (forward e) (linked2east e) (flipped e)
         (eastCertain e) (minDegenerateY e).
Definition set_forward (f : bool) (e : Edge) : Edge :=
  mkEdge (south e) (linked e) (next e) f (linked2east e) (flipped e)
         (eastCertain e) (minDegenerateY e).
Definition set_eastCertain (c : bool) (e : Edge) : Edge :=
  mkEdge (south e) (linked e) (next e) (forward e) (linked2east e) (flipped e)
         c (minDegenerateY e).

(** Methods of [VertAdj] that read the record only. *)
Definition Processed (v : VertAdj) : bool := index v <? 0.

Definition SetProcessed (processed : bool) (v : VertAdj) : VertAdj :=
  if index v =? -2 then v
  else set_index (if processed then -1 else 0) v.

(** [SetSkip()], which nothing in the file calls. *)
Definition SetSkip (v : VertAdj) : VertAdj := set_index (-2) v.

(** [v.IsPast(other, precision)] and [v < other]. *)
Definition IsPast (v other : VertAdj) (precision : Q) : bool :=
  Qgtb (vy (pos v)) (vy (pos other) + precision)%Q.

Definition VertAdj_lt (v other : VertAdj) : bool :=
  Qltb (vy (pos v)) (vy (pos other)).

(** ** The process-wide configuration and the build *)

(** Modelled from the spec: [ExecutionParams] (declared in public.h, which is
    not among the sources), the four switches the specification lists. *)
Record ExecutionParams := mkParams {
  verbose : bool;
  intermediateChecks : bool;
  processOverlaps : bool;
  suppressErrors : bool
}.

(** The build: whether [MANIFOLD_DEBUG] is defined, and [params]. *)
Record Config := mkConfig {
  MANIFOLD_DEBUG : bool;
  params : ExecutionParams
}.

(** ** Outcomes and the state monad *)

(** Modelled from the spec: the two error kinds (declared in public.h, which
    is not among the sources); both are [std::exception]s. *)
Inductive exn := geometryErr | topologyErr.

#[global] Instance exn_eq_dec : EqDecision exn.
Proof. solve_decision. Defined.

Inductive outcome (S A : Type) :=
| Ret (a : A) (s : S)   (* normal completion *)
| Exc (e : exn) (s : S) (* an exception, with the state at the throw *)
| Undef                 (* undefined behaviour *)
| Diverge.              (* the fuel ran out *)
Arguments Ret {S A} a s.
Arguments Exc {S A} e s.
Arguments Undef {S A}.
Arguments Diverge {S A}.

Definition M (S A : Type) : Type := S -> outcome S A.

Definition ret {S A} (a : A) : M S A := fun s => Ret a s.
Definition bind {S A B} (m : M S A) (k : A -> M S B) : M S B :=
  fun s => match m s with
           | Ret a s' => k a s'
           | Exc e s' => Exc e s'
           | Undef => Undef
           | Diverge => Diverge
           end.
Definition undef {S A} : M S A := fun _ => Undef.
Definition diverge {S A} : M S A := fun _ => Diverge.
Definition throw {S A} (e : exn) : M S A := fun s => Exc e s.
Definition get {S} : M S S := fun s => Ret s s.
Definition put {S} (s : S) : M S unit := fun _ => Ret tt s.
Definition gets {S A} (f : S -> A) : M S A := fun s => Ret (f s) s.
Definition modify {S} (f : S -> S) : M S unit := fun s => Ret tt (f s).
Definition of_option {S A} (o : option A) : M S A :=
  match o with Some a => ret a | None => undef end.

Declare Scope m_scope.
Delimit Scope m_scope with m.
Notation "x <- c1 ;; c2" := (bind c1 (fun x => c2))
  (at level 100, c1 at next level, right associativity) : m_scope.
Notation "c1 ;; c2" := (bind c1 (fun _ => c2))
  (at level 100, right associativity) : m_scope.
Open Scope m_scope.

(** Modelled from the spec: the macro [ASSERT] (optional_assert.h is not among
    the sources): raises the named error when the condition is false. *)
Definition ASSERT {S} (condition : bool) (e : exn) : M S unit :=
  if condition then ret tt else throw e.

(** Short-circuit conjunction and disjunction of conditions that dereference
    iterators. *)
Definition andM {S} (a b : M S bool) : M S bool :=
  x <- a ;; if x then b else ret false.
Definition orM {S} (a b : M S bool) : M S bool :=
  x <- a ;; if x then ret true else b.

(** ** Positions in a [std::list]

    The list of live elements is a [list nat] without repetition.  A position
    is an element or the end of the list ([None]). *)

Fixpoint list_next (l : list nat) (n : nat) : option (option nat) :=
  match l with
  | [] => None
  | a :: l' =>
      if decide (a = n) then Some (head l') else list_next l' n
  end.

Fixpoint list_prev_aux (before : option nat) (l : list nat) (n : nat)
  : option (option nat) :=
  match l with
  | [] => None
  | a :: l' =>
      if decide (a = n) then Some before else list_prev_aux (Some a) l' n
  end.

(** [list_prev l n]: [Some None] when [n] is the first element (there is no
    element before [begin()]), [None] when [n] is not in the list. *)
Definition list_prev (l : list nat) (n : nat) : option (option nat) :=
  list_prev_aux None l n.

Definition list_mem (n : nat) (l : list nat) : bool :=
  bool_decide (n ∈ l).

Definition list_remove (n : nat) (l : list nat) : list nat :=
  filter (fun a => a ≠ n) l.

(** [insert_before p n l]: [n] placed before position [p] ([None] is the end).
    When [p] is an element that is not in [l] nothing is inserted; callers
    check membership first. *)
Fixpoint insert_before (p : option nat) (n : nat) (l : list nat) : list nat :=
  match p with
  | None => l ++ [n]
  | Some q =>
      match l with
      | [] => []
      | a :: l' =>
          if decide (a = q) then n :: a :: l'
          else a :: insert_before p n l'
      end
  end.

(** ** The state of a [Monotones] object *)

Record Monotones := mkMonotones {
  verts : list VertAdj;        (* arena of the nodes of [monotones_] *)
  monotones_ : list nat;       (* sweep-line list of verts *)
  edges : list Edge;           (* arena of the nodes of both edge lists *)
  activeEdges_ : list nat;     (* west to east monotone edges *)
  inactiveEdges_ : list nat;   (* completed monotones *)
  precision_ : Q               (* a triangle of this height or less is degenerate *)
}.

Definition with_verts (f : list VertAdj -> list VertAdj) (s : Monotones) :=
  mkMonotones (f (verts s)) (monotones_ s) (edges s) (activeEdges_ s)
              (inactiveEdges_ s) (precision_ s).
Definition with_monotones (f : list nat -> list nat) (s : Monotones) :=
  mkMonotones (verts s) (f (monotones_ s)) (edges s) (activeEdges_ s)
              (inactiveEdges_ s) (precision_ s).
Definition with_edges (f : list Edge -> list Edge) (s : Monotones) :=
  mkMonotones (verts s) (monotones_ s) (f (edges s)) (activeEdges_ s)
              (inactiveEdges_ s) (precision_ s).
Definition with_active (f : list nat -> list nat) (s : Monotones) :=
  mkMonotones (verts s) (monotones_ s) (edges s) (f (activeEdges_ s))
              (inactiveEdges_ s) (precision_ s).
Definition with_inactive (f : list nat -> list nat) (s : Monotones) :=
  mkMonotones (verts s) (monotones_ s) (edges s) (activeEdges_ s)
              (f (inactiveEdges_ s)) (precision_ s).
Definition with_precision (p : Q) (s : Monotones) :=
  mkMonotones (verts s) (monotones_ s) (edges s) (activeEdges_ s)
              (inactiveEdges_ s) p.

Abbreviation MM := (M Monotones).

(** *** Dereferencing *)

(** [*v] for reading. *)
Definition vert_at (v : VertItr) : MM VertAdj :=
  fun s => match v with
           | vAt n => match verts s !! n with
                      | Some r => Ret r s
                      | None => Undef
                      end
           | _ => Undef
           end.

(** [v->field = ...]. *)
Definition vert_upd (v : VertItr) (f : VertAdj -> VertAdj) : MM unit :=
  fun s => match v with
           | vAt n => match verts s !! n with
                      | Some r => Ret tt (with_verts (fun l => <[n := f r]> l) s)
                      | None => Undef
                      end
           | _ => Undef
           end.

Definition edge_at (e : EdgeItr) : MM Edge :=
  fun s => match e with
           | eAt n => match edges s !! n with
                      | Some r => Ret r s
                      | None => Undef
                      end
           | _ => Undef
           end.

Definition edge_upd (e : EdgeItr) (f : Edge -> Edge) : MM unit :=
  fun s => match e with
           | eAt n => match edges s !! n with
                      | Some r => Ret tt (with_edges (fun l => <[n := f r]> l) s)
                      | None => Undef
                      end
           | _ => Undef
           end.

(** *** Iterator arithmetic on [monotones_] *)

Definition v_of (o : option nat) : VertItr :=
  match o with Some n => vAt n | None => vEnd end.

Definition vbegin : MM VertItr := gets (fun s => v_of (head (monotones_ s))).

(** [std::next(v)]. *)
Definition vnext (v : VertItr) : MM VertItr :=
  match v with
  | vAt n => l <- gets monotones_ ;;
             o <- of_option (list_next l n) ;; ret (v_of o)
  | _ => undef
  end.

(** [std::prev(v)]. *)
Definition vprev (v : VertItr) : MM VertItr :=
  match v with
  | vAt n => l <- gets monotones_ ;;
             o <- of_option (list_prev l n) ;;
             match o with Some m => ret (vAt m) | None => undef end
  | vEnd => l <- gets monotones_ ;;
            match last l with Some m => ret (vAt m) | None => undef end
  | vNone => undef
  end.

(** A position of [monotones_] as understood by [insert_before]. *)
Definition vposition (p : VertItr) : MM (option nat) :=
  match p with
  | vAt n => l <- gets monotones_ ;;
             if list_mem n l then ret (Some n) else undef
  | vEnd => ret None
  | vNone => undef
  end.

(** [monotones_.splice(p, monotones_, v)]: [v] moved before [p]. *)
Definition vsplice (p v : VertItr) : MM unit :=
  q <- vposition p ;;
  match v with
  | vAt n =>
      l <- gets monotones_ ;;
      if negb (list_mem n l) then undef
      else if decide (q = Some n) then ret tt
      else modify (with_monotones (fun l => insert_before q n (list_remove n l)))
  | _ => undef
  end.

(** [monotones_.insert(p, r)]: a new node holding [r] before [p]. *)
Definition vinsert (p : VertItr) (r : VertAdj) : MM VertItr :=
  q <- vposition p ;;
  n <- gets (fun s => length (verts s)) ;;
  modify (with_verts (fun l => l ++ [r])) ;;
  modify (with_monotones (insert_before q n)) ;;
  ret (vAt n).

(** *** Iterator arithmetic on the two edge lists *)

Definition ebegin : MM EdgeItr :=
  gets (fun s => match head (activeEdges_ s) with
                 | Some n => eAt n
                 | None => eActiveEnd
                 end).

(** [std::next(e)], in whichever list holds [e]. *)
Definition enext (e : EdgeItr) : MM EdgeItr :=
  match e with
  | eAt n =>
      a <- gets activeEdges_ ;;
      match list_next a n with
      | Some (Some m) => ret (eAt m)
      | Some None => ret eActiveEnd
      | None =>
          i <- gets inactiveEdges_ ;;
          match list_next i n with
          | Some (Some m) => ret (eAt m)
          | Some None => ret eInactiveEnd
          | None => undef
          end
      end
  | _ => undef
  end.

(** [std::prev(e)], in whichever list holds [e]. *)
Definition eprev (e : EdgeItr) : MM EdgeItr :=
  match e with
  | eAt n =>
      a <- gets activeEdges_ ;;
      match list_prev a n with
      | Some (Some m) => ret (eAt m)
      | Some None => undef
      | None =>
          i <- gets inactiveEdges_ ;;
          match list_prev i n with
          | Some (Some m) => ret (eAt m)
          | _ => undef
          end
      end
  | eActiveEnd =>
      a <- gets activeEdges_ ;;
      match last a with Some m => ret (eAt m) | None => undef end
  | eInactiveEnd =>
      i <- gets inactiveEdges_ ;;
      match last i with Some m => ret (eAt m) | None => undef end
  | eNone => undef
  end.

(** A position of [activeEdges_]. *)
Definition eposition (p : EdgeItr) : MM (option nat) :=
  match p with
  | eAt n => a <- gets activeEdges_ ;;
             if list_mem n a then ret (Some n) else undef
  | eActiveEnd => ret None
  | _ => undef
  end.

(** [activeEdges_.insert(p, r)]. *)
Definition einsert (p : EdgeItr) (r : Edge) : MM EdgeItr :=
  q <- eposition p ;;
  n <- gets (fun s => length (edges s)) ;;
  modify (with_edges (fun l => l ++ [r])) ;;
  modify (with_active (insert_before q n)) ;;
  ret (eAt n).

(** [inactiveEdges_.splice(inactiveEdges_.end(), activeEdges_, e)]. *)
Definition retire_edge (e : EdgeItr) : MM unit :=
  match e with
  | eAt n =>
      a <- gets activeEdges_ ;;
      if list_mem n a then
        modify (with_active (list_remove n)) ;;
        modify (with_inactive (fun i => i ++ [n]))
      else undef
  | _ => undef
  end.

(** [activeEdges_.splice(p, inactiveEdges_, e)]. *)
Definition restore_edge (p e : EdgeItr) : MM unit :=
  q <- eposition p ;;
  match e with
  | eAt n =>
      i <- gets inactiveEdges_ ;;
      if list_mem n i then
        modify (with_inactive (list_remove n)) ;;
        modify (with_active (insert_before q n))
      else undef
  | _ => undef
  end.

(** ** Input polygons *)

(** Modelled from the spec: [PolyVert] (declared in public.h, which is not
    among the sources): a position and the opaque mesh index. *)
Record PolyVert := mkPolyVert { pv_pos : vec2; pv_idx : Z }.

Definition SimplePolygonIdx := list PolyVert.
Definition PolygonsIdx := list SimplePolygonIdx.

Definition ivec3 : Type := Z * Z * Z.

(** ** Bookkeeping helpers of [Monotones] *)

Definition Link (l r : VertItr) : MM unit :=
  vert_upd l (set_right r) ;;
  vert_upd r (set_left l).

Definition UpdateEdge (edge : EdgeItr) (vert : VertItr) : MM unit :=
  edge_upd edge (set_south vert) ;;
  vert_upd vert (set_edgeL edge) ;;
  vert_upd vert (set_edgeR edge).

Definition LinkEdges (edge1 edge2 : EdgeItr) : MM unit :=
  edge_upd edge1 (set_linked edge2) ;;
  edge_upd edge2 (set_linked edge1).

(** [v->IsStart()]. *)
Definition IsStart (v : VertItr) : MM bool :=
  V <- vert_at v ;;
  L <- vert_at (left V) ;;
  R <- vert_at (right V) ;;
  ret ((Qgeb (vy (pos L)) (vy (pos V)) && Qgtb (vy (pos R)) (vy (pos V)))
       || (Qeqb (vy (pos L)) (vy (pos V)) && Qeqb (vy (pos R)) (vy (pos V))
           && Qle_bool (vx (pos L)) (vx (pos V))
           && Qltb (vx (pos R)) (vx (pos V)))).

(** [a->IsPast(b, precision_)] through iterators. *)
Definition IsPastItr (a b : VertItr) : MM bool :=
  A <- vert_at a ;;
  B <- vert_at b ;;
  p <- gets precision_ ;;
  ret (IsPast A B p).

(** [edge->North()]. *)
Definition North (e : Edge) : MM VertItr :=
  S <- vert_at (south e) ;;
  ret (if forward e then right S else left S).

(** [edge->EastOf(vert, precision)]. *)
Definition EastOf (edge : EdgeItr) (vert : VertItr) (precision : Q) : MM Z :=
  E <- edge_at edge ;;
  north <- North E ;;
  S <- vert_at (south E) ;;
  V <- vert_at vert ;;
  N <- vert_at north ;;
  if Qgtb (vx (pos S) - precision)%Q (vx (pos V))
     && Qgtb (vx (pos N) - precision)%Q (vx (pos V))
  then ret 1
  else if Qltb (vx (pos S) + precision)%Q (vx (pos V))
          && Qltb (vx (pos N) + precision)%Q (vx (pos V))
  then ret (-1)
  else ret (CCW (pos S) (pos N) (pos V) precision).

(** ** The constructor: ring construction and the choice of the precision *)

(** The body of the inner [for] loop, from index [i] on; [first] tells
    whether [i == 0]. *)
Fixpoint add_poly_verts (poly : SimplePolygonIdx) (first : bool)
    (start last current : VertItr) (bound : Q)
  : MM (VertItr * VertItr * VertItr * Q) :=
  match poly with
  | [] => ret (start, last, current, bound)
  | pv :: poly' =>
      current <- vinsert vEnd
                   (mkVertAdj (pv_pos pv) (pv_idx pv) 0 vEnd vEnd
                              eActiveEnd eNone) ;;
      let bound := glm_max bound (glm_max (glm_abs (vx (pv_pos pv)))
                                          (glm_abs (vy (pv_pos pv)))) in
      (if first then ret tt else Link last current) ;;
      add_poly_verts poly' false (if first then current else start)
                     current current bound
  end.

(** The outer [for] loop over the polygons. *)
Fixpoint add_polys (polys : PolygonsIdx) (start last current : VertItr)
    (bound : Q) : MM Q :=
  match polys with
  | [] => ret bound
  | poly :: polys' =>
      r <- add_poly_verts poly true start last current bound ;;
      let '(start, last, current, bound) := r in
      Link current start ;;
      add_polys polys' start last current bound
  end.

Definition empty_Monotones (precision : Q) : Monotones :=
  mkMonotones [] [] [] [] [] precision.

(** The constructor up to the choice of [precision_], before the sweeps. *)
Definition Monotones_init (polys : PolygonsIdx) : MM unit :=
  bound <- add_polys polys vNone vNone vNone 0%Q ;;
  p <- gets precision_ ;;
  if Qltb p 0%Q then modify (with_precision (bound * kTolerance)%Q)
  else ret tt.

Definition GetPrecision (s : Monotones) : Q := precision_ s.

(** ** The vertex classifier *)

(** The skip tests of the two unilateral cases. *)
Definition skip_backward (vert : VertItr) (fwdEdge : EdgeItr) : MM bool :=
  V <- vert_at vert ;;
  andM (p <- IsPastItr vert (right V) ;; ret (negb p))
   (andM (F <- edge_at fwdEdge ;; S <- vert_at (south F) ;;
          p <- IsPastItr (right S) vert ;; ret (negb p))
     (andM (F <- edge_at fwdEdge ;; IsPastItr vert (south F))
           (F <- edge_at fwdEdge ;; S <- vert_at (south F) ;;
            SR <- vert_at (right S) ;; p <- gets precision_ ;;
            ret (Qgtb (vx (pos V)) (vx (pos SR) + p)%Q)))).

Definition skip_forward (vert : VertItr) (bwdEdge : EdgeItr) : MM bool :=
  V <- vert_at vert ;;
  andM (p <- IsPastItr vert (left V) ;; ret (negb p))
   (andM (B <- edge_at bwdEdge ;; S <- vert_at (south B) ;;
          p <- IsPastItr (left S) vert ;; ret (negb p))
     (andM (B <- edge_at bwdEdge ;; IsPastItr vert (south B))
           (B <- edge_at bwdEdge ;; S <- vert_at (south B) ;;
            SL <- vert_at (left S) ;; p <- gets precision_ ;;
            ret (Qltb (vx (pos V)) (vx (pos SL) - p)%Q)))).

(** [Monotones::ProcessVert]: shared between the forward and backward sweeps,
    determines the topology of the vertex relative to the sweep line. *)
Definition ProcessVert (vert : VertItr) : MM VertType :=
  V <- vert_at vert ;;
  R <- vert_at (right V) ;;
  if Processed R then
    L <- vert_at (left V) ;;
    if Processed L then
      let eR := edgeL R in
      let eL := edgeR L in
      skip <- andM (n <- enext eR ;; ret (negb (bool_decide (n = eL))))
                   (n <- enext eL ;; ret (negb (bool_decide (n = eR)))) ;;
      if skip then ret Skip
      else
        edge_upd eR (set_south vert) ;;
        edge_upd eL (set_south vert) ;;
        vert_upd vert (set_edgeR eR) ;;
        vert_upd vert (set_edgeL eL) ;;
        EL <- edge_at eL ;;
        ER <- edge_at eR ;;
        LinkEdges (linked EL) (linked ER) ;;
        n <- enext eR ;;
        if bool_decide (n = eL) then ret End   (* facing in *)
        else ret Merge                         (* facing out *)
    else
      let bwdEdge := edgeL R in
      fwdEdge <- enext bwdEdge ;;
      skip <- skip_backward vert fwdEdge ;;
      if skip then ret Skip
      else UpdateEdge bwdEdge vert ;; ret Backward
  else
    L <- vert_at (left V) ;;
    if Processed L then
      let fwdEdge := edgeR L in
      bwdEdge <- eprev fwdEdge ;;
      skip <- skip_forward vert bwdEdge ;;
      if skip then ret Skip
      else UpdateEdge fwdEdge vert ;; ret Forward
    else ret Start.

(** [RemovePair]: remove this edge and its pair to the east, but save them
    and mark the edge they were next to. *)
Definition RemovePair (westEdge : EdgeItr) : MM unit :=
  eastEdge <- enext westEdge ;;
  nextEast <- enext eastEdge ;;
  edge_upd eastEdge (set_next nextEast) ;;
  edge_upd westEdge (set_next nextEast) ;;
  retire_edge westEdge ;;
  retire_edge eastEdge.

(** The search loop of [PlaceStart] over the active edges from [eastEdge]
    on: the first edge that is not [EastOf(vert, 0) <= 0]. *)
Fixpoint first_east (vert : VertItr) (active : list nat) : MM EdgeItr :=
  match active with
  | [] => ret eActiveEnd
  | e :: active' =>
      c <- EastOf (eAt e) vert 0%Q ;;
      if c <=? 0 then first_east vert active' else ret (eAt e)
  end.

(** [PlaceStart]; [None] stands for the early [return Skip]. *)
Definition PlaceStart_slot (vert : VertItr) (eastEdge : EdgeItr)
    (isHole holeCertain shouldBeStart : bool) : MM (option (EdgeItr * bool)) :=
  if eqb isHole shouldBeStart then         (* invalid *)
    if negb holeCertain then ret (Some (eastEdge, negb isHole))
    else                                   (* shift to a valid position *)
      p <- gets precision_ ;;
      up <- andM (ret (negb (bool_decide (eastEdge = eActiveEnd))))
                 (c <- EastOf eastEdge vert p ;; ret (c <=? 0)) ;;
      if up then e <- enext eastEdge ;; ret (Some (e, isHole))
      else
        b <- ebegin ;;
        down <- andM (ret (negb (bool_decide (eastEdge = b))))
                     (w <- eprev eastEdge ;;
                      c <- EastOf w vert p ;; ret (c >=? 0)) ;;
        if down then e <- eprev eastEdge ;; ret (Some (e, isHole))
        else ret None
  else ret (Some (eastEdge, isHole)).

Definition PlaceStart (vert : VertItr) : MM VertType :=
  active <- gets activeEdges_ ;;
  eastEdge <- first_east vert active ;;
  V <- vert_at vert ;;
  L <- vert_at (left V) ;;
  R <- vert_at (right V) ;;
  p <- gets precision_ ;;
  let isHole := CCW (pos L) (pos V) (pos R) 0%Q <? 0 in
  let holeCertain := negb (CCW (pos L) (pos V) (pos R) p =? 0) in
  shouldBeStart <- orM (ret (bool_decide (eastEdge = eActiveEnd)))
                       (E <- edge_at eastEdge ;; ret (negb (forward E))) ;;
  slot <- PlaceStart_slot vert eastEdge isHole holeCertain shouldBeStart ;;
  match slot with
  | None => ret Skip
  | Some (eastEdge, isHole) =>
      let noEdge := eActiveEnd in
      certain <- orM (ret (bool_decide (eastEdge = eActiveEnd)))
                     (c <- EastOf eastEdge vert p ;; ret (c >? 0)) ;;
      newEastEdge <- einsert eastEdge
                       (mkEdge vert noEdge noEdge (negb isHole) false false
                               certain 0%Q) ;;
      newWestEdge <- einsert newEastEdge
                       (mkEdge vert noEdge noEdge isHole true false
                               holeCertain 0%Q) ;;
      vert_upd vert (set_edgeR (if isHole then newWestEdge else newEastEdge)) ;;
      vert_upd vert (set_edgeL (if isHole then newEastEdge else newWestEdge)) ;;
      LinkEdges newEastEdge newWestEdge ;;
      ret Start
  end.

(** ** The forward sweep *)

(** The comparator of [SweepForward]: [cmp(a, b)] is [*b < *a], reversed so
    that the minimum element is at [queue.top()] / [vector.back()]. *)
Definition cmp (a b : VertItr) : MM bool :=
  A <- vert_at a ;;
  B <- vert_at b ;;
  ret (VertAdj_lt B A).

(** [std::priority_queue<VertItr, std::vector<VertItr>, decltype(cmp)>]: the
    elements in the order of their [push]; [top()] is an element that no
    other element is greater than for [cmp].  Among several such elements the
    library is free to choose; the model takes the one pushed first. *)
Fixpoint pq_best (best : nat) (bv : VertItr) (i : nat) (l : list VertItr)
  : MM nat :=
  match l with
  | [] => ret best
  | e :: l' =>
      c <- cmp bv e ;;
      if c then pq_best i e (S i) l' else pq_best best bv (S i) l'
  end.

Definition pq_top_index (q : list VertItr) : MM nat :=
  match q with
  | [] => undef
  | e :: l => pq_best 0%nat e 1%nat l
  end.

Definition pq_top (q : list VertItr) : MM VertItr :=
  i <- pq_top_index q ;; of_option (q !! i).

Definition pq_pop (q : list VertItr) : MM (list VertItr) :=
  i <- pq_top_index q ;; ret (delete i q).

Definition pq_push (v : VertItr) (q : list VertItr) : list VertItr := q ++ [v].

(** [std::sort(first, last, cmp)] on a sequence in vector order: the result
    is ordered for [cmp]; elements that [cmp] does not order keep their
    relative positions (the library leaves their order open). *)
Fixpoint sort_insert (x : VertItr) (l : list VertItr) : MM (list VertItr) :=
  match l with
  | [] => ret [x]
  | y :: l' =>
      c <- cmp y x ;;
      if c then r <- sort_insert x l' ;; ret (y :: r)
      else ret (x :: y :: l')
  end.

Fixpoint std_sort (l : list VertItr) : MM (list VertItr) :=
  match l with
  | [] => ret []
  | x :: l' => r <- std_sort l' ;; sort_insert x r
  end.

(** The [for] loop collecting the starts, in vector order. *)
Fixpoint collect_starts (ring : list nat) : MM (list VertItr) :=
  match ring with
  | [] => ret []
  | n :: ring' =>
      b <- IsStart (vAt n) ;;
      r <- collect_starts ring' ;;
      ret (if b then vAt n :: r else r)
  end.

(** [OverlapAssert] and the macro [OVERLAP_ASSERT] in its two builds.  The
    body of a sweep loop yields [inl b] for [return b] and [inr x] to go on;
    when the check fails the macro makes the sweep function return [true]. *)
Definition OverlapAssert (cfg : Config) (condition : bool) : MM bool :=
  (if negb (processOverlaps (params cfg))
   then ASSERT condition geometryErr else ret tt) ;;
  ret condition.

Definition OVERLAP_ASSERT {A} (cfg : Config) (condition : bool)
    (continue : MM (bool + A)) : MM (bool + A) :=
  if MANIFOLD_DEBUG cfg then
    ok <- OverlapAssert cfg condition ;;
    if ok then continue else ret (inl true)
  else
    if condition then continue else ret (inl true).

(** The local variables of [SweepForward]; [starts] and [skipped] are stacks
    (head = [back()]). *)
Record SweepVars := mkSweepVars {
  nextAttached : list VertItr;
  starts : list VertItr;
  skipped : list VertItr;
  insertAt : VertItr
}.

(** The choice of the next vert at the head of the loop body. *)
Definition choose_vert (sv : SweepVars) : MM (VertItr * SweepVars) :=
  let vert := insertAt sv in
  attached <-
    andM (ret (negb (bool_decide (nextAttached sv = []))))
         (orM (ret (bool_decide (starts sv = [])))
              (t <- pq_top (nextAttached sv) ;;
               b <- of_option (head (starts sv)) ;;
               p <- IsPastItr t b ;; ret (negb p))) ;;
  if attached then
    (* Prefer neighbors, which may process starts without needing a new pair. *)
    t <- pq_top (nextAttached sv) ;;
    q <- pq_pop (nextAttached sv) ;;
    ret (t, mkSweepVars q (starts sv) (skipped sv) (insertAt sv))
  else
    match starts sv with
    | b :: starts' =>
        (* Create a new pair with the next vert from the sorted list of starts. *)
        ret (b, mkSweepVars (nextAttached sv) starts' (skipped sv) (insertAt sv))
    | [] =>
        i <- vnext (insertAt sv) ;;
        ret (vert, mkSweepVars (nextAttached sv) (starts sv) (skipped sv) i)
    end.

(** [while (!skipped.empty()) { starts.push_back(skipped.back());
    skipped.pop_back(); }] *)
Fixpoint unskip (skipped starts : list VertItr) : list VertItr :=
  match skipped with
  | [] => starts
  | k :: skipped' => unskip skipped' (k :: starts)
  end.

(** The part of the loop body after a vert that is not skipped. *)
Definition commit_vert (vert : VertItr) (type : VertType) (sv : SweepVars)
  : MM SweepVars :=
  i <- (if bool_decide (vert = insertAt sv) then vnext (insertAt sv)
        else vsplice (insertAt sv) vert ;; ret (insertAt sv)) ;;
  V <- vert_at vert ;;
  q <- match type with
       | Backward => ret (pq_push (left V) (nextAttached sv))
       | Forward => ret (pq_push (right V) (nextAttached sv))
       | Start => ret (pq_push (right V) (pq_push (left V) (nextAttached sv)))
       | Merge => RemovePair (edgeL V) ;; ret (nextAttached sv)
       | End => RemovePair (edgeR V) ;; ret (nextAttached sv)
       | Skip => ret (nextAttached sv)
       end ;;
  vert_upd vert (SetProcessed true) ;;
  (* Push skipped verts back into unprocessed queue. *)
  ret (mkSweepVars q (unskip (skipped sv) (starts sv)) [] i).

(** The condition of the first [OVERLAP_ASSERT]:
    [skipped.empty() || !vert->IsPast(skipped.back(), precision_)]. *)
Definition not_past_skipped (vert : VertItr) (sv : SweepVars) : MM bool :=
  orM (ret (bool_decide (skipped sv = [])))
      (k <- of_option (head (skipped sv)) ;;
       p <- IsPastItr vert k ;; ret (negb p)).

(** [type = ProcessVert(vert); if (type == Start) type = PlaceStart(vert);] *)
Definition classify (vert : VertItr) : MM VertType :=
  type <- ProcessVert vert ;;
  if bool_decide (type = Start) then PlaceStart vert else ret type.

(** The branch [if (type == Skip)] of the loop body. *)
Definition skip_vert (cfg : Config) (vert : VertItr) (sv : SweepVars)
  : MM (bool + SweepVars) :=
  n <- vnext (insertAt sv) ;;
  OVERLAP_ASSERT cfg (negb (bool_decide (n = vEnd)))
    (OVERLAP_ASSERT cfg
       (negb (bool_decide (nextAttached sv = []))
        || negb (bool_decide (starts sv = [])))
       (ret (inr (mkSweepVars (nextAttached sv) (starts sv)
                              (vert :: skipped sv) (insertAt sv))))).

(** One iteration of the [while] loop of [SweepForward]. *)
Definition SweepForward_step (cfg : Config) (sv : SweepVars)
  : MM (bool + SweepVars) :=
  r <- choose_vert sv ;;
  let '(vert, sv) := r in
  V <- vert_at vert ;;
  if Processed V then ret (inr sv)
  else
    notPast <- not_past_skipped vert sv ;;
    OVERLAP_ASSERT cfg notPast
      (type <- classify vert ;;
       if bool_decide (type = Skip) then skip_vert cfg vert sv
       else
         sv <- commit_vert vert type sv ;;
         ret (inr sv)).

Fixpoint SweepForward_loop (fuel : nat) (cfg : Config) (sv : SweepVars)
  : MM bool :=
  match fuel with
  | O => diverge
  | S fuel =>
      if bool_decide (insertAt sv = vEnd) then ret false
      else
        r <- SweepForward_step cfg sv ;;
        match r with
        | inl b => ret b
        | inr sv => SweepForward_loop fuel cfg sv
        end
  end.

(** [SweepForward]: sweeps forward (South to North) keeping track of the
    monotones and reordering degenerates. *)
Definition SweepForward_init : MM SweepVars :=
  ring <- gets monotones_ ;;
  unsorted <- collect_starts ring ;;
  sorted <- std_sort unsorted ;;
  b <- vbegin ;;
  ret (mkSweepVars [] (rev sorted) [] b).

Definition SweepForward (fuel : nat) (cfg : Config) : MM bool :=
  sv <- SweepForward_init ;;
  SweepForward_loop fuel cfg sv.

(** ** The backward sweep *)

(** [SplitVerts]: divides polygons by connecting two verts.  It duplicates
    these verts to break the polygons, then attaches them across to each
    other with two new edges.  Both arguments designate verts when the
    function is entered: an iterator that designates no element then does
    not come to designate the node inserted first. *)
Definition SplitVerts (north south : VertItr) : MM VertItr :=
  N <- vert_at north ;;
  vert_at south ;;
  northEast <- vinsert north N ;;
  N <- vert_at north ;;
  Link (left N) northEast ;;
  vert_upd northEast (SetProcessed true) ;;
  S <- vert_at south ;;
  after <- vnext south ;;
  southEast <- vinsert after S ;;
  S <- vert_at south ;;
  Link southEast (right S) ;;
  vert_upd southEast (SetProcessed true) ;;
  Link south north ;;
  Link northEast southEast ;;
  ret northEast.

Definition CheckSplit (vert : VertItr) (westEdge : EdgeItr) : MM VertItr :=
  W <- edge_at westEdge ;;
  if negb (bool_decide (next W = eActiveEnd)) then
    X <- edge_at (next W) ;;
    vert <- SplitVerts vert (south X) ;;
    edge_upd westEdge (set_next eActiveEnd) ;;   (* unmark merge *)
    ret vert
  else ret vert.

(** The [Start] case of the backward sweep. *)
Definition SweepBack_start (vert : VertItr) : MM unit :=
  V <- vert_at vert ;;
  let westEdge := edgeL V in
  let eastEdge := edgeR V in
  W <- edge_at westEdge ;;
  let eastOf := next W in
  n <- enext eastEdge ;;
  let '(eastEdge, westEdge) :=
    if bool_decide (n = westEdge) then (westEdge, eastEdge)
    else (eastEdge, westEdge) in
  W <- edge_at westEdge ;;
  r <- (if negb (flipped W) then
          eastOf <- (if bool_decide (eastOf = eActiveEnd) then ebegin
                     else enext eastOf) ;;
          ret (eastEdge, westEdge, eastOf)
        else ret (westEdge, eastEdge, eastOf)) ;;
  let '(westEdge, eastEdge, eastOf) := r in
  restore_edge eastOf eastEdge ;;
  restore_edge eastEdge westEdge ;;
  W <- edge_at westEdge ;;
  edge_upd westEdge (set_forward (xorb (forward W) true)) ;;
  E <- edge_at eastEdge ;;
  edge_upd eastEdge (set_forward (xorb (forward E) true)) ;;
  W <- edge_at westEdge ;;
  let isHole := forward W in
  (if isHole then
     westOf <- eprev westEdge ;;
     WO <- edge_at westOf ;;
     split <- (if negb (bool_decide (next WO = eActiveEnd)) then
                 X <- edge_at (next WO) ;; ret (south X)
               else
                 WS <- vert_at (south WO) ;;
                 EO <- edge_at eastOf ;;
                 ES <- vert_at (south EO) ;;
                 ret (if Qltb (vy (pos WS)) (vy (pos ES)) then south EO
                      else south WO)) ;;
     eastVert <- SplitVerts vert split ;;
     edge_upd westOf (set_next eActiveEnd) ;;
     UpdateEdge eastEdge eastVert ;;
     UpdateEdge westEdge vert
   else
     vert_upd vert (set_edgeL westEdge) ;;
     vert_upd vert (set_edgeR eastEdge)) ;;
  edge_upd westEdge (set_next eActiveEnd) ;;
  edge_upd eastEdge (set_next eActiveEnd).

(** The loop body of [SweepBack] from the [OVERLAP_ASSERT] on, with the
    [type] that [ProcessVert] gave. *)
Definition SweepBack_dispatch (cfg : Config) (vert : VertItr)
    (type : VertType) : MM (bool + VertItr) :=
  OVERLAP_ASSERT cfg (negb (bool_decide (type = Skip)))
    (vert <-
       match type with
       | Merge =>
           V <- vert_at vert ;;
           vert <- CheckSplit vert (edgeR V) ;;
           V <- vert_at vert ;;
           westOf <- eprev (edgeL V) ;;
           CheckSplit vert westOf ;;
           V <- vert_at vert ;;
           edge_upd westOf (set_next (edgeL V)) ;;
           ret vert
       | End =>
           V <- vert_at vert ;;
           CheckSplit vert (edgeR V) ;;
           ret vert
       | _ => ret vert
       end ;;
     match type with
     | Merge | End =>
         V <- vert_at vert ;;
         retire_edge (edgeR V) ;;
         V <- vert_at vert ;;
         retire_edge (edgeL V)
     | Forward =>
         V <- vert_at vert ;;
         westOf <- eprev (edgeL V) ;;
         CheckSplit vert westOf ;;
         ret tt
     | Backward =>
         V <- vert_at vert ;;
         CheckSplit vert (edgeR V) ;;
         ret tt
     | Start => SweepBack_start vert
     | Skip => ret tt
     end ;;
     vert_upd vert (SetProcessed true) ;;
     ret (inr vert)).

(** One iteration of the [while] loop of [SweepBack], after [--vert]. *)
Definition SweepBack_step (cfg : Config) (vert : VertItr)
  : MM (bool + VertItr) :=
  V <- vert_at vert ;;
  if Processed V then ret (inr vert)
  else
    type <- ProcessVert vert ;;
    SweepBack_dispatch cfg vert type.

Fixpoint SweepBack_loop (fuel : nat) (cfg : Config) (vert : VertItr)
  : MM bool :=
  match fuel with
  | O => diverge
  | S fuel =>
      b <- vbegin ;;
      if bool_decide (vert = b) then ret false
      else
        vert <- vprev vert ;;
        r <- SweepBack_step cfg vert ;;
        match r with
        | inl b => ret b
        | inr vert => SweepBack_loop fuel cfg vert
        end
  end.

(** [for (auto &vert : monotones_) vert.SetProcessed(processed);] *)
Fixpoint SetProcessed_all (processed : bool) (ring : list nat) : MM unit :=
  match ring with
  | [] => ret tt
  | n :: ring' =>
      vert_upd (vAt n) (SetProcessed processed) ;;
      SetProcessed_all processed ring'
  end.

(** [SweepBack]: sweeps back, splitting the input polygons into monotone
    polygons without doing a single geometric calculation. *)
Definition SweepBack (fuel : nat) (cfg : Config) : MM bool :=
  ring <- gets monotones_ ;;
  SetProcessed_all false ring ;;
  SweepBack_loop fuel cfg vEnd.

(** ** The monotone triangulator *)

(** The state threaded through [Monotones::Triangulate]: the object and the
    output vector [triangles] (in vector order). *)
Record TState := mkTState {
  mono : Monotones;
  triangles : list ivec3
}.

Abbreviation TM := (M TState).

(** An operation on the [Monotones] object run inside [Triangulate]. *)
Definition lift {A} (m : MM A) : TM A :=
  fun s => match m (mono s) with
           | Ret a s' => Ret a (mkTState s' (triangles s))
           | Exc e s' => Exc e (mkTState s' (triangles s))
           | Undef => Undef
           | Diverge => Diverge
           end.

(** The members of [Triangulator]; [reflex_chain_] is a stack (head =
    [back()]).  [onRight_] has no initial value in the source; it is written
    by the first [ProcessVert] before any read. *)
Record Triangulator := mkTriangulator {
  reflex_chain_ : list VertItr;
  other_side_ : VertItr;   (* The end vertex across from the reflex chain *)
  onRight_ : bool;         (* The side the reflex chain is on *)
  triangles_output_ : Z;
  tri_precision_ : Q
}.

Definition new_Triangulator (vert : VertItr) (precision : Q) : Triangulator :=
  mkTriangulator [vert] vert false 0 precision.

Definition NumTriangles (t : Triangulator) : Z := triangles_output_ t.

Definition with_chain (c : list VertItr) (t : Triangulator) : Triangulator :=
  mkTriangulator c (other_side_ t) (onRight_ t) (triangles_output_ t)
                 (tri_precision_ t).

Definition AddTriangle (t : Triangulator) (v0 v1 v2 : VertItr)
  : TM Triangulator :=
  let '(v1, v2) := if negb (onRight_ t) then (v2, v1) else (v1, v2) in
  V0 <- lift (vert_at v0) ;;
  V1 <- lift (vert_at v1) ;;
  V2 <- lift (vert_at v2) ;;
  modify (fun s => mkTState (mono s)
                     (triangles s ++ [(mesh_idx V0, mesh_idx V1, mesh_idx V2)])) ;;
  ret (mkTriangulator (reflex_chain_ t) (other_side_ t) (onRight_ t)
                      (triangles_output_ t + 1) (tri_precision_ t)).

Definition CCW_at (t : Triangulator) (a b c : VertItr) : TM Z :=
  A <- lift (vert_at a) ;;
  B <- lift (vert_at b) ;;
  C <- lift (vert_at c) ;;
  ret (CCW (pos A) (pos B) (pos C) (tri_precision_ t)).

(** The [while] loop of the same-chain branch, entered with [vj] the back of
    [chain]; yields the triangulator, [v_top] and what is left of the chain. *)
Fixpoint same_chain (t : Triangulator) (vi v_top : VertItr)
    (chain : list VertItr) : TM (Triangulator * VertItr * list VertItr) :=
  match chain with
  | [] => ret (t, v_top, [])
  | vj :: chain' =>
      ccw <- CCW_at t vi vj v_top ;;
      if (ccw =? (if onRight_ t then 1 else -1)) || (ccw =? 0) then
        t <- AddTriangle t vi vj v_top ;;
        same_chain t vi vj chain'
      else ret (t, v_top, chain)
  end.

(** The [while] loop of the different-chain branch: empties the chain. *)
Fixpoint empty_chain (t : Triangulator) (vi v_last : VertItr)
    (chain : list VertItr) : TM Triangulator :=
  match chain with
  | [] => ret t
  | vj :: chain' =>
      t <- AddTriangle t vi v_last vj ;;
      empty_chain t vi vj chain'
  end.

(** [Triangulator::ProcessVert]. *)
Definition Triangulator_ProcessVert (t : Triangulator) (vi : VertItr)
    (onRight last : bool) : TM Triangulator :=
  match reflex_chain_ t with
  | [] => undef
  | v_top :: rest =>
      if (Z.of_nat (length (reflex_chain_ t)) <? 2) then
        ret (mkTriangulator (vi :: reflex_chain_ t) (other_side_ t) onRight
                            (triangles_output_ t) (tri_precision_ t))
      else if eqb (onRight_ t) onRight && negb last then
        (* This only creates enough triangles to ensure the reflex chain is
           still reflex. *)
        r <- same_chain t vi v_top rest ;;
        let '(t, v_top, chain) := r in
        ret (with_chain (vi :: v_top :: chain) t)
      else
        (* This branch empties the reflex chain and switches sides. *)
        let t := mkTriangulator (reflex_chain_ t) (other_side_ t)
                                (negb (onRight_ t)) (triangles_output_ t)
                                (tri_precision_ t) in
        t <- empty_chain t vi v_top rest ;;
        ret (mkTriangulator [vi; v_top] v_top (onRight_ t)
                            (triangles_output_ t) (tri_precision_ t))
  end.

(** ** [Monotones::Triangulate] *)

(** Save the sweep-line order in the vert: [vert.index = i++]. *)
Fixpoint assign_index (i : Z) (ring : list nat) : MM unit :=
  match ring with
  | [] => ret tt
  | n :: ring' =>
      vert_upd (vAt n) (set_index i) ;;
      assign_index (i + 1) ring'
  end.

(** [std::find_if(monotones_.begin(), monotones_.end(),
    [](const VertAdj &v) { return !v.Processed(); })]. *)
Fixpoint find_unprocessed (ring : list nat) : MM VertItr :=
  match ring with
  | [] => ret vEnd
  | n :: ring' =>
      V <- vert_at (vAt n) ;;
      if negb (Processed V) then ret (vAt n) else find_unprocessed ring'
  end.

(** The inner loop [while (vR != vL)], which processes the neighbor vert
    that is next in the sweep-line. *)
Fixpoint walk_monotone (fuel : nat) (t : Triangulator) (vR vL : VertItr)
  : TM (Triangulator * VertItr) :=
  match fuel with
  | O => diverge
  | S fuel =>
      if bool_decide (vR = vL) then ret (t, vR)
      else
        R <- lift (vert_at vR) ;;
        L <- lift (vert_at vL) ;;
        if index R <? index L then
          t <- Triangulator_ProcessVert t vR true false ;;
          lift (vert_upd vR (SetProcessed true)) ;;
          R <- lift (vert_at vR) ;;
          walk_monotone fuel t (right R) vL
        else
          t <- Triangulator_ProcessVert t vL false false ;;
          lift (vert_upd vL (SetProcessed true)) ;;
          L <- lift (vert_at vL) ;;
          walk_monotone fuel t vR (left L)
  end.

(** The body of the outer loop: one monotone, from its [start]; yields
    [NumTriangles()] of its triangulator. *)
Definition triangulate_monotone (fuel : nat) (start : VertItr) : TM Z :=
  p <- lift (gets precision_) ;;
  let triangulator := new_Triangulator start p in
  lift (vert_upd start (SetProcessed true)) ;;
  S <- lift (vert_at start) ;;
  r <- walk_monotone fuel triangulator (right S) (left S) ;;
  let '(triangulator, vR) := r in
  triangulator <- Triangulator_ProcessVert triangulator vR true true ;;
  lift (vert_upd vR (SetProcessed true)) ;;
  (* validation *)
  ASSERT (NumTriangles triangulator >? 0) topologyErr ;;
  ret (NumTriangles triangulator).

(** The outer loop [while (start != monotones_.end())]; yields
    [triangles_left] and, for the statement of the counting properties, the
    values of [NumTriangles()] of the successive triangulators. *)
Fixpoint triangulate_loop (fuel : nat) (start : VertItr) (triangles_left : Z)
    (counts : list Z) : TM (Z * list Z) :=
  match fuel with
  | O => diverge
  | S fuel =>
      if bool_decide (start = vEnd) then ret (triangles_left, counts)
      else
        n <- triangulate_monotone fuel start ;;
        let triangles_left := triangles_left - (2 + n) in
        (* Find next monotone *)
        ring <- lift (gets monotones_) ;;
        start <- lift (find_unprocessed ring) ;;
        triangulate_loop fuel start triangles_left (counts ++ [n])
  end.

Definition Triangulate (fuel : nat) : TM (list Z) :=
  ring <- lift (gets monotones_) ;;
  lift (assign_index 1 ring) ;;
  let triangles_left := Z.of_nat (length ring) in
  start <- lift vbegin ;;
  r <- triangulate_loop fuel start triangles_left [] ;;
  let '(triangles_left, counts) := r in
  ASSERT (triangles_left =? 0) topologyErr ;;
  ret counts.

(** ** Sanity checks (compiled with [MANIFOLD_DEBUG] only) *)

(** The [for] loop of [Check]. *)
Fixpoint Check_verts (ring : list nat) : MM unit :=
  match ring with
  | [] => ret tt
  | n :: ring' =>
      let vert := vAt n in
      vert_upd vert (SetProcessed false) ;;
      V <- vert_at vert ;;
      R <- vert_at (right V) ;;
      ASSERT (negb (bool_decide (right R = vert))) topologyErr ;;
      L <- vert_at (left V) ;;
      ASSERT (bool_decide (right L = vert)) topologyErr ;;
      Check_verts ring'
  end.

(** The walk of [Check] under [params.verbose]; what it prints is left out. *)
Fixpoint Check_walk (fuel : nat) (start v : VertItr) : MM unit :=
  match fuel with
  | O => diverge
  | S fuel =>
      if bool_decide (v = start) then ret tt
      else
        vert_upd v (SetProcessed true) ;;
        V <- vert_at v ;;
        Check_walk fuel start (right V)
  end.

Fixpoint Check_monotones (fuel : nat) (start : VertItr) : MM unit :=
  match fuel with
  | O => diverge
  | S fuel =>
      if bool_decide (start = vEnd) then ret tt
      else
        vert_upd start (SetProcessed true) ;;
        S <- vert_at start ;;
        Check_walk fuel start (right S) ;;
        ring <- gets monotones_ ;;
        start <- find_unprocessed ring ;;
        Check_monotones fuel start
  end.

(** [Check]: a variety of sanity checks on the data structure. *)
Definition Check (fuel : nat) (cfg : Config) : MM unit :=
  if MANIFOLD_DEBUG cfg then
    if negb (intermediateChecks (params cfg)) then ret tt
    else
      ring <- gets monotones_ ;;
      Check_verts ring ;;
      if verbose (params cfg) then
        start <- vbegin ;;
        Check_monotones fuel start
      else ret tt
  else ret tt.

(** ** The constructor *)

Definition Monotones_ctor (fuel : nat) (cfg : Config) (polys : PolygonsIdx)
  : MM unit :=
  Monotones_init polys ;;
  fail <- SweepForward fuel cfg ;;
  if fail then ret tt
  else
    Check fuel cfg ;;
    fail <- SweepBack fuel cfg ;;
    if fail then ret tt
    else Check fuel cfg.

(** ** Verification of the output (compiled with [MANIFOLD_DEBUG] only) *)

Record PolyEdge := mkPolyEdge { startVert : Z; endVert : Z }.

Fixpoint poly_edges (prev : PolyVert) (poly : SimplePolygonIdx)
  : list PolyEdge :=
  match poly with
  | [] => []
  | v :: poly' => mkPolyEdge (pv_idx prev) (pv_idx v) :: poly_edges v poly'
  end.

(** [Polygons2Edges]; [poly.back()] of an empty polygon has no defined
    behaviour ([None]). *)
Fixpoint Polygons2Edges (polys : PolygonsIdx) : option (list PolyEdge) :=
  match polys with
  | [] => Some []
  | poly :: polys' =>
      match poly, last poly with
      | first :: rest, Some back =>
          r ← Polygons2Edges polys' ;
          Some (poly_edges first rest
                  ++ [mkPolyEdge (pv_idx back) (pv_idx first)] ++ r)
      | _, _ => None
      end
  end.

Definition Triangles2Edges (tris : list ivec3) : list PolyEdge :=
  flat_map (fun '(a, b, c) =>
              [mkPolyEdge a b; mkPolyEdge b c; mkPolyEdge c a]) tris.

Definition PolyEdge_cmp (a b : PolyEdge) : bool :=
  (startVert a <? startVert b)
  || ((startVert a =? startVert b) && (endVert a <? endVert b)).

Definition PolyEdge_eqb (a b : PolyEdge) : bool :=
  (startVert a =? startVert b) && (endVert a =? endVert b).

Fixpoint edge_insert (x : PolyEdge) (l : list PolyEdge) : list PolyEdge :=
  match l with
  | [] => [x]
  | y :: l' => if PolyEdge_cmp y x then y :: edge_insert x l' else x :: l
  end.

(** [std::sort] with the lexicographic [cmp] of [CheckTopology]. *)
Definition edge_sort (l : list PolyEdge) : list PolyEdge :=
  foldr edge_insert [] l.

(** The final [for] loop of [CheckTopology]; [prev] holds
    [forward[i-1], backward[i-1]] once [i > 0]. *)
Fixpoint match_edges {S} (prev : option (PolyEdge * PolyEdge))
    (fwd bwd : list PolyEdge) : M S unit :=
  match fwd, bwd with
  | f :: fwd', b :: bwd' =>
      ASSERT (PolyEdge_eqb f b) topologyErr ;;
      match prev with
      | Some (pf, pb) =>
          ASSERT (negb (PolyEdge_eqb pf f)) topologyErr ;;
          ASSERT (negb (PolyEdge_eqb pb b)) topologyErr
      | None => ret tt
      end ;;
      match_edges (Some (f, b)) fwd' bwd'
  | _, _ => ret tt
  end.

Definition CheckTopology_edges {S} (halfedges : list PolyEdge) : M S unit :=
  ASSERT (Z.of_nat (length halfedges) mod 2 =? 0) topologyErr ;;
  let n_edges := (length halfedges / 2)%nat in
  let fwd := filter (fun e => endVert e > startVert e) halfedges in
  ASSERT (bool_decide (length fwd = n_edges)) topologyErr ;;
  let bwd := filter (fun e => endVert e < startVert e) halfedges in
  ASSERT (bool_decide (length bwd = n_edges)) topologyErr ;;
  let bwd := map (fun e => mkPolyEdge (endVert e) (startVert e)) bwd in
  match_edges None (edge_sort fwd) (edge_sort bwd).

Definition CheckTopology {S} (tris : list ivec3) (polys : PolygonsIdx)
  : M S unit :=
  openEdges <- of_option (Polygons2Edges polys) ;;
  CheckTopology_edges
    (Triangles2Edges tris
       ++ map (fun e => mkPolyEdge (endVert e) (startVert e)) openEdges).

(** [vertPos[idx]] of [CheckGeometry]: the position written last for [idx],
    and a zero vector for an index never written. *)
Fixpoint vertPos (verts : list PolyVert) (idx : Z) : vec2 :=
  match verts with
  | [] => mkvec2 0 0
  | v :: verts' => if pv_idx v =? idx then pv_pos v else vertPos verts' idx
  end.

Definition CheckGeometry {S} (tris : list ivec3) (polys : PolygonsIdx)
    (precision : Q) : M S unit :=
  let written := rev (concat polys) in
  ASSERT (forallb (fun '(a, b, c) =>
                     CCW (vertPos written a) (vertPos written b)
                         (vertPos written c) precision >=? 0) tris)
         geometryErr.

(** ** The entry points *)

(** The body of the [try] block of [TriangulateIdx]. *)
Definition TriangulateIdx_try (fuel : nat) (cfg : Config)
    (polys : PolygonsIdx) : TM unit :=
  lift (Monotones_ctor fuel cfg polys) ;;
  Triangulate fuel ;;
  if MANIFOLD_DEBUG cfg then
    if intermediateChecks (params cfg) then
      tris <- gets triangles ;;
      CheckTopology tris polys ;;
      if negb (processOverlaps (params cfg)) then
        p <- lift (gets GetPrecision) ;;
        CheckGeometry tris polys (2 * p)%Q
      else ret tt
    else ret tt
  else ret tt.

(** [TriangulateIdx]: with [MANIFOLD_DEBUG] both handlers rethrow; without
    it the single handler is empty and the triangles are returned.  The
    outcome carries no state: [triangles] is the returned value. *)
Definition TriangulateIdx (fuel : nat) (cfg : Config) (polys : PolygonsIdx)
    (precision : Q) : outcome unit (list ivec3) :=
  match TriangulateIdx_try fuel cfg polys
          (mkTState (empty_Monotones precision) []) with
  | Ret _ s => Ret (triangles s) tt
  | Exc e s =>
      if MANIFOLD_DEBUG cfg then Exc e tt
      else Ret (triangles s) tt
  | Undef => Undef
  | Diverge => Diverge
  end.

(** [Triangulate(polygons, precision)]: indices are assigned sequentially
    across all polygons in traversal order. *)
Fixpoint index_polys (idx : Z) (polygons : list (list vec2)) : PolygonsIdx :=
  match polygons with
  | [] => []
  | poly :: polygons' =>
      imap (fun i p => mkPolyVert p (idx + Z.of_nat i)) poly
        :: index_polys (idx + Z.of_nat (length poly)) polygons'
  end.

Definition Triangulate_polygons (fuel : nat) (cfg : Config)
    (polygons : list (list vec2)) (precision : Q)
  : outcome unit (list ivec3) :=
  TriangulateIdx fuel cfg (index_polys 0 polygons) precision.

(** * Properties

    ** Reasoning about the monad *)

Lemma bind_Ret {S A B} (m : M S A) (k : A -> M S B) s b s' :
  bind m k s = Ret b s' ->
  exists a s1, m s = Ret a s1 /\ k a s1 = Ret b s'.
Proof.
  unfold bind. destruct (m s) as [a s1| | |]; try discriminate. eauto.
Qed.

Lemma bind_Exc {S A B} (m : M S A) (k : A -> M S B) s e s' :
  bind m k s = Exc e s' ->
  m s = Exc e s' \/ exists a s1, m s = Ret a s1 /\ k a s1 = Exc e s'.
Proof.
  unfold bind. destruct (m s) as [a s1|e1 s1| |]; try discriminate; eauto.
  intros [= -> ->]. now left.
Qed.

Lemma bind_of_Ret {S A B} (m : M S A) (k : A -> M S B) s a s1 :
  m s = Ret a s1 -> bind m k s = k a s1.
Proof. unfold bind. now intros ->. Qed.

Lemma vert_at_Ret v s V s' :
  vert_at v s = Ret V s' ->
  s' = s /\ exists n, v = vAt n /\ verts s !! n = Some V.
Proof.
  unfold vert_at. destruct v as [n| |]; try discriminate.
  destruct (verts s !! n) eqn:E; try discriminate.
  intros [= <- <-]. eauto.
Qed.

Lemma vert_at_lookup n s V :
  verts s !! n = Some V -> vert_at (vAt n) s = Ret V s.
Proof. unfold vert_at. now intros ->. Qed.

Lemma lift_Ret {A} (m : MM A) st a st' :
  lift m st = Ret a st' ->
  exists s', m (mono st) = Ret a s' /\ st' = mkTState s' (triangles st).
Proof.
  unfold lift. destruct (m (mono st)); try discriminate.
  intros [= <- <-]. eauto.
Qed.

Lemma lift_vert_at v st V :
  vert_at v (mono st) = Ret V (mono st) -> lift (vert_at v) st = Ret V st.
Proof. unfold lift. intros ->. now destruct st. Qed.

Lemma lift_vert_at_Ret v st V st' :
  lift (vert_at v) st = Ret V st' ->
  st' = st /\ vert_at v (mono st) = Ret V (mono st).
Proof.
  intros H. apply lift_Ret in H as (s' & H & ->).
  pose proof (vert_at_Ret _ _ _ _ H) as [-> _]. split; [now destruct st|done].
Qed.

(** Inversion of a hypothesis [H : (x <- m ;; k) s = Ret _ _]. *)
Ltac inv_bind H :=
  let a := fresh "a" in
  let s := fresh "s" in
  let H1 := fresh H in
  apply bind_Ret in H as (a & s & H1 & H).

(** ** The orientation predicate *)

Lemma Qltb_lt a b : Qltb a b = true <-> (a < b)%Q.
Proof.
  unfold Qltb. rewrite negb_true_iff, <- not_true_iff_false, Qle_bool_iff.
  split; [apply Qnot_le_lt | apply Qlt_not_le].
Qed.

Lemma Qltb_ge a b : Qltb a b = false <-> (b <= a)%Q.
Proof. unfold Qltb. now rewrite negb_false_iff, Qle_bool_iff. Qed.

Lemma glm_max_comm a b : (glm_max a b == glm_max b a)%Q.
Proof.
  unfold glm_max.
  destruct (Qltb a b) eqn:E1, (Qltb b a) eqn:E2; try reflexivity.
  - apply Qltb_lt in E1, E2. lra.
  - apply Qltb_ge in E1, E2. lra.
Qed.

Lemma glm_max_nonneg a b : (0 <= a)%Q -> (0 <= b)%Q -> (0 <= glm_max a b)%Q.
Proof. unfold glm_max. now destruct (Qltb a b). Qed.

(** Swapping the last two points negates [CCW]. *)
Lemma CCW_swap p0 p1 p2 tol : CCW p0 p2 p1 tol = - CCW p0 p1 p2 tol.
Proof.
  unfold CCW.
  set (v1x := (vx p1 - vx p0)%Q). set (v1y := (vy p1 - vy p0)%Q).
  set (v2x := (vx p2 - vx p0)%Q). set (v2y := (vy p2 - vy p0)%Q).
  set (a1 := (v1x * v1x + v1y * v1y)%Q). set (a2 := (v2x * v2x + v2y * v2y)%Q).
  set (area := (v1x * v2y - v1y * v2x)%Q).
  set (area' := (v2x * v1y - v2y * v1x)%Q).
  assert (Ha : (area' == - area)%Q) by (unfold area, area'; ring).
  assert (Hb : (glm_max a2 a1 == glm_max a1 a2)%Q) by apply glm_max_comm.
  assert (Hn : (0 <= glm_max a1 a2 * tol * tol)%Q).
  { assert (0 <= glm_max a1 a2)%Q
      by (apply glm_max_nonneg; unfold a1, a2; nra).
    nra. }
  assert (Hq : Qle_bool (area' * area') (glm_max a2 a1 * tol * tol)
               = Qle_bool (area * area) (glm_max a1 a2 * tol * tol)).
  { rewrite Hb. rewrite Ha.
    assert ((- area * - area == area * area)%Q) as -> by ring. reflexivity. }
  rewrite Hq.
  destruct (Qle_bool (area * area) (glm_max a1 a2 * tol * tol)) eqn:E;
    [reflexivity|].
  assert (Hz : ~ (area == 0)%Q).
  { intros Hz. apply not_true_iff_false in E. apply E.
    apply Qle_bool_iff. rewrite Hz. nra. }
  unfold Qgtb.
  destruct (Qltb 0 area') eqn:E1, (Qltb 0 area) eqn:E2; try reflexivity.
  - apply Qltb_lt in E1, E2. lra.
  - apply Qltb_ge in E1, E2. exfalso. apply Hz. lra.
Qed.

(** ** The reflex-chain triangulator *)

Definition bump (t : Triangulator) : Triangulator :=
  mkTriangulator (reflex_chain_ t) (other_side_ t) (onRight_ t)
                 (triangles_output_ t + 1) (tri_precision_ t).

Lemma AddTriangle_Ret t v0 v1 v2 st t' st' :
  AddTriangle t v0 v1 v2 st = Ret t' st' ->
  exists V0 V1 V2,
    vert_at v0 (mono st) = Ret V0 (mono st) /\
    vert_at v1 (mono st) = Ret V1 (mono st) /\
    vert_at v2 (mono st) = Ret V2 (mono st) /\
    t' = bump t /\
    st' = mkTState (mono st)
            (triangles st
               ++ [if onRight_ t
                   then (mesh_idx V0, mesh_idx V1, mesh_idx V2)
                   else (mesh_idx V0, mesh_idx V2, mesh_idx V1)]).
Proof.
  unfold AddTriangle. intros H.
  destruct (onRight_ t) eqn:E; cbn [negb] in H;
    inv_bind H; apply lift_vert_at_Ret in H0 as [-> H0];
    inv_bind H; apply lift_vert_at_Ret in H1 as [-> H1];
    inv_bind H; apply lift_vert_at_Ret in H2 as [-> H2];
    inv_bind H; unfold modify, ret in *;
    injection H3 as <- <-; injection H as <- <-;
    eexists _, _, _; unfold bump; rewrite E; repeat split; eauto.
Qed.

Lemma AddTriangle_eq t v0 v1 v2 st V0 V1 V2 :
  vert_at v0 (mono st) = Ret V0 (mono st) ->
  vert_at v1 (mono st) = Ret V1 (mono st) ->
  vert_at v2 (mono st) = Ret V2 (mono st) ->
  AddTriangle t v0 v1 v2 st
  = Ret (bump t)
        (mkTState (mono st)
           (triangles st
              ++ [if onRight_ t
                  then (mesh_idx V0, mesh_idx V1, mesh_idx V2)
                  else (mesh_idx V0, mesh_idx V2, mesh_idx V1)])).
Proof.
  intros H0 H1 H2. unfold AddTriangle, bump.
  destruct (onRight_ t) eqn:E; cbn [negb];
    rewrite (bind_of_Ret _ _ _ _ _ (lift_vert_at _ _ _ H0));
    [rewrite (bind_of_Ret _ _ _ _ _ (lift_vert_at _ _ _ H1)),
             (bind_of_Ret _ _ _ _ _ (lift_vert_at _ _ _ H2))
    |rewrite (bind_of_Ret _ _ _ _ _ (lift_vert_at _ _ _ H2)),
             (bind_of_Ret _ _ _ _ _ (lift_vert_at _ _ _ H1))];
    reflexivity.
Qed.

(** A triangle of vertices of the ring that is not clockwise at tolerance
    [tol]. *)
Definition emitted_ccw (s : Monotones) (tol : Q) (tri : ivec3) : Prop :=
  exists a b c A B C,
    vert_at a s = Ret A s /\ vert_at b s = Ret B s /\ vert_at c s = Ret C s /\
    tri = (mesh_idx A, mesh_idx B, mesh_idx C) /\
    0 <= CCW (pos A) (pos B) (pos C) tol.

Lemma CCW_at_Ret t a b c st z st' :
  CCW_at t a b c st = Ret z st' ->
  st' = st /\ exists A B C,
    vert_at a (mono st) = Ret A (mono st) /\
    vert_at b (mono st) = Ret B (mono st) /\
    vert_at c (mono st) = Ret C (mono st) /\
    z = CCW (pos A) (pos B) (pos C) (tri_precision_ t).
Proof.
  unfold CCW_at. intros H.
  inv_bind H; apply lift_vert_at_Ret in H0 as [-> H0].
  inv_bind H; apply lift_vert_at_Ret in H1 as [-> H1].
  inv_bind H; apply lift_vert_at_Ret in H2 as [-> H2].
  injection H as <- <-. split; [done|]. eexists _, _, _. eauto.
Qed.

(** What the loop of the same-chain branch does: every iteration pops one
    vertex of the chain and emits one triangle, none of them clockwise. *)
Lemma same_chain_spec chain : forall t vi v_top st t' v' chain' st',
  same_chain t vi v_top chain st = Ret (t', v', chain') st' ->
  mono st' = mono st /\
  onRight_ t' = onRight_ t /\ tri_precision_ t' = tri_precision_ t /\
  other_side_ t' = other_side_ t /\
  exists new,
    triangles st' = triangles st ++ new /\
    triangles_output_ t' = triangles_output_ t + Z.of_nat (length new) /\
    (length new + length chain' = length chain)%nat /\
    Forall (emitted_ccw (mono st) (tri_precision_ t)) new.
Proof.
  induction chain as [|vj chain IH]; intros t vi v_top st t' v' chain' st' H;
    cbn [same_chain] in H.
  - injection H as <- <- <- <-. do 4 (split; [done|]).
    exists []. rewrite app_nil_r. repeat split; try done. cbn. lia.
  - inv_bind H. apply CCW_at_Ret in H0 as (-> & A & B & C & HA & HB & HC & ->).
    match type of H with (if ?c then _ else _) _ = _ => destruct c eqn:Ec end.
    + inv_bind H.
      pose proof (AddTriangle_Ret _ _ _ _ _ _ _ H0)
        as (V0 & V1 & V2 & H0' & H1' & H2' & -> & ->).
      rewrite HA in H0'; rewrite HB in H1'; rewrite HC in H2'.
      injection H0' as <-; injection H1' as <-; injection H2' as <-.
      apply IH in H as (Hm & Hr & Hp & Ho & new & Ht & Hn & Hl & Hf).
      cbn in Hm, Hr, Hp, Ho, Ht, Hn, Hf. do 4 (split; [done|]).
      eexists (_ :: new). split; [rewrite Ht, <- app_assoc; reflexivity|].
      split; [cbn [length]; lia|]. split; [cbn [length]; lia|].
      constructor; [|done].
      destruct (onRight_ t) eqn:Er.
      * exists vi, vj, v_top, A, B, C. repeat split; try done.
        apply orb_true_iff in Ec as [Ec|Ec]; apply Z.eqb_eq in Ec; lia.
      * exists vi, v_top, vj, A, C, B. repeat split; try done.
        rewrite CCW_swap.
        apply orb_true_iff in Ec as [Ec|Ec]; apply Z.eqb_eq in Ec; lia.
    + injection H as <- <- <- <-. do 4 (split; [done|]).
      exists []. rewrite app_nil_r. repeat split; try done. cbn. lia.
Qed.

(** What the loop of the different-chain branch does: it empties the chain
    with one triangle for every vertex in it. *)
Lemma empty_chain_spec chain : forall t vi v_last st t' st',
  empty_chain t vi v_last chain st = Ret t' st' ->
  mono st' = mono st /\
  onRight_ t' = onRight_ t /\ tri_precision_ t' = tri_precision_ t /\
  exists new,
    triangles st' = triangles st ++ new /\
    triangles_output_ t' = triangles_output_ t + Z.of_nat (length new) /\
    length new = length chain.
Proof.
  induction chain as [|vj chain IH]; intros t vi v_last st t' st' H;
    cbn [empty_chain] in H.
  - injection H as <- <-. do 3 (split; [done|]).
    exists []. rewrite app_nil_r. repeat split; try done. cbn. lia.
  - inv_bind H.
    pose proof (AddTriangle_Ret _ _ _ _ _ _ _ H0)
      as (V0 & V1 & V2 & _ & _ & _ & -> & ->).
    apply IH in H as (Hm & Hr & Hp & new & Ht & Hn & Hl).
    cbn in Hm, Hr, Hp, Ht, Hn. do 3 (split; [done|]).
    eexists (_ :: new). split; [rewrite Ht, <- app_assoc; reflexivity|].
    split; cbn [length]; lia.
Qed.

(** The ring of the unit square [(0,0), (1,0), (1,1), (0,1)], as the
    constructor builds it. *)
Definition pt (x y : Z) : vec2 := mkvec2 (inject_Z x) (inject_Z y).

Definition unit_square : list (list vec2) :=
  [[pt 0 0; pt 1 0; pt 1 1; pt 0 1]].

Definition state_of {A} (o : outcome Monotones A) : Monotones :=
  match o with
  | Ret _ s | Exc _ s => s
  | _ => empty_Monotones 0
  end.

Definition square_ring : Monotones :=
  Eval vm_compute in
    state_of (Monotones_init (index_polys 0 unit_square)
                             (empty_Monotones (1 # 10000))).

(** C1 (as amended).  [AddTriangle] emits the triple [(v0, v1, v2)] when the
    reflex chain is on the right and swaps [v1] and [v2] when it is NOT on
    the right; with that, no triangle emitted by the same-chain branch of
    [ProcessVert] is clockwise at the precision of the triangulator. *)
Theorem AddTriangle_winding :
  (forall t v0 v1 v2 st V0 V1 V2,
      vert_at v0 (mono st) = Ret V0 (mono st) ->
      vert_at v1 (mono st) = Ret V1 (mono st) ->
      vert_at v2 (mono st) = Ret V2 (mono st) ->
      AddTriangle t v0 v1 v2 st
      = Ret (bump t)
          (mkTState (mono st)
             (triangles st
                ++ [if onRight_ t
                    then (mesh_idx V0, mesh_idx V1, mesh_idx V2)
                    else (mesh_idx V0, mesh_idx V2, mesh_idx V1)]))) /\
  (forall t vi onRight st t' st',
      (2 <= length (reflex_chain_ t))%nat ->
      onRight_ t = onRight ->
      Triangulator_ProcessVert t vi onRight false st = Ret t' st' ->
      exists new,
        triangles st' = triangles st ++ new /\
        NumTriangles t' = NumTriangles t + Z.of_nat (length new) /\
        Forall (emitted_ccw (mono st) (tri_precision_ t)) new).
Proof.
  split; [apply AddTriangle_eq|].
  intros t vi onRight st t' st' Hlen Hr H.
  unfold Triangulator_ProcessVert in H.
  destruct (reflex_chain_ t) as [|v_top [|vj rest]] eqn:Ec;
    cbn [length] in Hlen; try lia.
  replace (Z.of_nat (length (v_top :: vj :: rest)) <? 2) with false in H
    by (symmetry; apply Z.ltb_ge; cbn [length]; lia).
  rewrite Hr, eqb_reflx in H. cbn [negb andb] in H.
  inv_bind H. destruct a as [[t1 v1] c1].
  apply same_chain_spec in H0 as (_ & _ & _ & _ & new & Ht & Hn & _ & Hf).
  injection H as <- <-. exists new. repeat split; done.
Qed.

Lemma AddTriangle_winding_witness :
  exists t',
    Triangulator_ProcessVert
      (mkTriangulator [vAt 1; vAt 0] (vAt 0) true 0 (1 # 10000))
      (vAt 2) true false (mkTState square_ring [])
    = Ret t' (mkTState square_ring [(2, 0, 1)]) /\
    exists new, [(2, 0, 1)] = [] ++ new /\
      NumTriangles t' = 0 + Z.of_nat (length new) /\
      Forall (emitted_ccw square_ring (1 # 10000)) new.
Proof.
  eexists. split; [vm_compute; reflexivity|].
  refine (proj2 AddTriangle_winding
            (mkTriangulator [vAt 1; vAt 0] (vAt 0) true 0 (1 # 10000))
            (vAt 2) true (mkTState square_ring []) _
            (mkTState square_ring [(2, 0, 1)]) _ _ _).
  - cbn. lia.
  - reflexivity.
  - vm_compute. reflexivity.
Defined.

(** C1 (as stated) fails: with the chain on the right ([onRight_] true) the
    triple is emitted as given, not swapped. *)
Lemma AddTriangle_counterexample :
  let t := mkTriangulator [vAt 1; vAt 0] (vAt 0) true 0 (1 # 10000) in
  onRight_ t = true /\
  AddTriangle t (vAt 2) (vAt 0) (vAt 1) (mkTState square_ring [])
  = Ret (bump t) (mkTState square_ring [(2, 0, 1)]) /\
  (2, 0, 1) <> ((2, 1, 0) : ivec3).
Proof.
  intros t. split; [reflexivity|].
  split; [vm_compute; reflexivity | discriminate].
Qed.

(** ** Relations kept by every step of a computation *)

(** [holds_after m s Q]: [Q] holds of the state in which [m], started in [s],
    completes or throws. *)
Definition holds_after {S A} (m : M S A) (s : S) (Q : S -> Prop) : Prop :=
  match m s with
  | Ret _ s' | Exc _ s' => Q s'
  | Undef | Diverge => True
  end.

Definition keeps {S A} (R : S -> S -> Prop) (m : M S A) : Prop :=
  forall s, holds_after m s (R s).

Section Keeps.
Context {S : Type} (R : S -> S -> Prop) `{!PreOrder R}.

Lemma keeps_ret {A} (a : A) : keeps R (ret a).
Proof. intros s. cbn. reflexivity. Qed.

Lemma keeps_bind {A B} (m : M S A) (k : A -> M S B) :
  keeps R m -> (forall a, keeps R (k a)) -> keeps R (bind m k).
Proof.
  intros Hm Hk s. specialize (Hm s). unfold holds_after, bind in *.
  destruct (m s) as [a s1|e s1| |]; try done.
  specialize (Hk a s1). unfold holds_after in Hk.
  destruct (k a s1); try done; etransitivity; eassumption.
Qed.

Lemma keeps_undef {A} : keeps R (@undef S A).
Proof. intros s. exact I. Qed.

Lemma keeps_diverge {A} : keeps R (@diverge S A).
Proof. intros s. exact I. Qed.

Lemma keeps_throw {A} e : keeps R (@throw S A e).
Proof. intros s. cbn. reflexivity. Qed.

Lemma keeps_gets {A} (f : S -> A) : keeps R (gets f).
Proof. intros s. cbn. reflexivity. Qed.

Lemma keeps_of_option {A} (o : option A) : keeps R (of_option o).
Proof. destruct o; [apply keeps_ret | apply keeps_undef]. Qed.

Lemma keeps_ASSERT c e : keeps R (ASSERT c e).
Proof. destruct c; [apply keeps_ret | apply keeps_throw]. Qed.

Lemma keeps_andM a b : keeps R a -> keeps R b -> keeps R (andM a b).
Proof.
  intros Ha Hb. apply keeps_bind; [done|]. intros []; [done|apply keeps_ret].
Qed.

Lemma keeps_orM a b : keeps R a -> keeps R b -> keeps R (orM a b).
Proof.
  intros Ha Hb. apply keeps_bind; [done|]. intros []; [apply keeps_ret|done].
Qed.

Lemma keeps_modify (f : S -> S) : (forall s, R s (f s)) -> keeps R (modify f).
Proof. intros H s. apply H. Qed.

Lemma keeps_Ret {A} (m : M S A) s a s' : keeps R m -> m s = Ret a s' -> R s s'.
Proof. intros H E. specialize (H s). unfold holds_after in H. now rewrite E in H. Qed.

Lemma keeps_Exc {A} (m : M S A) s e s' : keeps R m -> m s = Exc e s' -> R s s'.
Proof. intros H E. specialize (H s). unfold holds_after in H. now rewrite E in H. Qed.
End Keeps.

(** A relation on [Monotones] seen from the state of [Triangulate]. *)
Definition on_mono (R : Monotones -> Monotones -> Prop) (a b : TState) : Prop :=
  R (mono a) (mono b).

#[global] Instance on_mono_preorder R `{!PreOrder R} : PreOrder (on_mono R).
Proof.
  split.
  - intros a. unfold on_mono. reflexivity.
  - intros a b c. unfold on_mono. etransitivity; eassumption.
Qed.

Lemma keeps_lift {A} R (m : MM A) : keeps R m -> keeps (on_mono R) (lift m).
Proof.
  intros H s. specialize (H (mono s)). unfold holds_after, lift in *.
  destruct (m (mono s)); done.
Qed.

(** An invariant seen as a relation. *)
Definition inv_rel {S} (I : S -> Prop) (a b : S) : Prop := I a -> I b.

#[global] Instance inv_rel_preorder {S} (I : S -> Prop) : PreOrder (inv_rel I).
Proof. split; unfold inv_rel; [intros a|intros a b c]; tauto. Qed.

(** One step of a proof that a computation keeps a relation. *)
Ltac tc := try (solve [apply _]).

Ltac keeps_step :=
  lazymatch goal with
  | |- keeps _ (bind _ _) => apply keeps_bind; tc; [|intros ?]
  | |- keeps _ (ret _) => apply keeps_ret; tc
  | |- keeps _ undef => apply keeps_undef
  | |- keeps _ diverge => apply keeps_diverge
  | |- keeps _ (throw _) => apply keeps_throw; tc
  | |- keeps _ (gets _) => apply keeps_gets; tc
  | |- keeps _ (of_option _) => apply keeps_of_option; tc
  | |- keeps _ (ASSERT _ _) => apply keeps_ASSERT; tc
  | |- keeps _ (andM _ _) => apply keeps_andM; tc
  | |- keeps _ (orM _ _) => apply keeps_orM; tc
  | |- keeps _ (lift _) => apply keeps_lift
  | |- keeps _ (if ?b then _ else _) => destruct b
  | |- keeps _ (match ?x with _ => _ end) => destruct x
  end.

Create HintDb keeps.

Ltac keeps_auto := repeat (first [keeps_step | solve [eauto with keeps]]).

(** *** The ring seen by the triangulator

    [same_ring s s']: the precision, the positions, the mesh indices and the
    [left]/[right] links of all verts are the same, and [monotones_] has the
    same elements. *)
Definition core (v : VertAdj) : vec2 * Z * VertItr * VertItr :=
  (pos v, mesh_idx v, left v, right v).

Definition same_ring (s s' : Monotones) : Prop :=
  precision_ s' = precision_ s /\
  map core (verts s') = map core (verts s) /\
  (forall n, n ∈ monotones_ s' <-> n ∈ monotones_ s).

#[global] Instance same_ring_preorder : PreOrder same_ring.
Proof.
  split.
  - intros s. repeat split; done.
  - intros a b c (H1 & H2 & H3) (H4 & H5 & H6). repeat split.
    + congruence.
    + congruence.
    + intros H. apply H3, H6, H.
    + intros H. apply H6, H3, H.
Qed.

Lemma same_ring_lookup s s' n V' :
  same_ring s s' -> verts s' !! n = Some V' ->
  exists V, verts s !! n = Some V /\ core V = core V'.
Proof.
  intros (_ & H & _) E.
  assert (H0 : map core (verts s') !! n = Some (core V'))
    by (rewrite list_lookup_fmap, E; done).
  rewrite H, list_lookup_fmap in H0.
  destruct (verts s !! n) as [V|]; [|done]. cbn in H0.
  exists V. split; [reflexivity|congruence].
Qed.

Lemma map_core_insert (l : list VertAdj) n r f :
  l !! n = Some r -> core (f r) = core r ->
  map core (<[n := f r]> l) = map core l.
Proof.
  intros E H. change (map core) with (fmap (M:=list) core).
  rewrite list_fmap_insert, H.
  apply list_insert_id. rewrite list_lookup_fmap, E. done.
Qed.

Lemma keeps_vert_at v : keeps same_ring (vert_at v).
Proof.
  intros s. unfold holds_after, vert_at.
  destruct v; try done. destruct (verts s !! n); try done; reflexivity.
Qed.

Lemma keeps_edge_at e : keeps same_ring (edge_at e).
Proof.
  intros s. unfold holds_after, edge_at.
  destruct e; try done. destruct (edges s !! n); try done; reflexivity.
Qed.

Lemma keeps_vert_upd v f :
  (forall r, core (f r) = core r) -> keeps same_ring (vert_upd v f).
Proof.
  intros H s. unfold holds_after, vert_upd.
  destruct v; try done. destruct (verts s !! n) eqn:E; try done.
  repeat split; try done. cbn. now apply map_core_insert.
Qed.

Lemma keeps_edge_upd e f : keeps same_ring (edge_upd e f).
Proof.
  intros s. unfold holds_after, edge_upd.
  destruct e; try done. destruct (edges s !! n) eqn:E; try done.
Qed.

Lemma core_set_index i r : core (set_index i r) = core r.
Proof. done. Qed.
Lemma core_set_edgeL e r : core (set_edgeL e r) = core r.
Proof. done. Qed.
Lemma core_set_edgeR e r : core (set_edgeR e r) = core r.
Proof. done. Qed.
Lemma core_SetProcessed b r : core (SetProcessed b r) = core r.
Proof. unfold SetProcessed. now destruct (index r =? -2). Qed.

Lemma keeps_with_edges f : keeps same_ring (modify (with_edges f)).
Proof. apply keeps_modify; tc. intros s. repeat split; done. Qed.
Lemma keeps_with_active f : keeps same_ring (modify (with_active f)).
Proof. apply keeps_modify; tc. intros s. repeat split; done. Qed.
Lemma keeps_with_inactive f : keeps same_ring (modify (with_inactive f)).
Proof. apply keeps_modify; tc. intros s. repeat split; done. Qed.

Lemma elem_of_insert_before q n l x :
  (match q with Some m => m ∈ l | None => True end) ->
  x ∈ insert_before q n l <-> x = n \/ x ∈ l.
Proof.
  destruct q as [m|]; cbn.
  - induction l as [|a l IH]; intros Hm; [by apply elem_of_nil in Hm|].
    cbn. destruct (decide (a = m)) as [->|Hne].
    + rewrite !elem_of_cons. tauto.
    + apply elem_of_cons in Hm as [->|Hm]; [done|].
      rewrite !elem_of_cons, (IH Hm). tauto.
  - intros _. destruct l; cbn; rewrite ?elem_of_app, ?elem_of_cons,
      ?elem_of_app, ?list_elem_of_singleton, ?elem_of_nil; tauto.
Qed.

Lemma elem_of_list_remove n l x : x ∈ list_remove n l <-> x ∈ l /\ x <> n.
Proof. unfold list_remove. rewrite list_elem_of_filter. tauto. Qed.

Lemma list_mem_true n l : list_mem n l = true <-> n ∈ l.
Proof. unfold list_mem. apply bool_decide_eq_true. Qed.

Lemma keeps_vsplice p v : keeps same_ring (vsplice p v).
Proof.
  intros s. unfold holds_after, vsplice, vposition, bind, gets, ret, undef,
    modify.
  destruct p as [m| |]; try done.
  - destruct (list_mem m (monotones_ s)) eqn:Em; try done.
    destruct v as [n| |]; try done.
    destruct (list_mem n (monotones_ s)) eqn:En; try done. cbn [negb].
    destruct (decide (Some m = Some n)) as [Heq|Hne]; [reflexivity|].
    apply list_mem_true in Em, En.
    repeat split; try done; cbn.
    + intros H. apply elem_of_insert_before in H.
      * destruct H as [->|H]; [done|]. now apply elem_of_list_remove in H.
      * apply elem_of_list_remove. split; [done|congruence].
    + intros H. apply elem_of_insert_before.
      * apply elem_of_list_remove. split; [done|congruence].
      * destruct (decide (n0 = n)); [now left|right].
        now apply elem_of_list_remove.
  - destruct v as [n| |]; try done.
    destruct (list_mem n (monotones_ s)) eqn:En; try done. cbn [negb].
    destruct (decide (None = Some n)) as [Heq|Hne]; [done|].
    apply list_mem_true in En.
    repeat split; try done; cbn.
    + intros H. apply elem_of_insert_before in H; [|done].
      destruct H as [->|H]; [done|]. now apply elem_of_list_remove in H.
    + intros H. apply elem_of_insert_before; [done|].
      destruct (decide (n0 = n)); [now left|right].
      now apply elem_of_list_remove.
Qed.

#[global] Hint Resolve keeps_vert_at keeps_edge_at keeps_edge_upd
  keeps_with_edges keeps_with_active keeps_with_inactive keeps_vsplice
  core_set_index core_set_edgeL core_set_edgeR core_SetProcessed : keeps.
#[global] Hint Extern 1 (keeps same_ring (vert_upd _ _)) =>
  apply keeps_vert_upd; intros ?; eauto with keeps : keeps.

(** *** Everything but [Link] and [insert] keeps the ring *)

Lemma keeps_vbegin : keeps same_ring vbegin.
Proof. unfold vbegin. keeps_auto. Qed.
Lemma keeps_vnext v : keeps same_ring (vnext v).
Proof. unfold vnext. keeps_auto. Qed.
Lemma keeps_vprev v : keeps same_ring (vprev v).
Proof. unfold vprev. keeps_auto. Qed.
Lemma keeps_ebegin : keeps same_ring ebegin.
Proof. unfold ebegin. keeps_auto. Qed.
Lemma keeps_enext e : keeps same_ring (enext e).
Proof. unfold enext. keeps_auto. Qed.
Lemma keeps_eprev e : keeps same_ring (eprev e).
Proof. unfold eprev. keeps_auto. Qed.
Lemma keeps_eposition e : keeps same_ring (eposition e).
Proof. unfold eposition. keeps_auto. Qed.
#[global] Hint Resolve keeps_vbegin keeps_vnext keeps_vprev keeps_ebegin
  keeps_enext keeps_eprev keeps_eposition : keeps.

Lemma keeps_einsert p r : keeps same_ring (einsert p r).
Proof. unfold einsert. keeps_auto. Qed.
Lemma keeps_retire_edge e : keeps same_ring (retire_edge e).
Proof. unfold retire_edge. keeps_auto. Qed.
Lemma keeps_restore_edge p e : keeps same_ring (restore_edge p e).
Proof. unfold restore_edge. keeps_auto. Qed.
Lemma keeps_UpdateEdge e v : keeps same_ring (UpdateEdge e v).
Proof. unfold UpdateEdge. keeps_auto. Qed.
Lemma keeps_LinkEdges a b : keeps same_ring (LinkEdges a b).
Proof. unfold LinkEdges. keeps_auto. Qed.
Lemma keeps_IsStart v : keeps same_ring (IsStart v).
Proof. unfold IsStart. keeps_auto. Qed.
Lemma keeps_IsPastItr a b : keeps same_ring (IsPastItr a b).
Proof. unfold IsPastItr. keeps_auto. Qed.
Lemma keeps_North e : keeps same_ring (North e).
Proof. unfold North. keeps_auto. Qed.
#[global] Hint Resolve keeps_einsert keeps_retire_edge keeps_restore_edge
  keeps_UpdateEdge keeps_LinkEdges keeps_IsStart keeps_IsPastItr keeps_North
  : keeps.

Lemma keeps_EastOf e v p : keeps same_ring (EastOf e v p).
Proof. unfold EastOf. keeps_auto. Qed.
#[global] Hint Resolve keeps_EastOf : keeps.

Lemma keeps_skip_backward v e : keeps same_ring (skip_backward v e).
Proof. unfold skip_backward. keeps_auto. Qed.
Lemma keeps_skip_forward v e : keeps same_ring (skip_forward v e).
Proof. unfold skip_forward. keeps_auto. Qed.
#[global] Hint Resolve keeps_skip_backward keeps_skip_forward : keeps.

Lemma keeps_ProcessVert v : keeps same_ring (ProcessVert v).
Proof. unfold ProcessVert. keeps_auto. Qed.
Lemma keeps_RemovePair e : keeps same_ring (RemovePair e).
Proof. unfold RemovePair. keeps_auto. Qed.
Lemma keeps_first_east v l : keeps same_ring (first_east v l).
Proof. induction l; cbn [first_east]; keeps_auto. Qed.
#[global] Hint Resolve keeps_ProcessVert keeps_RemovePair keeps_first_east
  : keeps.

Lemma keeps_PlaceStart_slot v e a b c :
  keeps same_ring (PlaceStart_slot v e a b c).
Proof. unfold PlaceStart_slot. keeps_auto. Qed.
#[global] Hint Resolve keeps_PlaceStart_slot : keeps.

Lemma keeps_PlaceStart v : keeps same_ring (PlaceStart v).
Proof. unfold PlaceStart. keeps_auto. Qed.
#[global] Hint Resolve keeps_PlaceStart : keeps.

Lemma keeps_cmp a b : keeps same_ring (cmp a b).
Proof. unfold cmp. keeps_auto. Qed.
#[global] Hint Resolve keeps_cmp : keeps.

Lemma keeps_pq_best l : forall b bv i, keeps same_ring (pq_best b bv i l).
Proof. induction l; intros; cbn [pq_best]; keeps_auto. Qed.
#[global] Hint Resolve keeps_pq_best : keeps.

Lemma keeps_pq_top_index q : keeps same_ring (pq_top_index q).
Proof. unfold pq_top_index. keeps_auto. Qed.
#[global] Hint Resolve keeps_pq_top_index : keeps.

Lemma keeps_pq_top q : keeps same_ring (pq_top q).
Proof. unfold pq_top. keeps_auto. Qed.
Lemma keeps_pq_pop q : keeps same_ring (pq_pop q).
Proof. unfold pq_pop. keeps_auto. Qed.
Lemma keeps_sort_insert x l : keeps same_ring (sort_insert x l).
Proof. induction l; cbn [sort_insert]; keeps_auto. Qed.
#[global] Hint Resolve keeps_pq_top keeps_pq_pop keeps_sort_insert : keeps.

Lemma keeps_std_sort l : keeps same_ring (std_sort l).
Proof. induction l; cbn [std_sort]; keeps_auto. Qed.
Lemma keeps_collect_starts l : keeps same_ring (collect_starts l).
Proof. induction l; cbn [collect_starts]; keeps_auto. Qed.
Lemma keeps_OverlapAssert cfg c : keeps same_ring (OverlapAssert cfg c).
Proof. unfold OverlapAssert. keeps_auto. Qed.
#[global] Hint Resolve keeps_std_sort keeps_collect_starts keeps_OverlapAssert
  : keeps.

Lemma keeps_OVERLAP_ASSERT {A} R `{!PreOrder R} cfg c (k : MM (bool + A)) :
  keeps R (OverlapAssert cfg c) -> keeps R k ->
  keeps R (OVERLAP_ASSERT cfg c k).
Proof. intros Ho Hk. unfold OVERLAP_ASSERT. keeps_auto; done. Qed.

Lemma keeps_choose_vert sv : keeps same_ring (choose_vert sv).
Proof. unfold choose_vert. keeps_auto. Qed.
Lemma keeps_commit_vert v ty sv : keeps same_ring (commit_vert v ty sv).
Proof. unfold commit_vert. keeps_auto. Qed.
Lemma keeps_not_past_skipped v sv : keeps same_ring (not_past_skipped v sv).
Proof. unfold not_past_skipped. keeps_auto. Qed.
Lemma keeps_classify v : keeps same_ring (classify v).
Proof. unfold classify. keeps_auto. Qed.
Lemma keeps_skip_vert cfg v sv : keeps same_ring (skip_vert cfg v sv).
Proof.
  unfold skip_vert. keeps_auto.
  repeat (apply keeps_OVERLAP_ASSERT; tc; [eauto with keeps|]).
  keeps_auto.
Qed.
#[global] Hint Resolve keeps_choose_vert keeps_commit_vert
  keeps_not_past_skipped keeps_classify keeps_skip_vert : keeps.

Lemma keeps_SweepForward_step cfg sv :
  keeps same_ring (SweepForward_step cfg sv).
Proof.
  unfold SweepForward_step. keeps_auto.
  apply keeps_OVERLAP_ASSERT; tc; [eauto with keeps|]. keeps_auto.
Qed.
#[global] Hint Resolve keeps_SweepForward_step : keeps.

Lemma keeps_SweepForward_loop fuel cfg :
  forall sv, keeps same_ring (SweepForward_loop fuel cfg sv).
Proof. induction fuel; intros; cbn [SweepForward_loop]; keeps_auto. Qed.
#[global] Hint Resolve keeps_SweepForward_loop : keeps.

(** The forward sweep leaves the polygons as they are: only the order of
    [monotones_], the [index] and the edge references of the verts change. *)
Lemma keeps_SweepForward fuel cfg : keeps same_ring (SweepForward fuel cfg).
Proof. unfold SweepForward, SweepForward_init. keeps_auto. Qed.

Lemma keeps_SetProcessed_all b l : keeps same_ring (SetProcessed_all b l).
Proof. induction l; cbn [SetProcessed_all]; keeps_auto. Qed.
Lemma keeps_assign_index l : forall i, keeps same_ring (assign_index i l).
Proof. induction l; intros; cbn [assign_index]; keeps_auto. Qed.
Lemma keeps_find_unprocessed l : keeps same_ring (find_unprocessed l).
Proof. induction l; cbn [find_unprocessed]; keeps_auto. Qed.
Lemma keeps_Check_verts l : keeps same_ring (Check_verts l).
Proof. induction l; cbn [Check_verts]; keeps_auto. Qed.
Lemma keeps_Check_walk fuel start :
  forall v, keeps same_ring (Check_walk fuel start v).
Proof. induction fuel; intros; cbn [Check_walk]; keeps_auto. Qed.
#[global] Hint Resolve keeps_SweepForward keeps_SetProcessed_all
  keeps_assign_index keeps_find_unprocessed keeps_Check_verts keeps_Check_walk
  : keeps.

Lemma keeps_Check_monotones fuel :
  forall start, keeps same_ring (Check_monotones fuel start).
Proof. induction fuel; intros; cbn [Check_monotones]; keeps_auto. Qed.
#[global] Hint Resolve keeps_Check_monotones : keeps.

Lemma keeps_Check fuel cfg : keeps same_ring (Check fuel cfg).
Proof. unfold Check. keeps_auto. Qed.
#[global] Hint Resolve keeps_Check : keeps.

(** *** The triangulator only reads the ring and marks verts *)

Abbreviation same_ringT := (on_mono same_ring).

Lemma keeps_modify_triangles f :
  keeps same_ringT (modify (fun s => mkTState (mono s) (f s))).
Proof. apply keeps_modify; tc. intros s. unfold on_mono. reflexivity. Qed.
#[global] Hint Resolve keeps_modify_triangles : keeps.

Lemma keeps_AddTriangle t a b c : keeps same_ringT (AddTriangle t a b c).
Proof. unfold AddTriangle. keeps_auto. Qed.
Lemma keeps_CCW_at t a b c : keeps same_ringT (CCW_at t a b c).
Proof. unfold CCW_at. keeps_auto. Qed.
#[global] Hint Resolve keeps_AddTriangle keeps_CCW_at : keeps.

Lemma keeps_same_chain l : forall t vi v, keeps same_ringT (same_chain t vi v l).
Proof. induction l; intros; cbn [same_chain]; keeps_auto. Qed.
Lemma keeps_empty_chain l : forall t vi v, keeps same_ringT (empty_chain t vi v l).
Proof. induction l; intros; cbn [empty_chain]; keeps_auto. Qed.
#[global] Hint Resolve keeps_same_chain keeps_empty_chain : keeps.

Lemma keeps_Triangulator_ProcessVert t vi a b :
  keeps same_ringT (Triangulator_ProcessVert t vi a b).
Proof. unfold Triangulator_ProcessVert. keeps_auto. Qed.
#[global] Hint Resolve keeps_Triangulator_ProcessVert : keeps.

Lemma keeps_walk_monotone fuel :
  forall t vR vL, keeps same_ringT (walk_monotone fuel t vR vL).
Proof. induction fuel; intros; cbn [walk_monotone]; keeps_auto. Qed.
#[global] Hint Resolve keeps_walk_monotone : keeps.

Lemma keeps_triangulate_monotone fuel start :
  keeps same_ringT (triangulate_monotone fuel start).
Proof. unfold triangulate_monotone. keeps_auto. Qed.
#[global] Hint Resolve keeps_triangulate_monotone : keeps.

Lemma keeps_triangulate_loop fuel :
  forall start left counts,
    keeps same_ringT (triangulate_loop fuel start left counts).
Proof. induction fuel; intros; cbn [triangulate_loop]; keeps_auto. Qed.
#[global] Hint Resolve keeps_triangulate_loop : keeps.

Lemma keeps_Triangulate fuel : keeps same_ringT (Triangulate fuel).
Proof. unfold Triangulate. keeps_auto. Qed.

(** ** The polygon loops *)

(** [v->left] and [v->right] of the vert in slot [n]. *)
Definition left_of (s : Monotones) (n : nat) : VertItr :=
  match verts s !! n with Some v => left v | None => vNone end.
Definition right_of (s : Monotones) (n : nat) : VertItr :=
  match verts s !! n with Some v => right v | None => vNone end.

(** [ring_linked P L R]: on the verts [P], [L] and [R] designate verts of [P] and
    [v.left.right == v] and [v.right.left == v]. *)
Definition ring_linked (P : nat -> Prop) (L R : nat -> VertItr) : Prop :=
  forall n, P n ->
    exists l r, L n = vAt l /\ R n = vAt r /\ P l /\ P r /\
                R l = vAt n /\ L r = vAt n.

(** The invariant of the vertex ring. *)
Definition links_inv (s : Monotones) : Prop :=
  ring_linked (fun n => n ∈ monotones_ s) (left_of s) (right_of s).

Lemma ring_linked_ext (P P' : nat -> Prop) L L' R R' :
  (forall n, P' n <-> P n) -> (forall n, L' n = L n) -> (forall n, R' n = R n) ->
  ring_linked P L R -> ring_linked P' L' R'.
Proof.
  intros HP HL HR H n Hn. apply HP in Hn.
  destruct (H n Hn) as (l & r & H1 & H2 & H3 & H4 & H5 & H6).
  exists l, r. rewrite !HL, !HR, !HP. done.
Qed.

Lemma same_ring_left_of s s' n : same_ring s s' -> left_of s' n = left_of s n.
Proof.
  intros (_ & H & _). unfold left_of.
  assert (E : map core (verts s') !! n = map core (verts s) !! n) by now rewrite H.
  rewrite !list_lookup_fmap in E.
  destruct (verts s' !! n) as [v'|], (verts s !! n) as [v|]; cbn in E;
    try discriminate; [|done].
  injection E; intros; congruence.
Qed.

Lemma same_ring_right_of s s' n : same_ring s s' -> right_of s' n = right_of s n.
Proof.
  intros (_ & H & _). unfold right_of.
  assert (E : map core (verts s') !! n = map core (verts s) !! n) by now rewrite H.
  rewrite !list_lookup_fmap in E.
  destruct (verts s' !! n) as [v'|], (verts s !! n) as [v|]; cbn in E;
    try discriminate; [|done].
  injection E; intros; congruence.
Qed.

Lemma same_ring_links_inv s s' : same_ring s s' -> links_inv s -> links_inv s'.
Proof.
  intros H. apply ring_linked_ext.
  - apply H.
  - intros n. now apply same_ring_left_of.
  - intros n. now apply same_ring_right_of.
Qed.

(** The relation kept by the backward sweep: the precision stays, and the
    invariant of the ring is preserved. *)
Definition ring_ok (s s' : Monotones) : Prop :=
  precision_ s' = precision_ s /\ (links_inv s -> links_inv s').

#[global] Instance ring_ok_preorder : PreOrder ring_ok.
Proof.
  split.
  - intros s. split; done.
  - intros a b c [H1 H2] [H3 H4]. split; [congruence|tauto].
Qed.

Lemma same_ring_ring_ok s s' : same_ring s s' -> ring_ok s s'.
Proof. intros H. split; [apply H|now apply same_ring_links_inv]. Qed.

Lemma keeps_weaken {S A} (R R' : S -> S -> Prop) (m : M S A) :
  (forall s s', R s s' -> R' s s') -> keeps R m -> keeps R' m.
Proof.
  intros HR H s. specialize (H s). unfold holds_after in *.
  destruct (m s); auto.
Qed.

Lemma keeps_ring_ok {A} (m : MM A) : keeps same_ring m -> keeps ring_ok m.
Proof. apply keeps_weaken, same_ring_ring_ok. Qed.

(** *** Function update and the effect of the primitives on the links *)

Definition upd (f : nat -> VertItr) (a : nat) (b : VertItr) : nat -> VertItr :=
  fun n => if decide (n = a) then b else f n.

Lemma vert_upd_Ret v f s u s' :
  vert_upd v f s = Ret u s' ->
  exists n r, v = vAt n /\ verts s !! n = Some r /\
              s' = with_verts (fun l => <[n := f r]> l) s.
Proof.
  unfold vert_upd. destruct v as [n| |]; try done.
  destruct (verts s !! n) as [r|] eqn:E; try done.
  intros [= <- <-]. eauto.
Qed.

Lemma left_of_insert s n r f m :
  verts s !! n = Some r ->
  left_of (with_verts (fun l => <[n := f r]> l) s) m
  = if decide (m = n) then left (f r) else left_of s m.
Proof.
  intros E. unfold left_of. cbn.
  destruct (decide (m = n)) as [->|Hne].
  - rewrite list_lookup_insert_eq; [done|]. eapply lookup_lt_Some, E.
  - rewrite list_lookup_insert_ne; [done|congruence].
Qed.

Lemma right_of_insert s n r f m :
  verts s !! n = Some r ->
  right_of (with_verts (fun l => <[n := f r]> l) s) m
  = if decide (m = n) then right (f r) else right_of s m.
Proof.
  intros E. unfold right_of. cbn.
  destruct (decide (m = n)) as [->|Hne].
  - rewrite list_lookup_insert_eq; [done|]. eapply lookup_lt_Some, E.
  - rewrite list_lookup_insert_ne; [done|congruence].
Qed.

(** [Link(l, r)] is [l->right = r; r->left = l]. *)
Lemma Link_Ret l r s u s' :
  Link l r s = Ret u s' ->
  exists a b, l = vAt a /\ r = vAt b /\
    (a < length (verts s))%nat /\ (b < length (verts s))%nat /\
    length (verts s') = length (verts s) /\
    monotones_ s' = monotones_ s /\ precision_ s' = precision_ s /\
    (forall n, left_of s' n = upd (left_of s) b (vAt a) n) /\
    (forall n, right_of s' n = upd (right_of s) a (vAt b) n).
Proof.
  unfold Link. intros H. inv_bind H. rename a into u0.
  apply vert_upd_Ret in H0 as (a & ra & -> & Ea & ->).
  apply vert_upd_Ret in H as (b & rb & -> & Eb & ->).
  exists a, b. cbn in Eb |- *.
  assert (Ha : (a < length (verts s))%nat) by (eapply lookup_lt_Some, Ea).
  assert (Hb : (b < length (verts s))%nat).
  { apply lookup_lt_Some in Eb. now rewrite length_insert in Eb. }
  repeat split; try done.
  - now rewrite !length_insert.
  - intros n. unfold upd, left_of. cbn.
    destruct (decide (n = b)) as [->|Hnb].
    + rewrite list_lookup_insert_eq; [done|]. now rewrite length_insert.
    + rewrite list_lookup_insert_ne by congruence.
      destruct (decide (n = a)) as [->|Hna].
      * rewrite list_lookup_insert_eq by done. now rewrite Ea.
      * now rewrite list_lookup_insert_ne by congruence.
  - intros n. unfold upd, right_of. cbn.
    destruct (decide (n = b)) as [->|Hnb].
    + rewrite list_lookup_insert_eq by now rewrite length_insert.
      cbn.
      destruct (decide (b = a)) as [->|Hba].
      * rewrite list_lookup_insert_eq in Eb by done. now injection Eb as <-.
      * rewrite list_lookup_insert_ne in Eb by congruence.
        now rewrite Eb.
    + rewrite list_lookup_insert_ne by congruence.
      destruct (decide (n = a)) as [->|Hna].
      * now rewrite list_lookup_insert_eq by done.
      * now rewrite list_lookup_insert_ne by congruence.
Qed.

(** [monotones_.insert(p, r)] adds the slot [length (verts s)]. *)
Lemma vinsert_Ret p r s v s' :
  vinsert p r s = Ret v s' ->
  let n := length (verts s) in
  v = vAt n /\ verts s' = verts s ++ [r] /\
  precision_ s' = precision_ s /\
  (forall m, m ∈ monotones_ s' <-> m = n \/ m ∈ monotones_ s) /\
  (forall m, left_of s' m = upd (left_of s) n (left r) m) /\
  (forall m, right_of s' m = upd (right_of s) n (right r) m).
Proof.
  unfold vinsert. intros H. inv_bind H.
  assert (Hq : s0 = s /\ match a with Some m => m ∈ monotones_ s | None => True end).
  { unfold vposition in H0. destruct p as [m| |]; try done.
    - inv_bind H0. injection H1 as <- <-.
      destruct (list_mem m (monotones_ s)) eqn:E; try done.
      injection H0 as <- <-. split; [done|]. now apply list_mem_true.
    - injection H0 as <- <-. done. }
  destruct Hq as [-> Hq].
  inv_bind H. injection H1 as <- <-.
  inv_bind H. injection H1 as <- <-.
  inv_bind H. injection H1 as <- <-.
  injection H as <- <-. cbn.
  repeat split; try done.
  - intros H. now apply elem_of_insert_before in H.
  - intros H. now apply elem_of_insert_before.
  - intros m. unfold upd, left_of. cbn.
    destruct (decide (m = length (verts s))) as [->|Hne].
    + rewrite lookup_app_r by lia. now rewrite Nat.sub_diag.
    + destruct (decide (m < length (verts s))%nat).
      * now rewrite lookup_app_l by lia.
      * rewrite !lookup_ge_None_2; [done|lia|rewrite length_app; cbn; lia].
  - intros m. unfold upd, right_of. cbn.
    destruct (decide (m = length (verts s))) as [->|Hne].
    + rewrite lookup_app_r by lia. now rewrite Nat.sub_diag.
    + destruct (decide (m < length (verts s))%nat).
      * now rewrite lookup_app_l by lia.
      * rewrite !lookup_ge_None_2; [done|lia|rewrite length_app; cbn; lia].
Qed.

(** An update that keeps the ring does not show in the links. *)
Lemma keeps_Ret_links {A} (m : MM A) s a s' :
  keeps same_ring m -> m s = Ret a s' ->
  precision_ s' = precision_ s /\
  length (verts s') = length (verts s) /\
  (forall n, n ∈ monotones_ s' <-> n ∈ monotones_ s) /\
  (forall n, left_of s' n = left_of s n) /\
  (forall n, right_of s' n = right_of s n).
Proof.
  intros Hk E. pose proof (keeps_Ret _ _ _ _ _ Hk E) as Hs.
  repeat split; try apply Hs.
  - destruct Hs as (_ & H & _).
    apply (f_equal length) in H. now rewrite !length_map in H.
  - intros n. now apply same_ring_left_of.
  - intros n. now apply same_ring_right_of.
Qed.

(** *** [SplitVerts] preserves the invariant *)

Definition idx_of (v : VertItr) : nat :=
  match v with vAt k => k | _ => O end.

(** The six assignments of [SplitVerts] to the links, on a ring that
    satisfies the invariant: [n1] and [n2] are the new slots (the copies of
    north and of south), [nl] is [north->left] and [sr] is [south->right] at
    the time it is read. *)
Lemma split_ring_linked (P : nat -> Prop) (L0 R0 : nat -> VertItr) a b nl n1 n2 sr :
  ring_linked P L0 R0 -> P a -> P b -> ~ P n1 -> ~ P n2 -> n1 <> n2 ->
  L0 a = vAt nl ->
  let L1 := upd L0 n1 (L0 a) in
  let R1 := upd R0 n1 (R0 a) in
  let L2 := upd L1 n1 (vAt nl) in
  let R2 := upd R1 nl (vAt n1) in
  let L3 := upd L2 n2 (L2 b) in
  let R3 := upd R2 n2 (R2 b) in
  R3 b = vAt sr ->
  let L4 := upd L3 sr (vAt n2) in
  let R4 := upd R3 n2 (vAt sr) in
  let L5 := upd L4 a (vAt b) in
  let R5 := upd R4 b (vAt a) in
  let L6 := upd L5 n2 (vAt n1) in
  let R6 := upd R5 n1 (vAt n2) in
  ring_linked (fun n => n = n2 \/ n = n1 \/ P n) L6 R6.
Proof.
  intros Hlink Pa Pb Pn1 Pn2 Hn12 HLa L1 R1 L2 R2 L3 R3 Hsr L4 R4 L5 R5 L6 R6.
  destruct (Hlink a Pa) as (la & ra & Ha1 & Ha2 & Ha3 & Ha4 & Ha5 & Ha6).
  destruct (Hlink b Pb) as (lb & rb & Hb1 & Hb2 & Hb3 & Hb4 & Hb5 & Hb6).
  assert (la = nl) as -> by congruence.
  assert (Hfresh : forall x, P x -> x <> n1 /\ x <> n2)
    by (intros x Px; split; intros ->; tauto).
  pose proof (Hfresh a Pa) as [? ?]. pose proof (Hfresh b Pb) as [? ?].
  pose proof (Hfresh nl Ha3) as [? ?]. pose proof (Hfresh ra Ha4) as [? ?].
  pose proof (Hfresh lb Hb3) as [? ?]. pose proof (Hfresh rb Hb4) as [? ?].
  assert (Esr : sr = if decide (b = nl) then n1 else rb).
  { subst R3 R2 R1. unfold upd in Hsr.
    repeat (case_decide; try congruence). }
  clear Hsr.
  assert (Hcase : forall n, n = n2 \/ n = n1 \/ P n ->
    exists l r, L6 n = vAt l /\ R6 n = vAt r).
  { intros n [->|[->|Hn]].
    - exists n1, sr. subst L6 R6 R5 R4.
      unfold upd. repeat (case_decide; try congruence); split; congruence.
    - exists (if decide (sr = n1) then n2 else nl), n2.
      subst L6 L5 L4 L3 L2 L1 R6. unfold upd.
      repeat (case_decide; try congruence); split; congruence.
    - destruct (Hlink n Hn) as (ln & rn & Hn1 & Hn2 & _).
      destruct (Hfresh n Hn).
      exists (if decide (n = a) then b else if decide (n = sr) then n2 else ln),
             (if decide (n = b) then a else if decide (n = nl) then n1 else rn).
      subst L6 L5 L4 L3 L2 L1 R6 R5 R4 R3 R2 R1. unfold upd.
      repeat (case_decide; try congruence); split; congruence. }
  intros n Hn. destruct (Hcase n Hn) as (l & r & El & Er). clear Hcase.
  exists l, r. split; [done|]. split; [done|].
  subst L6 L5 L4 L3 L2 L1 R6 R5 R4 R3 R2 R1.
  destruct Hn as [->|[->|Hn]].
  - unfold upd in El, Er |- *.
    repeat (case_decide; try congruence);
      repeat match goal with H : vAt _ = vAt _ |- _ => injection H as <- end;
      repeat split; repeat (case_decide; try congruence);
      try solve [subst; auto].
  - unfold upd in El, Er |- *.
    repeat (case_decide; try congruence);
      repeat match goal with H : vAt _ = vAt _ |- _ => injection H as <- end;
      repeat split; repeat (case_decide; try congruence);
      try solve [subst; auto].
  - destruct (Hlink n Hn) as (ln & rn & Hn1 & Hn2 & Hn3 & Hn4 & Hn5 & Hn6).
    destruct (Hfresh n Hn). pose proof (Hfresh ln Hn3) as [? ?].
    pose proof (Hfresh rn Hn4) as [? ?].
    unfold upd in El, Er |- *.
    repeat (case_decide; try congruence);
      repeat match goal with H : vAt _ = vAt _ |- _ => injection H as <- end;
      repeat split; repeat (case_decide; try congruence);
      try solve [subst; auto | congruence
                 | replace l with ln by congruence; auto
                 | replace r with rn by congruence; auto].
Qed.

(** *** Which exceptions a computation can throw *)

Definition throws_only {S A} (P : exn -> Prop) (m : M S A) : Prop :=
  forall s e s', m s = Exc e s' -> P e.

Abbreviation no_throw := (throws_only (fun _ => False)).

Lemma throws_ret {S A} P (a : A) : throws_only P (@ret S A a).
Proof. intros s e s' H. discriminate. Qed.
Lemma throws_bind {S A B} P (m : M S A) (k : A -> M S B) :
  throws_only P m -> (forall a, throws_only P (k a)) -> throws_only P (bind m k).
Proof.
  intros Hm Hk s e s' H. apply bind_Exc in H as [H|(a & s1 & _ & H)].
  - eapply Hm, H.
  - eapply Hk, H.
Qed.
Lemma throws_undef {S A} P : throws_only P (@undef S A).
Proof. intros s e s' H. discriminate. Qed.
Lemma throws_diverge {S A} P : throws_only P (@diverge S A).
Proof. intros s e s' H. discriminate. Qed.
Lemma throws_gets {S A} P (f : S -> A) : throws_only P (gets f).
Proof. intros s e s' H. discriminate. Qed.
Lemma throws_modify {S} P (f : S -> S) : throws_only P (modify f).
Proof. intros s e s' H. discriminate. Qed.
Lemma throws_of_option {S A} P (o : option A) : throws_only P (@of_option S A o).
Proof. destruct o; [apply throws_ret|apply throws_undef]. Qed.
Lemma throws_throw {S A} (P : exn -> Prop) e : P e -> throws_only P (@throw S A e).
Proof. intros He s e' s' [= <- _]. exact He. Qed.
Lemma throws_ASSERT {S} (P : exn -> Prop) c e : P e -> throws_only P (@ASSERT S c e).
Proof. intros He. destruct c; [apply throws_ret|now apply throws_throw]. Qed.
Lemma throws_andM {S} P (a b : M S bool) :
  throws_only P a -> throws_only P b -> throws_only P (andM a b).
Proof.
  intros Ha Hb. apply throws_bind; [done|]. intros []; [done|apply throws_ret].
Qed.
Lemma throws_orM {S} P (a b : M S bool) :
  throws_only P a -> throws_only P b -> throws_only P (orM a b).
Proof.
  intros Ha Hb. apply throws_bind; [done|]. intros []; [apply throws_ret|done].
Qed.
Lemma throws_vert_at P v : throws_only P (vert_at v).
Proof.
  intros s e s'. unfold vert_at. destruct v; try done.
  destruct (verts s !! n); done.
Qed.
Lemma throws_vert_upd P v f : throws_only P (vert_upd v f).
Proof.
  intros s e s'. unfold vert_upd. destruct v; try done.
  destruct (verts s !! n); done.
Qed.
Lemma throws_edge_at P v : throws_only P (edge_at v).
Proof.
  intros s e s'. unfold edge_at. destruct v; try done.
  destruct (edges s !! n); done.
Qed.
Lemma throws_edge_upd P v f : throws_only P (edge_upd v f).
Proof.
  intros s e s'. unfold edge_upd. destruct v; try done.
  destruct (edges s !! n); done.
Qed.
Lemma throws_lift {A} P (m : MM A) : throws_only P m -> throws_only P (lift m).
Proof.
  intros H s e s'. unfold lift. specialize (H (mono s)).
  destruct (m (mono s)); try done. intros [= <- _]. eapply H. reflexivity.
Qed.
Lemma throws_weaken {S A} (P Q : exn -> Prop) (m : M S A) :
  (forall e, P e -> Q e) -> throws_only P m -> throws_only Q m.
Proof. intros H Hm s e s' E. eapply H, Hm, E. Qed.

Create HintDb throws.
#[global] Hint Resolve throws_vert_at throws_vert_upd throws_edge_at
  throws_edge_upd : throws.

Ltac throws_step :=
  lazymatch goal with
  | |- throws_only _ (bind _ _) => apply throws_bind; [|intros ?]
  | |- throws_only _ (ret _) => apply throws_ret
  | |- throws_only _ undef => apply throws_undef
  | |- throws_only _ diverge => apply throws_diverge
  | |- throws_only _ (gets _) => apply throws_gets
  | |- throws_only _ (modify _) => apply throws_modify
  | |- throws_only _ (of_option _) => apply throws_of_option
  | |- throws_only _ (andM _ _) => apply throws_andM
  | |- throws_only _ (orM _ _) => apply throws_orM
  | |- throws_only _ (lift _) => apply throws_lift
  | |- throws_only _ (if ?b then _ else _) => destruct b
  | |- throws_only _ (match ?x with _ => _ end) => destruct x
  end.

Ltac throws_auto := repeat (first [throws_step | solve [eauto with throws]]).

Lemma throws_vposition P p : throws_only P (vposition p).
Proof. unfold vposition. throws_auto. Qed.
Lemma throws_vnext P v : throws_only P (vnext v).
Proof. unfold vnext. throws_auto. Qed.
Lemma throws_vprev P v : throws_only P (vprev v).
Proof. unfold vprev. throws_auto. Qed.
#[global] Hint Resolve throws_vposition throws_vnext throws_vprev : throws.
Lemma throws_vinsert P p r : throws_only P (vinsert p r).
Proof. unfold vinsert. throws_auto. Qed.
Lemma throws_Link P l r : throws_only P (Link l r).
Proof. unfold Link. throws_auto. Qed.
#[global] Hint Resolve throws_vinsert throws_Link : throws.
Lemma throws_SplitVerts P n s : throws_only P (SplitVerts n s).
Proof. unfold SplitVerts. throws_auto. Qed.
#[global] Hint Resolve throws_SplitVerts : throws.

Lemma list_next_elem l n o : list_next l n = Some o -> n ∈ l.
Proof.
  induction l as [|a l IH]; cbn; [done|].
  destruct (decide (a = n)) as [->|Hne]; intros H.
  - apply elem_of_cons. now left.
  - apply elem_of_cons. right. now apply IH.
Qed.

Lemma vnext_Ret v s w s' :
  vnext v s = Ret w s' -> s' = s /\ exists n, v = vAt n /\ n ∈ monotones_ s.
Proof.
  unfold vnext. destruct v as [n| |]; try done. intros H.
  inv_bind H. injection H0 as <- <-. inv_bind H.
  destruct (list_next (monotones_ s) n) eqn:E; try done.
  injection H0 as <- <-. injection H as <- <-.
  split; [done|]. exists n. split; [done|]. eapply list_next_elem, E.
Qed.

Lemma vinsert_position p r s v s' :
  vinsert p r s = Ret v s' ->
  match p with vAt m => m ∈ monotones_ s | vEnd => True | vNone => False end.
Proof.
  unfold vinsert, vposition. intros H. inv_bind H.
  destruct p as [m| |]; try done.
  inv_bind H0. injection H1 as <- <-.
  destruct (list_mem m (monotones_ s)) eqn:E; try done.
  now apply list_mem_true.
Qed.

Lemma vert_at_left_of n s V : vert_at (vAt n) s = Ret V s -> left V = left_of s n.
Proof.
  intros H. apply vert_at_Ret in H as (_ & m & [= <-] & E).
  unfold left_of. now rewrite E.
Qed.
Lemma vert_at_right_of n s V : vert_at (vAt n) s = Ret V s -> right V = right_of s n.
Proof.
  intros H. apply vert_at_Ret in H as (_ & m & [= <-] & E).
  unfold right_of. now rewrite E.
Qed.

Lemma links_inv_lt s n : links_inv s -> n ∈ monotones_ s -> (n < length (verts s))%nat.
Proof.
  intros H Hn. destruct (H n Hn) as (l & r & E & _).
  unfold left_of in E. destruct (verts s !! n) eqn:En; [|done].
  eapply lookup_lt_Some, En.
Qed.

Lemma keeps_SetProcessed_at v b : keeps same_ring (vert_upd v (SetProcessed b)).
Proof. eauto with keeps. Qed.

(** [SplitVerts] re-establishes [v.left.right == v] and [v.right.left == v]
    for every vert, the two copies included. *)
Lemma keeps_SplitVerts north south : keeps ring_ok (SplitVerts north south).
Proof.
  intros s. unfold holds_after.
  destruct (SplitVerts north south s) as [ne s'|e s'| |] eqn:E; try done;
    [|now apply (throws_SplitVerts (fun _ => False)) in E].
  unfold SplitVerts in E.
  apply bind_Ret in E as (N & s0 & E0 & E).
  pose proof (vert_at_Ret _ _ _ _ E0) as (-> & a & -> & ENa).
  apply bind_Ret in E as (S00 & s0 & E0' & E).
  pose proof (vert_at_Ret _ _ _ _ E0') as (-> & b & -> & ESb0).
  apply bind_Ret in E as (northEast & s1 & E1 & E).
  pose proof (vinsert_position _ _ _ _ _ E1) as Pa. cbn in Pa.
  apply vinsert_Ret in E1 as (-> & Ev1 & Ep1 & Em1 & El1 & Er1).
  apply bind_Ret in E as (N' & s1' & E2 & E).
  pose proof (vert_at_Ret _ _ _ _ E2) as (-> & _).
  apply vert_at_left_of in E2.
  apply bind_Ret in E as (u2 & s2 & E3 & E).
  apply Link_Ret in E3
    as (nl & n1' & Enl & [= <-] & _ & _ & Elen2 & Em2 & Ep2 & El2 & Er2).
  apply bind_Ret in E as (u3 & s3 & E4 & E).
  apply (keeps_Ret_links _ _ _ _ (keeps_SetProcessed_at _ _)) in E4
    as (Ep3 & Elen3 & Em3 & El3 & Er3).
  apply bind_Ret in E as (S0 & s3' & E5 & E).
  pose proof (vert_at_Ret _ _ _ _ E5) as (-> & _).
  pose proof (vert_at_left_of _ _ _ E5) as ES0l.
  pose proof (vert_at_right_of _ _ _ E5) as ES0r.
  apply bind_Ret in E as (after & s3' & E6 & E).
  apply vnext_Ret in E6 as (-> & b' & [= <-] & Pb).
  apply bind_Ret in E as (southEast & s4 & E7 & E).
  apply vinsert_Ret in E7 as (-> & Ev4 & Ep4 & Em4 & El4 & Er4).
  apply bind_Ret in E as (S' & s4' & E8 & E).
  pose proof (vert_at_Ret _ _ _ _ E8) as (-> & _).
  apply vert_at_right_of in E8.
  apply bind_Ret in E as (u5 & s5 & E9 & E).
  apply Link_Ret in E9
    as (n2' & sr & [= <-] & Esr & _ & _ & Elen5 & Em5 & Ep5 & El5 & Er5).
  apply bind_Ret in E as (u6 & s6 & E10 & E).
  apply (keeps_Ret_links _ _ _ _ (keeps_SetProcessed_at _ _)) in E10
    as (Ep6 & Elen6 & Em6 & El6 & Er6).
  apply bind_Ret in E as (u7 & s7 & E11 & E).
  apply Link_Ret in E11
    as (b' & a' & [= <-] & [= <-] & _ & _ & Elen7 & Em7 & Ep7 & El7 & Er7).
  apply bind_Ret in E as (u8 & s8 & E12 & E).
  apply Link_Ret in E12
    as (n1' & n2' & [= <-] & [= <-] & _ & _ & Elen8 & Em8 & Ep8 & El8 & Er8).
  injection E as <- <-.
  split; [congruence|]. intros Hinv.
  assert (Hlen3 : length (verts s3) = S (length (verts s))).
  { rewrite Elen3, Elen2, Ev1, length_app. cbn. lia. }
  assert (Hf1 : ~ length (verts s) ∈ monotones_ s).
  { intros H. apply (links_inv_lt _ _ Hinv) in H. lia. }
  assert (Hf2 : ~ length (verts s3) ∈ monotones_ s).
  { intros H. apply (links_inv_lt _ _ Hinv) in H. lia. }
  assert (Hn12 : length (verts s) <> length (verts s3)) by lia.
  clear Hlen3 Elen2 Elen3 Elen5 Elen6 Elen7 Elen8.
  set (n1 := length (verts s)) in *.
  set (n2 := length (verts s3)) in *.
  assert (Hbn1 : b <> n1).
  { apply lookup_lt_Some in ESb0. subst n1. lia. }
  assert (Han1 : a <> n1).
  { apply lookup_lt_Some in ENa. subst n1. lia. }
  assert (ELN : left N = left_of s a) by (unfold left_of; now rewrite ENa).
  assert (ERN : right N = right_of s a) by (unfold right_of; now rewrite ENa).
  assert (HLa : left_of s a = vAt nl).
  { rewrite <- Enl, E2, El1. unfold upd. case_decide; [done|]. done. }
  assert (Pb0 : b ∈ monotones_ s).
  { apply Em3 in Pb. rewrite Em2 in Pb. apply Em1 in Pb as [->|Pb]; done. }
  assert (HR3 : upd (upd (upd (right_of s) n1 (right_of s a)) nl (vAt n1)) n2
                    (upd (upd (right_of s) n1 (right_of s a)) nl (vAt n1) b) b
                = vAt sr).
  { rewrite <- Esr, E8.
    repeat (progress (unfold upd;
                      rewrite ?Er4, ?ES0r, ?Er3, ?Er2, ?Er1, ?ERN)).
    repeat (case_decide; try congruence). }
  pose proof (split_ring_linked _ (left_of s) (right_of s) a b nl n1 n2 sr
                Hinv Pa Pb0 Hf1 Hf2 Hn12 HLa HR3) as Hfin.
  cbv zeta in Hfin. revert Hfin. apply ring_linked_ext.
  - intros n. rewrite Em8, Em7. rewrite Em6. rewrite Em5.
    rewrite Em4. rewrite Em3. rewrite Em2. rewrite Em1. reflexivity.
  - intros n.
    repeat (progress (unfold upd;
                      rewrite ?El8, ?El7, ?El6, ?El5, ?El4, ?ES0l, ?El3, ?El2,
                        ?El1, ?ELN)).
    repeat (case_decide; try congruence).
  - intros n.
    repeat (progress (unfold upd;
                      rewrite ?Er8, ?Er7, ?Er6, ?Er5, ?Er4, ?ES0r, ?Er3, ?Er2,
                        ?Er1, ?ERN)).
    repeat (case_decide; try congruence).
Qed.

#[global] Hint Resolve keeps_SplitVerts : keeps.
#[global] Hint Extern 5 (keeps ring_ok _) =>
  apply keeps_ring_ok; solve [eauto with keeps] : keeps.

Lemma keeps_CheckSplit v e : keeps ring_ok (CheckSplit v e).
Proof. unfold CheckSplit. keeps_auto. Qed.
#[global] Hint Resolve keeps_CheckSplit : keeps.

Lemma keeps_SweepBack_start v : keeps ring_ok (SweepBack_start v).
Proof. unfold SweepBack_start. keeps_auto. Qed.
#[global] Hint Resolve keeps_SweepBack_start : keeps.

Lemma keeps_SweepBack_dispatch cfg v ty :
  keeps ring_ok (SweepBack_dispatch cfg v ty).
Proof.
  unfold SweepBack_dispatch.
  apply keeps_OVERLAP_ASSERT; tc; [eauto with keeps|]. keeps_auto.
Qed.
#[global] Hint Resolve keeps_SweepBack_dispatch : keeps.

Lemma keeps_SweepBack_step cfg v : keeps ring_ok (SweepBack_step cfg v).
Proof. unfold SweepBack_step. keeps_auto. Qed.
#[global] Hint Resolve keeps_SweepBack_step : keeps.

Lemma keeps_SweepBack_loop fuel cfg :
  forall v, keeps ring_ok (SweepBack_loop fuel cfg v).
Proof. induction fuel; intros; cbn [SweepBack_loop]; keeps_auto. Qed.
#[global] Hint Resolve keeps_SweepBack_loop : keeps.

(** The backward sweep changes the polygons through [SplitVerts] only. *)
Lemma keeps_SweepBack fuel cfg : keeps ring_ok (SweepBack fuel cfg).
Proof. unfold SweepBack. keeps_auto. Qed.
#[global] Hint Resolve keeps_SweepBack : keeps.

(** The sweeps and the checks of the constructor, after the ring is built. *)
Definition Monotones_sweeps (fuel : nat) (cfg : Config) : MM unit :=
  fail <- SweepForward fuel cfg ;;
  if fail then ret tt
  else
    Check fuel cfg ;;
    fail <- SweepBack fuel cfg ;;
    if fail then ret tt
    else Check fuel cfg.

Lemma Monotones_ctor_eq fuel cfg polys :
  Monotones_ctor fuel cfg polys
  = (Monotones_init polys ;; Monotones_sweeps fuel cfg).
Proof. reflexivity. Qed.

Lemma keeps_Monotones_sweeps fuel cfg : keeps ring_ok (Monotones_sweeps fuel cfg).
Proof. unfold Monotones_sweeps. keeps_auto. Qed.

(** *** Ring construction establishes the invariant *)

(** The ring holds exactly the slots of the arena. *)
Definition in_ring (s : Monotones) : Prop :=
  forall n, n ∈ monotones_ s <-> (n < length (verts s))%nat.

(** While the verts of one polygon are appended: the polygons before [st]
    are closed, and the verts [st .. cur] form a chain. *)
Definition open_chain (s : Monotones) (st cur : nat) : Prop :=
  in_ring s /\ (st <= cur)%nat /\ length (verts s) = S cur /\
  ring_linked (fun n => (n < st)%nat) (left_of s) (right_of s) /\
  forall i, (st <= i < cur)%nat ->
            right_of s i = vAt (S i) /\ left_of s (S i) = vAt i.

(** Between two polygons: all loops are closed, and [current], [start] are
    the last and first vert of the last polygon that had verts. *)
Definition closed_ring (s : Monotones) (start current : VertItr) : Prop :=
  in_ring s /\
  ring_linked (fun n => (n < length (verts s))%nat) (left_of s) (right_of s) /\
  (length (verts s) = O \/
   exists st cur, start = vAt st /\ current = vAt cur /\
     (st < length (verts s))%nat /\ (cur < length (verts s))%nat /\
     right_of s cur = vAt st /\ left_of s st = vAt cur).

Lemma close_chain (L R : nat -> VertItr) st cur :
  (st <= cur)%nat ->
  ring_linked (fun n => (n < st)%nat) L R ->
  (forall i, (st <= i < cur)%nat -> R i = vAt (S i) /\ L (S i) = vAt i) ->
  ring_linked (fun n => (n < S cur)%nat) (upd L st (vAt cur)) (upd R cur (vAt st)).
Proof.
  intros Hle Hold Hch n Hn.
  destruct (decide (n < st)%nat) as [Hlt|Hge].
  - destruct (Hold n Hlt) as (l & r & H1 & H2 & H3 & H4 & H5 & H6).
    exists l, r. unfold upd.
    repeat (case_decide; try lia). repeat split; try done; lia.
  - exists (if decide (n = st) then cur else pred n),
           (if decide (n = cur) then st else S n).
    assert (Hp : n <> st -> R (pred n) = vAt n /\ L n = vAt (pred n)).
    { intros Hne. destruct (Hch (pred n)) as [H1 H2]; [lia|].
      replace (S (pred n)) with n in * by lia. done. }
    assert (Hs : n <> cur -> R n = vAt (S n) /\ L (S n) = vAt n).
    { intros Hne. apply Hch. lia. }
    unfold upd.
    repeat (case_decide; try lia); repeat split;
      try lia; try tauto; try (f_equal; lia).
Qed.

Definition step_bound (b : Q) (pv : PolyVert) : Q :=
  glm_max b (glm_max (glm_abs (vx (pv_pos pv))) (glm_abs (vy (pv_pos pv)))).

Lemma add_poly_verts_rest poly : forall st cur bound s r s',
  open_chain s st cur ->
  add_poly_verts poly false (vAt st) (vAt cur) (vAt cur) bound s = Ret r s' ->
  exists cur',
    r = (vAt st, vAt cur', vAt cur', fold_left step_bound poly bound) /\
    open_chain s' st cur' /\ precision_ s' = precision_ s.
Proof.
  induction poly as [|pv poly IH]; intros st cur bound s r s' Hopen H;
    cbn [add_poly_verts] in H.
  - injection H as <- <-. exists cur. done.
  - apply bind_Ret in H as (current & s1 & E1 & H).
    apply vinsert_Ret in E1 as (-> & Ev1 & Ep1 & Em1 & El1 & Er1).
    apply bind_Ret in H as (u & s2 & E2 & H).
    apply Link_Ret in E2
      as (c & n & [= <-] & [= <-] & _ & _ & Elen2 & Em2 & Ep2 & El2 & Er2).
    destruct Hopen as (Hin & Hle & Hlen & Hold & Hch).
    apply IH in H as (cur' & -> & Hopen' & Hp).
    + exists cur'. split; [done|]. split; [done|]. congruence.
    + rewrite Hlen in *. split; [|split; [|split; [|split]]].
      * intros m. rewrite Em2, Elen2, Ev1, length_app, Em1, (Hin m).
        cbn. lia.
      * lia.
      * rewrite Elen2, Ev1, length_app, Hlen. cbn. lia.
      * intros m Hm. destruct (Hold m Hm) as (l & r0 & H1 & H2 & H3 & H4 & H5 & H6).
        exists l, r0.
        repeat (progress (unfold upd; rewrite ?El2, ?Er2, ?El1, ?Er1)).
        repeat (case_decide; try lia). done.
      * intros i Hi.
        repeat (progress (unfold upd; rewrite ?El2, ?Er2, ?El1, ?Er1)).
        repeat (case_decide; try lia); subst; try done;
          try (apply Hch; lia).
Qed.

Lemma closed_ring_Link s st cur u s' :
  open_chain s st cur ->
  Link (vAt cur) (vAt st) s = Ret u s' ->
  closed_ring s' (vAt st) (vAt cur) /\ precision_ s' = precision_ s.
Proof.
  intros (Hin & Hle & Hlen & Hold & Hch) H.
  apply Link_Ret in H
    as (c & n & [= <-] & [= <-] & _ & _ & Elen & Em & Ep & El & Er).
  split; [|done]. split; [|split].
  - intros m. rewrite Em, Elen. apply (Hin m).
  - rewrite Elen, Hlen.
    eapply ring_linked_ext; [| | |apply (close_chain _ _ st cur Hle Hold Hch)];
      [done|apply El|apply Er].
  - right. exists st, cur. rewrite Elen, Hlen, El, Er. unfold upd.
    repeat (case_decide; try lia). repeat split; try done; lia.
Qed.

Lemma upd_same (f : nat -> VertItr) a n : upd f a (f a) n = f n.
Proof. unfold upd. case_decide; congruence. Qed.

Lemma add_polys_spec polys : forall start last current bound s b s',
  closed_ring s start current ->
  add_polys polys start last current bound s = Ret b s' ->
  b = fold_left step_bound (concat polys) bound /\
  precision_ s' = precision_ s /\
  exists start' current', closed_ring s' start' current'.
Proof.
  induction polys as [|poly polys IH];
    intros start last current bound s b s' Hc H; cbn [add_polys] in H.
  - injection H as <- <-. repeat split; eauto.
  - apply bind_Ret in H as ([[[start1 last1] current1] bound1] & s1 & E1 & H).
    apply bind_Ret in H as (u & s2 & E2 & H).
    cbn [concat]. rewrite fold_left_app.
    destruct poly as [|pv poly]; cbn [add_poly_verts] in E1.
    + injection E1 as <- <- <- <- <-.
      assert (Hc2 : closed_ring s2 start current /\ precision_ s2 = precision_ s).
      { destruct Hc as (Hin & Hl & [Hz|(st & cur & -> & -> & H1 & H2 & H3 & H4)]).
        - apply Link_Ret in E2 as (c & n & _ & _ & Hlt & _). lia.
        - apply Link_Ret in E2
            as (c & n & [= <-] & [= <-] & _ & _ & Elen & Em & Ep & El & Er).
          split; [|done]. split; [|split].
          + intros m. rewrite Em, Elen. apply (Hin m).
          + rewrite Elen. revert Hl. apply ring_linked_ext; [done| |].
            * intros m. rewrite El, <- H4. apply upd_same.
            * intros m. rewrite Er, <- H3. apply upd_same.
          + right. exists st, cur. rewrite Elen, El, Er, <- H3, <- H4, !upd_same.
            done. }
      destruct Hc2 as [Hc2 Hp2].
      apply (IH _ _ _ _ _ _ _ Hc2) in H as (-> & Hp & Hex).
      split; [done|]. split; [congruence|done].
    + apply bind_Ret in E1 as (cur0 & s0 & E0 & E1).
      apply vinsert_Ret in E0 as (-> & Ev0 & Ep0 & Em0 & El0 & Er0).
      apply bind_Ret in E1 as (u0 & s0' & E0' & E1). injection E0' as <- <-.
      assert (Hopen : open_chain s0 (length (verts s)) (length (verts s))).
      { destruct Hc as (Hin & Hl & _). split; [|split; [|split; [|split]]].
        - intros m. rewrite Em0, Ev0, length_app, (Hin m). cbn. lia.
        - lia.
        - rewrite Ev0, length_app. cbn. lia.
        - intros m Hm. destruct (Hl m Hm) as (l & r & H1 & H2 & H3 & H4 & H5 & H6).
          exists l, r.
          repeat (progress (unfold upd; rewrite ?El0, ?Er0)).
          repeat (case_decide; try lia). done.
        - intros i Hi. lia. }
      apply (add_poly_verts_rest _ _ _ _ _ _ _ Hopen) in E1
        as (cur' & [= -> -> -> ->] & Hopen' & Hp1).
      apply (closed_ring_Link _ _ _ _ _ Hopen') in E2 as [Hc2 Hp2].
      apply (IH _ _ _ _ _ _ _ Hc2) in H as (-> & Hp & Hex).
      split; [done|]. split; [congruence|done].
Qed.

Lemma closed_ring_links_inv s start current :
  closed_ring s start current -> links_inv s.
Proof.
  intros (Hin & Hl & _). revert Hl. apply ring_linked_ext; [apply Hin|done|done].
Qed.

(** The largest coordinate magnitude, as the constructor tracks it. *)
Definition bound_of (polys : PolygonsIdx) : Q :=
  fold_left step_bound (concat polys) 0%Q.

(** The precision the constructor settles on. *)
Definition chosen_precision (polys : PolygonsIdx) (precision : Q) : Q :=
  if Qltb precision 0 then (bound_of polys * kTolerance)%Q else precision.

Lemma Monotones_init_spec polys precision u s :
  Monotones_init polys (empty_Monotones precision) = Ret u s ->
  links_inv s /\ precision_ s = chosen_precision polys precision.
Proof.
  unfold Monotones_init. intros H.
  apply bind_Ret in H as (bound & s1 & E1 & H).
  apply add_polys_spec in E1 as (-> & Hp & st & cur & Hc).
  2:{ split; [|split].
      - intros n. cbn. rewrite elem_of_nil. lia.
      - intros n Hn. cbn in Hn. lia.
      - now left. }
  apply bind_Ret in H as (p & s1' & E2 & H). injection E2 as <- <-.
  rewrite Hp in H. cbn [precision_ empty_Monotones] in H, Hp.
  unfold chosen_precision, bound_of.
  destruct (Qltb precision 0) eqn:E.
  - injection H as <- <-. split; [|done].
    apply closed_ring_links_inv in Hc. revert Hc.
    apply ring_linked_ext; done.
  - injection H as <- <-. split; [|exact Hp].
    now apply closed_ring_links_inv in Hc.
Qed.

Lemma throws_add_poly_verts P poly :
  forall f a b c d, throws_only P (add_poly_verts poly f a b c d).
Proof. induction poly; intros; cbn [add_poly_verts]; throws_auto. Qed.
#[global] Hint Resolve throws_add_poly_verts : throws.
Lemma throws_add_polys P polys :
  forall a b c d, throws_only P (add_polys polys a b c d).
Proof.
  induction polys; intros; cbn [add_polys]; throws_auto.
Qed.
#[global] Hint Resolve throws_add_polys : throws.
Lemma throws_Monotones_init P polys : throws_only P (Monotones_init polys).
Proof. unfold Monotones_init. throws_auto. Qed.

(** *** Every polygon loop is closed *)

Lemma not_NoDup_dup (l : list nat) :
  ~ NoDup l ->
  exists i j x, (i < j)%nat /\ l !! i = Some x /\ l !! j = Some x.
Proof.
  induction l as [|a l IH]; intros H.
  - destruct H. constructor.
  - destruct (decide (a ∈ l)) as [Hin|Hnin].
    + apply list_elem_of_lookup in Hin as [j Hj].
      exists O, (S j), a. split; [lia|]. done.
    + destruct IH as (i & j & x & Hij & Hi & Hj).
      { intros Hnd. apply H. now constructor. }
      exists (S i), (S j), x. split; [lia|]. done.
Qed.

Section Orbit.
Variable f : nat -> nat.
Variable l : list nat.
Hypothesis f_closed : forall x, x ∈ l -> f x ∈ l.
Hypothesis f_inj : forall x y, x ∈ l -> y ∈ l -> f x = f y -> x = y.

Lemma iter_closed k x : x ∈ l -> Nat.iter k f x ∈ l.
Proof. intros Hx. induction k; cbn; auto. Qed.

Lemma iter_cancel i : forall j x,
  x ∈ l -> Nat.iter i f x = Nat.iter (i + j) f x -> Nat.iter j f x = x.
Proof.
  induction i as [|i IH]; intros j x Hx H; cbn in H; [done|].
  apply IH; [done|]. apply f_inj; auto using iter_closed.
Qed.

(** An injective map of a finite set into itself moves every element on a
    cycle. *)
Lemma finite_orbit x :
  x ∈ l -> exists k, (0 < k <= length l)%nat /\ Nat.iter k f x = x.
Proof.
  intros Hx.
  set (orbit := map (fun i => Nat.iter i f x) (seq 0 (S (length l)))).
  assert (Hnd : ~ NoDup orbit).
  { intros Hnd.
    assert (Hincl : incl orbit l).
    { intros y Hy. apply in_map_iff in Hy as (i & <- & _).
      apply list_elem_of_In. now apply iter_closed. }
    apply NoDup_ListNoDup in Hnd.
    pose proof (List.NoDup_incl_length Hnd Hincl) as Hlen.
    unfold orbit in Hlen. rewrite length_map, length_seq in Hlen. lia. }
  apply not_NoDup_dup in Hnd as (i & j & y & Hij & Hi & Hj).
  unfold orbit in Hi, Hj.
  change (map ?g ?l) with (fmap (M:=list) g l) in Hi, Hj.
  rewrite list_lookup_fmap in Hi, Hj.
  destruct (seq 0 (S (length l)) !! i) as [i'|] eqn:Ei; [|done].
  destruct (seq 0 (S (length l)) !! j) as [j'|] eqn:Ej; [|done].
  apply lookup_seq in Ei as [-> Hi'], Ej as [-> Hj'].
  cbn in Hi, Hj. injection Hi as Hi. injection Hj as Hj.
  exists (j - i)%nat. split; [lia|].
  apply (iter_cancel i); [done|].
  replace (i + (j - i))%nat with j by lia.
  change (Nat.iter i f x = y) in Hi. change (Nat.iter j f x = y) in Hj.
  congruence.
Qed.
End Orbit.

(** One step along [right]. *)
Definition step_right (s : Monotones) (v : VertItr) : VertItr :=
  match v with vAt n => right_of s n | _ => v end.

Lemma links_inv_loops s n :
  links_inv s -> n ∈ monotones_ s ->
  exists k, (0 < k <= length (monotones_ s))%nat /\
            Nat.iter k (step_right s) (vAt n) = vAt n.
Proof.
  intros Hinv Hn.
  set (f := fun m => idx_of (right_of s m)).
  assert (Hf : forall m, m ∈ monotones_ s ->
             right_of s m = vAt (f m) /\ f m ∈ monotones_ s /\
             left_of s (f m) = vAt m).
  { intros m Hm. destruct (Hinv m Hm) as (l & r & _ & Hr & _ & Pr & _ & Hl).
    unfold f. rewrite Hr. cbn. done. }
  destruct (finite_orbit f (monotones_ s)) with (x := n) as (k & Hk & Hit).
  - intros x Hx. now apply Hf.
  - intros x y Hx Hy E. destruct (Hf x Hx) as (_ & _ & H1).
    destruct (Hf y Hy) as (_ & _ & H2). congruence.
  - done.
  - exists k. split; [done|].
    assert (Hw : forall i, Nat.iter i (step_right s) (vAt n)
                           = vAt (Nat.iter i f n)).
    { induction i as [|i IH]; [done|]. rewrite !Nat.iter_succ, IH.
      cbn [step_right].
      apply Hf. apply iter_closed; [|done]. intros x Hx. now apply Hf. }
    rewrite Hw. congruence.
Qed.

(** *** The invariant along the whole run *)

Lemma keeps_links_inv {A} (m : MM A) s :
  keeps ring_ok m -> links_inv s -> holds_after m s links_inv.
Proof.
  intros Hk Hs. specialize (Hk s). unfold holds_after in *.
  destruct (m s) as [a s'|e s'| |]; try done; now apply Hk.
Qed.

Lemma keeps_links_invT {A} (m : TM A) st :
  keeps same_ringT m -> links_inv (mono st) ->
  holds_after m st (fun st' => links_inv (mono st')).
Proof.
  intros Hk Hs. specialize (Hk st). unfold holds_after in *.
  destruct (m st) as [a s'|e s'| |]; try done;
    eapply same_ring_links_inv; eassumption.
Qed.

Lemma keeps_match_edges {S} R `{!PreOrder R} fwd : forall prev bwd,
  keeps R (@match_edges S prev fwd bwd).
Proof.
  induction fwd as [|f fwd IH]; intros prev bwd; cbn [match_edges];
    [apply keeps_ret; tc|].
  destruct bwd; keeps_auto. all: apply IH.
Qed.

Lemma keeps_CheckTopology {S} R `{!PreOrder R} tris polys :
  keeps R (@CheckTopology S tris polys).
Proof.
  unfold CheckTopology, CheckTopology_edges. keeps_auto.
  apply keeps_match_edges; tc.
Qed.

Lemma keeps_CheckGeometry {S} R `{!PreOrder R} tris polys p :
  keeps R (@CheckGeometry S tris polys p).
Proof. unfold CheckGeometry. keeps_auto. Qed.

(** The checks that follow [Triangulate] in the [try] block. *)
Definition post_checks (cfg : Config) (polys : PolygonsIdx) : TM unit :=
  if MANIFOLD_DEBUG cfg then
    if intermediateChecks (params cfg) then
      tris <- gets triangles ;;
      CheckTopology tris polys ;;
      if negb (processOverlaps (params cfg)) then
        p <- lift (gets GetPrecision) ;;
        CheckGeometry tris polys (2 * p)%Q
      else ret tt
    else ret tt
  else ret tt.

Lemma keeps_post_checks R `{!PreOrder R} cfg polys :
  keeps (on_mono R) (post_checks cfg polys).
Proof.
  unfold post_checks.
  keeps_auto;
    first [apply keeps_CheckTopology; tc | apply keeps_CheckGeometry; tc
          | apply keeps_gets; tc].
Qed.

Lemma TriangulateIdx_try_eq fuel cfg polys :
  TriangulateIdx_try fuel cfg polys
  = (lift (Monotones_init polys ;; Monotones_sweeps fuel cfg) ;;
     Triangulate fuel ;; post_checks cfg polys).
Proof. reflexivity. Qed.

Lemma same_ringT_ring_ok st st' :
  same_ringT st st' -> on_mono ring_ok st st'.
Proof. apply same_ring_ring_ok. Qed.

Lemma keeps_after_sweeps fuel cfg polys :
  keeps (on_mono ring_ok)
        (lift (Monotones_sweeps fuel cfg) ;; Triangulate fuel ;;
         post_checks cfg polys).
Proof.
  keeps_auto.
  - apply keeps_Monotones_sweeps.
  - eapply keeps_weaken; [apply same_ringT_ring_ok|apply keeps_Triangulate].
  - apply keeps_post_checks; tc.
Qed.

Lemma holds_after_bind {S A B} (m : M S A) (k : A -> M S B) s (Q : S -> Prop) :
  no_throw m ->
  (forall a s', m s = Ret a s' -> holds_after (k a) s' Q) ->
  holds_after (bind m k) s Q.
Proof.
  intros Hn Hk. unfold holds_after, bind.
  destruct (m s) as [a s'|e s'| |] eqn:E; try done.
  - now apply Hk.
  - now apply Hn in E.
Qed.

Lemma TriangulateIdx_try_split fuel cfg polys st :
  TriangulateIdx_try fuel cfg polys st
  = bind (lift (Monotones_init polys))
         (fun _ => lift (Monotones_sweeps fuel cfg) ;; Triangulate fuel ;;
                   post_checks cfg polys) st.
Proof.
  unfold TriangulateIdx_try, Monotones_ctor, Monotones_sweeps, post_checks,
    lift, bind.
  cbn. destruct (Monotones_init polys (mono st)); reflexivity.
Qed.

Lemma TriangulateIdx_try_links fuel cfg polys precision :
  holds_after (TriangulateIdx_try fuel cfg polys)
              (mkTState (empty_Monotones precision) [])
              (fun st => links_inv (mono st)).
Proof.
  unfold holds_after. rewrite TriangulateIdx_try_split.
  apply holds_after_bind.
  - apply throws_lift, throws_Monotones_init.
  - intros u st' E. apply lift_Ret in E as (s0 & E & ->).
    apply Monotones_init_spec in E as [Hinv _].
    pose proof (keeps_after_sweeps fuel cfg polys (mkTState s0 [])) as H.
    unfold holds_after in *. cbn [triangles].
    destruct ((lift (Monotones_sweeps fuel cfg);; Triangulate fuel;;
               post_checks cfg polys) (mkTState s0 [])); try done;
      now apply H.
Qed.

(** C9.  After ring construction, and after every operation of the forward
    sweep, of the backward sweep (every [SplitVerts] included) and of the
    triangulator, every vert [v] of the ring has [v.left.right == v] and
    [v.right.left == v], its neighbours being verts of the ring; hence every
    polygon loop is closed. *)
Theorem ring_links_invariant fuel cfg polys precision u s0 :
  Monotones_init polys (empty_Monotones precision) = Ret u s0 ->
  links_inv s0 /\
  holds_after (Monotones_sweeps fuel cfg) s0 links_inv /\
  holds_after (TriangulateIdx_try fuel cfg polys)
              (mkTState (empty_Monotones precision) [])
              (fun st => links_inv (mono st)) /\
  (forall s, links_inv s ->
     (forall sv, holds_after (SweepForward_step cfg sv) s links_inv) /\
     holds_after (SweepForward fuel cfg) s links_inv /\
     (forall north south, holds_after (SplitVerts north south) s links_inv) /\
     (forall v, holds_after (SweepBack_step cfg v) s links_inv) /\
     holds_after (SweepBack fuel cfg) s links_inv /\
     (forall tris t vi onRight last,
         holds_after (Triangulator_ProcessVert t vi onRight last)
                     (mkTState s tris) (fun st => links_inv (mono st))) /\
     (forall tris, holds_after (Triangulate fuel) (mkTState s tris)
                               (fun st => links_inv (mono st))) /\
     (forall n, n ∈ monotones_ s ->
        exists k, (0 < k <= length (monotones_ s))%nat /\
                  Nat.iter k (step_right s) (vAt n) = vAt n)).
Proof.
  intros Hinit. pose proof (Monotones_init_spec _ _ _ _ Hinit) as [Hinv _].
  split; [done|]. split.
  { apply keeps_links_inv; [apply keeps_Monotones_sweeps|done]. }
  split; [apply TriangulateIdx_try_links|].
  intros s Hs. repeat split.
  - intros sv. apply keeps_links_inv; [|done]. eauto with keeps.
  - apply keeps_links_inv; [|done]. eauto with keeps.
  - intros north south. apply keeps_links_inv; [|done]. eauto with keeps.
  - intros v. apply keeps_links_inv; [|done]. eauto with keeps.
  - apply keeps_links_inv; [|done]. eauto with keeps.
  - intros tris t vi onRight last.
    apply keeps_links_invT; [|done]. eauto with keeps.
  - intros tris. apply keeps_links_invT; [|done]. apply keeps_Triangulate.
  - intros n Hn. now apply links_inv_loops.
Qed.

(** The square with a square hole of the specification (scenario B). *)
Definition holed_square : list (list vec2) :=
  [[pt 0 0; pt 4 0; pt 4 4; pt 0 4]; [pt 1 1; pt 1 3; pt 3 3; pt 3 1]].

Definition strict_checked : Config :=
  mkConfig true (mkParams false true false false).

Definition holed_ring : Monotones :=
  Eval vm_compute in
    state_of (Monotones_init (index_polys 0 holed_square)
                             (empty_Monotones (1 # 10000))).

Lemma ring_links_invariant_witness :
  links_inv holed_ring /\
  holds_after (Monotones_sweeps 100 strict_checked) holed_ring links_inv.
Proof.
  assert (H : Monotones_init (index_polys 0 holed_square)
                (empty_Monotones (1 # 10000)) = Ret tt holed_ring)
    by (vm_compute; reflexivity).
  pose proof (ring_links_invariant 100 strict_checked _ _ _ _ H) as (H1 & H2 & _).
  split; assumption.
Defined.

(** ** The precision *)

Lemma glm_max_le_l a b : (a <= glm_max a b)%Q.
Proof.
  unfold glm_max. destruct (Qltb a b) eqn:E; [|lra].
  apply Qltb_lt in E. lra.
Qed.

Lemma glm_max_le_r a b : (b <= glm_max a b)%Q.
Proof.
  unfold glm_max. destruct (Qltb a b) eqn:E; [lra|].
  now apply Qltb_ge in E.
Qed.

Lemma glm_max_cases a b : glm_max a b = a \/ glm_max a b = b.
Proof. unfold glm_max. destruct (Qltb a b); auto. Qed.

Lemma fold_bound_spec l : forall b0,
  let b := fold_left step_bound l b0 in
  (b0 <= b)%Q /\
  (forall pv, pv ∈ l ->
     (glm_abs (vx (pv_pos pv)) <= b)%Q /\ (glm_abs (vy (pv_pos pv)) <= b)%Q) /\
  (b = b0 \/ exists pv, pv ∈ l /\
     (b = glm_abs (vx (pv_pos pv)) \/ b = glm_abs (vy (pv_pos pv)))).
Proof.
  induction l as [|pv l IH]; intros b0; cbn [fold_left].
  - split; [lra|]. split; [|now left]. intros pv Hpv. now apply elem_of_nil in Hpv.
  - destruct (IH (step_bound b0 pv)) as (H1 & H2 & H3).
    set (b := fold_left step_bound l (step_bound b0 pv)) in *.
    assert (Hx : (glm_abs (vx (pv_pos pv)) <= step_bound b0 pv)%Q).
    { unfold step_bound. eapply Qle_trans; [|apply glm_max_le_r].
      apply glm_max_le_l. }
    assert (Hy : (glm_abs (vy (pv_pos pv)) <= step_bound b0 pv)%Q).
    { unfold step_bound. eapply Qle_trans; [|apply glm_max_le_r].
      apply glm_max_le_r. }
    assert (H0 : (b0 <= step_bound b0 pv)%Q) by apply glm_max_le_l.
    split; [lra|]. split.
    + intros pv' Hpv. apply elem_of_cons in Hpv as [->|Hpv]; [split; lra|].
      now apply H2.
    + destruct H3 as [H3|(pv' & Hpv & H3)].
      * rewrite H3. unfold step_bound.
        destruct (glm_max_cases b0 (glm_max (glm_abs (vx (pv_pos pv)))
                                            (glm_abs (vy (pv_pos pv)))))
          as [->| ->]; [now left|].
        right. exists pv. split; [apply elem_of_cons; now left|].
        apply glm_max_cases.
      * right. exists pv'. split; [apply elem_of_cons; now right|done].
Qed.

(** C7.  With a negative caller-supplied precision the constructor uses
    [bound * kTolerance], where [bound] is the largest [|x|] or [|y|] of the
    input verts ([0] when there is none) and [kTolerance] is 2^-13; a
    non-negative precision is used unchanged.  The sweeps do not alter the
    value that [GetPrecision] returns. *)
Theorem precision_choice fuel cfg polys precision :
  ((precision < 0)%Q ->
     chosen_precision polys precision = (bound_of polys * kTolerance)%Q) /\
  ((0 <= precision)%Q -> chosen_precision polys precision = precision) /\
  (kTolerance == 1 / 2 ^ 13)%Q /\
  (forall pv, pv ∈ concat polys ->
     (glm_abs (vx (pv_pos pv)) <= bound_of polys)%Q /\
     (glm_abs (vy (pv_pos pv)) <= bound_of polys)%Q) /\
  (bound_of polys = 0%Q \/
   exists pv, pv ∈ concat polys /\
     (bound_of polys = glm_abs (vx (pv_pos pv)) \/
      bound_of polys = glm_abs (vy (pv_pos pv)))) /\
  (forall u s, Monotones_init polys (empty_Monotones precision) = Ret u s ->
     GetPrecision s = chosen_precision polys precision) /\
  holds_after (Monotones_ctor fuel cfg polys) (empty_Monotones precision)
    (fun s => GetPrecision s = chosen_precision polys precision).
Proof.
  unfold chosen_precision.
  split; [intros H; apply Qltb_lt in H; now rewrite H|].
  split; [intros H; apply Qltb_ge in H; now rewrite H|].
  split; [reflexivity|].
  destruct (fold_bound_spec (concat polys) 0%Q) as (_ & H2 & H3).
  split; [exact H2|]. split; [exact H3|].
  split; [intros u s H; now apply Monotones_init_spec in H|].
  rewrite Monotones_ctor_eq. apply holds_after_bind.
  - apply throws_Monotones_init.
  - intros u s E. apply Monotones_init_spec in E as [_ E].
    pose proof (keeps_Monotones_sweeps fuel cfg s) as H.
    unfold holds_after in *. unfold GetPrecision.
    destruct (Monotones_sweeps fuel cfg s) as [? s'|? s'| |]; try done;
      destruct H as [H _]; now rewrite H.
Qed.

Lemma precision_choice_witness :
  chosen_precision (index_polys 0 unit_square) (-1)
  = (bound_of (index_polys 0 unit_square) * kTolerance)%Q /\
  (bound_of (index_polys 0 unit_square) * kTolerance == 1 # 8192)%Q.
Proof.
  split; [|vm_compute; reflexivity].
  apply (proj1 (precision_choice 0 strict_checked
                  (index_polys 0 unit_square) (-1))).
  reflexivity.
Defined.

(** ** The entry point in a build without [MANIFOLD_DEBUG] *)

Definition release (p : ExecutionParams) : Config := mkConfig false p.

(** C10.  Compiled without [MANIFOLD_DEBUG], [TriangulateIdx] lets no
    exception out: whatever is thrown while the monotones are built or
    triangulated is caught, and the triangles produced up to the throw
    (possibly none) are returned. *)
Theorem TriangulateIdx_release fuel cfg polys precision :
  MANIFOLD_DEBUG cfg = false ->
  (forall e, TriangulateIdx fuel cfg polys precision <> Exc e tt) /\
  (forall e st,
      TriangulateIdx_try fuel cfg polys
        (mkTState (empty_Monotones precision) []) = Exc e st ->
      TriangulateIdx fuel cfg polys precision = Ret (triangles st) tt) /\
  (forall u st,
      TriangulateIdx_try fuel cfg polys
        (mkTState (empty_Monotones precision) []) = Ret u st ->
      TriangulateIdx fuel cfg polys precision = Ret (triangles st) tt).
Proof.
  intros Hrel. unfold TriangulateIdx. rewrite Hrel.
  repeat split.
  - intros e.
    destruct (TriangulateIdx_try fuel cfg polys
                (mkTState (empty_Monotones precision) [])); discriminate.
  - intros e st ->. reflexivity.
  - intros u st ->. reflexivity.
Qed.

(** A unit square followed by a polygon of two verts: the square is
    triangulated, then the second monotone produces no triangle and
    [Triangulate] throws. *)
Definition square_and_segment : list (list vec2) :=
  [[pt 0 0; pt 1 0; pt 1 1; pt 0 1]; [pt 5 5; pt 6 6]].

Lemma TriangulateIdx_release_witness :
  exists st,
    TriangulateIdx_try 100 (release (mkParams false false false false))
      (index_polys 0 square_and_segment)
      (mkTState (empty_Monotones (1 # 10000)) []) = Exc topologyErr st /\
    TriangulateIdx 100 (release (mkParams false false false false))
      (index_polys 0 square_and_segment) (1 # 10000)
    = Ret [(2, 0, 1); (3, 0, 2)] tt.
Proof.
  eexists. split; [vm_compute; reflexivity|].
  pose proof (TriangulateIdx_release 100
                (release (mkParams false false false false))
                (index_polys 0 square_and_segment) (1 # 10000) eq_refl)
    as (_ & H & _).
  erewrite H; [|vm_compute; reflexivity]. reflexivity.
Defined.

(** ** The overlap policy *)

(** What a failed [OVERLAP_ASSERT] makes of the sweep: [geometryErr] when the
    build has [MANIFOLD_DEBUG] and [processOverlaps] is unset, and the
    soft-fail return ([return true]) otherwise. *)
Definition overlap_failure {A} (cfg : Config) (s : Monotones)
  : outcome Monotones (bool + A) :=
  if MANIFOLD_DEBUG cfg && negb (processOverlaps (params cfg))
  then Exc geometryErr s
  else Ret (inl true) s.

Definition sweep_failure (cfg : Config) (s : Monotones)
  : outcome Monotones bool :=
  if MANIFOLD_DEBUG cfg && negb (processOverlaps (params cfg))
  then Exc geometryErr s
  else Ret true s.

Lemma OVERLAP_ASSERT_false {A} cfg (k : MM (bool + A)) s :
  OVERLAP_ASSERT cfg false k s = overlap_failure cfg s.
Proof.
  unfold OVERLAP_ASSERT, OverlapAssert, overlap_failure.
  destruct (MANIFOLD_DEBUG cfg), (processOverlaps (params cfg)); reflexivity.
Qed.

Lemma OVERLAP_ASSERT_true {A} cfg (k : MM (bool + A)) s :
  OVERLAP_ASSERT cfg true k s = k s.
Proof.
  unfold OVERLAP_ASSERT, OverlapAssert.
  destruct (MANIFOLD_DEBUG cfg), (processOverlaps (params cfg)); cbn;
    try reflexivity; unfold bind; cbn; now destruct (k s).
Qed.

Lemma overlap_failure_loop {A} cfg s (k : bool + A -> MM bool) :
  (forall b, k (inl b) = ret b) ->
  bind (fun _ => overlap_failure cfg s) k s = sweep_failure cfg s.
Proof.
  intros Hk. unfold bind, overlap_failure, sweep_failure.
  destruct (MANIFOLD_DEBUG cfg && negb (processOverlaps (params cfg)));
    [reflexivity|]. now rewrite Hk.
Qed.

(** A polygon that crosses itself, triangulated with the coarse precision
    [2]: no two of its verts have the same [y], so the order of the forward
    sweep does not depend on how ties are broken. *)
Definition crossing_polygon : list (list vec2) :=
  [[pt 9 0; pt 9 5; pt 1 2; pt 7 4; pt 6 6; pt 4 8]].

(** The object after the constructor's loops and the forward sweep, which
    returns [false]. *)
Definition crossing_swept : Monotones :=
  Eval vm_compute in
    state_of ((Monotones_init (index_polys 0 crossing_polygon) ;;
               SweepForward 100 strict_checked)%m (empty_Monotones 2)).

(** The object when the backward sweep comes to the vert of mesh index [5]:
    the flags have been reset and the verts [1], [4] and the copy [6] that
    [SplitVerts] made have had their turn. *)
Definition crossing_at_skip : Monotones :=
  Eval vm_compute in
    state_of ((ring <- gets monotones_ ;;
               SetProcessed_all false ring ;;
               SweepBack_step strict_checked (vAt 1) ;;
               SweepBack_step strict_checked (vAt 4) ;;
               SweepBack_step strict_checked (vAt 6))%m crossing_swept).

(** C5 (as amended).  The backward sweep does classify verts [Skip]: the
    classifier it shares with the forward sweep keeps its geometric skip
    tests, and the run on [crossing_polygon] below meets one.  A vert that
    the backward sweep classifies [Skip] makes the run fail, and the sweep
    never goes on past it: [geometryErr] is raised when the build has
    [MANIFOLD_DEBUG] and [processOverlaps] is unset; otherwise --
    [processOverlaps] set, or a build without [MANIFOLD_DEBUG] -- the sweep
    returns the soft-fail value. *)
Theorem SweepBack_skip_policy cfg vert s V s1 :
  vert_at vert s = Ret V s -> Processed V = false ->
  ProcessVert vert s = Ret Skip s1 ->
  SweepBack_dispatch cfg vert Skip s1 = overlap_failure cfg s1 /\
  SweepBack_step cfg vert s = overlap_failure cfg s1 /\
  (forall v' s', SweepBack_step cfg vert s <> Ret (inr v') s') /\
  (forall fuel cur,
      cur <> v_of (head (monotones_ s)) -> vprev cur s = Ret vert s ->
      SweepBack_loop (S fuel) cfg cur s = sweep_failure cfg s1) /\
  (MANIFOLD_DEBUG cfg = true -> processOverlaps (params cfg) = false ->
     sweep_failure cfg s1 = Exc geometryErr s1) /\
  (processOverlaps (params cfg) = true -> sweep_failure cfg s1 = Ret true s1) /\
  (MANIFOLD_DEBUG cfg = false -> sweep_failure cfg s1 = Ret true s1).
Proof.
  intros HV HP HS.
  assert (Hd : SweepBack_dispatch cfg vert Skip s1 = overlap_failure cfg s1)
    by apply OVERLAP_ASSERT_false.
  assert (Hstep : SweepBack_step cfg vert s = overlap_failure cfg s1).
  { unfold SweepBack_step. rewrite (bind_of_Ret _ _ _ _ _ HV), HP.
    now rewrite (bind_of_Ret _ _ _ _ _ HS). }
  split; [done|]. split; [done|]. split.
  { intros v' s'. rewrite Hstep. unfold overlap_failure.
    destruct (MANIFOLD_DEBUG cfg && negb (processOverlaps (params cfg)));
      discriminate. }
  split.
  { intros fuel cur Hne Hprev. cbn [SweepBack_loop].
    unfold bind at 1. unfold vbegin, gets.
    rewrite bool_decide_eq_false_2 by done.
    rewrite (bind_of_Ret _ _ _ _ _ Hprev).
    unfold bind. rewrite Hstep. unfold overlap_failure, sweep_failure.
    destruct (MANIFOLD_DEBUG cfg && negb (processOverlaps (params cfg)));
      reflexivity. }
  unfold sweep_failure. repeat split.
  - intros -> ->. reflexivity.
  - intros ->. now rewrite andb_false_r.
  - intros ->. reflexivity.
Qed.

Lemma SweepBack_skip_policy_witness :
  SweepBack_step strict_checked (vAt 5) crossing_at_skip
  = Exc geometryErr crossing_at_skip /\
  SweepBack_loop 97 (release (mkParams false false false false)) (vAt 6)
    crossing_at_skip
  = Ret true crossing_at_skip.
Proof.
  split.
  - refine (proj1 (proj2 (SweepBack_skip_policy strict_checked (vAt 5)
                            crossing_at_skip _ crossing_at_skip _ _ _)));
      vm_compute; reflexivity.
  - refine (proj1 (proj2 (proj2 (proj2
              (SweepBack_skip_policy
                 (release (mkParams false false false false)) (vAt 5)
                 crossing_at_skip _ crossing_at_skip _ _ _)))) 96%nat (vAt 6) _ _);
      try (vm_compute; reflexivity).
    discriminate.
Defined.

(** C5 (as stated) fails on a run of the public entry point.  On
    [crossing_polygon] with precision [2] the forward sweep returns [false]
    and the backward sweep is run; it visits the verts [1], [4] and [6] and
    then classifies the vert [5] [Skip].  In a build without
    [MANIFOLD_DEBUG] nothing is raised although [processOverlaps] is unset:
    the sweep returns the soft-fail value and [Triangulate] returns
    triangles. *)
Lemma SweepBack_skip_counterexample :
  let cfg := release (mkParams false false false false) in
  let polys := index_polys 0 crossing_polygon in
  processOverlaps (params cfg) = false /\
  (Monotones_init polys ;; SweepForward 100 cfg)%m (empty_Monotones 2)
  = Ret false crossing_swept /\
  Check 100 cfg crossing_swept = Ret tt crossing_swept /\
  (ring <- gets monotones_ ;;
   SetProcessed_all false ring ;;
   vert <- vprev vEnd ;;
   r1 <- SweepBack_step cfg vert ;;
   vert <- vprev (match r1 with inr v => v | inl _ => vNone end) ;;
   r2 <- SweepBack_step cfg vert ;;
   vert <- vprev (match r2 with inr v => v | inl _ => vNone end) ;;
   r3 <- SweepBack_step cfg vert ;;
   vprev (match r3 with inr v => v | inl _ => vNone end))%m crossing_swept
  = Ret (vAt 5) crossing_at_skip /\
  ProcessVert (vAt 5) crossing_at_skip = Ret Skip crossing_at_skip /\
  SweepBack 100 cfg crossing_swept = Ret true crossing_at_skip /\
  Monotones_ctor 100 cfg polys (empty_Monotones 2) = Ret tt crossing_at_skip /\
  Triangulate_polygons 100 cfg crossing_polygon 2
  = Ret [(4, 5, 0); (1, 4, 0); (4, 2, 3); (1, 2, 4)] tt.
Proof. repeat split; vm_compute; reflexivity. Qed.

(** *** The forward sweep *)

Lemma SweepForward_soft_fail fuel cfg s0 s' :
  SweepForward fuel cfg s0 = Ret true s' ->
  Monotones_sweeps fuel cfg s0 = Ret tt s' /\ same_ring s0 s'.
Proof.
  intros H. split.
  - unfold Monotones_sweeps. now rewrite (bind_of_Ret _ _ _ _ _ H).
  - eapply keeps_Ret; [apply keeps_SweepForward|exact H].
Qed.

(** C3 (as amended).  Each of the three overlap detections of the forward
    sweep -- the chosen vert is past the vert skipped last; a [Skip] while
    [insertAt] is the last vert of the list; a [Skip] with nothing queued --
    raises [geometryErr] when the build has [MANIFOLD_DEBUG] and
    [processOverlaps] is unset, and otherwise ([processOverlaps] set, or a
    build without [MANIFOLD_DEBUG]) makes the sweep return the soft-fail
    value.  After a soft fail the constructor returns at once, so the backward
    sweep is not run, and [Triangulate] runs on the ring as the forward sweep
    left it: positions, mesh indices and [left]/[right] links are those of
    the input, while the order of the list may already be permuted. *)
Theorem forward_overlap_policy cfg sv s vert sv1 s1 V :
  choose_vert sv s = Ret (vert, sv1) s1 ->
  vert_at vert s1 = Ret V s1 -> Processed V = false ->
  (not_past_skipped vert sv1 s1 = Ret false s1 ->
     SweepForward_step cfg sv s = overlap_failure cfg s1) /\
  (forall s2 n,
      not_past_skipped vert sv1 s1 = Ret true s1 ->
      classify vert s1 = Ret Skip s2 ->
      vnext (insertAt sv1) s2 = Ret n s2 ->
      n = vEnd \/ (nextAttached sv1 = [] /\ starts sv1 = []) ->
      SweepForward_step cfg sv s = overlap_failure cfg s2) /\
  (forall fuel s',
      insertAt sv <> vEnd ->
      SweepForward_step cfg sv s = overlap_failure cfg s' ->
      SweepForward_loop (S fuel) cfg sv s = sweep_failure cfg s') /\
  (forall s', MANIFOLD_DEBUG cfg = true -> processOverlaps (params cfg) = false ->
     sweep_failure cfg s' = Exc geometryErr s') /\
  (forall s', processOverlaps (params cfg) = true ->
     sweep_failure cfg s' = Ret true s') /\
  (forall s', MANIFOLD_DEBUG cfg = false -> sweep_failure cfg s' = Ret true s') /\
  (forall fuel s0 s',
      SweepForward fuel cfg s0 = Ret true s' ->
      Monotones_sweeps fuel cfg s0 = Ret tt s' /\ same_ring s0 s') /\
  (forall fuel polys precision s0 s',
      Monotones_init polys (empty_Monotones precision) = Ret tt s0 ->
      SweepForward fuel cfg s0 = Ret true s' ->
      TriangulateIdx_try fuel cfg polys
        (mkTState (empty_Monotones precision) [])
      = (Triangulate fuel ;; post_checks cfg polys) (mkTState s' [])).
Proof.
  intros Hc HV HP.
  assert (Hstep : SweepForward_step cfg sv s
    = (notPast <- not_past_skipped vert sv1 ;;
       OVERLAP_ASSERT cfg notPast
         (type <- classify vert ;;
          if bool_decide (type = Skip) then skip_vert cfg vert sv1
          else sv' <- commit_vert vert type sv1 ;; ret (inr sv'))) s1).
  { unfold SweepForward_step. rewrite (bind_of_Ret _ _ _ _ _ Hc).
    cbv beta iota. now rewrite (bind_of_Ret _ _ _ _ _ HV), HP. }
  split.
  { intros Hn. rewrite Hstep, (bind_of_Ret _ _ _ _ _ Hn).
    apply OVERLAP_ASSERT_false. }
  split.
  { intros s2 n Hn Hcl Hnext Hd.
    rewrite Hstep, (bind_of_Ret _ _ _ _ _ Hn), OVERLAP_ASSERT_true.
    rewrite (bind_of_Ret _ _ _ _ _ Hcl).
    rewrite bool_decide_eq_true_2 by done.
    unfold skip_vert. rewrite (bind_of_Ret _ _ _ _ _ Hnext).
    destruct (decide (n = vEnd)) as [->|Hne].
    - rewrite bool_decide_eq_true_2 by done. apply OVERLAP_ASSERT_false.
    - rewrite bool_decide_eq_false_2 by done. cbn [negb].
      rewrite OVERLAP_ASSERT_true.
      destruct Hd as [Hd|[-> ->]]; [done|].
      rewrite !bool_decide_eq_true_2 by done. apply OVERLAP_ASSERT_false. }
  split.
  { intros fuel s' Hne Hs. cbn [SweepForward_loop].
    rewrite bool_decide_eq_false_2 by done.
    unfold bind. rewrite Hs. unfold overlap_failure, sweep_failure.
    destruct (MANIFOLD_DEBUG cfg && negb (processOverlaps (params cfg)));
      reflexivity. }
  unfold sweep_failure.
  split; [intros s' -> ->; reflexivity|].
  split; [intros s' ->; now rewrite andb_false_r|].
  split; [intros s' ->; reflexivity|].
  split; [intros fuel s0 s'; apply SweepForward_soft_fail|].
  intros fuel polys precision s0 s' Hi Hf.
  rewrite TriangulateIdx_try_split.
  rewrite (bind_of_Ret (lift (Monotones_init polys)) _ _ tt (mkTState s0 []))
    by (unfold lift; cbn; now rewrite Hi).
  apply SweepForward_soft_fail in Hf as [Hf _].
  rewrite (bind_of_Ret (lift (Monotones_sweeps fuel cfg)) _ _ tt
                       (mkTState s' []))
    by (unfold lift; cbn; now rewrite Hf).
  reflexivity.
Qed.

(** A single triangle wound clockwise, [(0,0), (0,1), (1,0)]: its start can
    be placed nowhere and is skipped with nothing else queued. *)
Definition cw_triangle : list (list vec2) := [[pt 0 0; pt 0 1; pt 1 0]].

Definition cw_ring : Monotones :=
  Eval vm_compute in
    state_of (Monotones_init (index_polys 0 cw_triangle)
                             (empty_Monotones (1 # 10000))).

Definition cw_vars : SweepVars :=
  mkSweepVars [] [vAt 0] [] (vAt 0).

Definition cw_skipped : Monotones :=
  Eval vm_compute in state_of (classify (vAt 0) cw_ring).

Lemma forward_overlap_policy_witness :
  SweepForward_init cw_ring = Ret cw_vars cw_ring /\
  SweepForward_step strict_checked cw_vars cw_ring
  = Exc geometryErr cw_skipped /\
  SweepForward_step (mkConfig true (mkParams false false true false))
                    cw_vars cw_ring
  = Ret (inl true) cw_skipped.
Proof.
  split; [vm_compute; reflexivity|]. split.
  - refine (proj1 (proj2 (forward_overlap_policy strict_checked cw_vars cw_ring
                            (vAt 0) (mkSweepVars [] [] [] (vAt 0)) cw_ring
                            _ _ _ _))
              cw_skipped (vAt 1) _ _ _ _);
      try (vm_compute; reflexivity).
    right. split; reflexivity.
  - refine (proj1 (proj2 (forward_overlap_policy
                            (mkConfig true (mkParams false false true false))
                            cw_vars cw_ring
                            (vAt 0) (mkSweepVars [] [] [] (vAt 0)) cw_ring
                            _ _ _ _))
              cw_skipped (vAt 1) _ _ _ _);
      try (vm_compute; reflexivity).
    right. split; reflexivity.
Defined.

(** A clockwise triangle above a counter-clockwise one: the lower triangle is
    swept first, which permutes the list, before the overlap is detected. *)
Definition cw_above_ccw : list (list vec2) :=
  [[pt 0 10; pt 0 11; pt 1 10]; [pt 0 0; pt 1 0; pt 0 1]].

Definition cw_above_ccw_ring : Monotones :=
  Eval vm_compute in
    state_of (Monotones_init (index_polys 0 cw_above_ccw)
                             (empty_Monotones (1 # 10000))).

(** C3 (as stated) fails on two counts.  In a build without [MANIFOLD_DEBUG]
    the detection raises nothing although [processOverlaps] is unset: the
    sweep soft-fails and triangles are returned.  And the ring handed to the
    triangulator after a soft fail is not the unmodified one: the order of
    its list has been permuted. *)
Lemma forward_overlap_counterexample :
  let cfg := release (mkParams false false false false) in
  let soft := mkConfig true (mkParams false false true false) in
  processOverlaps (params cfg) = false /\
  (exists s', SweepForward 100 cfg cw_ring = Ret true s') /\
  TriangulateIdx 100 cfg (index_polys 0 cw_triangle) (1 # 10000)
  = Ret [(2, 0, 1)] tt /\
  monotones_ cw_above_ccw_ring = [0; 1; 2; 3; 4; 5]%nat /\
  (exists s', SweepForward 100 soft cw_above_ccw_ring = Ret true s' /\
              monotones_ s' = [4; 3; 5; 0; 1; 2]%nat).
Proof.
  cbv zeta. split; [reflexivity|].
  split; [eexists; vm_compute; reflexivity|].
  split; [vm_compute; reflexivity|].
  split; [reflexivity|].
  eexists. split; vm_compute; reflexivity.
Qed.

(** ** The vertex classifier *)

(** The edge lists are the same. *)
Definition same_edge_lists (s s' : Monotones) : Prop :=
  activeEdges_ s' = activeEdges_ s /\ inactiveEdges_ s' = inactiveEdges_ s.

#[global] Instance same_edge_lists_preorder : PreOrder same_edge_lists.
Proof.
  split.
  - intros s. split; reflexivity.
  - intros a b c [H1 H2] [H3 H4]. split; congruence.
Qed.

Lemma lists_vert_at v : keeps same_edge_lists (vert_at v).
Proof.
  intros s. unfold holds_after, vert_at.
  destruct v; try done. destruct (verts s !! n); try done; reflexivity.
Qed.
Lemma lists_edge_at e : keeps same_edge_lists (edge_at e).
Proof.
  intros s. unfold holds_after, edge_at.
  destruct e; try done. destruct (edges s !! n); try done; reflexivity.
Qed.
Lemma lists_vert_upd v f : keeps same_edge_lists (vert_upd v f).
Proof.
  intros s. unfold holds_after, vert_upd.
  destruct v; try done. destruct (verts s !! n); try done.
Qed.
Lemma lists_edge_upd e f : keeps same_edge_lists (edge_upd e f).
Proof.
  intros s. unfold holds_after, edge_upd.
  destruct e; try done. destruct (edges s !! n); try done.
Qed.
#[global] Hint Resolve lists_vert_at lists_edge_at lists_vert_upd
  lists_edge_upd : keeps.

Lemma enext_same_lists e s n s1 s' :
  enext e s = Ret n s1 -> same_edge_lists s s' -> enext e s' = Ret n s'.
Proof.
  intros H [Ha Hi]. unfold enext, bind, gets, ret, undef in *.
  destruct e as [m| | |]; try done. rewrite Ha.
  destruct (list_next (activeEdges_ s) m) as [[?|]|];
    [congruence|congruence|].
  rewrite Hi.
  destruct (list_next (inactiveEdges_ s) m) as [[?|]|]; congruence.
Qed.

(** The updates of the classifier when both neighbours are processed and
    their edges are next to each other. *)
Definition close_pair (vert : VertItr) (eR eL : EdgeItr) : MM unit :=
  edge_upd eR (set_south vert) ;;
  edge_upd eL (set_south vert) ;;
  vert_upd vert (set_edgeR eR) ;;
  vert_upd vert (set_edgeL eL) ;;
  EL <- edge_at eL ;;
  ER <- edge_at eR ;;
  LinkEdges (linked EL) (linked ER).

Lemma lists_close_pair v eR eL : keeps same_edge_lists (close_pair v eR eL).
Proof. unfold close_pair, LinkEdges. keeps_auto. Qed.

Lemma bind_assoc {S A B C} (m : M S A) (k : A -> M S B) (h : B -> M S C) s :
  bind (bind m k) h s = bind m (fun a => bind (k a) h) s.
Proof. unfold bind. destruct (m s); reflexivity. Qed.

Lemma bind_ret_l {S A B} (a : A) (k : A -> M S B) s : bind (ret a) k s = k a s.
Proof. reflexivity. Qed.

Lemma bind_ext {S A B} (m : M S A) (k k' : A -> M S B) s :
  (forall a s', k a s' = k' a s') -> bind m k s = bind m k' s.
Proof. intros H. unfold bind. destruct (m s); auto. Qed.

Lemma ProcessVert_both vert s V L R :
  vert_at vert s = Ret V s -> vert_at (left V) s = Ret L s ->
  vert_at (right V) s = Ret R s ->
  Processed R = true -> Processed L = true ->
  ProcessVert vert s
  = (skip <- andM (n <- enext (edgeL R) ;;
                   ret (negb (bool_decide (n = edgeR L))))
                  (n <- enext (edgeR L) ;;
                   ret (negb (bool_decide (n = edgeL R)))) ;;
     if skip then ret Skip
     else close_pair vert (edgeL R) (edgeR L) ;;
          n <- enext (edgeL R) ;;
          if bool_decide (n = edgeR L) then ret End else ret Merge) s.
Proof.
  intros HV HL HR PR PL. unfold ProcessVert.
  rewrite (bind_of_Ret _ _ _ _ _ HV), (bind_of_Ret _ _ _ _ _ HR), PR.
  rewrite (bind_of_Ret _ _ _ _ _ HL), PL.
  apply bind_ext. intros [] s'; [reflexivity|].
  unfold close_pair, bind.
  repeat match goal with
         | |- context [match ?m ?x with Ret _ _ => _ | _ => _ end] =>
             destruct (m x); try reflexivity
         end.
Qed.

(** C4.  The classifier [ProcessVert], by the state of the two neighbours of
    the vert: none processed, [Start]; only the right one, [Backward] unless
    the skip test fires, then [Skip]; only the left one, [Forward] or [Skip]
    likewise; both, [Skip] when the incident edges [v.right.edgeL] and
    [v.left.edgeR] are not next to each other in the edge list, [End] when
    [v.left.edgeR] follows [v.right.edgeL] (facing in), and [Merge] when
    [v.right.edgeL] follows [v.left.edgeR] (facing out). *)
Theorem ProcessVert_classification vert s V L R :
  vert_at vert s = Ret V s -> vert_at (left V) s = Ret L s ->
  vert_at (right V) s = Ret R s ->
  (Processed R = false -> Processed L = false ->
     ProcessVert vert s = Ret Start s) /\
  (Processed R = true -> Processed L = false ->
     forall fwdEdge, enext (edgeL R) s = Ret fwdEdge s ->
       (skip_backward vert fwdEdge s = Ret true s ->
          ProcessVert vert s = Ret Skip s) /\
       (skip_backward vert fwdEdge s = Ret false s ->
          forall s', UpdateEdge (edgeL R) vert s = Ret tt s' ->
                     ProcessVert vert s = Ret Backward s')) /\
  (Processed R = false -> Processed L = true ->
     forall bwdEdge, eprev (edgeR L) s = Ret bwdEdge s ->
       (skip_forward vert bwdEdge s = Ret true s ->
          ProcessVert vert s = Ret Skip s) /\
       (skip_forward vert bwdEdge s = Ret false s ->
          forall s', UpdateEdge (edgeR L) vert s = Ret tt s' ->
                     ProcessVert vert s = Ret Forward s')) /\
  (Processed R = true -> Processed L = true ->
     forall nR, enext (edgeL R) s = Ret nR s ->
       (nR = edgeR L ->
          forall s', close_pair vert (edgeL R) (edgeR L) s = Ret tt s' ->
                     ProcessVert vert s = Ret End s') /\
       (nR <> edgeR L ->
          forall nL, enext (edgeR L) s = Ret nL s ->
            (nL <> edgeL R -> ProcessVert vert s = Ret Skip s) /\
            (nL = edgeL R ->
               forall s', close_pair vert (edgeL R) (edgeR L) s = Ret tt s' ->
                          ProcessVert vert s = Ret Merge s'))).
Proof.
  intros HV HL HR. split; [|split; [|split]].
  - intros PR PL. unfold ProcessVert.
    rewrite (bind_of_Ret _ _ _ _ _ HV), (bind_of_Ret _ _ _ _ _ HR), PR.
    now rewrite (bind_of_Ret _ _ _ _ _ HL), PL.
  - intros PR PL fwdEdge Hn.
    assert (E : ProcessVert vert s
                = (skip <- skip_backward vert fwdEdge ;;
                   if skip then ret Skip
                   else UpdateEdge (edgeL R) vert ;; ret Backward) s).
    { unfold ProcessVert.
      rewrite (bind_of_Ret _ _ _ _ _ HV), (bind_of_Ret _ _ _ _ _ HR), PR.
      rewrite (bind_of_Ret _ _ _ _ _ HL), PL.
      now rewrite (bind_of_Ret _ _ _ _ _ Hn). }
    split.
    + intros Hs. now rewrite E, (bind_of_Ret _ _ _ _ _ Hs).
    + intros Hs s' Hu.
      now rewrite E, (bind_of_Ret _ _ _ _ _ Hs), (bind_of_Ret _ _ _ _ _ Hu).
  - intros PR PL bwdEdge Hn.
    assert (E : ProcessVert vert s
                = (skip <- skip_forward vert bwdEdge ;;
                   if skip then ret Skip
                   else UpdateEdge (edgeR L) vert ;; ret Forward) s).
    { unfold ProcessVert.
      rewrite (bind_of_Ret _ _ _ _ _ HV), (bind_of_Ret _ _ _ _ _ HR), PR.
      rewrite (bind_of_Ret _ _ _ _ _ HL), PL.
      now rewrite (bind_of_Ret _ _ _ _ _ Hn). }
    split.
    + intros Hs. now rewrite E, (bind_of_Ret _ _ _ _ _ Hs).
    + intros Hs s' Hu.
      now rewrite E, (bind_of_Ret _ _ _ _ _ Hs), (bind_of_Ret _ _ _ _ _ Hu).
  - intros PR PL nR HnR.
    rewrite (ProcessVert_both _ _ _ _ _ HV HL HR PR PL).
    unfold andM. rewrite !bind_assoc, (bind_of_Ret _ _ _ _ _ HnR).
    rewrite bind_ret_l.
    split.
    + intros -> s' Hc.
      rewrite bool_decide_eq_true_2 by done. cbn [negb].
      rewrite bind_ret_l, (bind_of_Ret _ _ _ _ _ Hc).
      pose proof (keeps_Ret _ _ _ _ _ (lists_close_pair _ _ _) Hc) as Hl.
      rewrite (bind_of_Ret _ _ _ _ _ (enext_same_lists _ _ _ _ _ HnR Hl)).
      now rewrite bool_decide_eq_true_2.
    + intros Hne nL HnL.
      rewrite bool_decide_eq_false_2 by done. cbn [negb].
      rewrite !bind_assoc, (bind_of_Ret _ _ _ _ _ HnL), bind_ret_l.
      split.
      * intros Hne'. rewrite bool_decide_eq_false_2 by done. reflexivity.
      * intros -> s' Hc. rewrite bool_decide_eq_true_2 by done. cbn [negb].
        rewrite (bind_of_Ret _ _ _ _ _ Hc).
        pose proof (keeps_Ret _ _ _ _ _ (lists_close_pair _ _ _) Hc) as Hl.
        rewrite (bind_of_Ret _ _ _ _ _ (enext_same_lists _ _ _ _ _ HnR Hl)).
        now rewrite bool_decide_eq_false_2.
Qed.

(** [n] iterations of the loop body of [SweepForward], to reach states in
    the middle of a sweep. *)
Fixpoint run_steps (n : nat) (cfg : Config) (sv : SweepVars) : MM SweepVars :=
  match n with
  | O => ret sv
  | S n =>
      r <- SweepForward_step cfg sv ;;
      match r with
      | inl _ => ret sv
      | inr sv' => run_steps n cfg sv'
      end
  end.

(** The unit square after three of its four verts are swept. *)
Definition square_swept3 : Monotones :=
  Eval vm_compute in
    state_of ((sv <- SweepForward_init ;; run_steps 3 strict_checked sv)
                square_ring).

Lemma ProcessVert_classification_witness :
  exists s', ProcessVert (vAt 3) square_swept3 = Ret End s'.
Proof.
  eexists.
  refine (proj1 (proj2 (proj2 (proj2
            (ProcessVert_classification (vAt 3) square_swept3 _ _ _ _ _ _)))
            _ _ (eAt 0) _) _ _ _);
    try (vm_compute; reflexivity).
Defined.

(** ** The order of the queue and of the starts *)

(** The [y] coordinate of the vert an iterator designates. *)
Definition y_of (s : Monotones) (v : VertItr) : Q :=
  match v with
  | vAt n => match verts s !! n with Some V => vy (pos V) | None => 0 end
  | _ => 0
  end.

Definition valid (s : Monotones) (v : VertItr) : Prop :=
  exists V, vert_at v s = Ret V s.

Lemma cmp_Ret a b s c s' :
  cmp a b s = Ret c s' ->
  s' = s /\ valid s a /\ valid s b /\ c = Qltb (y_of s b) (y_of s a).
Proof.
  unfold cmp. intros H.
  apply bind_Ret in H as (A & s1 & HA & H).
  pose proof (vert_at_Ret _ _ _ _ HA) as (-> & n & -> & En).
  apply bind_Ret in H as (B & s1 & HB & H).
  pose proof (vert_at_Ret _ _ _ _ HB) as (-> & m & -> & Em).
  injection H as <- <-. split; [done|].
  split; [now exists A|]. split; [now exists B|].
  unfold VertAdj_lt, y_of. now rewrite En, Em.
Qed.

Lemma cmp_eq a b s A B :
  vert_at a s = Ret A s -> vert_at b s = Ret B s ->
  cmp a b s = Ret (Qltb (vy (pos B)) (vy (pos A))) s.
Proof.
  intros HA HB. unfold cmp.
  now rewrite (bind_of_Ret _ _ _ _ _ HA), (bind_of_Ret _ _ _ _ _ HB).
Qed.

(** [pq_best]: the running best is an element of least [y] among those
    seen. *)
Lemma pq_best_spec l : forall best bv i done s r s',
  pq_best best bv i l s = Ret r s' ->
  (done ++ l) !! best = Some bv -> length done = i -> (best < i)%nat ->
  valid s bv ->
  (forall e, e ∈ done -> valid s e /\ (y_of s bv <= y_of s e)%Q) ->
  s' = s /\ exists t, (done ++ l) !! r = Some t /\
    forall e, e ∈ done ++ l -> valid s e /\ (y_of s t <= y_of s e)%Q.
Proof.
  induction l as [|e l IH]; intros best bv i done s r s' H Hb Hi Hlt Hv Hd;
    cbn [pq_best] in H.
  - injection H as <- <-. split; [done|]. exists bv. split; [done|].
    rewrite app_nil_r. exact Hd.
  - inv_bind H. apply cmp_Ret in H0 as (-> & _ & Hve & ->).
    replace (done ++ e :: l) with ((done ++ [e]) ++ l) in *
      by (rewrite <- app_assoc; reflexivity).
    destruct (Qltb (y_of s e) (y_of s bv)) eqn:E.
    + apply (IH _ _ _ (done ++ [e]) _ _ _ H).
      * rewrite lookup_app_l by (rewrite length_app; cbn; lia).
        rewrite lookup_app_r by lia. subst i. now rewrite Nat.sub_diag.
      * rewrite length_app. cbn. lia.
      * lia.
      * done.
      * intros x Hx. apply elem_of_app in Hx as [Hx|Hx].
        -- destruct (Hd x Hx) as [Hvx Hle]. split; [done|].
           apply Qltb_lt in E. lra.
        -- apply list_elem_of_singleton in Hx as ->. split; [done|lra].
    + apply (IH _ _ _ (done ++ [e]) _ _ _ H).
      * exact Hb.
      * rewrite length_app. cbn. lia.
      * lia.
      * done.
      * intros x Hx. apply elem_of_app in Hx as [Hx|Hx]; [now apply Hd|].
        apply list_elem_of_singleton in Hx as ->. split; [done|].
        now apply Qltb_ge in E.
Qed.

(** [top()] of the queue is a vert of least [y]. *)
Lemma pq_top_spec q s t s' :
  pq_top q s = Ret t s' ->
  s' = s /\ t ∈ q /\ forall e, e ∈ q -> (y_of s t <= y_of s e)%Q.
Proof.
  unfold pq_top, pq_top_index. intros H. inv_bind H.
  destruct q as [|e l]; [done|].
  destruct l as [|e' l'].
  - cbn in H0. injection H0 as <- <-. cbn in H. injection H as <- <-.
    split; [done|]. split; [apply elem_of_cons; now left|].
    intros x Hx. apply list_elem_of_singleton in Hx as ->. lra.
  - assert (Hv : valid s e).
    { cbn [pq_best] in H0. inv_bind H0. now apply cmp_Ret in H1. }
    apply (pq_best_spec _ _ _ _ [e]) in H0 as (-> & t' & Ht & Hmin);
      try done; try (cbn; lia).
    + cbn [app] in Ht, Hmin. rewrite Ht in H. injection H as <- <-.
      split; [done|]. split; [eapply list_elem_of_lookup_2, Ht|].
      intros x Hx. now apply Hmin.
    + intros x Hx. apply list_elem_of_singleton in Hx as ->. split; [done|lra].
Qed.

(** The order [std::sort] leaves: no later element is before an earlier one
    for [cmp], that is, [y] does not increase along the vector. *)
Definition y_descending (s : Monotones) (l : list VertItr) : Prop :=
  StronglySorted (fun a b => (y_of s b <= y_of s a)%Q) l.

Lemma sort_insert_spec l : forall x s r s',
  sort_insert x l s = Ret r s' ->
  valid s x -> Forall (valid s) l -> y_descending s l ->
  s' = s /\ Permutation (x :: l) r /\ y_descending s r.
Proof.
  induction l as [|y l IH]; intros x s r s' H Hx Hl Hs; cbn [sort_insert] in H.
  - injection H as <- <-. split; [done|]. split; [done|].
    repeat constructor.
  - inv_bind H. apply cmp_Ret in H0 as (-> & _ & _ & ->).
    apply StronglySorted_inv in Hs as [Hs Hy].
    apply Forall_cons in Hl as [Hvy Hl].
    destruct (Qltb (y_of s x) (y_of s y)) eqn:E.
    + inv_bind H. apply IH in H0 as (-> & Hp & Hs'); try done.
      injection H as <- <-. split; [done|]. split.
      * rewrite perm_swap. now constructor.
      * constructor; [done|].
        eapply Permutation_Forall; [exact Hp|].
        constructor; [|done]. apply Qltb_lt in E. lra.
    + injection H as <- <-. split; [done|]. split; [done|].
      apply Qltb_ge in E.
      constructor; [constructor; done|].
      constructor; [done|].
      eapply Forall_impl; [exact Hy|]. intros z Hz. cbn in Hz. lra.
Qed.

Lemma std_sort_spec l : forall s r s',
  std_sort l s = Ret r s' -> Forall (valid s) l ->
  s' = s /\ Permutation l r /\ y_descending s r.
Proof.
  induction l as [|x l IH]; intros s r s' H Hl; cbn [std_sort] in H.
  - injection H as <- <-. split; [done|]. split; [done|]. constructor.
  - inv_bind H. apply Forall_cons in Hl as [Hx Hl].
    apply IH in H0 as (-> & Hp & Hs); [|done].
    apply sort_insert_spec in H as (-> & Hp' & Hs'); try done.
    + split; [done|]. split; [|done]. rewrite <- Hp'. now constructor.
    + eapply Permutation_Forall; [exact Hp|done].
Qed.

(** C6 (as amended).  The queue and the pre-sort of the starts order verts
    by [y] only: [cmp(a, b)] is [b.y < a.y] whatever the [x] coordinates, so
    two verts of equal [y] are not ordered; [top()] of the queue is a vert of
    least [y]; and the sorted starts are a permutation of the starts in which
    [y] does not increase, so that [back()] has the least [y]. *)
Theorem queue_order s :
  (forall a b A B,
      vert_at a s = Ret A s -> vert_at b s = Ret B s ->
      cmp a b s = Ret (Qltb (vy (pos B)) (vy (pos A))) s /\
      ((vy (pos A) == vy (pos B))%Q ->
         cmp a b s = Ret false s /\ cmp b a s = Ret false s)) /\
  (forall q t s',
      pq_top q s = Ret t s' ->
      s' = s /\ t ∈ q /\ forall e, e ∈ q -> (y_of s t <= y_of s e)%Q) /\
  (forall l r s',
      Forall (valid s) l -> std_sort l s = Ret r s' ->
      s' = s /\ Permutation l r /\ y_descending s r).
Proof.
  split; [|split].
  - intros a b A B HA HB. split; [now apply cmp_eq|].
    intros Hy. rewrite (cmp_eq _ _ _ _ _ HA HB), (cmp_eq _ _ _ _ _ HB HA).
    split; f_equal; apply Qltb_ge; rewrite Hy; lra.
  - intros q t s'. apply pq_top_spec.
  - intros l r s' Hl H. now apply std_sort_spec.
Qed.

(** Two verts on the line [y = 0]: [(1, 0)] queued first, then [(0, 0)]. *)
Definition level_pair : Monotones :=
  mkMonotones
    [mkVertAdj (pt 1 0) 0 0 (vAt 1) (vAt 1) eActiveEnd eNone;
     mkVertAdj (pt 0 0) 1 0 (vAt 0) (vAt 0) eActiveEnd eNone]
    [0; 1]%nat [] [] [] 0.

Lemma queue_order_witness :
  cmp (vAt 0) (vAt 1) level_pair = Ret false level_pair /\
  cmp (vAt 1) (vAt 0) level_pair = Ret false level_pair.
Proof.
  refine (proj2 (proj1 (queue_order level_pair) (vAt 0) (vAt 1) _ _ _ _) _);
    vm_compute; reflexivity.
Defined.

(** C6 (as stated) fails: of two queued verts with the same [y] the one with
    the smaller [x] is not first; the comparator does not order them, and the
    queue and the sort keep the vert with the larger [x] in front. *)
Lemma queue_order_counterexample :
  cmp (vAt 0) (vAt 1) level_pair = Ret false level_pair /\
  cmp (vAt 1) (vAt 0) level_pair = Ret false level_pair /\
  pq_top (pq_push (vAt 1) (pq_push (vAt 0) [])) level_pair
  = Ret (vAt 0) level_pair /\
  std_sort [vAt 0; vAt 1] level_pair = Ret [vAt 0; vAt 1] level_pair /\
  std_sort [vAt 1; vAt 0] level_pair = Ret [vAt 1; vAt 0] level_pair /\
  (vx (pos (mkVertAdj (pt 0 0) 1 0 (vAt 0) (vAt 0) eActiveEnd eNone))
   < vx (pos (mkVertAdj (pt 1 0) 0 0 (vAt 1) (vAt 1) eActiveEnd eNone)))%Q.
Proof. repeat split; vm_compute; reflexivity. Qed.

(** ** The number of triangles *)

(** The sum of the counts of the monotones. *)
Definition total (counts : list Z) : Z := foldr Z.add 0 counts.

Lemma total_app a b : total (a ++ b) = total a + total b.
Proof. unfold total. induction a as [|x a IH]; cbn; [done|]. rewrite IH. lia. Qed.

(** [counted t st t' st']: from [st] to [st'] the output has grown by as many
    triangles as the counter of the triangulator. *)
Definition counted (t : Triangulator) (st : TState) (t' : Triangulator)
    (st' : TState) : Prop :=
  exists new,
    triangles st' = triangles st ++ new /\
    triangles_output_ t' = triangles_output_ t + Z.of_nat (length new).

Lemma counted_refl t st : counted t st t st.
Proof. exists []. rewrite app_nil_r. split; [done|cbn; lia]. Qed.

Lemma counted_trans t st t1 st1 t2 st2 :
  counted t st t1 st1 -> counted t1 st1 t2 st2 -> counted t st t2 st2.
Proof.
  intros (new & Ht & Hn) (new' & Ht' & Hn').
  exists (new ++ new'). rewrite Ht', Ht, <- app_assoc, length_app. split; [done|lia].
Qed.

Lemma Triangulator_ProcessVert_counted t vi r l st t' st' :
  Triangulator_ProcessVert t vi r l st = Ret t' st' -> counted t st t' st'.
Proof.
  unfold Triangulator_ProcessVert. intros H.
  destruct (reflex_chain_ t) as [|v_top rest] eqn:Ec; [discriminate|].
  destruct (Z.of_nat (length (v_top :: rest)) <? 2).
  { injection H as <- <-. exists []. rewrite app_nil_r. split; [done|cbn; lia]. }
  destruct (eqb (onRight_ t) r && negb l).
  - apply bind_Ret in H as ([[t1 v1] c1] & st1 & H1 & H).
    injection H as <- <-.
    apply same_chain_spec in H1 as (Hm & _ & Hp & _ & new & Ht & Hn & _).
    exists new. done.
  - apply bind_Ret in H as (t1 & st1 & H1 & H). injection H as <- <-.
    apply empty_chain_spec in H1 as (Hm & _ & Hp & new & Ht & Hn & _).
    exists new. done.
Qed.

(** Marking a vert leaves the output alone. *)
Lemma lift_triangles {A} (m : MM A) st a st' :
  lift m st = Ret a st' -> triangles st' = triangles st.
Proof. intros H. apply lift_Ret in H as (s' & _ & ->). done. Qed.

Lemma counted_lift {A} (m : MM A) t st a st' t2 st2 :
  lift m st = Ret a st' -> counted t st' t2 st2 -> counted t st t2 st2.
Proof.
  intros H (new & Ht & Hn). apply lift_triangles in H. exists new.
  rewrite Ht, H. done.
Qed.

Lemma walk_monotone_counted fuel : forall t vR vL st t' v st',
  walk_monotone fuel t vR vL st = Ret (t', v) st' -> counted t st t' st'.
Proof.
  induction fuel as [|fuel IH]; intros t vR vL st t' v st' H;
    cbn [walk_monotone] in H; [discriminate|].
  case_bool_decide.
  { injection H as <- <- <-. apply counted_refl. }
  apply bind_Ret in H as (R & s1 & HR & H).
  apply bind_Ret in H as (L & s2 & HL & H).
  destruct (index R <? index L).
  - apply bind_Ret in H as (t1 & s3 & H1 & H).
    apply bind_Ret in H as (u & s4 & H2 & H).
    apply bind_Ret in H as (R' & s5 & H3 & H).
    apply IH in H.
    eapply counted_lift; [exact HR|]. eapply counted_lift; [exact HL|].
    eapply counted_trans; [eapply Triangulator_ProcessVert_counted, H1|].
    eapply counted_lift; [exact H2|]. eapply counted_lift; [exact H3|]. done.
  - apply bind_Ret in H as (t1 & s3 & H1 & H).
    apply bind_Ret in H as (u & s4 & H2 & H).
    apply bind_Ret in H as (R' & s5 & H3 & H).
    apply IH in H.
    eapply counted_lift; [exact HR|]. eapply counted_lift; [exact HL|].
    eapply counted_trans; [eapply Triangulator_ProcessVert_counted, H1|].
    eapply counted_lift; [exact H2|]. eapply counted_lift; [exact H3|]. done.
Qed.

Lemma ASSERT_Ret {S} c e (s : S) u s' :
  ASSERT c e s = Ret u s' -> c = true /\ s' = s.
Proof. unfold ASSERT. destruct c; [|discriminate]. intros [= _ <-]. done. Qed.

(** One monotone: the value of [NumTriangles()] is the number of triangles
    the monotone has added to the output, and it is positive. *)
Lemma triangulate_monotone_counted fuel start st n st' :
  triangulate_monotone fuel start st = Ret n st' ->
  0 < n /\ exists new,
    triangles st' = triangles st ++ new /\ n = Z.of_nat (length new).
Proof.
  unfold triangulate_monotone. intros H.
  apply bind_Ret in H as (p & s1 & H1 & H).
  apply bind_Ret in H as (u & s2 & H2 & H).
  apply bind_Ret in H as (S & s3 & H3 & H).
  apply bind_Ret in H as ([t1 vR] & s4 & H4 & H).
  apply bind_Ret in H as (t2 & s5 & H5 & H).
  apply bind_Ret in H as (u' & s6 & H6 & H).
  apply bind_Ret in H as (u'' & s7 & H7 & H).
  injection H as <- <-. apply ASSERT_Ret in H7 as [H7 ->].
  unfold NumTriangles in *. split; [lia|].
  assert (Hc : counted (new_Triangulator start p) st t2 s6).
  { eapply counted_lift; [exact H1|]. eapply counted_lift; [exact H2|].
    eapply counted_lift; [exact H3|].
    eapply counted_trans; [eapply walk_monotone_counted, H4|].
    eapply counted_trans; [eapply Triangulator_ProcessVert_counted, H5|].
    destruct (counted_refl t2 s6) as (new & Ht & Hn).
    exists []. rewrite app_nil_r. split; [|cbn; lia].
    now apply lift_triangles in H6. }
  destruct Hc as (new & Ht & Hn). exists new. split; [done|]. cbn in Hn. lia.
Qed.

(** The outer loop: [triangles_left] loses [2 + n] for every monotone. *)
Lemma triangulate_loop_counted fuel : forall start tl acc st tl' counts st',
  triangulate_loop fuel start tl acc st = Ret (tl', counts) st' ->
  exists cnts new,
    counts = acc ++ cnts /\
    triangles st' = triangles st ++ new /\
    Z.of_nat (length new) = total cnts /\
    tl' = tl - total cnts - 2 * Z.of_nat (length cnts) /\
    Forall (fun n => 0 < n) cnts /\
    (start <> vEnd -> cnts <> []).
Proof.
  induction fuel as [|fuel IH]; intros start tl acc st tl' counts st' H;
    cbn [triangulate_loop] in H; [discriminate|].
  case_bool_decide.
  { injection H as <- <- <-. exists [], []. rewrite !app_nil_r.
    repeat split; try done. cbn. lia. }
  apply bind_Ret in H as (n & s1 & H1 & H).
  apply bind_Ret in H as (ring & s2 & H2 & H).
  apply bind_Ret in H as (start' & s3 & H3 & H).
  apply IH in H as (cnts & new & -> & Ht & Hn & -> & Hf & _).
  apply triangulate_monotone_counted in H1 as (Hpos & new1 & Ht1 & ->).
  apply lift_triangles in H2, H3.
  exists (Z.of_nat (length new1) :: cnts), (new1 ++ new).
  split; [now rewrite <- app_assoc|].
  split; [rewrite Ht, H3, H2, Ht1, <- app_assoc; done|].
  split; [rewrite length_app; unfold total in *; cbn [foldr]; lia|].
  split; [unfold total in *; cbn [foldr length]; lia|].
  split; [now constructor|done].
Qed.

(** [Triangulate]: a normal return means that the count added up. *)
Lemma Triangulate_counted fuel st counts st' :
  Triangulate fuel st = Ret counts st' ->
  exists new,
    triangles st' = triangles st ++ new /\
    Z.of_nat (length new) = total counts /\
    total counts = Z.of_nat (length (monotones_ (mono st)))
                   - 2 * Z.of_nat (length counts) /\
    Forall (fun n => 0 < n) counts /\
    (monotones_ (mono st) <> [] -> counts <> []).
Proof.
  unfold Triangulate. intros H.
  apply bind_Ret in H as (ring & s1 & H1 & H).
  apply bind_Ret in H as (u & s2 & H2 & H).
  apply bind_Ret in H as (start & s3 & H3 & H).
  apply bind_Ret in H as ([tl counts'] & s4 & H4 & H).
  apply bind_Ret in H as (u' & s5 & H5 & H).
  injection H as <- <-. apply ASSERT_Ret in H5 as [H5 ->].
  apply Z.eqb_eq in H5. subst tl.
  apply triangulate_loop_counted in H4 as (cnts & new & -> & Ht & Hn & Hl & Hf & Hne).
  cbn [app] in *.
  pose proof (lift_triangles _ _ _ _ H1) as E1.
  pose proof (lift_triangles _ _ _ _ H2) as E2.
  pose proof (lift_triangles _ _ _ _ H3) as E3.
  apply lift_Ret in H1 as (? & H1 & ->). unfold gets in H1.
  injection H1 as <- <-.
  exists new. split; [rewrite Ht, E3, E2; done|].
  split; [done|]. split; [lia|]. split; [done|].
  intros Hr. apply Hne.
  apply lift_Ret in H2 as (m2 & H2 & ->).
  apply lift_Ret in H3 as (m3 & H3 & ->). cbn in H3.
  unfold vbegin, gets in H3. injection H3 as <- <-.
  assert (Hk : keeps same_ring (assign_index 1 (monotones_ (mono st))))
    by eauto with keeps.
  specialize (Hk (mono st)). unfold holds_after in Hk. cbn in H2.
  rewrite H2 in Hk.
  destruct Hk as (_ & _ & Hk).
  destruct (monotones_ (mono st)) as [|x l] eqn:E; [done|].
  destruct (monotones_ m2) as [|y l'] eqn:E'.
  - exfalso. specialize (Hk x).
    assert (x ∈ x :: l) by constructor. apply Hk in H. inversion H.
  - cbn. discriminate.
Qed.

(** ** The errors of [Triangulate] *)

Lemma throws_AddTriangle P t a b c : throws_only P (AddTriangle t a b c).
Proof. unfold AddTriangle. throws_auto. Qed.
Lemma throws_CCW_at P t a b c : throws_only P (CCW_at t a b c).
Proof. unfold CCW_at. throws_auto. Qed.
#[global] Hint Resolve throws_AddTriangle throws_CCW_at : throws.
Lemma throws_same_chain P l : forall t vi v, throws_only P (same_chain t vi v l).
Proof. induction l; intros; cbn [same_chain]; throws_auto. Qed.
Lemma throws_empty_chain P l : forall t vi v, throws_only P (empty_chain t vi v l).
Proof. induction l; intros; cbn [empty_chain]; throws_auto. Qed.
#[global] Hint Resolve throws_same_chain throws_empty_chain : throws.
Lemma throws_Triangulator_ProcessVert P t vi a b :
  throws_only P (Triangulator_ProcessVert t vi a b).
Proof. unfold Triangulator_ProcessVert. throws_auto. Qed.
#[global] Hint Resolve throws_Triangulator_ProcessVert : throws.
Lemma throws_walk_monotone P fuel :
  forall t a b, throws_only P (walk_monotone fuel t a b).
Proof. induction fuel; intros; cbn [walk_monotone]; throws_auto. Qed.
#[global] Hint Resolve throws_walk_monotone : throws.
Lemma throws_assign_index P l : forall i, throws_only P (assign_index i l).
Proof. induction l; intros; cbn [assign_index]; throws_auto. Qed.
Lemma throws_find_unprocessed P l : throws_only P (find_unprocessed l).
Proof. induction l; intros; cbn [find_unprocessed]; throws_auto. Qed.
#[global] Hint Resolve throws_assign_index throws_find_unprocessed : throws.

(** [Triangulate] raises nothing but [topologyErr]. *)
Lemma throws_triangulate_monotone fuel start :
  throws_only (fun e => e = topologyErr) (triangulate_monotone fuel start).
Proof.
  unfold triangulate_monotone. throws_auto. now apply throws_ASSERT.
Qed.
#[global] Hint Resolve throws_triangulate_monotone : throws.
Lemma throws_triangulate_loop fuel : forall start tl acc,
  throws_only (fun e => e = topologyErr) (triangulate_loop fuel start tl acc).
Proof. induction fuel; intros; cbn [triangulate_loop]; throws_auto. Qed.
#[global] Hint Resolve throws_triangulate_loop : throws.
Lemma throws_Triangulate fuel :
  throws_only (fun e => e = topologyErr) (Triangulate fuel).
Proof.
  unfold Triangulate. throws_auto. unfold vbegin. throws_auto.
  now apply throws_ASSERT.
Qed.

(** ** The monotones as closed loops *)

(** [link s a b]: in the ring, [b] is the right neighbour of [a] and [a] the
    left neighbour of [b]. *)
Definition link (s : Monotones) (a b : nat) : Prop :=
  right_of s a = vAt b /\ left_of s b = vAt a.

(** [seg s a l]: [a :: l] is a run of verts linked left to right. *)
Fixpoint seg (s : Monotones) (a : nat) (l : list nat) : Prop :=
  match l with
  | [] => True
  | b :: l' => link s a b /\ seg s b l'
  end.

(** A closed loop of [left]/[right] links through the verts of [c], in the
    order of the [right] links. *)
Definition is_loop (s : Monotones) (c : list nat) : Prop :=
  match c with
  | [] => False
  | a :: l => seg s a (l ++ [a])
  end.

(** The [index] of the vert in slot [n]. *)
Definition index_of (s : Monotones) (n : nat) : Z :=
  match verts s !! n with Some v => index v | None => 0 end.

Lemma valid_vAt s n : valid s (vAt n) <-> is_Some (verts s !! n).
Proof.
  unfold valid, vert_at. split.
  - intros (V & H). destruct (verts s !! n); [eauto|discriminate].
  - intros (V & ->). eauto.
Qed.

Lemma valid_same_ring s s' v : same_ring s s' -> valid s v -> valid s' v.
Proof.
  intros (_ & H & _) (V & HV). apply vert_at_Ret in HV as (_ & n & -> & HV).
  apply valid_vAt.
  assert (E : map core (verts s') !! n = map core (verts s) !! n) by now rewrite H.
  rewrite !list_lookup_fmap, HV in E.
  destruct (verts s' !! n); [eauto|discriminate].
Qed.

Lemma link_valid s a b : link s a b -> valid s (vAt a) /\ valid s (vAt b).
Proof.
  unfold link, right_of, left_of. intros [H1 H2]. split; apply valid_vAt.
  - destruct (verts s !! a); [eauto|discriminate].
  - destruct (verts s !! b); [eauto|discriminate].
Qed.

Lemma link_same_ring s s' a b : same_ring s s' -> link s a b -> link s' a b.
Proof.
  intros H [H1 H2]. split.
  - now rewrite (same_ring_right_of _ _ _ H).
  - now rewrite (same_ring_left_of _ _ _ H).
Qed.

Lemma seg_same_ring s s' l : forall a, same_ring s s' -> seg s a l -> seg s' a l.
Proof.
  induction l as [|b l IH]; intros a H; cbn; [done|].
  intros [H1 H2]. split; [eapply link_same_ring; eauto|eauto].
Qed.

Lemma seg_app s l1 : forall a b l2,
  seg s a (l1 ++ b :: l2) <-> seg s a (l1 ++ [b]) /\ seg s b l2.
Proof.
  induction l1 as [|x l1 IH]; intros a b l2; cbn.
  - tauto.
  - rewrite (IH x b l2). tauto.
Qed.

Lemma last_cons_default (l : list nat) : forall a x,
  List.last (x :: l) a = List.last l x.
Proof.
  induction l as [|y l IH]; intros a x; [done|].
  change (List.last (x :: y :: l) a) with (List.last (y :: l) a).
  now rewrite (IH a y), (IH x y).
Qed.

Lemma seg_snoc s l : forall a z,
  seg s a (l ++ [z]) <-> seg s a l /\ link s (List.last l a) z.
Proof.
  induction l as [|x l IH]; intros a z.
  - cbn. tauto.
  - change ((x :: l) ++ [z]) with (x :: (l ++ [z])). cbn [seg].
    rewrite (IH x z).
    rewrite (last_cons_default l a x). tauto.
Qed.

Lemma seg_valid s l : forall a, seg s a l -> l <> [] ->
  Forall (fun n => valid s (vAt n)) (a :: l).
Proof.
  induction l as [|b l IH]; intros a H Hne; [done|].
  destruct H as [H1 H2]. constructor; [apply (link_valid _ _ _ H1)|].
  destruct l as [|c l].
  - constructor; [apply (link_valid _ _ _ H1)|constructor].
  - apply IH; done.
Qed.

(** A loop may be entered at any of its verts. *)
Lemma is_loop_rotate s l1 x l2 :
  is_loop s (l1 ++ x :: l2) -> is_loop s (x :: l2 ++ l1).
Proof.
  destruct l1 as [|a l1]; [now rewrite app_nil_r|].
  cbn [is_loop app]. rewrite <- !app_assoc. cbn [app].
  rewrite (seg_app s l1 a x (l2 ++ [a])), (seg_app s l2 x a (l1 ++ [x])).
  rewrite (seg_app s l2 x a []). cbn [seg]. tauto.
Qed.

Lemma is_loop_valid s c : is_loop s c -> Forall (fun n => valid s (vAt n)) c.
Proof.
  destruct c as [|a l]; [done|]. cbn [is_loop]. intros H.
  apply seg_valid in H; [|now destruct l].
  apply Forall_cons in H as [Ha H]. constructor; [done|].
  apply Forall_app in H as [H _]. done.
Qed.

(** ** The triangulator on valid iterators *)

Lemma CCW_at_total t a b c st :
  valid (mono st) a -> valid (mono st) b -> valid (mono st) c ->
  exists z, CCW_at t a b c st = Ret z st.
Proof.
  intros (A & HA) (B & HB) (C & HC). unfold CCW_at.
  rewrite (bind_of_Ret _ _ _ _ _ (lift_vert_at _ _ _ HA)),
          (bind_of_Ret _ _ _ _ _ (lift_vert_at _ _ _ HB)),
          (bind_of_Ret _ _ _ _ _ (lift_vert_at _ _ _ HC)).
  eauto.
Qed.

Lemma AddTriangle_total t a b c st :
  valid (mono st) a -> valid (mono st) b -> valid (mono st) c ->
  exists tri, AddTriangle t a b c st
              = Ret (bump t) (mkTState (mono st) (triangles st ++ [tri])).
Proof.
  intros (A & HA) (B & HB) (C & HC).
  rewrite (AddTriangle_eq _ _ _ _ _ _ _ _ HA HB HC). eauto.
Qed.

(** The loop of the same-chain branch returns, and pops one vert of the
    chain for every triangle. *)
Lemma same_chain_total chain : forall t vi v_top m tr,
  valid m vi -> valid m v_top -> Forall (valid m) chain ->
  exists t' v' chain' new,
    same_chain t vi v_top chain (mkTState m tr)
    = Ret (t', v', chain') (mkTState m (tr ++ new)) /\
    valid m v' /\ Forall (valid m) chain' /\
    tri_precision_ t' = tri_precision_ t /\
    triangles_output_ t' = triangles_output_ t + Z.of_nat (length new) /\
    (length new + length chain' = length chain)%nat.
Proof.
  induction chain as [|vj chain IH]; intros t vi v_top m tr Hi Ht Hc;
    cbn [same_chain].
  - exists t, v_top, [], []. rewrite app_nil_r. cbn. repeat split; try done. lia.
  - apply Forall_cons in Hc as [Hj Hc].
    destruct (CCW_at_total t vi vj v_top (mkTState m tr)) as (z & Hz); try done.
    rewrite (bind_of_Ret _ _ _ _ _ Hz).
    match goal with |- context [if ?c then _ else _] => destruct c end.
    + destruct (AddTriangle_total t vi vj v_top (mkTState m tr))
        as (tri & Ha); try done.
      rewrite (bind_of_Ret _ _ _ _ _ Ha). cbn [mono triangles].
      destruct (IH (bump t) vi vj m (tr ++ [tri]) Hi Hj Hc)
        as (t' & v' & chain' & new & E & Hv & Hf & Hp & Ho & Hl).
      exists t', v', chain', (tri :: new). rewrite E, <- app_assoc. cbn in *.
      repeat split; try done; lia.
    + exists t, v_top, (vj :: chain), []. rewrite app_nil_r. cbn.
      repeat split; try done; [now constructor|lia].
Qed.

(** The loop of the different-chain branch returns, with one triangle for
    every vert of the chain. *)
Lemma empty_chain_total chain : forall t vi v_last m tr,
  valid m vi -> valid m v_last -> Forall (valid m) chain ->
  exists t' new,
    empty_chain t vi v_last chain (mkTState m tr)
    = Ret t' (mkTState m (tr ++ new)) /\
    tri_precision_ t' = tri_precision_ t /\
    onRight_ t' = onRight_ t /\
    triangles_output_ t' = triangles_output_ t + Z.of_nat (length new) /\
    length new = length chain.
Proof.
  induction chain as [|vj chain IH]; intros t vi v_last m tr Hi Ht Hc;
    cbn [empty_chain].
  - exists t, []. rewrite app_nil_r. cbn. repeat split; try done. lia.
  - apply Forall_cons in Hc as [Hj Hc].
    destruct (AddTriangle_total t vi v_last vj (mkTState m tr))
      as (tri & Ha); try done.
    rewrite (bind_of_Ret _ _ _ _ _ Ha). cbn [mono triangles].
    destruct (IH (bump t) vi vj m (tr ++ [tri]) Hi Hj Hc)
      as (t' & new & E & Hp & Hr & Ho & Hl).
    exists t', (tri :: new). rewrite E, <- app_assoc. cbn in *.
    repeat split; try done; lia.
Qed.

(** [fed k t st t' st']: [k] verts have been given to the triangulator
    between [(t, st)] and [(t', st')]; every one of them is either still in
    the reflex chain or has been paid for by one triangle. *)
Definition fed (k : nat) (t : Triangulator) (tr : list ivec3)
    (t' : Triangulator) (tr' : list ivec3) : Prop :=
  tri_precision_ t' = tri_precision_ t /\
  exists new,
    tr' = tr ++ new /\
    triangles_output_ t' = triangles_output_ t + Z.of_nat (length new) /\
    (length (reflex_chain_ t') + length new
     = length (reflex_chain_ t) + k)%nat.

Lemma fed_refl t tr : fed 0 t tr t tr.
Proof. split; [done|]. exists []. rewrite app_nil_r. cbn. repeat split; lia. Qed.

Lemma fed_trans j k t tr t1 tr1 t2 tr2 :
  fed j t tr t1 tr1 -> fed k t1 tr1 t2 tr2 -> fed (j + k) t tr t2 tr2.
Proof.
  intros (Hp & new & Ht & Hn & Hl) (Hp' & new' & Ht' & Hn' & Hl').
  split; [congruence|]. exists (new ++ new').
  rewrite Ht', Ht, <- app_assoc, length_app. repeat split; lia.
Qed.

(** [ProcessVert] of the triangulator returns whenever its iterators are
    valid; the call with [last] leaves two verts in the chain. *)
Lemma Triangulator_ProcessVert_total t vi r l m tr :
  valid m vi -> Forall (valid m) (reflex_chain_ t) -> reflex_chain_ t <> [] ->
  exists t' tr',
    Triangulator_ProcessVert t vi r l (mkTState m tr) = Ret t' (mkTState m tr') /\
    Forall (valid m) (reflex_chain_ t') /\
    (2 <= length (reflex_chain_ t'))%nat /\
    (l = true -> length (reflex_chain_ t') = 2%nat) /\
    fed 1 t tr t' tr'.
Proof.
  intros Hi Hc Hne. unfold Triangulator_ProcessVert.
  destruct (reflex_chain_ t) as [|v_top rest] eqn:Ec; [done|].
  apply Forall_cons in Hc as [Ht Hc].
  destruct (Z.ltb_spec (Z.of_nat (length (v_top :: rest))) 2) as [Hlt|Hge].
  { destruct rest; [|cbn in Hlt; lia].
    eexists _, tr. split; [reflexivity|]. cbn.
    split; [repeat constructor; done|]. split; [lia|]. split; [done|].
    split; [done|]. exists []. rewrite app_nil_r, Ec. cbn. repeat split; lia. }
  destruct (eqb (onRight_ t) r && negb l) eqn:Eb.
  - destruct (same_chain_total rest t vi v_top m tr Hi Ht Hc)
      as (t' & v' & chain' & new & E & Hv & Hf & Hp & Ho & Hl).
    rewrite (bind_of_Ret _ _ _ _ _ E).
    eexists _, _. split; [reflexivity|]. cbn.
    split; [repeat constructor; done|]. split; [lia|].
    split; [intros ->; now rewrite andb_false_r in Eb|].
    split; [done|]. exists new. rewrite Ec. cbn. repeat split; try done; lia.
  - set (t0 := mkTriangulator _ _ _ _ _).
    destruct (empty_chain_total rest t0 vi v_top m tr Hi Ht Hc)
      as (t' & new & E & Hp & Hr & Ho & Hl).
    rewrite (bind_of_Ret _ _ _ _ _ E).
    eexists _, _. split; [reflexivity|]. cbn.
    split; [repeat constructor; done|]. split; [lia|]. split; [done|].
    split; [done|]. exists new. rewrite Ec. cbn in *. repeat split; try done; lia.
Qed.

(** ** The walk around one monotone *)

Lemma lift_of_Ret {A} (m : MM A) s tr a s' :
  m s = Ret a s' -> lift m (mkTState s tr) = Ret a (mkTState s' tr).
Proof. unfold lift. cbn. now intros ->. Qed.

(** [marked P m m']: from [m] to [m'] the verts of [P] have become
    processed and nothing else has changed in the ring. *)
Definition marked (P : nat -> Prop) (m m' : Monotones) : Prop :=
  same_ring m m' /\
  (forall n, P n -> index_of m' n < 0) /\
  (forall n, ~ P n -> index_of m' n = index_of m n).

Lemma SetProcessed_total m n :
  valid m (vAt n) ->
  exists m', vert_upd (vAt n) (SetProcessed true) m = Ret tt m' /\
             marked (fun k => k = n) m m'.
Proof.
  intros Hv. pose proof (keeps_SetProcessed_at (vAt n) true m) as Hk.
  unfold holds_after in Hk.
  apply valid_vAt in Hv as (V & HV). unfold vert_upd in *. rewrite HV in *.
  eexists. split; [reflexivity|]. split; [done|].
  assert (Hn : (n < length (verts m))%nat) by (eapply lookup_lt_Some, HV).
  unfold index_of. cbn. split.
  - intros k ->. rewrite list_lookup_insert_eq by done.
    unfold SetProcessed. destruct (Z.eqb_spec (index V) (-2)) as [E|E]; cbn; lia.
  - intros k Hk'. rewrite list_lookup_insert_ne by congruence. done.
Qed.

Lemma marked_trans (P Q R : nat -> Prop) m m1 m2 :
  marked P m m1 -> marked Q m1 m2 ->
  (forall n, R n <-> P n \/ Q n) -> (forall n, P n -> ~ Q n) ->
  marked R m m2.
Proof.
  intros (H1 & H2 & H3) (H4 & H5 & H6) HR Hd. split; [|split].
  - etransitivity; eauto.
  - intros n Hn. apply HR in Hn as [Hn|Hn].
    + rewrite H6 by (now apply Hd). now apply H2.
    + now apply H5.
  - intros n Hn. rewrite H6, H3; [done| |]; intros Hc; apply Hn, HR; tauto.
Qed.

Lemma vert_at_valid m n :
  valid m (vAt n) ->
  exists V, vert_at (vAt n) m = Ret V m /\
            left V = left_of m n /\ right V = right_of m n /\
            index V = index_of m n.
Proof.
  intros Hv. apply valid_vAt in Hv as (V & HV).
  exists V. unfold vert_at, left_of, right_of, index_of. rewrite HV. done.
Qed.

(** The inner loop on a run [a :: l] of unvisited verts, entered with [vR]
    at its first and [vL] at its last vert: it returns when one vert [x] is
    left, having given the other verts to the triangulator. *)
Lemma walk_monotone_total k : forall l a fuel t m tr,
  length l = k -> (k < fuel)%nat -> NoDup (a :: l) -> seg m a l ->
  Forall (fun n => valid m (vAt n)) (a :: l) ->
  Forall (valid m) (reflex_chain_ t) -> reflex_chain_ t <> [] ->
  exists t' x m' tr',
    walk_monotone fuel t (vAt a) (vAt (List.last l a)) (mkTState m tr)
    = Ret (t', vAt x) (mkTState m' tr') /\
    x ∈ a :: l /\
    marked (fun n => n ∈ a :: l /\ n <> x) m m' /\
    Forall (valid m') (reflex_chain_ t') /\ reflex_chain_ t' <> [] /\
    fed k t tr t' tr'.
Proof.
  induction k as [|k IH]; intros l a fuel t m tr Hl Hf Hnd Hs Hv Hc Hne;
    (destruct fuel as [|fuel]; [lia|]); cbn [walk_monotone].
  - destruct l; [|done]. cbn [List.last].
    rewrite bool_decide_eq_true_2 by done.
    exists t, a, m, tr. split; [done|]. split; [constructor|].
    split; [|split; [done|split; [done|apply fed_refl]]].
    split; [done|]. split; [|done].
    intros n [Hn Hx]. apply list_elem_of_singleton in Hn. done.
  - assert (Hl' : l <> []) by (intros ->; done).
    destruct (exists_last Hl') as (l' & z & El).
    assert (Ez : List.last l a = z) by (rewrite El; apply last_last).
    rewrite Ez.
    assert (Haz : a <> z).
    { intros ->. apply NoDup_cons in Hnd as [Hnd _]. apply Hnd.
      rewrite El. apply elem_of_app. right. constructor. }
    rewrite bool_decide_eq_false_2 by congruence.
    pose proof (Forall_cons_1 _ _ _ Hv) as [Hva Hvl].
    assert (Hvz : valid m (vAt z)).
    { rewrite Forall_forall in Hvl. apply Hvl. rewrite El.
      apply elem_of_app. right. constructor. }
    destruct (vert_at_valid _ _ Hva) as (R & HR & _ & _ & _).
    destruct (vert_at_valid _ _ Hvz) as (L & HL & _ & _ & _).
    rewrite (bind_of_Ret _ _ _ _ _ (lift_of_Ret _ _ tr _ _ HR)),
            (bind_of_Ret _ _ _ _ _ (lift_of_Ret _ _ tr _ _ HL)).
    destruct (index R <? index L).
    + destruct (Triangulator_ProcessVert_total t (vAt a) true false m tr
                  Hva Hc Hne) as (t1 & tr1 & E1 & Hc1 & Hlen1 & _ & Hfed1).
      rewrite (bind_of_Ret _ _ _ _ _ E1).
      destruct (SetProcessed_total m a Hva) as (m1 & E2 & Hm1).
      rewrite (bind_of_Ret _ _ _ _ _ (lift_of_Ret _ _ tr1 _ _ E2)).
      pose proof Hm1 as (Hsr & _ & _).
      destruct (vert_at_valid m1 a (valid_same_ring _ _ _ Hsr Hva))
        as (R' & HR' & _ & Hright & _).
      rewrite (bind_of_Ret _ _ _ _ _ (lift_of_Ret _ _ tr1 _ _ HR')).
      destruct l as [|b l0]; [done|]. destruct Hs as [Hab Hs].
      rewrite Hright, (same_ring_right_of _ _ _ Hsr), (proj1 Hab).
      rewrite <- Ez, (last_cons_default l0 a b).
      apply NoDup_cons in Hnd as [Ha Hnd].
      destruct (IH l0 b fuel t1 m1 tr1) as (t' & x & m' & tr' & E & Hx & Hm & Hc' & Hne' & Hfed);
        try done.
      { cbn in Hl. lia. } { lia. }
      { eapply seg_same_ring; eauto. }
      { eapply Forall_impl; [exact Hvl|]. intros n. apply valid_same_ring, Hsr. }
      { eapply Forall_impl; [exact Hc1|]. intros n. apply valid_same_ring, Hsr. }
      { intros Hn. rewrite Hn in Hlen1. cbn in Hlen1. lia. }
      exists t', x, m', tr'. split; [exact E|].
      split; [now apply elem_of_cons; right|].
      split; [|split; [done|split; [done|]]].
      * eapply marked_trans; [exact Hm1|exact Hm| |].
        -- intros n. cbn beta. rewrite (elem_of_cons (b :: l0) n a).
           split; [intros [[->|Hn] Hnx]; [now left|right; done]|].
           intros [->|[Hn Hnx]]; [|tauto]. split; [now left|].
           intros ->. done.
        -- intros n -> [Hn _]. done.
      * apply (fed_trans 1 k _ _ _ _ _ _ Hfed1 Hfed).
    + destruct (Triangulator_ProcessVert_total t (vAt z) false false m tr
                  Hvz Hc Hne) as (t1 & tr1 & E1 & Hc1 & Hlen1 & _ & Hfed1).
      rewrite (bind_of_Ret _ _ _ _ _ E1).
      destruct (SetProcessed_total m z Hvz) as (m1 & E2 & Hm1).
      rewrite (bind_of_Ret _ _ _ _ _ (lift_of_Ret _ _ tr1 _ _ E2)).
      pose proof Hm1 as (Hsr & _ & _).
      destruct (vert_at_valid m1 z (valid_same_ring _ _ _ Hsr Hvz))
        as (L' & HL' & Hleft & _ & _).
      rewrite (bind_of_Ret _ _ _ _ _ (lift_of_Ret _ _ tr1 _ _ HL')).
      subst l. apply seg_snoc in Hs as [Hs Hlz].
      rewrite Hleft, (same_ring_left_of _ _ _ Hsr), (proj2 Hlz).
      assert (Hnd' : NoDup (a :: l') /\ z ∉ a :: l').
      { change (a :: l' ++ [z]) with ((a :: l') ++ [z]) in Hnd.
        apply NoDup_app in Hnd as (H1 & H2 & _). split; [done|].
        intros Hin. apply (H2 z Hin). constructor. }
      destruct Hnd' as [Hnd' Hz].
      destruct (IH l' a fuel t1 m1 tr1) as (t' & x & m' & tr' & E & Hx & Hm & Hc' & Hne' & Hfed);
        try done.
      { rewrite length_app in Hl. cbn in Hl. lia. } { lia. }
      { eapply seg_same_ring; eauto. }
      { apply Forall_cons; split; [eapply valid_same_ring; eauto|].
        apply Forall_app in Hvl as [Hvl _].
        eapply Forall_impl; [exact Hvl|]. intros n. apply valid_same_ring, Hsr. }
      { eapply Forall_impl; [exact Hc1|]. intros n. apply valid_same_ring, Hsr. }
      { intros Hn. rewrite Hn in Hlen1. cbn in Hlen1. lia. }
      exists t', x, m', tr'. split; [exact E|].
      assert (Hsub : forall n, n ∈ a :: l' ++ [z] <-> n ∈ a :: l' \/ n = z).
      { intros n. change (a :: l' ++ [z]) with ((a :: l') ++ [z]).
        rewrite elem_of_app, list_elem_of_singleton. done. }
      split; [apply Hsub; now left|].
      split; [|split; [done|split; [done|]]].
      * eapply marked_trans; [exact Hm1|exact Hm| |].
        -- intros n. cbn beta. rewrite Hsub.
           split; [intros [[Hn| ->] Hnx]; [right; done|now left]|].
           intros [->|[Hn Hnx]]; [|tauto]. split; [now right|].
           intros ->. done.
        -- intros n -> [Hn _]. done.
      * apply (fed_trans 1 k _ _ _ _ _ _ Hfed1 Hfed).
Qed.

(** ** One monotone *)

(** A loop of [n >= 3] verts entered at [a] yields [n - 2] triangles and
    leaves its verts processed. *)
Lemma triangulate_monotone_total fuel a l m tr :
  is_loop m (a :: l) -> NoDup (a :: l) ->
  (2 <= length l)%nat -> (length l <= fuel)%nat ->
  exists m' new,
    triangulate_monotone fuel (vAt a) (mkTState m tr)
    = Ret (Z.of_nat (length l) - 1) (mkTState m' (tr ++ new)) /\
    Z.of_nat (length new) = Z.of_nat (length l) - 1 /\
    marked (fun n => n ∈ a :: l) m m'.
Proof.
  intros Hloop Hnd Hlen Hfuel. pose proof (is_loop_valid _ _ Hloop) as Hv.
  cbn [is_loop] in Hloop. apply seg_snoc in Hloop as [Hs Hclose].
  pose proof (Forall_cons_1 _ _ _ Hv) as [Hva Hvl].
  unfold triangulate_monotone.
  rewrite (bind_of_Ret _ _ _ (precision_ m) (mkTState m tr)) by reflexivity.
  destruct (SetProcessed_total m a Hva) as (m1 & E1 & Hm1).
  rewrite (bind_of_Ret _ _ _ _ _ (lift_of_Ret _ _ tr _ _ E1)).
  pose proof Hm1 as (Hsr1 & _ & _).
  destruct (vert_at_valid m1 a (valid_same_ring _ _ _ Hsr1 Hva))
    as (V0 & HS & Hleft & Hright & _).
  rewrite (bind_of_Ret _ _ _ _ _ (lift_of_Ret _ _ tr _ _ HS)).
  destruct l as [|b l0]; [cbn in Hlen; lia|]. destruct Hs as [Hab Hs].
  rewrite Hright, Hleft, (same_ring_right_of _ _ _ Hsr1),
    (same_ring_left_of _ _ _ Hsr1), (proj1 Hab), (proj2 Hclose).
  rewrite (last_cons_default l0 a b).
  apply NoDup_cons in Hnd as [Ha Hnd].
  destruct (walk_monotone_total (length l0) l0 b fuel
              (new_Triangulator (vAt a) (precision_ m)) m1 tr)
    as (t1 & x & m2 & tr2 & E2 & Hx & Hm2 & Hc2 & Hne2 & Hfed2); try done.
  { eapply seg_same_ring; eauto. }
  { eapply Forall_impl; [exact Hvl|]. intros n. apply valid_same_ring, Hsr1. }
  { cbn. repeat constructor. eapply valid_same_ring; eauto. }
  rewrite (bind_of_Ret _ _ _ _ _ E2).
  pose proof Hm2 as (Hsr2 & _ & _).
  assert (Hvx : valid m2 (vAt x)).
  { eapply valid_same_ring; [exact Hsr2|]. eapply valid_same_ring; [exact Hsr1|].
    rewrite Forall_forall in Hvl. now apply Hvl. }
  destruct (Triangulator_ProcessVert_total t1 (vAt x) true true m2 tr2
              Hvx Hc2 Hne2) as (t2 & tr3 & E3 & _ & _ & Hlast & Hfed3).
  rewrite (bind_of_Ret _ _ _ _ _ E3).
  destruct (SetProcessed_total m2 x Hvx) as (m3 & E4 & Hm3).
  rewrite (bind_of_Ret _ _ _ _ _ (lift_of_Ret _ _ tr3 _ _ E4)).
  pose proof (fed_trans _ _ _ _ _ _ _ _ Hfed2 Hfed3)
    as (_ & new & -> & Hout & Hcount).
  rewrite (Hlast eq_refl) in Hcount. cbn in Hcount, Hout, Hlen.
  assert (Hn : NumTriangles t2 = Z.of_nat (length (b :: l0)) - 1)
    by (unfold NumTriangles; cbn [length]; lia).
  rewrite Hn.
  assert (Hpos : (Z.of_nat (length (b :: l0)) - 1 >? 0) = true)
    by (apply Z.gtb_lt; cbn [length]; lia).
  rewrite Hpos. cbn [ASSERT]. rewrite bind_ret_l.
  exists m3, new. split; [reflexivity|]. split; [cbn [length]; lia|].
  assert (Hm13 : marked (fun n => n ∈ b :: l0) m1 m3).
  { eapply marked_trans; [exact Hm2|exact Hm3| |].
    - intros n. cbn beta. destruct (decide (n = x)) as [->|Hnx]; tauto.
    - intros n [_ Hnx] ->. done. }
  eapply marked_trans; [exact Hm1|exact Hm13| |].
  - intros n. cbn beta. apply elem_of_cons.
  - intros n -> Hn'. apply Ha. exact Hn'.
Qed.

(** ** All monotones *)

Lemma find_unprocessed_total ring : forall m,
  Forall (fun n => valid m (vAt n)) ring ->
  exists v, find_unprocessed ring m = Ret v m /\
    ((v = vEnd /\ forall n, n ∈ ring -> index_of m n < 0) \/
     (exists n, v = vAt n /\ n ∈ ring /\ 0 <= index_of m n)).
Proof.
  induction ring as [|n ring IH]; intros m Hv; cbn [find_unprocessed].
  - exists vEnd. split; [done|]. left. split; [done|]. intros n Hn. inversion Hn.
  - apply Forall_cons in Hv as [Hn Hv].
    destruct (vert_at_valid _ _ Hn) as (V & HV & _ & _ & Hi).
    rewrite (bind_of_Ret _ _ _ _ _ HV). unfold Processed. rewrite Hi.
    destruct (Z.ltb_spec (index_of m n) 0) as [Hlt|Hge]; cbn [negb].
    + destruct (IH m Hv) as (v & E & [[-> Hall]|(k & -> & Hk & Hik)]).
      * exists vEnd. split; [done|]. left. split; [done|].
        intros k [->|Hk]%elem_of_cons; auto.
      * exists (vAt k). split; [done|]. right. exists k.
        split; [done|]. split; [now apply elem_of_cons; right|done].
    + exists (vAt n). split; [done|]. right. exists n.
      split; [done|]. split; [constructor|done].
Qed.

Lemma assign_index_total ring : forall i m,
  Forall (fun n => valid m (vAt n)) ring ->
  exists m', assign_index i ring m = Ret tt m' /\ same_ring m m' /\
             forall n, n ∈ ring -> i <= index_of m' n.
Proof.
  induction ring as [|n ring IH]; intros i m Hv; cbn [assign_index].
  - exists m. split; [done|]. split; [done|]. intros n Hn. inversion Hn.
  - apply Forall_cons in Hv as [Hn Hv].
    assert (Hk : keeps same_ring (vert_upd (vAt n) (set_index i)))
      by eauto with keeps.
    specialize (Hk m). unfold holds_after in Hk.
    pose proof Hn as (V & HV)%valid_vAt.
    assert (E : vert_upd (vAt n) (set_index i) m
                = Ret tt (with_verts (fun l => <[n := set_index i V]> l) m))
      by (unfold vert_upd; now rewrite HV).
    rewrite E in Hk. rewrite (bind_of_Ret _ _ _ _ _ E).
    set (m1 := with_verts _ m) in *.
    destruct (IH (i + 1) m1) as (m' & E' & Hsr & Hi).
    { eapply Forall_impl; [exact Hv|]. intros k. now apply valid_same_ring. }
    exists m'. split; [done|]. split; [etransitivity; eauto|].
    intros k [->|Hk']%elem_of_cons.
    + destruct (decide (n ∈ ring)) as [Hin|Hin]; [specialize (Hi n Hin); lia|].
      assert (Hrest : forall ring' j m2 m3, n ∉ ring' ->
                assign_index j ring' m2 = Ret tt m3 ->
                index_of m3 n = index_of m2 n).
      { clear. induction ring' as [|k ring' IH]; intros j m2 m3 Hn H;
          cbn [assign_index] in H.
        - now injection H as <-.
        - apply bind_Ret in H as (u & m4 & H1 & H).
          apply not_elem_of_cons in Hn as [Hnk Hn].
          rewrite (IH _ _ _ Hn H). unfold vert_upd in H1.
          destruct (verts m2 !! k); [|done]. inversion H1; subst m4.
          unfold index_of. cbn. rewrite list_lookup_insert_ne by congruence.
          done. }
      rewrite (Hrest _ _ _ _ Hin E'). unfold index_of, m1. cbn.
      rewrite list_lookup_insert_eq by (eapply lookup_lt_Some, HV). cbn. lia.
    + specialize (Hi k Hk'). lia.
Qed.

(** The ring as the triangulation sees it between two monotones: the loops
    [cs] are still to do, everything else has been processed. *)
Definition loops_left (m : Monotones) (cs : list (list nat)) : Prop :=
  Forall (is_loop m) cs /\
  Forall (fun c => (3 <= length c)%nat) cs /\
  NoDup (concat cs) /\
  (forall n, n ∈ concat cs -> n ∈ monotones_ m /\ 0 <= index_of m n) /\
  (forall n, n ∈ monotones_ m -> n ∉ concat cs -> index_of m n < 0) /\
  Forall (fun n => valid m (vAt n)) (monotones_ m).

Lemma elem_of_concat (cs : list (list nat)) n :
  n ∈ concat cs <-> exists c, c ∈ cs /\ n ∈ c.
Proof.
  rewrite list_elem_of_In, in_concat. setoid_rewrite list_elem_of_In. done.
Qed.

Lemma loops_left_nil m cs :
  loops_left m cs -> (forall n, n ∈ monotones_ m -> index_of m n < 0) -> cs = [].
Proof.
  intros (_ & Hlen & _ & Hin & _) Hall. destruct cs as [|c cs]; [done|].
  apply Forall_cons in Hlen as [Hc _]. destruct c as [|n c]; [cbn in Hc; lia|].
  destruct (Hin n) as [H1 H2]; [cbn; constructor|].
  specialize (Hall n H1). lia.
Qed.

(** One loop less. *)
Lemma loops_left_step m m' (cs1 : list (list nat)) (c c' : list nat) cs2 :
  loops_left m (cs1 ++ c :: cs2) ->
  (forall n, n ∈ c' <-> n ∈ c) ->
  marked (fun n => n ∈ c') m m' ->
  loops_left m' (cs1 ++ cs2).
Proof.
  intros (Hloop & Hlen & Hnd & Hin & Hout & Hv) Hc (Hsr & Hneg & Hsame).
  assert (Hmem : forall n, n ∈ concat (cs1 ++ c :: cs2)
                           <-> n ∈ concat (cs1 ++ cs2) \/ n ∈ c).
  { intros n. rewrite !concat_app, concat_cons, !elem_of_app. tauto. }
  assert (Hdisj : forall n, n ∈ concat (cs1 ++ cs2) -> n ∉ c).
  { intros n. rewrite concat_app in *. cbn [concat] in Hnd.
    apply NoDup_app in Hnd as (_ & H1 & H2).
    apply NoDup_app in H2 as (_ & H2 & _).
    intros [Hn|Hn]%elem_of_app Hn'.
    - apply (H1 n Hn). apply elem_of_app. now left.
    - apply (H2 n Hn' Hn). }
  assert (Hring : forall n, n ∈ monotones_ m' <-> n ∈ monotones_ m)
    by apply Hsr.
  split; [|split; [|split; [|split; [|split]]]].
  - apply Forall_app in Hloop as [H1 H2]. apply Forall_cons in H2 as [_ H2].
    apply Forall_app. split; (eapply Forall_impl; [eassumption|]);
      intros l; destruct l; cbn; try done; now apply seg_same_ring.
  - apply Forall_app in Hlen as [H1 H2]. apply Forall_cons in H2 as [_ H2].
    apply Forall_app. done.
  - rewrite concat_app in *. cbn [concat] in Hnd.
    apply NoDup_app in Hnd as (H0 & H1 & H2).
    apply NoDup_app in H2 as (_ & _ & H2).
    apply NoDup_app. split; [done|]. split; [|done].
    intros n Hn Hn'. apply (H1 n Hn). apply elem_of_app. now right.
  - intros n Hn. destruct (Hin n) as [H1 H2]; [apply Hmem; now left|].
    split; [now apply Hring|]. rewrite Hsame; [done|].
    rewrite Hc. now apply Hdisj.
  - intros n Hn Hn'. apply Hring in Hn.
    destruct (decide (n ∈ c)) as [Hnc|Hnc].
    + apply Hneg, Hc, Hnc.
    + rewrite Hsame by (now rewrite Hc). apply Hout; [done|].
      rewrite Hmem. tauto.
  - apply Forall_forall. intros n Hn. apply Hring in Hn.
    rewrite Forall_forall in Hv. eapply valid_same_ring; eauto.
Qed.

(** The outer loop does the loops that are left, one after the other, and
    takes the size of each of them off [triangles_left]. *)
Lemma triangulate_loop_total k : forall cs fuel start tl acc m tr,
  length cs = k -> loops_left m cs ->
  (length (concat cs) < fuel)%nat ->
  (start = vEnd /\ cs = []) \/ (exists n, start = vAt n /\ n ∈ concat cs) ->
  exists cnts m' tr',
    triangulate_loop fuel start tl acc (mkTState m tr)
    = Ret (tl - Z.of_nat (length (concat cs)), acc ++ cnts) (mkTState m' tr') /\
    cnts ≡ₚ map (fun c => Z.of_nat (length c) - 2) cs /\
    same_ring m m'.
Proof.
  induction k as [|k IH]; intros cs fuel start tl acc m tr Hk Hinv Hfuel Hstart;
    (destruct fuel as [|fuel]; [lia|]); cbn [triangulate_loop].
  - destruct cs; [|done].
    destruct Hstart as [[-> _]|(n & _ & Hn)]; [|inversion Hn].
    rewrite bool_decide_eq_true_2 by done.
    exists [], m, tr. cbn. rewrite app_nil_r, Z.sub_0_r. done.
  - destruct Hstart as [[_ ->]|(n & -> & Hn)]; [done|].
    rewrite bool_decide_eq_false_2 by done.
    apply elem_of_concat in Hn as (c & Hc & Hn).
    apply list_elem_of_split in Hc as (cs1 & cs2 & ->).
    apply list_elem_of_split in Hn as (l1 & l2 & ->).
    set (c := l1 ++ n :: l2) in *.
    pose proof Hinv as (Hloop & Hlen & Hnd & _).
    assert (Hperm : n :: l2 ++ l1 ≡ₚ c).
    { unfold c. rewrite <- Permutation_middle.
      constructor. apply Permutation_app_comm. }
    assert (Hc : is_loop m c /\ (3 <= length c)%nat /\ NoDup c).
    { apply Forall_app in Hloop as [_ [H1 _]%Forall_cons].
      apply Forall_app in Hlen as [_ [H2 _]%Forall_cons].
      rewrite concat_app in Hnd. cbn [concat] in Hnd.
      apply NoDup_app in Hnd as (_ & _ & Hnd).
      apply NoDup_app in Hnd as (Hnd & _). done. }
    destruct Hc as (Hc1 & Hc2 & Hc3).
    assert (Hsize : (length (concat (cs1 ++ c :: cs2))
                     = length (concat (cs1 ++ cs2)) + length c)%nat).
    { rewrite !concat_app, concat_cons, !length_app. lia. }
    assert (Hlc : length (n :: l2 ++ l1) = length c)
      by (now rewrite Hperm).
    cbn [length] in Hlc.
    destruct (triangulate_monotone_total fuel n (l2 ++ l1) m tr)
      as (m1 & new & E1 & Hnew & Hm1).
    { apply is_loop_rotate, Hc1. }
    { now rewrite Hperm. }
    { lia. } { lia. }
    rewrite (bind_of_Ret _ _ _ _ _ E1).
    rewrite (bind_of_Ret _ _ _ (monotones_ m1) (mkTState m1 (tr ++ new)))
      by reflexivity.
    assert (Hinv1 : loops_left m1 (cs1 ++ cs2)).
    { eapply loops_left_step; [exact Hinv| |exact Hm1].
      intros x. now rewrite Hperm. }
    pose proof Hinv1 as (_ & _ & _ & Hin1 & Hout1 & Hv1).
    destruct (find_unprocessed_total _ _ Hv1) as (v & E2 & Hv).
    rewrite (bind_of_Ret _ _ _ _ _ (lift_of_Ret _ _ (tr ++ new) _ _ E2)).
    destruct (IH (cs1 ++ cs2) fuel v (tl - (2 + (Z.of_nat (length (l2 ++ l1)) - 1)))
                (acc ++ [Z.of_nat (length (l2 ++ l1)) - 1]) m1 (tr ++ new))
      as (cnts & m' & tr' & E & Hp & Hsr); try done.
    { rewrite length_app in *. cbn in Hk. lia. }
    { lia. }
    { destruct Hv as [[-> Hall]|(x & -> & Hx & Hix)].
      - left. split; [done|]. eapply loops_left_nil; eauto.
      - right. exists x. split; [done|].
        destruct (decide (x ∈ concat (cs1 ++ cs2))) as [|Hn]; [done|].
        specialize (Hout1 x Hx Hn). lia. }
    exists ((Z.of_nat (length (l2 ++ l1)) - 1) :: cnts), m', tr'.
    split; [|split].
    + rewrite E, <- app_assoc. cbn [app]. f_equal. f_equal. lia.
    + rewrite map_app. cbn [map]. rewrite <- Permutation_middle, <- map_app.
      rewrite Hp. replace (Z.of_nat (length c) - 2)
        with (Z.of_nat (length (l2 ++ l1)) - 1) by lia. done.
    + etransitivity; [apply Hm1|done].
Qed.

(** ** [Triangulate] on a ring of closed loops *)

(** The ring is the disjoint union of the closed loops [cs], each of them a
    polygon of at least three verts. *)
Definition ring_of_loops (s : Monotones) (cs : list (list nat)) : Prop :=
  Forall (is_loop s) cs /\
  Forall (fun c => (3 <= length c)%nat) cs /\
  concat cs ≡ₚ monotones_ s /\
  NoDup (monotones_ s).

Lemma ring_of_loops_valid s cs :
  ring_of_loops s cs -> Forall (fun n => valid s (vAt n)) (monotones_ s).
Proof.
  intros (Hloop & _ & Hperm & _). rewrite <- Hperm.
  apply Forall_forall. intros n (c & Hc & Hn)%elem_of_concat.
  rewrite Forall_forall in Hloop. specialize (Hloop c Hc).
  apply is_loop_valid in Hloop. rewrite Forall_forall in Hloop. auto.
Qed.

(** On a ring of closed loops [Triangulate] returns, with [n - 2] triangles
    for every loop of [n] verts. *)
Lemma Triangulate_total fuel st cs :
  ring_of_loops (mono st) cs ->
  (length (monotones_ (mono st)) < fuel)%nat ->
  exists counts st',
    Triangulate fuel st = Ret counts st' /\
    counts ≡ₚ map (fun c => Z.of_nat (length c) - 2) cs.
Proof.
  destruct st as [m tr]. cbn [mono]. intros Hring Hfuel.
  pose proof (ring_of_loops_valid _ _ Hring) as Hv.
  destruct Hring as (Hloop & Hlen & Hperm & Hnd).
  unfold Triangulate.
  rewrite (bind_of_Ret _ _ _ (monotones_ m) (mkTState m tr)) by reflexivity.
  destruct (assign_index_total (monotones_ m) 1 m Hv) as (m1 & E1 & Hsr & Hidx).
  rewrite (bind_of_Ret _ _ _ _ _ (lift_of_Ret _ _ tr _ _ E1)).
  rewrite (bind_of_Ret _ _ _ (v_of (head (monotones_ m1))) (mkTState m1 tr))
    by reflexivity.
  assert (Hmem : forall n, n ∈ monotones_ m1 <-> n ∈ monotones_ m) by apply Hsr.
  assert (Hleft : loops_left m1 cs).
  { split; [|split; [done|split; [now rewrite Hperm|split; [|split]]]].
    - eapply Forall_impl; [exact Hloop|]. intros c. destruct c; cbn; [done|].
      now apply seg_same_ring.
    - intros n Hn. rewrite Hperm in Hn. split; [now apply Hmem|].
      specialize (Hidx n Hn). lia.
    - intros n Hn Hn'. exfalso. apply Hn'. rewrite Hperm. now apply Hmem.
    - apply Forall_forall. intros n Hn%Hmem. rewrite Forall_forall in Hv.
      eapply valid_same_ring; eauto. }
  destruct (triangulate_loop_total (length cs) cs fuel
              (v_of (head (monotones_ m1)))
              (Z.of_nat (length (monotones_ m))) [] m1 tr)
    as (cnts & m' & tr' & E & Hp & _); try done.
  { now rewrite Hperm. }
  { destruct (monotones_ m1) as [|x ring1] eqn:Er; cbn.
    - left. split; [done|]. eapply loops_left_nil; [exact Hleft|].
      intros n Hn. rewrite Er in Hn. inversion Hn.
    - right. exists x. split; [done|]. rewrite Hperm. apply Hmem.
      constructor. }
  rewrite (bind_of_Ret _ _ _ _ _ E). cbn [app].
  assert (E0 : Z.of_nat (length (monotones_ m))
               - Z.of_nat (length (concat cs)) = 0)
    by (rewrite (Permutation_length Hperm); lia).
  rewrite E0. cbn [Z.eqb ASSERT]. rewrite bind_ret_l. eauto.
Qed.

(** ** The loops of a linked ring *)

(** The verts met from [x] along [k] steps of [f]. *)
Fixpoint orbit_list (f : nat -> nat) (k : nat) (x : nat) : list nat :=
  match k with
  | O => []
  | S k => x :: orbit_list f k (f x)
  end.

Lemma orbit_list_lookup f k : forall x i,
  (i < k)%nat -> orbit_list f k x !! i = Some (Nat.iter i f x).
Proof.
  induction k as [|k IH]; intros x i Hi; [lia|].
  destruct i as [|i]; [done|]. cbn [orbit_list lookup list_lookup].
  rewrite IH by lia. now rewrite Nat.iter_succ_r.
Qed.

Lemma length_orbit_list f k : forall x, length (orbit_list f k x) = k.
Proof. induction k as [|k IH]; intros x; cbn; [done|]. now rewrite IH. Qed.

Lemma elem_of_orbit_list f k x y :
  y ∈ orbit_list f k x <-> exists i, (i < k)%nat /\ y = Nat.iter i f x.
Proof.
  rewrite list_elem_of_lookup. split.
  - intros (i & Hi). pose proof (lookup_lt_Some _ _ _ Hi) as Hlt.
    rewrite length_orbit_list in Hlt. rewrite orbit_list_lookup in Hi by done.
    exists i. split; [done|congruence].
  - intros (i & Hi & ->). exists i. now apply orbit_list_lookup.
Qed.

Lemma orbit_list_snoc f k : forall x,
  orbit_list f (S k) x = orbit_list f k x ++ [Nat.iter k f x].
Proof.
  induction k as [|k IH]; intros x; [done|].
  change (orbit_list f (S (S k)) x) with (x :: orbit_list f (S k) (f x)).
  rewrite IH. cbn [orbit_list app]. now rewrite Nat.iter_succ_r.
Qed.

(** The least positive number with a decidable property. *)
Lemma least_positive (Q : nat -> Prop) (dec : forall k, Decision (Q k)) k0 :
  (0 < k0)%nat -> Q k0 ->
  exists k, (0 < k <= k0)%nat /\ Q k /\ forall j, (0 < j < k)%nat -> ~ Q j.
Proof.
  intros Hpos HQ.
  assert (H : forall b,
             (forall j, (0 < j < b)%nat -> ~ Q j) \/
             exists k, (0 < k < b)%nat /\ Q k /\
                       forall j, (0 < j < k)%nat -> ~ Q j).
  { induction b as [|b [IH|(k & Hk & HQk & Hmin)]].
    - left. intros j Hj. lia.
    - destruct (decide (0 < b)%nat) as [Hb|Hb]; [|left; intros j Hj; lia].
      destruct (dec b) as [HQb|HQb].
      + right. exists b. split; [lia|]. done.
      + left. intros j Hj. destruct (decide (j = b)) as [->|]; [done|].
        apply IH. lia.
    - right. exists k. split; [lia|]. done. }
  destruct (H (S k0)) as [Hno|(k & Hk & HQk & Hmin)].
  - exfalso. apply (Hno k0); [lia|done].
  - exists k. split; [lia|]. done.
Qed.

Section Loops.
Variable s : Monotones.

Let f (n : nat) : nat := idx_of (right_of s n).
Let g (n : nat) : nat := idx_of (left_of s n).

(** No loop of one or of two verts: [vert->right != vert] and
    [vert->right->right != vert]. *)
Definition no_short_loop (n : nat) : Prop :=
  right_of s n <> vAt n /\ step_right s (right_of s n) <> vAt n.

Lemma seg_orbit k : forall x P,
  ring_linked P (left_of s) (right_of s) -> P x ->
  seg s x (orbit_list f k (f x)).
Proof.
  induction k as [|k IH]; intros x P HP Hx; [done|]. cbn [orbit_list seg].
  destruct (HP x Hx) as (l & r & Hl & Hr & Pl & Pr & Hrl & Hlr).
  assert (Ef : f x = r) by (unfold f; now rewrite Hr).
  rewrite Ef. split; [split; done|]. rewrite <- Ef. apply (IH _ P HP).
  now rewrite Ef.
Qed.

(** A set of verts closed under the links splits into closed loops. *)
Lemma loops_of_ring k : forall P : list nat,
  (length P <= k)%nat -> NoDup P ->
  ring_linked (fun n => n ∈ P) (left_of s) (right_of s) ->
  (forall n, n ∈ P -> no_short_loop n) ->
  exists cs, Forall (is_loop s) cs /\
             Forall (fun c => (3 <= length c)%nat) cs /\
             NoDup (concat cs) /\
             forall n, n ∈ concat cs <-> n ∈ P.
Proof.
  induction k as [|k IH]; intros P Hlen Hnd HP Hshort.
  { destruct P; [|cbn in Hlen; lia]. exists []. repeat split; try constructor.
    all: cbn; intros H; inversion H. }
  destruct P as [|x P0] eqn:EP.
  { exists []. repeat split; try constructor. all: cbn; intros H; inversion H. }
  rewrite <- EP in *.
  assert (Hx : x ∈ P) by (rewrite EP; constructor).
  assert (Hf : forall m, m ∈ P ->
             right_of s m = vAt (f m) /\ left_of s m = vAt (g m) /\
             f m ∈ P /\ g m ∈ P /\ g (f m) = m /\ f (g m) = m).
  { intros m Hm. destruct (HP m Hm) as (l & r & Hl & Hr & Pl & Pr & Hrl & Hlr).
    unfold f, g. rewrite Hl, Hr. cbn. rewrite Hrl, Hlr. done. }
  assert (Hcl : forall m, m ∈ P -> f m ∈ P) by (intros m Hm; apply Hf, Hm).
  assert (Hinj : forall a b, a ∈ P -> b ∈ P -> f a = f b -> a = b).
  { intros a b Ha Hb E. destruct (Hf a Ha) as (_ & _ & _ & _ & H1 & _).
    destruct (Hf b Hb) as (_ & _ & _ & _ & H2 & _). congruence. }
  destruct (finite_orbit f P Hcl Hinj x Hx) as (k0 & Hk0 & Hit0).
  destruct (least_positive (fun j => Nat.iter j f x = x) _ k0)
    as (n & Hn & Hit & Hmin); [lia|done|].
  set (c := orbit_list f n x).
  assert (Hiter : forall i, Nat.iter i f x ∈ P)
    by (intros i; now apply iter_closed).
  assert (Hc : forall y, y ∈ c <-> exists i, (i < n)%nat /\ y = Nat.iter i f x)
    by (intros y; apply elem_of_orbit_list).
  assert (HcP : forall y, y ∈ c -> y ∈ P).
  { intros y (i & _ & ->)%Hc. apply Hiter. }
  assert (Hcf : forall y, y ∈ c -> f y ∈ c).
  { intros y (i & Hi & ->)%Hc. apply Hc.
    destruct (decide (S i = n)) as [E|E].
    - exists O. split; [lia|]. cbn. rewrite <- Hit at 2. rewrite <- E. done.
    - exists (S i). split; [lia|done]. }
  assert (Hgf : forall i, g (Nat.iter (S i) f x) = Nat.iter i f x).
  { intros i. cbn. apply (Hf _ (Hiter i)). }
  assert (Hcg : forall y, y ∈ c -> g y ∈ c).
  { intros y (i & Hi & ->)%Hc. apply Hc. destruct i as [|i].
    - exists (n - 1)%nat. split; [lia|].
      rewrite <- (Hgf (n - 1)%nat). replace (S (n - 1)) with n by lia.
      now rewrite Hit.
    - exists i. split; [lia|]. apply Hgf. }
  assert (Hcnd : NoDup c).
  { apply NoDup_alt. intros i j y Hi Hj.
    pose proof (lookup_lt_Some _ _ _ Hi) as Hli.
    pose proof (lookup_lt_Some _ _ _ Hj) as Hlj.
    unfold c in *. rewrite length_orbit_list in Hli, Hlj.
    rewrite orbit_list_lookup in Hi, Hj by done.
    assert (E : Nat.iter i f x = Nat.iter j f x) by congruence.
    destruct (Nat.lt_trichotomy i j) as [Hij|[Hij|Hij]]; [|done|]; exfalso.
    - apply (Hmin (j - i)%nat); [lia|].
      apply (iter_cancel f P Hcl Hinj i); [done|].
      now replace (i + (j - i))%nat with j by lia.
    - apply (Hmin (i - j)%nat); [lia|].
      apply (iter_cancel f P Hcl Hinj j); [done|].
      now replace (j + (i - j))%nat with i by lia. }
  assert (Hloop : is_loop s c).
  { unfold c. destruct n as [|n']; [lia|]. cbn [orbit_list is_loop].
    assert (E : orbit_list f n' (f x) ++ [x] = orbit_list f (S n') (f x)).
    { rewrite orbit_list_snoc. f_equal. f_equal.
      rewrite <- Hit at 1. now rewrite Nat.iter_succ_r. }
    rewrite E. apply (seg_orbit _ _ _ HP Hx). }
  assert (Hc3 : (3 <= length c)%nat).
  { unfold c. rewrite length_orbit_list.
    destruct (Hshort x Hx) as [H1 H2]. destruct (Hf x Hx) as (Hr & _ & Hfx & _).
    destruct (Hf (f x) Hfx) as (Hr' & _).
    rewrite Hr in H1, H2. cbn in H2. rewrite Hr' in H2.
    destruct n as [|[|[|n']]]; [lia| | |lia]; exfalso.
    - cbn in Hit. congruence.
    - cbn in Hit. congruence. }
  set (P' := filter (fun m => (m ∉ c)) P).
  assert (HP' : forall m, m ∈ P' <-> (m ∉ c) /\ m ∈ P)
    by (intros m; apply (list_elem_of_filter (fun m => (m ∉ c)))).
  destruct (IH P') as (cs & Hcs1 & Hcs2 & Hcs3 & Hcs4).
  - assert ((length P' < length P)%nat); [|lia].
    apply (length_filter_lt _ _ x); [done|]. intros Hnx. apply Hnx, Hc.
    exists O. split; [lia|done].
  - now apply NoDup_filter.
  - intros m [Hmc Hm]%HP'. destruct (HP m Hm) as (l & r & Hl & Hr & Pl & Pr & Hrl & Hlr).
    exists l, r. do 2 (split; [done|]).
    destruct (Hf m Hm) as (Hr0 & Hl0 & _ & _ & Hgf' & Hfg).
    assert (El : l = g m) by congruence. assert (Er : r = f m) by congruence.
    split; [|split; [|done]]; apply HP'; (split; [|done]); intros Hin; apply Hmc.
    + rewrite <- Hfg, <- El. now apply Hcf.
    + rewrite <- Hgf', <- Er. now apply Hcg.
  - intros m [_ Hm]%HP'. now apply Hshort.
  - exists (c :: cs). split; [now constructor|]. split; [now constructor|].
    cbn [concat]. split.
    + apply NoDup_app. split; [done|]. split; [|done].
      intros y Hy Hy'. apply Hcs4, HP' in Hy'. tauto.
    + intros m. rewrite elem_of_app, Hcs4, HP'. split; [intros [?|[_ ?]]; auto|].
      intros Hm. destruct (decide (m ∈ c)); tauto.
Qed.

End Loops.

(** A ring that satisfies the invariant of the links, and in which no loop
    has fewer than three verts, is made of closed loops. *)
Lemma ring_loops_exist s :
  links_inv s -> NoDup (monotones_ s) ->
  (forall n, n ∈ monotones_ s -> no_short_loop s n) ->
  exists cs, ring_of_loops s cs.
Proof.
  intros Hinv Hnd Hshort.
  destruct (loops_of_ring s (length (monotones_ s)) (monotones_ s))
    as (cs & H1 & H2 & H3 & H4); try done.
  exists cs. split; [done|]. split; [done|]. split; [|done].
  now apply NoDup_Permutation.
Qed.

(** The square with a square hole, after the two sweeps: the ring of twelve
    verts is two loops of six. *)
Definition holed_swept : Monotones :=
  Eval vm_compute in state_of (Monotones_sweeps 100 strict_checked holed_ring).

Definition holed_loops : list (list nat) :=
  [[1; 2; 6; 7; 4; 0]; [10; 11; 5; 8; 9; 3]]%nat.

(** C2.  A ring that satisfies the invariant of the links and has no loop
    of fewer than three verts is made of closed loops, the monotone
    polygons.  On such a ring of [M] loops [Triangulate] returns, with
    exactly [n - 2] triangles for every monotone of [n] verts, [|R| - 2M]
    triangles in all for the ring size [|R|].  Whenever [Triangulate]
    returns, the number of triangles it has added is [|R| - 2M] for the
    number [M] of monotones it has gone through; and the only exception it
    raises, when a count does not add up, is the topology error. *)
Theorem Triangulate_triangle_count fuel st :
  (links_inv (mono st) -> NoDup (monotones_ (mono st)) ->
   (forall n, n ∈ monotones_ (mono st) -> no_short_loop (mono st) n) ->
   exists cs, ring_of_loops (mono st) cs) /\
  (forall cs,
     ring_of_loops (mono st) cs ->
     (length (monotones_ (mono st)) < fuel)%nat ->
     exists counts st' new,
       Triangulate fuel st = Ret counts st' /\
       counts ≡ₚ map (fun c => Z.of_nat (length c) - 2) cs /\
       triangles st' = triangles st ++ new /\
       Z.of_nat (length new)
       = Z.of_nat (length (monotones_ (mono st))) - 2 * Z.of_nat (length cs)) /\
  (forall counts st',
     Triangulate fuel st = Ret counts st' ->
     exists new,
       triangles st' = triangles st ++ new /\
       Z.of_nat (length new) = total counts /\
       total counts = Z.of_nat (length (monotones_ (mono st)))
                      - 2 * Z.of_nat (length counts)) /\
  (forall e st', Triangulate fuel st = Exc e st' -> e = topologyErr).
Proof.
  split; [|split; [|split]].
  - apply ring_loops_exist.
  - intros cs Hring Hfuel.
    destruct (Triangulate_total fuel st cs Hring Hfuel) as (counts & st' & E & Hp).
    destruct (Triangulate_counted _ _ _ _ E) as (new & Ht & Hn & Hsum & _).
    exists counts, st', new. do 3 (split; [done|]).
    rewrite Hn, Hsum. apply Permutation_length in Hp.
    rewrite length_map in Hp. now rewrite Hp.
  - intros counts st' E.
    destruct (Triangulate_counted _ _ _ _ E) as (new & Ht & Hn & Hsum & _).
    eauto.
  - intros e st' E. exact (throws_Triangulate fuel st e st' E).
Qed.

Lemma Triangulate_triangle_count_witness :
  (exists cs, ring_of_loops holed_swept cs) /\
  ring_of_loops holed_swept holed_loops /\
  exists counts st' new,
    Triangulate 100 (mkTState holed_swept []) = Ret counts st' /\
    counts ≡ₚ [4; 4] /\
    triangles st' = new /\
    Z.of_nat (length new) = 8.
Proof.
  pose proof (Triangulate_triangle_count 100 (mkTState holed_swept []))
    as (T1 & T2 & _).
  assert (Hin : forall n, n ∈ monotones_ holed_swept -> (n < 12)%nat).
  { intros n Hn. unfold holed_swept in Hn. cbn [monotones_] in Hn.
    repeat (apply elem_of_cons in Hn as [->|Hn]; [lia|]). inversion Hn. }
  assert (Hring : forall n, (n < 12)%nat -> n ∈ monotones_ holed_swept).
  { intros n Hn. do 12 (destruct n as [|n]; [apply (bool_decide_unpack _);
      vm_compute; exact I|]). lia. }
  assert (Hloops : ring_of_loops holed_swept holed_loops).
  { split; [|split; [|split]].
    - repeat constructor.
    - repeat constructor.
    - apply (bool_decide_unpack _). vm_compute. exact I.
    - apply (bool_decide_unpack _). vm_compute. exact I. }
  split; [|split; [exact Hloops|]].
  - apply T1.
    + intros n Hn%Hin.
      do 12 (destruct n as [|n];
             [eexists _, _; split; [reflexivity|]; split; [reflexivity|];
              split; [apply Hring; lia|]; split; [apply Hring; lia|];
              split; reflexivity|]).
      lia.
    + apply (bool_decide_unpack _). vm_compute. exact I.
    + intros n Hn%Hin.
      do 12 (destruct n as [|n]; [split; discriminate|]). lia.
  - apply (T2 holed_loops Hloops). cbn. lia.
Defined.

(** ** Inputs and configurations used below *)

(** The collinear triangle [(0,0), (1,1), (2,2)]. *)
Definition collinear_triangle : list (list vec2) := [[pt 0 0; pt 1 1; pt 2 2]].

Definition soft_checked : Config :=
  mkConfig true (mkParams false true true false).

(** * Further properties of the code

    ** The indices given by [Triangulate] *)

Lemma index_poly_spec (poly : list vec2) : forall k,
  map pv_pos (imap (fun i p => mkPolyVert p (k + Z.of_nat i)) poly) = poly /\
  map pv_idx (imap (fun i p => mkPolyVert p (k + Z.of_nat i)) poly)
  = seqZ k (Z.of_nat (length poly)).
Proof.
  induction poly as [|p poly IH]; intros k; [done|].
  rewrite imap_cons. cbn [map pv_pos pv_idx length].
  assert (E : imap ((fun i p => mkPolyVert p (k + Z.of_nat i)) ∘ S) poly
              = imap (fun i p => mkPolyVert p ((k + 1) + Z.of_nat i)) poly).
  { apply imap_ext. intros i x _. unfold compose. f_equal. lia. }
  rewrite E. destruct (IH (k + 1)) as [-> ->]. split; [done|].
  rewrite Nat2Z.inj_succ, (seqZ_cons k) by lia. f_equal; [lia|].
  f_equal; lia.
Qed.

(** [Triangulate(polygons, precision)] hands [TriangulateIdx] the polygons
    as they are, vert for vert, with the indices [idx, idx + 1, ...] in the
    order of traversal, so that an index of a triangle is the position of a
    point in the concatenation of the polygons. *)
Theorem Triangulate_indices polygons : forall idx,
  map pv_pos (concat (index_polys idx polygons)) = concat polygons /\
  map pv_idx (concat (index_polys idx polygons))
  = seqZ idx (Z.of_nat (length (concat polygons))) /\
  map length (index_polys idx polygons) = map length polygons /\
  (forall i p,
     concat polygons !! i = Some p ->
     concat (index_polys idx polygons) !! i
     = Some (mkPolyVert p (idx + Z.of_nat i))).
Proof.
  assert (H : forall idx,
    map pv_pos (concat (index_polys idx polygons)) = concat polygons /\
    map pv_idx (concat (index_polys idx polygons))
    = seqZ idx (Z.of_nat (length (concat polygons))) /\
    map length (index_polys idx polygons) = map length polygons).
  { induction polygons as [|poly polygons IH]; intros idx; [done|].
    cbn [index_polys concat map]. rewrite !map_app, length_app, length_imap.
    destruct (index_poly_spec poly idx) as [-> ->].
    destruct (IH (idx + Z.of_nat (length poly))) as (-> & -> & ->).
    split; [done|]. split; [|done].
    rewrite Nat2Z.inj_add, seqZ_app by lia. done. }
  intros idx. destruct (H idx) as (H1 & H2 & H3). do 3 (split; [done|]).
  intros i p Hi.
  assert (Hp : map pv_pos (concat (index_polys idx polygons)) !! i = Some p)
    by now rewrite H1.
  assert (Hx : map pv_idx (concat (index_polys idx polygons)) !! i
               = Some (idx + Z.of_nat i)).
  { rewrite H2. apply lookup_seqZ. split; [lia|].
    apply lookup_lt_Some in Hi. lia. }
  change (map ?f ?l) with (fmap (M:=list) f l) in Hp.
  change (map ?f ?l) with (fmap (M:=list) f l) in Hx.
  rewrite list_lookup_fmap in Hp. rewrite list_lookup_fmap in Hx.
  destruct (concat (index_polys idx polygons) !! i) as [[q j]|]; [|done].
  cbn in Hp, Hx. congruence.
Qed.

(** ** What [CheckTopology] accepts *)

#[global] Instance PolyEdge_eq_dec : EqDecision PolyEdge.
Proof. solve_decision. Defined.

(** The halfedge in the opposite direction. *)
Definition flip_edge (e : PolyEdge) : PolyEdge :=
  mkPolyEdge (endVert e) (startVert e).

(** How often the halfedge from [a] to [b] occurs. *)
Definition edge_count (a b : Z) (l : list PolyEdge) : nat :=
  length (filter (fun e => e = mkPolyEdge a b) l).

Lemma PolyEdge_eqb_eq a b : PolyEdge_eqb a b = true <-> a = b.
Proof.
  unfold PolyEdge_eqb. rewrite andb_true_iff, !Z.eqb_eq.
  destruct a, b; cbn. split; [intros [-> ->]; done|intros [= -> ->]; done].
Qed.

Lemma PolyEdge_cmp_lt a b :
  PolyEdge_cmp a b = true <->
  startVert a < startVert b \/ (startVert a = startVert b /\ endVert a < endVert b).
Proof.
  unfold PolyEdge_cmp.
  rewrite orb_true_iff, andb_true_iff, !Z.ltb_lt, Z.eqb_eq. done.
Qed.

Lemma PolyEdge_cmp_irrefl a : PolyEdge_cmp a a = false.
Proof. apply not_true_iff_false. rewrite PolyEdge_cmp_lt. lia. Qed.

Lemma PolyEdge_cmp_trans a b c :
  PolyEdge_cmp a b = true -> PolyEdge_cmp b c = true -> PolyEdge_cmp a c = true.
Proof. rewrite !PolyEdge_cmp_lt. lia. Qed.

Lemma PolyEdge_cmp_total a b :
  PolyEdge_cmp a b = false -> a <> b -> PolyEdge_cmp b a = true.
Proof.
  intros H Hne. apply not_true_iff_false in H. rewrite PolyEdge_cmp_lt in *.
  destruct a as [a1 a2], b as [b1 b2]; cbn in *.
  destruct (decide (a1 = b1)) as [->|]; [|lia].
  destruct (decide (a2 = b2)) as [->|]; [done|lia].
Qed.

(** [a] does not come after [b]. *)
Definition edge_le (a b : PolyEdge) : Prop := PolyEdge_cmp b a = false.

Lemma edge_insert_perm x l : edge_insert x l ≡ₚ x :: l.
Proof.
  induction l as [|y l IH]; cbn; [done|].
  destruct (PolyEdge_cmp y x); [|done]. rewrite IH. apply Permutation_swap.
Qed.

Lemma edge_sort_perm l : edge_sort l ≡ₚ l.
Proof.
  unfold edge_sort. induction l as [|x l IH]; cbn; [done|].
  now rewrite edge_insert_perm, IH.
Qed.

Lemma edge_insert_sorted x l :
  Sorted edge_le l -> Sorted edge_le (edge_insert x l).
Proof.
  induction 1 as [|y l Hs IH Hh]; cbn; [repeat constructor|].
  destruct (PolyEdge_cmp y x) eqn:E.
  - constructor; [done|]. destruct Hh as [|z l Hz]; cbn.
    + constructor. unfold edge_le. apply not_true_iff_false. intros H.
      pose proof (PolyEdge_cmp_trans _ _ _ E H) as H'.
      now rewrite PolyEdge_cmp_irrefl in H'.
    + destruct (PolyEdge_cmp z x); constructor; [done|].
      unfold edge_le. apply not_true_iff_false. intros H.
      pose proof (PolyEdge_cmp_trans _ _ _ E H) as H'.
      now rewrite PolyEdge_cmp_irrefl in H'.
  - constructor; [now constructor|]. constructor. exact E.
Qed.

Lemma edge_sort_sorted l : Sorted edge_le (edge_sort l).
Proof.
  unfold edge_sort. induction l as [|x l IH]; cbn; [constructor|].
  now apply edge_insert_sorted.
Qed.

(** No two neighbours in the list are equal; [o] is the element before. *)
Fixpoint chain_distinct (o : option PolyEdge) (l : list PolyEdge) : Prop :=
  match l with
  | [] => True
  | x :: l' =>
      match o with Some p => p <> x | None => True end /\
      chain_distinct (Some x) l'
  end.

Lemma sorted_distinct_NoDup l : forall x,
  Sorted edge_le (x :: l) -> chain_distinct (Some x) l ->
  Forall (fun y => PolyEdge_cmp x y = true) l /\ NoDup (x :: l).
Proof.
  induction l as [|y l IH]; intros x Hs Hd.
  - split; [constructor|]. apply NoDup_singleton.
  - apply Sorted_inv in Hs as [Hs Hh]. apply HdRel_inv in Hh.
    destruct Hd as [Hxy Hd]. destruct (IH y Hs Hd) as [Hall Hnd].
    assert (Hlt : PolyEdge_cmp x y = true) by now apply PolyEdge_cmp_total.
    assert (Hall' : Forall (fun z => PolyEdge_cmp x z = true) (y :: l)).
    { constructor; [done|]. eapply Forall_impl; [exact Hall|].
      intros z. now apply PolyEdge_cmp_trans. }
    split; [done|]. apply NoDup_cons. split; [|done].
    intros Hin. rewrite Forall_forall in Hall'. specialize (Hall' x Hin).
    now rewrite PolyEdge_cmp_irrefl in Hall'.
Qed.

(** The last loop of [CheckTopology] passes only on two equal lists in
    which no element is followed by an equal one. *)
Lemma match_edges_Ret {S} fwd : forall prev bwd (s : S) u s',
  match_edges prev fwd bwd s = Ret u s' ->
  length fwd = length bwd ->
  s' = s /\ fwd = bwd /\ chain_distinct (fst <$> prev) fwd.
Proof.
  induction fwd as [|f fwd IH]; intros prev bwd s u s' H Hl;
    destruct bwd as [|b bwd]; try discriminate; cbn [match_edges] in H.
  - injection H as <- <-. done.
  - apply bind_Ret in H as (u1 & s1 & H1 & H).
    apply ASSERT_Ret in H1 as [Hfb ->]. apply PolyEdge_eqb_eq in Hfb as <-.
    apply bind_Ret in H as (u2 & s2 & H2 & H).
    apply IH in H as (-> & -> & Hd); [|cbn in Hl; lia].
    destruct prev as [[pf pb]|]; cbn.
    + apply bind_Ret in H2 as (u3 & s3 & H3 & H2).
      apply ASSERT_Ret in H3 as [Hp ->]. apply ASSERT_Ret in H2 as [_ ->].
      split; [done|]. split; [done|]. split; [|done].
      intros ->. apply negb_true_iff in Hp.
      assert (PolyEdge_eqb f f = true) by now apply PolyEdge_eqb_eq.
      congruence.
    + injection H2 as <- <-. done.
Qed.

Lemma edge_count_perm a b l l' : l ≡ₚ l' -> edge_count a b l = edge_count a b l'.
Proof. intros H. unfold edge_count. now rewrite H. Qed.

Lemma edge_count_app a b l l' :
  edge_count a b (l ++ l') = (edge_count a b l + edge_count a b l')%nat.
Proof. unfold edge_count. now rewrite filter_app, length_app. Qed.

Lemma edge_count_flip a b l :
  edge_count a b (map flip_edge l) = edge_count b a l.
Proof.
  unfold edge_count. induction l as [|e l IH]; [done|].
  cbn [map]. rewrite !filter_cons.
  destruct (decide (flip_edge e = mkPolyEdge a b)) as [E|E],
           (decide (e = mkPolyEdge b a)) as [E'|E']; cbn [length];
    rewrite ?IH; try done; exfalso; destruct e as [x y];
    unfold flip_edge in *; cbn in *; congruence.
Qed.

Lemma edge_count_NoDup a b l : NoDup l -> (edge_count a b l <= 1)%nat.
Proof.
  unfold edge_count. induction 1 as [|e l Hin Hnd IH]; [cbn; lia|].
  rewrite filter_cons. destruct (decide (e = mkPolyEdge a b)) as [->|]; [|done].
  cbn [length]. assert (E : filter (fun e => e = mkPolyEdge a b) l = []).
  { destruct (filter _ l) as [|x l'] eqn:Ef; [done|].
    assert (Hx : x ∈ filter (fun e => e = mkPolyEdge a b) l)
      by (rewrite Ef; constructor).
    apply list_elem_of_filter in Hx as [-> Hx]. done. }
  rewrite E. cbn. lia.
Qed.

Lemma edge_count_filter a b (P : PolyEdge -> Prop) `{!forall e, Decision (P e)} l :
  edge_count a b (filter P l)
  = if decide (P (mkPolyEdge a b)) then edge_count a b l else O.
Proof.
  unfold edge_count. induction l as [|e l IH]; [by destruct (decide _)|].
  rewrite !filter_cons.
  destruct (decide (P e)) as [HP|HP], (decide (e = mkPolyEdge a b)) as [->|Hne];
    rewrite ?filter_cons; try rewrite decide_True by done;
    try rewrite (decide_False (P:=e = _)) by done; cbn [length]; rewrite IH;
    destruct (decide (P (mkPolyEdge a b))); done.
Qed.

(** The halfedges split into those going up, those going down and those
    from an index to itself. *)
Lemma edge_split_length (l : list PolyEdge) :
  (length (filter (fun e => (endVert e > startVert e)%Z) l)
   + length (filter (fun e => (endVert e < startVert e)%Z) l)
   + length (filter (fun e => endVert e = startVert e) l))%nat = length l.
Proof.
  induction l as [|e l IH]; [done|]. rewrite !filter_cons.
  destruct (decide (endVert e > startVert e)),
           (decide (endVert e < startVert e)),
           (decide (endVert e = startVert e)); cbn [length]; lia.
Qed.

(** What the assertions of [CheckTopology] leave when all of them pass. *)
Lemma CheckTopology_edges_Ret {S} (halfedges : list PolyEdge) (s : S) u s' :
  CheckTopology_edges halfedges s = Ret u s' ->
  s' = s /\
  Nat.Even (length halfedges) /\
  forall a b,
    edge_count a b halfedges = edge_count b a halfedges /\
    (edge_count a b halfedges <= 1)%nat /\
    edge_count a a halfedges = O.
Proof.
  intros H. unfold CheckTopology_edges in H.
  apply bind_Ret in H as (u1 & s1 & H1 & H). apply ASSERT_Ret in H1 as [He ->].
  apply bind_Ret in H as (u2 & s2 & H2 & H). apply ASSERT_Ret in H2 as [Hf ->].
  apply bind_Ret in H as (u3 & s3 & H3 & H). apply ASSERT_Ret in H3 as [Hb ->].
  apply bool_decide_eq_true in Hf, Hb. apply Z.eqb_eq in He.
  set (fwd := filter (fun e => endVert e > startVert e) halfedges) in *.
  set (bwd := filter (fun e => endVert e < startVert e) halfedges) in *.
  set (bwd' := map (fun e => mkPolyEdge (endVert e) (startVert e)) bwd) in *.
  assert (Hbwd' : bwd' = map flip_edge bwd) by done.
  assert (Hhalf : (2 * (length halfedges / 2) = length halfedges)%nat).
  { pose proof (Nat.div_mod_eq (length halfedges) 2) as Hd.
    assert ((length halfedges mod 2 = 0)%nat); [|lia].
    apply Nat2Z.inj. rewrite Nat2Z.inj_mod. exact He. }
  apply match_edges_Ret in H as (-> & Heq & Hd).
  2:{ rewrite !(Permutation_length (edge_sort_perm _)).
      unfold bwd'. rewrite length_map. lia. }
  split; [done|]. split; [exists (length halfedges / 2)%nat; lia|].
  assert (Hperm : fwd ≡ₚ bwd').
  { rewrite <- (edge_sort_perm fwd), Heq. apply edge_sort_perm. }
  assert (Hnd : NoDup fwd).
  { rewrite <- (edge_sort_perm fwd).
    pose proof (edge_sort_sorted fwd) as Hs.
    destruct (edge_sort fwd) as [|x l]; [constructor|].
    destruct Hd as [_ Hd]. now apply sorted_distinct_NoDup. }
  assert (Hnd' : NoDup bwd).
  { apply (NoDup_fmap_1 flip_edge). change (NoDup bwd').
    now rewrite <- Hperm. }
  pose proof (edge_split_length halfedges) as Hsplit.
  fold fwd bwd in Hsplit.
  assert (Hdeg : forall a, edge_count a a halfedges = O).
  { intros a. unfold edge_count.
    destruct (filter (fun e => e = mkPolyEdge a a) halfedges)
      as [|x l] eqn:Ef; [done|].
    assert (Hx : x ∈ filter (fun e => e = mkPolyEdge a a) halfedges)
      by (rewrite Ef; constructor).
    apply list_elem_of_filter in Hx as [-> Hx].
    assert (Hin : mkPolyEdge a a
                  ∈ filter (fun e => endVert e = startVert e) halfedges)
      by (apply list_elem_of_filter; done).
    destruct (filter (fun e => endVert e = startVert e) halfedges);
      [inversion Hin|cbn in Hsplit; lia]. }
  assert (Hup : forall a b, a < b ->
            edge_count a b halfedges = edge_count a b fwd /\
            edge_count b a halfedges = edge_count b a bwd).
  { intros a b Hab. unfold fwd, bwd. rewrite !edge_count_filter. cbn.
    rewrite !decide_True by lia. done. }
  assert (Hpair : forall a b, a < b ->
            edge_count a b halfedges = edge_count b a halfedges /\
            (edge_count a b halfedges <= 1)%nat /\
            (edge_count b a halfedges <= 1)%nat).
  { intros a b Hab. destruct (Hup a b Hab) as [-> ->].
    rewrite (edge_count_perm a b _ _ Hperm), Hbwd', edge_count_flip.
    split; [done|]. split; [|now apply edge_count_NoDup].
    now apply edge_count_NoDup. }
  intros a b. split; [|split; [|apply Hdeg]].
  + destruct (Z.lt_trichotomy a b) as [Hab|[->|Hab]]; [|done|].
    * apply (Hpair a b Hab).
    * symmetry. apply (Hpair b a Hab).
  + destruct (Z.lt_trichotomy a b) as [Hab|[->|Hab]].
    * apply (Hpair a b Hab).
    * rewrite Hdeg. lia.
    * apply (Hpair b a Hab).
Qed.

(** [CheckTopology] on a list of halfedges returns only when every halfedge
    has exactly one partner in the opposite direction: no halfedge occurs
    twice, none goes from an index to itself, and the halfedge from [a] to
    [b] occurs as often as the one from [b] to [a].  What it raises is the
    topology error; it leaves the state alone. *)
Theorem CheckTopology_accepts {S} (halfedges : list PolyEdge) (s : S) :
  (forall u s',
     CheckTopology_edges halfedges s = Ret u s' ->
     s' = s /\
     Nat.Even (length halfedges) /\
     forall a b,
       edge_count a b halfedges = edge_count b a halfedges /\
       (edge_count a b halfedges <= 1)%nat /\
       edge_count a a halfedges = O) /\
  (forall e s', CheckTopology_edges halfedges s = Exc e s' ->
                e = topologyErr /\ s' = s).
Proof.
  split.
  - intros u s'. apply CheckTopology_edges_Ret.
  - intros e s' H.
    assert (Hm : forall fwd prev bwd e s', 
               @match_edges S prev fwd bwd s = Exc e s' -> e = topologyErr /\ s' = s).
    { clear. induction fwd as [|f fwd IH]; intros prev bwd e s' H;
        destruct bwd as [|b bwd]; try discriminate; cbn [match_edges] in H.
      unfold ASSERT, bind, ret, throw in H.
      destruct (PolyEdge_eqb f b); [|now injection H as <- <-].
      destruct prev as [[pf pb]|].
      - destruct (PolyEdge_eqb pf f); cbn in H; [now injection H as <- <-|].
        destruct (PolyEdge_eqb pb b); cbn in H; [now injection H as <- <-|].
        eapply IH, H.
      - eapply IH, H. }
    unfold CheckTopology_edges, ASSERT, bind, ret, throw in H.
    destruct (_ =? 0); [|now injection H as <- <-].
    destruct (bool_decide _); [|now injection H as <- <-].
    destruct (bool_decide _); [|now injection H as <- <-].
    eapply Hm, H.
Qed.

(** ** The halfedges of polygons and of triangles *)

Lemma List_last_cons {A} (l : list A) : forall a x,
  List.last (x :: l) a = List.last l x.
Proof.
  induction l as [|y l IH]; intros a x; [done|].
  change (List.last (x :: y :: l) a) with (List.last (y :: l) a).
  now rewrite (IH a y), (IH x y).
Qed.

Lemma poly_edges_ends rest : forall first x,
  map startVert (poly_edges first rest
                   ++ [mkPolyEdge (pv_idx (List.last rest first)) x])
  = map pv_idx (first :: rest) /\
  map endVert (poly_edges first rest
                 ++ [mkPolyEdge (pv_idx (List.last rest first)) x])
  = map pv_idx rest ++ [x].
Proof.
  induction rest as [|v rest IH]; intros first x; [done|].
  cbn [poly_edges app map startVert endVert].
  rewrite (List_last_cons rest first v). destruct (IH v x) as [-> ->]. done.
Qed.

Lemma last_cons_last {A} (first : A) rest :
  last (first :: rest) = Some (List.last rest first).
Proof.
  revert first. induction rest as [|v rest IH]; intros first; [done|].
  now rewrite last_cons_cons, IH, List_last_cons.
Qed.

Lemma rotate_1_cons {A} (first : A) rest :
  rotate 1 (first :: rest) = rest ++ [first].
Proof.
  unfold rotate. cbn [length]. destruct rest as [|v rest]; [done|].
  rewrite Nat.mod_small by (cbn [length]; lia). done.
Qed.

(** [Polygons2Edges] turns every polygon into its closed cycle of halfedges:
    the halfedges start at the verts of the polygons in order, and each ends
    at the next vert of its polygon, the last one at the first.  An empty
    polygon is the one input it has no defined result for.
    [Triangles2Edges] gives three halfedges for every triangle. *)
Theorem Polygons2Edges_cycles (polys : PolygonsIdx) :
  (Polygons2Edges polys = None <-> [] ∈ polys) /\
  (forall es,
     Polygons2Edges polys = Some es ->
     map startVert es = map pv_idx (concat polys) /\
     map endVert es = map pv_idx (concat (map (rotate 1) polys))) /\
  (forall tris, length (Triangles2Edges tris) = (3 * length tris)%nat).
Proof.
  split; [|split].
  - induction polys as [|poly polys IH]; cbn [Polygons2Edges].
    + split; [done|]. intros H. inversion H.
    + destruct poly as [|first rest].
      * split; [constructor|done].
      * rewrite last_cons_last.
        destruct (Polygons2Edges polys) as [r|]; cbn.
        -- split; [done|]. intros [H|H]%elem_of_cons; [done|].
           now apply IH in H.
        -- split; [|done]. intros _. apply elem_of_cons. right. now apply IH.
  - induction polys as [|poly polys IH]; intros es H; cbn [Polygons2Edges] in H.
    + now injection H as <-.
    + destruct poly as [|first rest]; [done|].
      rewrite last_cons_last in H.
      destruct (Polygons2Edges polys) as [r|]; [|done]. cbn in H.
      injection H as <-. destruct (IH r eq_refl) as [H1 H2].
      cbn [concat map]. rewrite rotate_1_cons.
      rewrite !(cons_middle _ (poly_edges first rest) r),
        !(app_assoc (poly_edges first rest)), !map_app.
      destruct (poly_edges_ends rest first (pv_idx first)) as [E1 E2].
      rewrite map_app in E1, E2. rewrite E1, E2, H1, H2.
      done.
  - intros tris. unfold Triangles2Edges.
    induction tris as [|[[a b] c] tris IH]; [done|].
    cbn [flat_map]. rewrite length_app, IH. cbn [length]. lia.
Qed.

(** ** The flags of a vert *)

(** [SetProcessed(b)] makes [Processed()] answer [b], except on a vert that
    [SetSkip] has marked: that one stays marked, and processed, whatever
    is set afterwards.  Neither function touches a field other than
    [index]: the position, the mesh index, both links and both edges of the
    vert are as before. *)
Theorem SetSkip_is_final (v : VertAdj) :
  (forall bs,
     fold_left (fun w b => SetProcessed b w) bs (SetSkip v) = SetSkip v /\
     SetSkip v
     = mkVertAdj (pos v) (mesh_idx v) (-2) (left v) (right v)
                 (edgeL v) (edgeR v) /\
     Processed (SetSkip v) = true) /\
  (forall b, index v <> -2 ->
     SetProcessed b v
     = mkVertAdj (pos v) (mesh_idx v) (if b then -1 else 0) (left v) (right v)
                 (edgeL v) (edgeR v) /\
     Processed (SetProcessed b v) = b /\
     index (SetProcessed b v) <> -2).
Proof.
  split.
  - intros bs.
    assert (H : forall w, index w = -2 ->
              fold_left (fun w b => SetProcessed b w) bs w = w).
    { induction bs as [|b bs IH]; intros w Hw; [done|]. cbn [fold_left].
      assert (E : SetProcessed b w = w)
        by (unfold SetProcessed; now rewrite Hw).
      rewrite E. now apply IH. }
    rewrite H by done. done.
  - intros b Hv. unfold SetProcessed, Processed.
    destruct (Z.eqb_spec (index v) (-2)) as [|_]; [done|].
    destruct b; cbn; repeat split; (done || lia).
Qed.

Lemma SetSkip_is_final_witness :
  Processed (SetProcessed false (mkVertAdj (mkvec2 0 0) 7 3 vEnd vEnd eNone eNone))
  = false /\
  SetProcessed true
    (SetProcessed false
       (SetSkip (mkVertAdj (mkvec2 0 0) 7 3 vEnd vEnd eNone eNone)))
  = mkVertAdj (mkvec2 0 0) 7 (-2) vEnd vEnd eNone eNone.
Proof.
  split.
  - apply (proj2 (SetSkip_is_final _) false). cbn. lia.
  - destruct (proj1 (SetSkip_is_final
                       (mkVertAdj (mkvec2 0 0) 7 3 vEnd vEnd eNone eNone))
                    [false; true]) as (E & E' & _).
    cbn [fold_left] in E. rewrite E. exact E'.
Defined.

(** ** [ProcessVert] of the triangulator *)

Lemma Triangulator_ProcessVert_head t vi r l st t' st' :
  Triangulator_ProcessVert t vi r l st = Ret t' st' ->
  head (reflex_chain_ t') = Some vi.
Proof.
  unfold Triangulator_ProcessVert. intros H.
  destruct (reflex_chain_ t) as [|v_top rest] eqn:Ec; [discriminate|].
  destruct (Z.of_nat (length (v_top :: rest)) <? 2).
  { now injection H as <- <-. }
  destruct (eqb (onRight_ t) r && negb l).
  - apply bind_Ret in H as ([[t1 v1] c1] & st1 & H1 & H). now injection H as <- <-.
  - apply bind_Ret in H as (t1 & st1 & H1 & H). now injection H as <- <-.
Qed.

(** On iterators that designate verts, [ProcessVert] of the triangulator
    returns, and keeps its books: [vi] is the new back of the reflex chain,
    every vert given to it is either still in the chain or paid for by one
    triangle, the chain never has fewer than two verts afterwards, and the
    call with [last] leaves exactly two.  It is only the empty chain, which
    the constructor rules out, that has no defined behaviour. *)
Theorem Triangulator_ProcessVert_accounts t vi onRight last m tr :
  valid m vi -> Forall (valid m) (reflex_chain_ t) ->
  (reflex_chain_ t = [] ->
     Triangulator_ProcessVert t vi onRight last (mkTState m tr) = Undef) /\
  (reflex_chain_ t <> [] ->
   exists t' new,
     Triangulator_ProcessVert t vi onRight last (mkTState m tr)
     = Ret t' (mkTState m (tr ++ new)) /\
     head (reflex_chain_ t') = Some vi /\
     Forall (valid m) (reflex_chain_ t') /\
     NumTriangles t' = NumTriangles t + Z.of_nat (length new) /\
     (length (reflex_chain_ t') + length new
      = length (reflex_chain_ t) + 1)%nat /\
     (2 <= length (reflex_chain_ t'))%nat /\
     (last = true -> length (reflex_chain_ t') = 2%nat)).
Proof.
  intros Hi Hc. split.
  - intros E. unfold Triangulator_ProcessVert. now rewrite E.
  - intros Hne.
    destruct (Triangulator_ProcessVert_total t vi onRight last m tr Hi Hc Hne)
      as (t' & tr' & E & Hc' & Hlen & Hlast & _ & new & -> & Hout & Hcount).
    exists t', new. split; [done|].
    split; [eapply Triangulator_ProcessVert_head, E|]. done.
Qed.

Lemma Triangulator_ProcessVert_accounts_witness :
  exists t' new,
    Triangulator_ProcessVert
      (mkTriangulator [vAt 1; vAt 0] (vAt 0) true 0 (1 # 10000))
      (vAt 2) true true (mkTState square_ring [])
    = Ret t' (mkTState square_ring new) /\
    head (reflex_chain_ t') = Some (vAt 2) /\
    length new = 1%nat /\ length (reflex_chain_ t') = 2%nat.
Proof.
  set (t := mkTriangulator [vAt 1; vAt 0] (vAt 0) true 0 (1 # 10000)).
  assert (Hv : forall n, (n < 4)%nat -> valid square_ring (vAt n)).
  { intros n Hn. apply valid_vAt.
    do 4 (destruct n as [|n]; [vm_compute; eauto|]). lia. }
  destruct (proj2 (Triangulator_ProcessVert_accounts t (vAt 2) true true
                     square_ring [] (Hv 2%nat ltac:(lia))
                     ltac:(repeat constructor; apply Hv; lia))
              ltac:(discriminate))
    as (t' & new & E & Hh & _ & _ & Hcount & _ & Hlast).
  exists t', new. split; [exact E|]. split; [exact Hh|].
  specialize (Hlast eq_refl). rewrite Hlast in Hcount. cbn in Hcount.
  split; [lia|exact Hlast].
Defined.

Lemma CheckTopology_accepts_witness :
  let halfedges :=
    Triangles2Edges [(0, 1, 2)]
      ++ map flip_edge [mkPolyEdge 0 1; mkPolyEdge 1 2; mkPolyEdge 2 0] in
  CheckTopology_edges halfedges tt = Ret tt tt /\
  edge_count 0 1 halfedges = edge_count 1 0 halfedges /\
  (edge_count 0 1 halfedges <= 1)%nat.
Proof.
  cbv zeta.
  assert (E : CheckTopology_edges
                (Triangles2Edges [(0, 1, 2)]
                   ++ map flip_edge
                        [mkPolyEdge 0 1; mkPolyEdge 1 2; mkPolyEdge 2 0]) tt
              = Ret tt tt) by (vm_compute; reflexivity).
  split; [exact E|].
  destruct (proj1 (CheckTopology_accepts _ tt) tt tt E) as (_ & _ & H).
  destruct (H 0 1) as (H1 & H2 & _). split; [exact H1|exact H2].
Defined.

(** ** Relations that the sweeps keep

    The chain of the lemmas above, for any relation that the primitives
    keep: the updates of a vert that leave its position, mesh index and
    links alone, the updates of the edges and of their lists, [splice] and
    [SplitVerts]. *)
Class RingRel (R : Monotones -> Monotones -> Prop) := {
  rr_pre :: PreOrder R;
  rr_vert_upd v f : (forall r, core (f r) = core r) -> keeps R (vert_upd v f);
  rr_edge_upd e f : keeps R (edge_upd e f);
  rr_with_edges f : keeps R (modify (with_edges f));
  rr_with_active f : keeps R (modify (with_active f));
  rr_with_inactive f : keeps R (modify (with_inactive f));
  rr_vsplice p v : keeps R (vsplice p v);
  rr_SplitVerts north south : keeps R (SplitVerts north south)
}.

Section RingRel.
Context (R : Monotones -> Monotones -> Prop) `{!RingRel R}.

Lemma rr_vert_at v : keeps R (vert_at v).
Proof.
  intros s. unfold holds_after, vert_at.
  destruct v; try done. destruct (verts s !! n); try done; reflexivity.
Qed.

Lemma rr_edge_at e : keeps R (edge_at e).
Proof.
  intros s. unfold holds_after, edge_at.
  destruct e; try done. destruct (edges s !! n); try done; reflexivity.
Qed.

#[local] Hint Resolve rr_vert_at rr_edge_at rr_edge_upd rr_with_edges
  rr_with_active rr_with_inactive rr_vsplice rr_SplitVerts : keeps.
#[local] Hint Extern 1 (keeps _ (vert_upd _ _)) =>
  apply rr_vert_upd; intros ?; eauto with keeps : keeps.

Lemma rr_vbegin : keeps R vbegin.
Proof. unfold vbegin. keeps_auto. Qed.
Lemma rr_vnext v : keeps R (vnext v).
Proof. unfold vnext. keeps_auto. Qed.
Lemma rr_vprev v : keeps R (vprev v).
Proof. unfold vprev. keeps_auto. Qed.
Lemma rr_ebegin : keeps R ebegin.
Proof. unfold ebegin. keeps_auto. Qed.
Lemma rr_enext e : keeps R (enext e).
Proof. unfold enext. keeps_auto. Qed.
Lemma rr_eprev e : keeps R (eprev e).
Proof. unfold eprev. keeps_auto. Qed.
Lemma rr_eposition e : keeps R (eposition e).
Proof. unfold eposition. keeps_auto. Qed.
#[local] Hint Resolve rr_vbegin rr_vnext rr_vprev rr_ebegin
  rr_enext rr_eprev rr_eposition : keeps.

Lemma rr_einsert p r : keeps R (einsert p r).
Proof. unfold einsert. keeps_auto. Qed.
Lemma rr_retire_edge e : keeps R (retire_edge e).
Proof. unfold retire_edge. keeps_auto. Qed.
Lemma rr_restore_edge p e : keeps R (restore_edge p e).
Proof. unfold restore_edge. keeps_auto. Qed.
Lemma rr_UpdateEdge e v : keeps R (UpdateEdge e v).
Proof. unfold UpdateEdge. keeps_auto. Qed.
Lemma rr_LinkEdges a b : keeps R (LinkEdges a b).
Proof. unfold LinkEdges. keeps_auto. Qed.
Lemma rr_IsStart v : keeps R (IsStart v).
Proof. unfold IsStart. keeps_auto. Qed.
Lemma rr_IsPastItr a b : keeps R (IsPastItr a b).
Proof. unfold IsPastItr. keeps_auto. Qed.
Lemma rr_North e : keeps R (North e).
Proof. unfold North. keeps_auto. Qed.
#[local] Hint Resolve rr_einsert rr_retire_edge rr_restore_edge
  rr_UpdateEdge rr_LinkEdges rr_IsStart rr_IsPastItr rr_North
  : keeps.

Lemma rr_EastOf e v p : keeps R (EastOf e v p).
Proof. unfold EastOf. keeps_auto. Qed.
#[local] Hint Resolve rr_EastOf : keeps.

Lemma rr_skip_backward v e : keeps R (skip_backward v e).
Proof. unfold skip_backward. keeps_auto. Qed.
Lemma rr_skip_forward v e : keeps R (skip_forward v e).
Proof. unfold skip_forward. keeps_auto. Qed.
#[local] Hint Resolve rr_skip_backward rr_skip_forward : keeps.

Lemma rr_ProcessVert v : keeps R (ProcessVert v).
Proof. unfold ProcessVert. keeps_auto. Qed.
Lemma rr_RemovePair e : keeps R (RemovePair e).
Proof. unfold RemovePair. keeps_auto. Qed.
Lemma rr_first_east v l : keeps R (first_east v l).
Proof. induction l; cbn [first_east]; keeps_auto. Qed.
#[local] Hint Resolve rr_ProcessVert rr_RemovePair rr_first_east
  : keeps.

Lemma rr_PlaceStart_slot v e a b c :
  keeps R (PlaceStart_slot v e a b c).
Proof. unfold PlaceStart_slot. keeps_auto. Qed.
#[local] Hint Resolve rr_PlaceStart_slot : keeps.

Lemma rr_PlaceStart v : keeps R (PlaceStart v).
Proof. unfold PlaceStart. keeps_auto. Qed.
#[local] Hint Resolve rr_PlaceStart : keeps.

Lemma rr_cmp a b : keeps R (cmp a b).
Proof. unfold cmp. keeps_auto. Qed.
#[local] Hint Resolve rr_cmp : keeps.

Lemma rr_pq_best l : forall b bv i, keeps R (pq_best b bv i l).
Proof. induction l; intros; cbn [pq_best]; keeps_auto. Qed.
#[local] Hint Resolve rr_pq_best : keeps.

Lemma rr_pq_top_index q : keeps R (pq_top_index q).
Proof. unfold pq_top_index. keeps_auto. Qed.
#[local] Hint Resolve rr_pq_top_index : keeps.

Lemma rr_pq_top q : keeps R (pq_top q).
Proof. unfold pq_top. keeps_auto. Qed.
Lemma rr_pq_pop q : keeps R (pq_pop q).
Proof. unfold pq_pop. keeps_auto. Qed.
Lemma rr_sort_insert x l : keeps R (sort_insert x l).
Proof. induction l; cbn [sort_insert]; keeps_auto. Qed.
#[local] Hint Resolve rr_pq_top rr_pq_pop rr_sort_insert : keeps.

Lemma rr_std_sort l : keeps R (std_sort l).
Proof. induction l; cbn [std_sort]; keeps_auto. Qed.
Lemma rr_collect_starts l : keeps R (collect_starts l).
Proof. induction l; cbn [collect_starts]; keeps_auto. Qed.
Lemma rr_OverlapAssert cfg c : keeps R (OverlapAssert cfg c).
Proof. unfold OverlapAssert. keeps_auto. Qed.
#[local] Hint Resolve rr_std_sort rr_collect_starts rr_OverlapAssert
  : keeps.


Lemma rr_choose_vert sv : keeps R (choose_vert sv).
Proof. unfold choose_vert. keeps_auto. Qed.
Lemma rr_commit_vert v ty sv : keeps R (commit_vert v ty sv).
Proof. unfold commit_vert. keeps_auto. Qed.
Lemma rr_not_past_skipped v sv : keeps R (not_past_skipped v sv).
Proof. unfold not_past_skipped. keeps_auto. Qed.
Lemma rr_classify v : keeps R (classify v).
Proof. unfold classify. keeps_auto. Qed.
Lemma rr_skip_vert cfg v sv : keeps R (skip_vert cfg v sv).
Proof.
  unfold skip_vert. keeps_auto.
  repeat (apply keeps_OVERLAP_ASSERT; tc; [eauto with keeps|]).
  keeps_auto.
Qed.
#[local] Hint Resolve rr_choose_vert rr_commit_vert
  rr_not_past_skipped rr_classify rr_skip_vert : keeps.

Lemma rr_SweepForward_step cfg sv :
  keeps R (SweepForward_step cfg sv).
Proof.
  unfold SweepForward_step. keeps_auto.
  apply keeps_OVERLAP_ASSERT; tc; [eauto with keeps|]. keeps_auto.
Qed.
#[local] Hint Resolve rr_SweepForward_step : keeps.

Lemma rr_SweepForward_loop fuel cfg :
  forall sv, keeps R (SweepForward_loop fuel cfg sv).
Proof. induction fuel; intros; cbn [SweepForward_loop]; keeps_auto. Qed.
#[local] Hint Resolve rr_SweepForward_loop : keeps.

Lemma rr_SweepForward fuel cfg : keeps R (SweepForward fuel cfg).
Proof. unfold SweepForward, SweepForward_init. keeps_auto. Qed.

Lemma rr_SetProcessed_all b l : keeps R (SetProcessed_all b l).
Proof. induction l; cbn [SetProcessed_all]; keeps_auto. Qed.
Lemma rr_assign_index l : forall i, keeps R (assign_index i l).
Proof. induction l; intros; cbn [assign_index]; keeps_auto. Qed.
Lemma rr_find_unprocessed l : keeps R (find_unprocessed l).
Proof. induction l; cbn [find_unprocessed]; keeps_auto. Qed.
Lemma rr_Check_verts l : keeps R (Check_verts l).
Proof. induction l; cbn [Check_verts]; keeps_auto. Qed.
Lemma rr_Check_walk fuel start :
  forall v, keeps R (Check_walk fuel start v).
Proof. induction fuel; intros; cbn [Check_walk]; keeps_auto. Qed.
#[local] Hint Resolve rr_SweepForward rr_SetProcessed_all
  rr_assign_index rr_find_unprocessed rr_Check_verts rr_Check_walk
  : keeps.

Lemma rr_Check_monotones fuel :
  forall start, keeps R (Check_monotones fuel start).
Proof. induction fuel; intros; cbn [Check_monotones]; keeps_auto. Qed.
#[local] Hint Resolve rr_Check_monotones : keeps.

Lemma rr_Check fuel cfg : keeps R (Check fuel cfg).
Proof. unfold Check. keeps_auto. Qed.
#[local] Hint Resolve rr_Check : keeps.

Lemma rr_CheckSplit v e : keeps R (CheckSplit v e).
Proof. unfold CheckSplit. keeps_auto. Qed.
#[local] Hint Resolve rr_CheckSplit : keeps.

Lemma rr_SweepBack_start v : keeps R (SweepBack_start v).
Proof. unfold SweepBack_start. keeps_auto. Qed.
#[local] Hint Resolve rr_SweepBack_start : keeps.

Lemma rr_SweepBack_dispatch cfg v ty :
  keeps R (SweepBack_dispatch cfg v ty).
Proof.
  unfold SweepBack_dispatch.
  apply keeps_OVERLAP_ASSERT; tc; [eauto with keeps|]. keeps_auto.
Qed.
#[local] Hint Resolve rr_SweepBack_dispatch : keeps.

Lemma rr_SweepBack_step cfg v : keeps R (SweepBack_step cfg v).
Proof. unfold SweepBack_step. keeps_auto. Qed.
#[local] Hint Resolve rr_SweepBack_step : keeps.

Lemma rr_SweepBack_loop fuel cfg :
  forall v, keeps R (SweepBack_loop fuel cfg v).
Proof. induction fuel; intros; cbn [SweepBack_loop]; keeps_auto. Qed.
#[local] Hint Resolve rr_SweepBack_loop : keeps.

Lemma rr_SweepBack fuel cfg : keeps R (SweepBack fuel cfg).
Proof. unfold SweepBack. keeps_auto. Qed.
#[local] Hint Resolve rr_SweepBack : keeps.

Lemma rr_Monotones_sweeps fuel cfg : keeps R (Monotones_sweeps fuel cfg).
Proof. unfold Monotones_sweeps. keeps_auto. Qed.


End RingRel.


(** The same for the triangulator and for the checks that follow it, on
    the state that holds the output. *)
Section TriRel.
Context (R : Monotones -> Monotones -> Prop) `{!RingRel R}.
Context (RT : TState -> TState -> Prop) `{!PreOrder RT}.
Hypothesis RT_lift : forall A (m : MM A), keeps R m -> keeps RT (lift m).
Hypothesis RT_AddTriangle : forall t a b c, keeps RT (AddTriangle t a b c).

#[local] Hint Resolve RT_AddTriangle : keeps.
#[local] Hint Extern 1 (keeps RT (lift _)) =>
  apply RT_lift;
  first [ apply (rr_vert_at R)
        | apply (rr_vert_upd (R:=R)); intros ?; eauto with keeps
        | apply (rr_assign_index R) | apply (rr_find_unprocessed R)
        | apply (rr_vbegin R) | apply (rr_Monotones_sweeps R)
        | apply keeps_gets ]; tc : keeps.

Lemma rt_CCW_at t a b c : keeps RT (CCW_at t a b c).
Proof. unfold CCW_at. keeps_auto. Qed.
#[local] Hint Resolve rt_CCW_at : keeps.

Lemma rt_same_chain l : forall t vi v, keeps RT (same_chain t vi v l).
Proof. induction l; intros; cbn [same_chain]; keeps_auto. Qed.
Lemma rt_empty_chain l : forall t vi v, keeps RT (empty_chain t vi v l).
Proof. induction l; intros; cbn [empty_chain]; keeps_auto. Qed.
#[local] Hint Resolve rt_same_chain rt_empty_chain : keeps.

Lemma rt_Triangulator_ProcessVert t vi a b :
  keeps RT (Triangulator_ProcessVert t vi a b).
Proof. unfold Triangulator_ProcessVert. keeps_auto. Qed.
#[local] Hint Resolve rt_Triangulator_ProcessVert : keeps.

Lemma rt_walk_monotone fuel :
  forall t vR vL, keeps RT (walk_monotone fuel t vR vL).
Proof. induction fuel; intros; cbn [walk_monotone]; keeps_auto. Qed.
#[local] Hint Resolve rt_walk_monotone : keeps.

Lemma rt_triangulate_monotone fuel start :
  keeps RT (triangulate_monotone fuel start).
Proof. unfold triangulate_monotone. keeps_auto. Qed.
#[local] Hint Resolve rt_triangulate_monotone : keeps.

Lemma rt_triangulate_loop fuel :
  forall start left counts, keeps RT (triangulate_loop fuel start left counts).
Proof. induction fuel; intros; cbn [triangulate_loop]; keeps_auto. Qed.
#[local] Hint Resolve rt_triangulate_loop : keeps.

Lemma rt_Triangulate fuel : keeps RT (Triangulate fuel).
Proof. unfold Triangulate. keeps_auto. Qed.

Lemma rt_post_checks cfg polys : keeps RT (post_checks cfg polys).
Proof.
  unfold post_checks.
  keeps_auto;
    first [apply keeps_CheckTopology; tc | apply keeps_CheckGeometry; tc
          | apply keeps_gets; tc].
Qed.

Lemma rt_after_sweeps fuel cfg polys :
  keeps RT (lift (Monotones_sweeps fuel cfg) ;; Triangulate fuel ;;
            post_checks cfg polys).
Proof.
  keeps_auto.
  - apply rt_Triangulate.
  - apply rt_post_checks.
Qed.

End TriRel.


(** ** The list of verts stays a list of distinct slots *)

(** The list [monotones_] holds every slot at most once, and only slots of
    the arena: its elements are the nodes of a [std::list]. *)
Definition ring_wf (s : Monotones) : Prop :=
  NoDup (monotones_ s) /\
  forall n, n ∈ monotones_ s -> (n < length (verts s))%nat.

Lemma insert_before_None n l : insert_before None n l = l ++ [n].
Proof. now destruct l. Qed.

Lemma insert_before_elem q n l x :
  x ∈ insert_before q n l -> x = n \/ x ∈ l.
Proof.
  destruct q as [m|].
  - induction l as [|a l IH]; cbn; [intros H; inversion H|].
    destruct (decide (a = m)) as [->|Hne]; rewrite !elem_of_cons; [tauto|].
    intros [->|H]; [tauto|]. apply IH in H. tauto.
  - rewrite insert_before_None, elem_of_app, list_elem_of_singleton. tauto.
Qed.

Lemma insert_before_NoDup q n l :
  NoDup l -> n ∉ l -> NoDup (insert_before q n l).
Proof.
  intros Hnd Hn. destruct q as [m|].
  - induction Hnd as [|a l Ha Hnd IH]; cbn; [constructor|].
    apply not_elem_of_cons in Hn as [Hna Hn].
    destruct (decide (a = m)) as [->|Hne].
    + apply NoDup_cons. split; [|now constructor].
      intros [?|?]%elem_of_cons; done.
    + apply NoDup_cons. split; [|now apply IH].
      intros [->|H]%insert_before_elem; done.
  - rewrite insert_before_None.
    apply NoDup_app. split; [done|]. split; [|apply NoDup_singleton].
    intros x Hx ->%list_elem_of_singleton. done.
Qed.

Lemma wf_vert_upd v f : keeps (inv_rel ring_wf) (vert_upd v f).
Proof.
  intros s. unfold holds_after, vert_upd.
  destruct v; try done. destruct (verts s !! n) eqn:E; try done.
  intros [H1 H2]. split; [done|]. cbn. intros m Hm.
  rewrite length_insert. now apply H2.
Qed.

Lemma wf_edge_upd e f : keeps (inv_rel ring_wf) (edge_upd e f).
Proof.
  intros s. unfold holds_after, edge_upd.
  destruct e; try done. destruct (edges s !! n) eqn:E; try done.
  intros H. exact H.
Qed.

Lemma wf_vsplice p v : keeps (inv_rel ring_wf) (vsplice p v).
Proof.
  assert (H : forall s q n, ring_wf s -> n ∈ monotones_ s ->
            ring_wf (with_monotones
                       (fun l => insert_before q n (list_remove n l)) s)).
  { intros s q n [Hnd Hb] Hn. split; cbn.
    - apply insert_before_NoDup.
      + now apply NoDup_filter.
      + intros [_ H]%elem_of_list_remove. done.
    - intros m [->|[Hm _]%elem_of_list_remove]%insert_before_elem; auto. }
  intros s. unfold holds_after, vsplice, vposition, bind, gets, ret, undef,
    modify.
  destruct p as [m| |]; try done.
  - destruct (list_mem m (monotones_ s)) eqn:Em; try done.
    destruct v as [n| |]; try done.
    destruct (list_mem n (monotones_ s)) eqn:En; try done. cbn [negb].
    destruct (decide (Some m = Some n)); [done|].
    intros Hwf. apply H; [done|]. now apply list_mem_true.
  - destruct v as [n| |]; try done.
    destruct (list_mem n (monotones_ s)) eqn:En; try done. cbn [negb].
    destruct (decide (None = Some n)); [done|].
    intros Hwf. apply H; [done|]. now apply list_mem_true.
Qed.

Lemma wf_vinsert p r : keeps (inv_rel ring_wf) (vinsert p r).
Proof.
  assert (H : forall s q, ring_wf s ->
            ring_wf (with_monotones (insert_before q (length (verts s)))
                       (with_verts (fun l => l ++ [r]) s))).
  { intros s q [Hnd Hb]. split; cbn.
    - apply insert_before_NoDup; [done|]. intros Hn%Hb. lia.
    - intros m [->|Hm%Hb]%insert_before_elem; rewrite length_app; cbn; lia. }
  intros s. unfold holds_after, vinsert, vposition, bind, gets, ret, undef,
    modify.
  destruct p as [m| |]; try done.
  - destruct (list_mem m (monotones_ s)); try done. cbn. intros Hs.
    now apply H.
  - cbn. intros Hs. now apply H.
Qed.

Lemma wf_vert_at v : keeps (inv_rel ring_wf) (vert_at v).
Proof.
  intros s. unfold holds_after, vert_at.
  destruct v; try done. destruct (verts s !! n); done.
Qed.

Lemma wf_vnext v : keeps (inv_rel ring_wf) (vnext v).
Proof.
  intros s. unfold holds_after, vnext, bind, gets, of_option, ret, undef.
  destruct v; try done. destruct (list_next (monotones_ s) n); done.
Qed.

Lemma wf_Link a b : keeps (inv_rel ring_wf) (Link a b).
Proof. unfold Link. apply keeps_bind; tc; intros; apply wf_vert_upd. Qed.

Lemma wf_SplitVerts north south :
  keeps (inv_rel ring_wf) (SplitVerts north south).
Proof.
  unfold SplitVerts.
  repeat (first [ apply wf_vert_upd | apply wf_Link | apply wf_vinsert
                | apply wf_vert_at | apply wf_vnext
                | apply keeps_ret; tc
                | apply keeps_bind; tc; [|intros ?] ]).
Qed.

#[global] Instance ring_wf_RingRel : RingRel (inv_rel ring_wf).
Proof.
  split.
  - apply _.
  - intros v f _. apply wf_vert_upd.
  - apply wf_edge_upd.
  - intros f. apply keeps_modify; tc. intros s H. exact H.
  - intros f. apply keeps_modify; tc. intros s H. exact H.
  - intros f. apply keeps_modify; tc. intros s H. exact H.
  - apply wf_vsplice.
  - apply wf_SplitVerts.
Qed.

Lemma wf_add_poly_verts poly :
  forall f a b c d, keeps (inv_rel ring_wf) (add_poly_verts poly f a b c d).
Proof.
  induction poly; intros; cbn [add_poly_verts];
    repeat (first [ apply wf_vinsert | apply wf_Link | apply IHpoly
                  | keeps_step ]).
Qed.

Lemma wf_add_polys polys :
  forall a b c d, keeps (inv_rel ring_wf) (add_polys polys a b c d).
Proof.
  induction polys; intros; cbn [add_polys];
    repeat (first [ apply wf_add_poly_verts | apply wf_Link | apply IHpolys
                  | keeps_step ]).
Qed.

Lemma wf_Monotones_init polys : keeps (inv_rel ring_wf) (Monotones_init polys).
Proof.
  unfold Monotones_init.
  repeat (first [ apply wf_add_polys | keeps_step
                | apply keeps_modify; tc; intros s H; exact H ]).
Qed.

Lemma ring_wf_empty p : ring_wf (empty_Monotones p).
Proof. split; [constructor|]. intros n H. inversion H. Qed.

(** The constructor leaves a list of distinct slots of the arena. *)
Lemma ring_wf_ctor fuel cfg polys p u s :
  Monotones_ctor fuel cfg polys (empty_Monotones p) = Ret u s -> ring_wf s.
Proof.
  intros H. rewrite Monotones_ctor_eq in H.
  assert (K : keeps (inv_rel ring_wf)
                (Monotones_init polys ;; Monotones_sweeps fuel cfg)).
  { apply keeps_bind; tc; [apply wf_Monotones_init|].
    intros _. apply (rr_Monotones_sweeps (inv_rel ring_wf)). }
  exact (keeps_Ret _ _ _ _ _ K H (ring_wf_empty p)).
Qed.

(** ** The verts of the arena are copies of the input verts *)

Definition pt_of (V : VertAdj) : vec2 * Z := (pos V, mesh_idx V).

(** Every vert of the arena has the position and the mesh index of a vert of
    [P]. *)
Definition arena_in (P : list (vec2 * Z)) (s : Monotones) : Prop :=
  forall V, V ∈ verts s -> pt_of V ∈ P.

Section ArenaIn.
Context (P : list (vec2 * Z)).

Lemma arena_vert_upd v f :
  (forall r, pt_of (f r) = pt_of r) ->
  keeps (inv_rel (arena_in P)) (vert_upd v f).
Proof.
  intros Hf s. unfold holds_after, vert_upd.
  destruct v; try done. destruct (verts s !! n) eqn:E; try done.
  intros H V HV. cbn in HV.
  apply list_elem_of_lookup_1 in HV as [i Hi].
  destruct (decide (i = n)) as [->|Hne].
  - rewrite list_lookup_insert_eq in Hi
      by (now apply lookup_lt_Some in E).
    injection Hi as <-.
    rewrite Hf. apply H. eapply list_elem_of_lookup_2, E.
  - rewrite list_lookup_insert_ne in Hi by done.
    apply H. eapply list_elem_of_lookup_2, Hi.
Qed.

Lemma arena_vinsert p r :
  pt_of r ∈ P -> keeps (inv_rel (arena_in P)) (vinsert p r).
Proof.
  intros Hr.
  assert (H : forall s q, arena_in P s ->
            arena_in P (with_monotones (insert_before q (length (verts s)))
                          (with_verts (fun l => l ++ [r]) s))).
  { intros s q Hs V HV. cbn in HV.
    apply elem_of_app in HV as [HV|HV]; [auto|].
    apply list_elem_of_singleton in HV as ->. exact Hr. }
  intros s. unfold holds_after, vinsert, vposition, bind, gets, ret, undef,
    modify.
  destruct p as [m| |]; try done.
  - destruct (list_mem m (monotones_ s)); try done. cbn. intros Hs.
    now apply H.
  - cbn. intros Hs. now apply H.
Qed.

(** What is read from the arena is a copy of an input vert. *)
Lemma arena_bind_vert_at {A} v (k : VertAdj -> MM A) :
  (forall V, pt_of V ∈ P -> keeps (inv_rel (arena_in P)) (k V)) ->
  keeps (inv_rel (arena_in P)) (V <- vert_at v ;; k V).
Proof.
  intros H s. unfold holds_after, bind, vert_at.
  destruct v; try done. destruct (verts s !! n) eqn:E; try done.
  destruct (k v s) eqn:Ek; try done.
  - intros Hs. assert (Hv : pt_of v ∈ P).
    { apply Hs. eapply list_elem_of_lookup_2, E. }
    exact (keeps_Ret _ _ _ _ _ (H v Hv) Ek Hs).
  - intros Hs. assert (Hv : pt_of v ∈ P).
    { apply Hs. eapply list_elem_of_lookup_2, E. }
    exact (keeps_Exc _ _ _ _ _ (H v Hv) Ek Hs).
Qed.

Lemma arena_vert_at v : keeps (inv_rel (arena_in P)) (vert_at v).
Proof.
  intros s. unfold holds_after, vert_at.
  destruct v; try done. destruct (verts s !! n); done.
Qed.

Lemma arena_vnext v : keeps (inv_rel (arena_in P)) (vnext v).
Proof.
  intros s. unfold holds_after, vnext, bind, gets, of_option, ret, undef.
  destruct v; try done. destruct (list_next (monotones_ s) n); done.
Qed.

Lemma arena_Link a b : keeps (inv_rel (arena_in P)) (Link a b).
Proof.
  unfold Link. apply keeps_bind; tc; intros; apply arena_vert_upd;
    intros []; reflexivity.
Qed.

Lemma arena_SetProcessed v b :
  keeps (inv_rel (arena_in P)) (vert_upd v (SetProcessed b)).
Proof.
  apply arena_vert_upd. intros r. unfold SetProcessed.
  now destruct (index r =? -2).
Qed.

Lemma arena_SplitVerts north south :
  keeps (inv_rel (arena_in P)) (SplitVerts north south).
Proof.
  unfold SplitVerts.
  apply arena_bind_vert_at. intros N HN.
  apply keeps_bind; tc; [apply arena_vert_at|]. intros _.
  apply keeps_bind; tc; [now apply arena_vinsert|]. intros northEast.
  apply keeps_bind; tc; [apply arena_vert_at|]. intros N'.
  apply keeps_bind; tc; [apply arena_Link|]. intros _.
  apply keeps_bind; tc; [apply arena_SetProcessed|].
  intros _.
  apply arena_bind_vert_at. intros S0 HS.
  apply keeps_bind; tc; [apply arena_vnext|]. intros after.
  apply keeps_bind; tc; [now apply arena_vinsert|]. intros southEast.
  apply keeps_bind; tc; [apply arena_vert_at|]. intros S'.
  apply keeps_bind; tc; [apply arena_Link|]. intros _.
  apply keeps_bind; tc; [apply arena_SetProcessed|].
  intros _.
  apply keeps_bind; tc; [apply arena_Link|]. intros _.
  apply keeps_bind; tc; [apply arena_Link|]. intros _.
  apply keeps_ret; tc.
Qed.

#[global] Instance arena_in_RingRel : RingRel (inv_rel (arena_in P)).
Proof.
  split.
  - apply _.
  - intros v f Hf. apply arena_vert_upd. intros r.
    specialize (Hf r). unfold core in Hf. unfold pt_of. congruence.
  - intros e f s. unfold holds_after, edge_upd.
    destruct e; try done. destruct (edges s !! n) eqn:E; try done.
    intros H. exact H.
  - intros f. apply keeps_modify; tc. intros s H. exact H.
  - intros f. apply keeps_modify; tc. intros s H. exact H.
  - intros f. apply keeps_modify; tc. intros s H. exact H.
  - intros p v s. unfold holds_after, vsplice, vposition, bind, gets, ret,
      undef, modify.
    destruct p as [m| |]; try done.
    + destruct (list_mem m (monotones_ s)) eqn:Em; try done.
      destruct v as [n| |]; try done.
      destruct (list_mem n (monotones_ s)) eqn:En; try done. cbn [negb].
      destruct (decide (Some m = Some n)); [done|].
      intros H. exact H.
    + destruct v as [n| |]; try done.
      destruct (list_mem n (monotones_ s)) eqn:En; try done. cbn [negb].
      destruct (decide (None = Some n)); [done|].
      intros H. exact H.
  - apply arena_SplitVerts.
Qed.

Lemma arena_add_poly_verts poly :
  Forall (fun pv => (pv_pos pv, pv_idx pv) ∈ P) poly ->
  forall f a b c d,
    keeps (inv_rel (arena_in P)) (add_poly_verts poly f a b c d).
Proof.
  induction 1 as [|pv poly Hpv _ IH]; intros; cbn [add_poly_verts].
  - apply keeps_ret; tc.
  - apply keeps_bind; tc; [now apply arena_vinsert|]. intros cur.
    apply keeps_bind; tc; [|intros _; apply IH].
    destruct f; [apply keeps_ret; tc|apply arena_Link].
Qed.

Lemma arena_add_polys polys :
  Forall (Forall (fun pv => (pv_pos pv, pv_idx pv) ∈ P)) polys ->
  forall a b c d, keeps (inv_rel (arena_in P)) (add_polys polys a b c d).
Proof.
  induction 1 as [|poly polys Hp _ IH]; intros; cbn [add_polys].
  - apply keeps_ret; tc.
  - apply keeps_bind; tc; [now apply arena_add_poly_verts|].
    intros [[[s0 l0] c0] b0].
    apply keeps_bind; tc; [apply arena_Link|]. intros _. apply IH.
Qed.

Lemma arena_Monotones_init polys :
  Forall (Forall (fun pv => (pv_pos pv, pv_idx pv) ∈ P)) polys ->
  keeps (inv_rel (arena_in P)) (Monotones_init polys).
Proof.
  intros H. unfold Monotones_init.
  apply keeps_bind; tc; [now apply arena_add_polys|]. intros bound.
  apply keeps_bind; tc; [apply keeps_gets; tc|]. intros p.
  destruct (Qltb p 0); [|apply keeps_ret; tc].
  apply keeps_modify. intros s Hs. exact Hs.
Qed.

(** The same with the output: every index of every triangle is the mesh
    index of a vert of [P]. *)
Definition tri_in (t : ivec3) : Prop :=
  let '(a, b, c) := t in
  a ∈ map snd P /\ b ∈ map snd P /\ c ∈ map snd P.

Definition out_in (st : TState) : Prop :=
  arena_in P (mono st) /\ Forall tri_in (triangles st).

Lemma out_in_lift {A} (m : MM A) :
  keeps (inv_rel (arena_in P)) m -> keeps (inv_rel out_in) (lift m).
Proof.
  intros H st. specialize (H (mono st)). unfold holds_after, lift in *.
  destruct (m (mono st)); try done; intros [H1 H2]; split; cbn; auto.
Qed.

Lemma out_in_AddTriangle t a b c :
  keeps (inv_rel out_in) (AddTriangle t a b c).
Proof.
  intros st. unfold holds_after.
  destruct (AddTriangle t a b c st) as [t' st'|e st'| |] eqn:E; try done.
  - apply AddTriangle_Ret in E as (V0 & V1 & V2 & H0 & H1 & H2 & _ & ->).
    intros [Ha Ht]. split; [exact Ha|]. cbn.
    assert (Hin : forall v V, vert_at v (mono st) = Ret V (mono st) ->
                    mesh_idx V ∈ map snd P).
    { intros v V HV. apply vert_at_Ret in HV as (_ & n & _ & Hn).
      apply list_elem_of_lookup_2, Ha in Hn.
      change (mesh_idx V) with (snd (pt_of V)).
      now apply list_elem_of_fmap_2. }
    apply Forall_app. split; [exact Ht|]. constructor; [|constructor].
    destruct (onRight_ t); cbn; repeat split; eauto.
  - now apply throws_AddTriangle with (P := fun _ => False) in E.
Qed.

End ArenaIn.

(** ** The indices of the output *)

(** The verts a caller passes: position and mesh index. *)
Definition input_pts (polys : PolygonsIdx) : list (vec2 * Z) :=
  map (fun pv => (pv_pos pv, pv_idx pv)) (concat polys).

Lemma elem_of_concat_2 {A} (x : A) l ls : x ∈ l -> l ∈ ls -> x ∈ concat ls.
Proof.
  intros Hx Hl. induction Hl as [l ls|l l' ls _ IH]; cbn;
    apply elem_of_app; [left|right]; auto.
Qed.

Lemma input_pts_all polys :
  Forall (Forall (fun pv => (pv_pos pv, pv_idx pv) ∈ input_pts polys)) polys.
Proof.
  apply Forall_forall. intros poly Hpoly. apply Forall_forall. intros pv Hpv.
  unfold input_pts.
  apply (list_elem_of_fmap_2 (fun pv => (pv_pos pv, pv_idx pv))).
  eapply elem_of_concat_2; eassumption.
Qed.

Lemma out_in_try fuel cfg polys :
  keeps (inv_rel (out_in (input_pts polys))) (TriangulateIdx_try fuel cfg polys).
Proof.
  rewrite TriangulateIdx_try_eq.
  set (P := input_pts polys).
  assert (HL : forall A (m : MM A),
             keeps (inv_rel (arena_in P)) m -> keeps (inv_rel (out_in P)) (lift m))
    by (intros A m; apply out_in_lift).
  apply keeps_bind; tc.
  - apply HL. apply keeps_bind; tc.
    + apply arena_Monotones_init, input_pts_all.
    + intros _. apply (rr_Monotones_sweeps (inv_rel (arena_in P))).
  - intros _. apply keeps_bind; tc.
    + apply (rt_Triangulate (inv_rel (arena_in P)) (inv_rel (out_in P)) HL
               (out_in_AddTriangle P)).
    + intros _.
      apply (rt_post_checks (inv_rel (arena_in P)) (inv_rel (out_in P)) HL).
Qed.

Lemma out_in_empty P p : out_in P (mkTState (empty_Monotones p) []).
Proof. split; [|constructor]. intros V H. inversion H. Qed.

Lemma input_pts_idx polys : map snd (input_pts polys) = map pv_idx (concat polys).
Proof. unfold input_pts. rewrite map_map. reflexivity. Qed.

(** Every index of every triangle that [TriangulateIdx] returns is the index
    of one of the verts it was given, whatever the build and the
    parameters, also when an exception has been caught; so the indices that
    [Triangulate] returns for [n] points are in [0, n). *)
Theorem TriangulateIdx_indices fuel cfg precision :
  (forall polys tris,
      TriangulateIdx fuel cfg polys precision = Ret tris tt ->
      forall a b c, (a, b, c) ∈ tris ->
        a ∈ map pv_idx (concat polys) /\
        b ∈ map pv_idx (concat polys) /\
        c ∈ map pv_idx (concat polys)) /\
  (forall polygons tris,
      Triangulate_polygons fuel cfg polygons precision = Ret tris tt ->
      forall a b c, (a, b, c) ∈ tris ->
        let n := Z.of_nat (length (concat polygons)) in
        0 <= a < n /\ 0 <= b < n /\ 0 <= c < n).
Proof.
  assert (H1 : forall polys tris,
      TriangulateIdx fuel cfg polys precision = Ret tris tt ->
      forall a b c, (a, b, c) ∈ tris ->
        a ∈ map pv_idx (concat polys) /\
        b ∈ map pv_idx (concat polys) /\
        c ∈ map pv_idx (concat polys)).
  { intros polys tris H a b c Hin. unfold TriangulateIdx in H.
    pose proof (out_in_try fuel cfg polys
                  (mkTState (empty_Monotones precision) [])) as K.
    unfold holds_after in K.
    assert (Ht : Forall (tri_in (input_pts polys)) tris).
    { destruct (TriangulateIdx_try fuel cfg polys
                  (mkTState (empty_Monotones precision) []))
        as [u st|e st| |]; try discriminate.
      - injection H as <-. now apply K, out_in_empty.
      - destruct (MANIFOLD_DEBUG cfg); [discriminate|].
        injection H as <-. now apply K, out_in_empty. }
    rewrite Forall_forall in Ht. specialize (Ht _ Hin). cbn in Ht.
    now rewrite input_pts_idx in Ht. }
  split; [exact H1|].
  intros polygons tris H a b c Hin n.
  unfold Triangulate_polygons in H.
  specialize (H1 _ _ H a b c Hin).
  assert (E : map pv_idx (concat (index_polys 0 polygons))
              = seqZ 0 (Z.of_nat (length (concat polygons)))).
  { clear. generalize 0. induction polygons as [|poly polygons IH]; intros k;
      [done|].
    cbn [index_polys concat]. rewrite map_app, length_app, Nat2Z.inj_add.
    rewrite IH. destruct (index_poly_spec poly k) as [_ ->].
    rewrite seqZ_app by lia. reflexivity. }
  rewrite E in H1. rewrite !elem_of_seqZ in H1. subst n. lia.
Qed.

Lemma TriangulateIdx_indices_witness :
  Triangulate_polygons 100 strict_checked unit_square (-1)
  = Ret [(2, 0, 1); (3, 0, 2)] tt /\
  (0 <= 3 < 4 /\ 0 <= 0 < 4 /\ 0 <= 2 < 4).
Proof.
  assert (E : Triangulate_polygons 100 strict_checked unit_square (-1)
              = Ret [(2, 0, 1); (3, 0, 2)] tt) by (vm_compute; reflexivity).
  split; [exact E|].
  apply (proj2 (TriangulateIdx_indices 100 strict_checked (-1)) unit_square
           [(2, 0, 1); (3, 0, 2)] E 3 0 2).
  apply list_elem_of_In. right. left. reflexivity.
Defined.

(** ** Which exceptions the constructor raises

    The chain once more, for the exceptions: with [P] a set of exceptions
    that holds [geometryErr] if the overlap checks throw and [topologyErr]
    if [Check] is compiled in and enabled. *)
Section Throws.
Context (P : exn -> Prop) (cfg : Config).
Hypothesis P_geometry :
  MANIFOLD_DEBUG cfg = true -> processOverlaps (params cfg) = false ->
  P geometryErr.
Hypothesis P_topology :
  MANIFOLD_DEBUG cfg = true -> intermediateChecks (params cfg) = true ->
  P topologyErr.

Lemma th_modify_any (f : Monotones -> Monotones) : throws_only P (modify f).
Proof. apply throws_modify. Qed.
#[local] Hint Resolve th_modify_any : throws.

Lemma th_vsplice p v : throws_only P (vsplice p v).
Proof. unfold vsplice. throws_auto. Qed.
#[local] Hint Resolve th_vsplice : throws.

Lemma th_OVERLAP_ASSERT {A} c (k : MM (bool + A)) :
  throws_only P k -> throws_only P (OVERLAP_ASSERT cfg c k).
Proof.
  intros Hk. unfold OVERLAP_ASSERT, OverlapAssert.
  destruct (MANIFOLD_DEBUG cfg) eqn:Ed; [|now throws_auto].
  destruct (processOverlaps (params cfg)) eqn:Ep; cbn [negb].
  - throws_auto; done.
  - apply throws_bind; [|intros []; [done|apply throws_ret]].
    apply throws_bind; [|intros; apply throws_ret].
    apply throws_ASSERT. now apply P_geometry.
Qed.

Lemma th_Check_verts l : P topologyErr -> throws_only P (Check_verts l).
Proof.
  intros Ht. induction l; cbn [Check_verts]; throws_auto;
    now apply throws_ASSERT.
Qed.

Lemma th_vbegin : throws_only P vbegin.
Proof. unfold vbegin. throws_auto. Qed.
Lemma th_vnext v : throws_only P (vnext v).
Proof. unfold vnext. throws_auto. Qed.
Lemma th_vprev v : throws_only P (vprev v).
Proof. unfold vprev. throws_auto. Qed.
Lemma th_ebegin : throws_only P ebegin.
Proof. unfold ebegin. throws_auto. Qed.
Lemma th_enext e : throws_only P (enext e).
Proof. unfold enext. throws_auto. Qed.
Lemma th_eprev e : throws_only P (eprev e).
Proof. unfold eprev. throws_auto. Qed.
Lemma th_eposition e : throws_only P (eposition e).
Proof. unfold eposition. throws_auto. Qed.
#[local] Hint Resolve th_vbegin th_vnext th_vprev th_ebegin
  th_enext th_eprev th_eposition : throws.

Lemma th_einsert p r : throws_only P (einsert p r).
Proof. unfold einsert. throws_auto. Qed.
Lemma th_retire_edge e : throws_only P (retire_edge e).
Proof. unfold retire_edge. throws_auto. Qed.
Lemma th_restore_edge p e : throws_only P (restore_edge p e).
Proof. unfold restore_edge. throws_auto. Qed.
Lemma th_UpdateEdge e v : throws_only P (UpdateEdge e v).
Proof. unfold UpdateEdge. throws_auto. Qed.
Lemma th_LinkEdges a b : throws_only P (LinkEdges a b).
Proof. unfold LinkEdges. throws_auto. Qed.
Lemma th_IsStart v : throws_only P (IsStart v).
Proof. unfold IsStart. throws_auto. Qed.
Lemma th_IsPastItr a b : throws_only P (IsPastItr a b).
Proof. unfold IsPastItr. throws_auto. Qed.
Lemma th_North e : throws_only P (North e).
Proof. unfold North. throws_auto. Qed.
#[local] Hint Resolve th_einsert th_retire_edge th_restore_edge
  th_UpdateEdge th_LinkEdges th_IsStart th_IsPastItr th_North
  : throws.

Lemma th_EastOf e v p : throws_only P (EastOf e v p).
Proof. unfold EastOf. throws_auto. Qed.
#[local] Hint Resolve th_EastOf : throws.

Lemma th_skip_backward v e : throws_only P (skip_backward v e).
Proof. unfold skip_backward. throws_auto. Qed.
Lemma th_skip_forward v e : throws_only P (skip_forward v e).
Proof. unfold skip_forward. throws_auto. Qed.
#[local] Hint Resolve th_skip_backward th_skip_forward : throws.

Lemma th_ProcessVert v : throws_only P (ProcessVert v).
Proof. unfold ProcessVert. throws_auto. Qed.
Lemma th_RemovePair e : throws_only P (RemovePair e).
Proof. unfold RemovePair. throws_auto. Qed.
Lemma th_first_east v l : throws_only P (first_east v l).
Proof. induction l; cbn [first_east]; throws_auto. Qed.
#[local] Hint Resolve th_ProcessVert th_RemovePair th_first_east
  : throws.

Lemma th_PlaceStart_slot v e a b c :
  throws_only P (PlaceStart_slot v e a b c).
Proof. unfold PlaceStart_slot. throws_auto. Qed.
#[local] Hint Resolve th_PlaceStart_slot : throws.

Lemma th_PlaceStart v : throws_only P (PlaceStart v).
Proof. unfold PlaceStart. throws_auto. Qed.
#[local] Hint Resolve th_PlaceStart : throws.

Lemma th_cmp a b : throws_only P (cmp a b).
Proof. unfold cmp. throws_auto. Qed.
#[local] Hint Resolve th_cmp : throws.

Lemma th_pq_best l : forall b bv i, throws_only P (pq_best b bv i l).
Proof. induction l; intros; cbn [pq_best]; throws_auto. Qed.
#[local] Hint Resolve th_pq_best : throws.

Lemma th_pq_top_index q : throws_only P (pq_top_index q).
Proof. unfold pq_top_index. throws_auto. Qed.
#[local] Hint Resolve th_pq_top_index : throws.

Lemma th_pq_top q : throws_only P (pq_top q).
Proof. unfold pq_top. throws_auto. Qed.
Lemma th_pq_pop q : throws_only P (pq_pop q).
Proof. unfold pq_pop. throws_auto. Qed.
Lemma th_sort_insert x l : throws_only P (sort_insert x l).
Proof. induction l; cbn [sort_insert]; throws_auto. Qed.
#[local] Hint Resolve th_pq_top th_pq_pop th_sort_insert : throws.

Lemma th_std_sort l : throws_only P (std_sort l).
Proof. induction l; cbn [std_sort]; throws_auto. Qed.
Lemma th_collect_starts l : throws_only P (collect_starts l).
Proof. induction l; cbn [collect_starts]; throws_auto. Qed.

#[local] Hint Resolve th_std_sort th_collect_starts 
  : throws.


Lemma th_choose_vert sv : throws_only P (choose_vert sv).
Proof. unfold choose_vert. throws_auto. Qed.
Lemma th_commit_vert v ty sv : throws_only P (commit_vert v ty sv).
Proof. unfold commit_vert. throws_auto. Qed.
Lemma th_not_past_skipped v sv : throws_only P (not_past_skipped v sv).
Proof. unfold not_past_skipped. throws_auto. Qed.
Lemma th_classify v : throws_only P (classify v).
Proof. unfold classify. throws_auto. Qed.
Lemma th_skip_vert v sv : throws_only P (skip_vert cfg v sv).
Proof.
  unfold skip_vert. throws_auto.
  repeat (apply th_OVERLAP_ASSERT).
  throws_auto.
Qed.
#[local] Hint Resolve th_choose_vert th_commit_vert
  th_not_past_skipped th_classify th_skip_vert : throws.

Lemma th_SweepForward_step sv :
  throws_only P (SweepForward_step cfg sv).
Proof.
  unfold SweepForward_step. throws_auto.
  apply th_OVERLAP_ASSERT. throws_auto.
Qed.
#[local] Hint Resolve th_SweepForward_step : throws.

Lemma th_SweepForward_loop fuel :
  forall sv, throws_only P (SweepForward_loop fuel cfg sv).
Proof. induction fuel; intros; cbn [SweepForward_loop]; throws_auto. Qed.
#[local] Hint Resolve th_SweepForward_loop : throws.

Lemma th_SweepForward fuel : throws_only P (SweepForward fuel cfg).
Proof. unfold SweepForward, SweepForward_init. throws_auto. Qed.

Lemma th_SetProcessed_all b l : throws_only P (SetProcessed_all b l).
Proof. induction l; cbn [SetProcessed_all]; throws_auto. Qed.
Lemma th_assign_index l : forall i, throws_only P (assign_index i l).
Proof. induction l; intros; cbn [assign_index]; throws_auto. Qed.
Lemma th_find_unprocessed l : throws_only P (find_unprocessed l).
Proof. induction l; cbn [find_unprocessed]; throws_auto. Qed.

Lemma th_Check_walk fuel start :
  forall v, throws_only P (Check_walk fuel start v).
Proof. induction fuel; intros; cbn [Check_walk]; throws_auto. Qed.
#[local] Hint Resolve th_SweepForward th_SetProcessed_all
  th_assign_index th_find_unprocessed th_Check_walk
  : throws.

Lemma th_Check_monotones fuel :
  forall start, throws_only P (Check_monotones fuel start).
Proof. induction fuel; intros; cbn [Check_monotones]; throws_auto. Qed.
#[local] Hint Resolve th_Check_monotones : throws.

Lemma th_Check fuel : throws_only P (Check fuel cfg).
Proof.
  clear P_geometry. unfold Check.
  destruct (MANIFOLD_DEBUG cfg) eqn:Ed; [|apply throws_ret].
  destruct (intermediateChecks (params cfg)) eqn:Ei; cbn [negb];
    [|apply throws_ret].
  apply throws_bind; [apply throws_gets|]. intros ring.
  apply throws_bind; [apply th_Check_verts; now apply P_topology|].
  intros _. throws_auto.
Qed.
#[local] Hint Resolve th_Check : throws.



Lemma th_CheckSplit v e : throws_only P (CheckSplit v e).
Proof. unfold CheckSplit. throws_auto. Qed.
#[local] Hint Resolve th_CheckSplit : throws.

Lemma th_SweepBack_start v : throws_only P (SweepBack_start v).
Proof. unfold SweepBack_start. throws_auto. Qed.
#[local] Hint Resolve th_SweepBack_start : throws.

Lemma th_SweepBack_dispatch v ty :
  throws_only P (SweepBack_dispatch cfg v ty).
Proof.
  unfold SweepBack_dispatch.
  apply th_OVERLAP_ASSERT. throws_auto.
Qed.
#[local] Hint Resolve th_SweepBack_dispatch : throws.

Lemma th_SweepBack_step v : throws_only P (SweepBack_step cfg v).
Proof. unfold SweepBack_step. throws_auto. Qed.
#[local] Hint Resolve th_SweepBack_step : throws.

Lemma th_SweepBack_loop fuel :
  forall v, throws_only P (SweepBack_loop fuel cfg v).
Proof. induction fuel; intros; cbn [SweepBack_loop]; throws_auto. Qed.
#[local] Hint Resolve th_SweepBack_loop : throws.

Lemma th_SweepBack fuel : throws_only P (SweepBack fuel cfg).
Proof. unfold SweepBack. throws_auto. Qed.
#[local] Hint Resolve th_SweepBack : throws.

Lemma th_Monotones_sweeps fuel : throws_only P (Monotones_sweeps fuel cfg).
Proof. unfold Monotones_sweeps. throws_auto. Qed.



Lemma th_Monotones_ctor fuel polys :
  throws_only P (Monotones_ctor fuel cfg polys).
Proof.
  rewrite Monotones_ctor_eq. apply throws_bind;
    [apply throws_Monotones_init|intros; apply th_Monotones_sweeps].
Qed.

End Throws.

Lemma throws_match_edges {S} (P : exn -> Prop) fwd :
  P topologyErr -> forall prev bwd, throws_only P (@match_edges S prev fwd bwd).
Proof.
  intros Ht. induction fwd as [|f fwd IH]; intros prev bwd; cbn [match_edges];
    [apply throws_ret|].
  destruct bwd as [|b bwd]; [apply throws_ret|].
  apply throws_bind; [now apply throws_ASSERT|]. intros _.
  apply throws_bind; [|intros _; apply IH].
  destruct prev as [[pf pb]|]; [|apply throws_ret].
  apply throws_bind; [now apply throws_ASSERT|]. intros _.
  now apply throws_ASSERT.
Qed.

Lemma throws_CheckTopology {S} (P : exn -> Prop) tris polys :
  P topologyErr -> throws_only P (@CheckTopology S tris polys).
Proof.
  intros Ht. unfold CheckTopology, CheckTopology_edges.
  apply throws_bind; [apply throws_of_option|]. intros openEdges.
  repeat (apply throws_bind; [now apply throws_ASSERT|]; intros _).
  now apply throws_match_edges.
Qed.

Lemma throws_CheckGeometry {S} (P : exn -> Prop) tris polys p :
  P geometryErr -> throws_only P (@CheckGeometry S tris polys p).
Proof. intros Hg. unfold CheckGeometry. now apply throws_ASSERT. Qed.

Lemma throws_post_checks (P : exn -> Prop) cfg polys :
  P topologyErr ->
  (MANIFOLD_DEBUG cfg = true -> processOverlaps (params cfg) = false ->
   P geometryErr) ->
  throws_only P (post_checks cfg polys).
Proof.
  intros Ht Hg. unfold post_checks.
  destruct (MANIFOLD_DEBUG cfg) eqn:Ed; [|apply throws_ret].
  destruct (intermediateChecks (params cfg)); [|apply throws_ret].
  apply throws_bind; [apply throws_gets|]. intros tris.
  apply throws_bind; [now apply throws_CheckTopology|]. intros _.
  destruct (processOverlaps (params cfg)); cbn [negb]; [apply throws_ret|].
  apply throws_bind; [apply throws_lift, throws_gets|]. intros p.
  apply throws_CheckGeometry. now apply Hg.
Qed.

(** The exceptions that reach a caller.  The constructor of [Monotones]
    throws only in a build with [MANIFOLD_DEBUG]: the geometry error only
    with [processOverlaps] unset, the topology error only with
    [intermediateChecks] set.  From [TriangulateIdx] an exception escapes
    only in a build with [MANIFOLD_DEBUG], and the geometry error only with
    [processOverlaps] unset. *)
Theorem TriangulateIdx_exceptions fuel cfg polys precision :
  (forall s e s',
      Monotones_ctor fuel cfg polys s = Exc e s' ->
      MANIFOLD_DEBUG cfg = true /\
      match e with
      | geometryErr => processOverlaps (params cfg) = false
      | topologyErr => intermediateChecks (params cfg) = true
      end) /\
  (forall e,
      TriangulateIdx fuel cfg polys precision = Exc e tt ->
      MANIFOLD_DEBUG cfg = true /\
      (e = geometryErr -> processOverlaps (params cfg) = false)).
Proof.
  split.
  - intros s e s' H.
    refine (th_Monotones_ctor
              (fun e => MANIFOLD_DEBUG cfg = true /\
                        match e with
                        | geometryErr => processOverlaps (params cfg) = false
                        | topologyErr => intermediateChecks (params cfg) = true
                        end) cfg _ _ fuel polys s e s' H); auto.
  - intros e H. unfold TriangulateIdx in H.
    destruct (TriangulateIdx_try fuel cfg polys
                (mkTState (empty_Monotones precision) []))
      as [u st|e' st| |] eqn:E; try discriminate.
    destruct (MANIFOLD_DEBUG cfg) eqn:Ed; [|discriminate].
    injection H as ->. split; [done|].
    set (P := fun e => e = geometryErr -> processOverlaps (params cfg) = false).
    assert (K : throws_only P (TriangulateIdx_try fuel cfg polys)).
    { rewrite TriangulateIdx_try_eq.
      apply throws_bind.
      - apply throws_lift. rewrite <- Monotones_ctor_eq.
        apply (th_Monotones_ctor P cfg); unfold P; [auto|discriminate].
      - intros _. apply throws_bind.
        + apply (throws_weaken (fun e => e = topologyErr));
            [|apply throws_Triangulate].
          intros e0 ->. unfold P. discriminate.
        + intros _. apply throws_post_checks; unfold P; [discriminate|auto]. }
    exact (K _ _ _ E).
Qed.

Lemma TriangulateIdx_exceptions_witness :
  TriangulateIdx 100 strict_checked (index_polys 0 cw_triangle) (1 # 10000)
  = Exc geometryErr tt /\
  MANIFOLD_DEBUG strict_checked = true /\
  (geometryErr = geometryErr ->
   processOverlaps (params strict_checked) = false).
Proof.
  assert (E : TriangulateIdx 100 strict_checked (index_polys 0 cw_triangle)
                (1 # 10000) = Exc geometryErr tt)
    by (vm_compute; reflexivity).
  split; [exact E|].
  exact (proj2 (TriangulateIdx_exceptions 100 strict_checked
                  (index_polys 0 cw_triangle) (1 # 10000)) geometryErr E).
Defined.

(** ** What [Check] establishes *)

(** The two assertions of the loop of [Check] on the vert in slot [n]:
    [vert->right->right != vert] and [vert->left->right == vert]. *)
Definition checked_vert (s : Monotones) (n : nat) : Prop :=
  exists r l,
    right_of s n = vAt r /\ right_of s r <> vAt n /\
    left_of s n = vAt l /\ right_of s l = vAt n.

Lemma checked_vert_same_ring s s' n :
  same_ring s s' -> checked_vert s n -> checked_vert s' n.
Proof.
  intros H (r & l & H1 & H2 & H3 & H4). exists r, l.
  rewrite !(same_ring_right_of s s'), (same_ring_left_of s s') by done. done.
Qed.

Lemma checked_no_short_loop s n : checked_vert s n -> no_short_loop s n.
Proof.
  intros (r & l & H1 & H2 & _). split.
  - intros E. rewrite E in H1. injection H1 as <-. now rewrite E in H2.
  - rewrite H1. exact H2.
Qed.

Lemma Check_verts_Ret ring : forall s u s',
  Check_verts ring s = Ret u s' ->
  same_ring s s' /\ forall n, n ∈ ring -> checked_vert s' n.
Proof.
  induction ring as [|n ring IH]; intros s u s' H; cbn [Check_verts] in H.
  - injection H as <- <-. split; [reflexivity|]. intros n Hn. inversion Hn.
  - apply bind_Ret in H as (a & s0 & E0 & H).
    pose proof (keeps_Ret same_ring _ _ _ _
                  (keeps_vert_upd _ _ (core_SetProcessed false)) E0) as Hs0.
    apply bind_Ret in H as (V & s1 & E1 & H).
    apply vert_at_Ret in E1 as (-> & n' & [= <-] & HV).
    apply bind_Ret in H as (R & s2 & E2 & H).
    apply vert_at_Ret in E2 as (-> & r & Hr & HR).
    apply bind_Ret in H as (a1 & s3 & E3 & H).
    apply ASSERT_Ret in E3 as (Ha & ->).
    apply bind_Ret in H as (L & s4 & E4 & H).
    apply vert_at_Ret in E4 as (-> & l & Hl & HL).
    apply bind_Ret in H as (a2 & s5 & E5 & H).
    apply ASSERT_Ret in E5 as (Hb & ->).
    apply IH in H as (Hs1 & Hring).
    split; [etransitivity; eassumption|].
    intros m [->|Hm]%elem_of_cons; [|now apply Hring].
    apply (checked_vert_same_ring s0); [done|].
    exists r, l. unfold right_of, left_of. rewrite HV, HR, HL.
    apply negb_true_iff, bool_decide_eq_false in Ha.
    apply bool_decide_eq_true in Hb. done.
Qed.

(** [Check] does nothing unless the build has [MANIFOLD_DEBUG] and
    [intermediateChecks] is set.  With both, when it returns, positions,
    indices and links are what they were and every vert [v] of the ring has
    passed its two assertions, [v.right.right != v] and [v.left.right == v],
    so no loop of the ring has fewer than three verts; the only exception it
    raises is the topology error. *)
Theorem Check_establishes fuel cfg s :
  (MANIFOLD_DEBUG cfg && intermediateChecks (params cfg) = false ->
   Check fuel cfg s = Ret tt s) /\
  (forall u s',
     MANIFOLD_DEBUG cfg && intermediateChecks (params cfg) = true ->
     Check fuel cfg s = Ret u s' ->
     same_ring s s' /\
     forall n, n ∈ monotones_ s' -> checked_vert s' n /\ no_short_loop s' n) /\
  (forall e s', Check fuel cfg s = Exc e s' -> e = topologyErr).
Proof.
  split; [|split].
  - unfold Check. destruct (MANIFOLD_DEBUG cfg); [|done].
    destruct (intermediateChecks (params cfg)); [discriminate|done].
  - intros u s' Hcfg H. apply andb_true_iff in Hcfg as [Hd Hi].
    unfold Check in H. rewrite Hd, Hi in H. cbn [negb] in H.
    apply bind_Ret in H as (ring & s0' & E0 & H). injection E0 as <- <-.
    apply bind_Ret in H as (a & s0 & E1 & H).
    apply Check_verts_Ret in E1 as (Hs0 & Hring).
    assert (Hs1 : same_ring s0 s').
    { destruct (verbose (params cfg)).
      - apply bind_Ret in H as (st & s1 & E2 & H).
        pose proof (keeps_Ret same_ring _ _ _ _ keeps_vbegin E2) as K1.
        pose proof (keeps_Ret same_ring _ _ _ _
                      (keeps_Check_monotones _ _) H) as K2.
        etransitivity; eassumption.
      - injection H as <- <-. reflexivity. }
    split; [etransitivity; eassumption|].
    intros n Hn.
    assert (Hc : checked_vert s' n).
    { apply (checked_vert_same_ring s0); [done|]. apply Hring.
      apply Hs0. now apply Hs1. }
    split; [done|]. now apply checked_no_short_loop.
  - intros e s' H.
    exact (th_Check (fun e => e = topologyErr) cfg (fun _ _ => eq_refl)
             fuel s e s' H).
Qed.

Lemma Check_establishes_witness :
  same_ring holed_swept holed_swept /\
  forall n, n ∈ monotones_ holed_swept ->
    checked_vert holed_swept n /\ no_short_loop holed_swept n.
Proof.
  apply (proj1 (proj2 (Check_establishes 100 strict_checked holed_swept))
           tt holed_swept); vm_compute; reflexivity.
Defined.

(** ** From the input to the number of triangles *)

Lemma ctor_stages fuel cfg polys precision u s :
  Monotones_ctor fuel cfg polys (empty_Monotones precision) = Ret u s ->
  links_inv s /\ ring_wf s.
Proof.
  intros H. split; [|now apply ring_wf_ctor in H].
  rewrite Monotones_ctor_eq in H. inv_bind H.
  destruct a. apply Monotones_init_spec in H0 as [Hinv _].
  pose proof (keeps_links_inv _ s0 (keeps_Monotones_sweeps fuel cfg) Hinv) as K.
  unfold holds_after in K. now rewrite H in K.
Qed.

(** With [MANIFOLD_DEBUG] and [intermediateChecks], when the constructor has
    gone through both sweeps and both calls of [Check] without a soft
    failure, the ring it leaves is made of closed loops of three verts or
    more, the monotones; [Triangulate] then returns, with [n - 2] triangles
    for every monotone of [n] verts and [|R| - 2M] triangles in all for the
    [|R|] verts of the ring and its [M] monotones. *)
Theorem checked_sweeps_triangle_count fuel fuel' cfg polys precision
    s0 s1 s2 s3 s tr :
  MANIFOLD_DEBUG cfg = true -> intermediateChecks (params cfg) = true ->
  Monotones_init polys (empty_Monotones precision) = Ret tt s0 ->
  SweepForward fuel cfg s0 = Ret false s1 ->
  Check fuel cfg s1 = Ret tt s2 ->
  SweepBack fuel cfg s2 = Ret false s3 ->
  Check fuel cfg s3 = Ret tt s ->
  (length (monotones_ s) < fuel')%nat ->
  Monotones_ctor fuel cfg polys (empty_Monotones precision) = Ret tt s /\
  exists cs counts st' new,
    ring_of_loops s cs /\
    Triangulate fuel' (mkTState s tr) = Ret counts st' /\
    counts ≡ₚ map (fun c => Z.of_nat (length c) - 2) cs /\
    triangles st' = tr ++ new /\
    Z.of_nat (length new)
    = Z.of_nat (length (monotones_ s)) - 2 * Z.of_nat (length cs).
Proof.
  intros Hd Hi H0 H1 H2 H3 H4 Hfuel.
  assert (Hc : Monotones_ctor fuel cfg polys (empty_Monotones precision)
               = Ret tt s).
  { unfold Monotones_ctor.
    rewrite (bind_of_Ret _ _ _ _ _ H0), (bind_of_Ret _ _ _ _ _ H1).
    cbv beta iota.
    rewrite (bind_of_Ret _ _ _ _ _ H2), (bind_of_Ret _ _ _ _ _ H3).
    exact H4. }
  split; [exact Hc|].
  destruct (ctor_stages _ _ _ _ _ _ Hc) as [Hinv [Hnd _]].
  assert (Hshort : forall n, n ∈ monotones_ s -> no_short_loop s n).
  { intros n Hn. unfold Check in H4. rewrite Hd, Hi in H4. cbn [negb] in H4.
    apply bind_Ret in H4 as (ring & s4' & E0 & H4). injection E0 as <- <-.
    apply bind_Ret in H4 as (a & s4 & E1 & H4).
    apply Check_verts_Ret in E1 as (Hs0 & Hring).
    assert (Hs1 : same_ring s4 s).
    { destruct (verbose (params cfg)).
      - apply bind_Ret in H4 as (st & s5 & E2 & H4).
        pose proof (keeps_Ret same_ring _ _ _ _ keeps_vbegin E2) as K1.
        pose proof (keeps_Ret same_ring _ _ _ _
                      (keeps_Check_monotones _ _) H4) as K2.
        etransitivity; eassumption.
      - injection H4 as <-. reflexivity. }
    apply checked_no_short_loop, (checked_vert_same_ring s4); [done|].
    apply Hring, Hs0. now apply Hs1. }
  destruct (ring_loops_exist s Hinv Hnd Hshort) as [cs Hcs].
  destruct (Triangulate_total fuel' (mkTState s tr) cs Hcs Hfuel)
    as (counts & st' & E & Hp).
  destruct (Triangulate_counted _ _ _ _ E) as (new & Ht & Hn & Hsum & _).
  exists cs, counts, st', new. do 4 (split; [done|]).
  rewrite Hn, Hsum. apply Permutation_length in Hp.
  rewrite length_map in Hp. cbn [mono]. now rewrite Hp.
Qed.

Lemma checked_sweeps_triangle_count_witness :
  Monotones_ctor 100 strict_checked (index_polys 0 holed_square)
    (empty_Monotones (1 # 10000)) = Ret tt holed_swept /\
  exists cs counts st' new,
    ring_of_loops holed_swept cs /\
    Triangulate 100 (mkTState holed_swept []) = Ret counts st' /\
    counts ≡ₚ map (fun c => Z.of_nat (length c) - 2) cs /\
    triangles st' = [] ++ new /\
    Z.of_nat (length new)
    = Z.of_nat (length (monotones_ holed_swept)) - 2 * Z.of_nat (length cs).
Proof.
  eapply (checked_sweeps_triangle_count 100 100 strict_checked
            (index_polys 0 holed_square) (1 # 10000)).
  - exact eq_refl.
  - exact eq_refl.
  - vm_compute. reflexivity.
  - vm_compute. reflexivity.
  - vm_compute. reflexivity.
  - vm_compute. reflexivity.
  - vm_compute. reflexivity.
  - vm_compute. lia.
Defined.

(** ** What a checked run returns *)

Lemma ctor_precision fuel cfg polys precision u s :
  Monotones_ctor fuel cfg polys (empty_Monotones precision) = Ret u s ->
  precision_ s = chosen_precision polys precision.
Proof.
  intros H. rewrite Monotones_ctor_eq in H.
  apply bind_Ret in H as ([] & s0 & E0 & H).
  apply Monotones_init_spec in E0 as [_ Hp].
  pose proof (keeps_Ret ring_ok _ _ _ _ (keeps_Monotones_sweeps fuel cfg) H)
    as [Hp' _].
  congruence.
Qed.

(** In a build with [MANIFOLD_DEBUG] and with [intermediateChecks] set, the
    triangles that [TriangulateIdx] returns have passed [CheckTopology]: no
    input polygon is empty, and among the halfedges of the triangles and the
    reversed edges of the polygons every halfedge has exactly one partner in
    the opposite direction.  When [processOverlaps] is unset they have also
    passed [CheckGeometry]: no triangle is clockwise at twice the precision
    of the constructor. *)
Theorem TriangulateIdx_checked fuel cfg polys precision tris :
  MANIFOLD_DEBUG cfg = true -> intermediateChecks (params cfg) = true ->
  TriangulateIdx fuel cfg polys precision = Ret tris tt ->
  (exists openEdges,
      Polygons2Edges polys = Some openEdges /\
      forall a b,
        let hs := Triangles2Edges tris ++ map flip_edge openEdges in
        edge_count a b hs = edge_count b a hs /\
        (edge_count a b hs <= 1)%nat /\
        edge_count a a hs = O) /\
  (processOverlaps (params cfg) = false ->
   forall a b c, (a, b, c) ∈ tris ->
     let written := rev (concat polys) in
     CCW (vertPos written a) (vertPos written b) (vertPos written c)
         (2 * chosen_precision polys precision) >= 0).
Proof.
  intros Hd Hi H. unfold TriangulateIdx in H. rewrite Hd in H.
  destruct (TriangulateIdx_try fuel cfg polys
              (mkTState (empty_Monotones precision) []))
    as [u st|e st| |] eqn:E; try discriminate.
  injection H as <-.
  unfold TriangulateIdx_try in E. rewrite Hd, Hi in E.
  apply bind_Ret in E as (u1 & st1 & E1 & E).
  apply lift_Ret in E1 as (s1 & E1 & ->). cbn [mono triangles] in *.
  apply ctor_precision in E1.
  apply bind_Ret in E as (counts & st2 & E2 & E).
  pose proof (keeps_Ret same_ringT _ _ _ _ (keeps_Triangulate fuel) E2)
    as [Hp _]. cbn [mono] in Hp.
  apply bind_Ret in E as (tris & st3 & E3 & E). injection E3 as <- <-.
  apply bind_Ret in E as (u4 & st4 & E4 & E).
  unfold CheckTopology in E4.
  apply bind_Ret in E4 as (openEdges & st5 & E5 & E4).
  destruct (Polygons2Edges polys) as [oe|] eqn:Ep; [|discriminate].
  injection E5 as <- <-.
  apply CheckTopology_edges_Ret in E4 as (-> & _ & Hpair).
  assert (Hst : st = st2 /\
            (processOverlaps (params cfg) = false ->
             forallb (fun '(a, b, c) =>
                        let written := rev (concat polys) in
                        CCW (vertPos written a) (vertPos written b)
                            (vertPos written c)
                            (2 * chosen_precision polys precision) >=? 0)
                     (triangles st2) = true)).
  { destruct (processOverlaps (params cfg)); cbn [negb] in E.
    - injection E as _ <-. split; [done|discriminate].
    - apply bind_Ret in E as (p & st6 & E6 & E).
      apply lift_Ret in E6 as (s6 & E6 & ->). injection E6 as <- <-.
      unfold CheckGeometry in E. apply ASSERT_Ret in E as [E ->].
      unfold GetPrecision in E. rewrite Hp, E1 in E.
      split; [now destruct st2|]. intros _. exact E. }
  destruct Hst as [-> Hgeo].
  split; [exists oe; split; [done|exact Hpair]|].
  intros Ho a b c Hin. specialize (Hgeo Ho).
  rewrite forallb_forall in Hgeo.
  apply list_elem_of_In, Hgeo in Hin. cbn zeta in *.
  apply Z.geb_le in Hin. lia.
Qed.

Lemma TriangulateIdx_checked_witness :
  TriangulateIdx 100 strict_checked (index_polys 0 unit_square) (-1)
  = Ret [(2, 0, 1); (3, 0, 2)] tt /\
  (exists openEdges,
      Polygons2Edges (index_polys 0 unit_square) = Some openEdges /\
      forall a b,
        let hs := Triangles2Edges [(2, 0, 1); (3, 0, 2)]
                    ++ map flip_edge openEdges in
        edge_count a b hs = edge_count b a hs /\
        (edge_count a b hs <= 1)%nat /\
        edge_count a a hs = O) /\
  (processOverlaps (params strict_checked) = false ->
   forall a b c, (a, b, c) ∈ [(2, 0, 1); (3, 0, 2)] ->
     let written := rev (concat (index_polys 0 unit_square)) in
     CCW (vertPos written a) (vertPos written b) (vertPos written c)
         (2 * chosen_precision (index_polys 0 unit_square) (-1)) >= 0).
Proof.
  assert (E : TriangulateIdx 100 strict_checked (index_polys 0 unit_square)
                (-1) = Ret [(2, 0, 1); (3, 0, 2)] tt)
    by (vm_compute; reflexivity).
  split; [exact E|].
  exact (TriangulateIdx_checked 100 strict_checked
           (index_polys 0 unit_square) (-1) _ eq_refl eq_refl E).
Defined.

(** ** Collinear polygons *)

(** All the points are collinear within [eps]: [CCW] is [0] at [eps] on
    every triple of them. *)
Definition collinear_within (eps : Q) (pts : list vec2) : bool :=
  forallb (fun A =>
    forallb (fun B =>
      forallb (fun C => CCW A B C eps =? 0) pts) pts) pts.

(** The collinear polygon [(0,0), (3,3), (1,1), (2,2)], which doubles back
    on itself. *)
Definition collinear_quad : list (list vec2) :=
  [[pt 0 0; pt 3 3; pt 1 1; pt 2 2]].

Lemma collinear_within_spec eps pts a b c :
  collinear_within eps pts = true ->
  a ∈ pts -> b ∈ pts -> c ∈ pts -> CCW a b c eps = 0.
Proof.
  unfold collinear_within. intros H Ha Hb Hc.
  rewrite forallb_forall in H.
  apply list_elem_of_In, H in Ha. rewrite forallb_forall in Ha.
  apply list_elem_of_In, Ha in Hb. rewrite forallb_forall in Hb.
  apply list_elem_of_In, Hb in Hc. now apply Z.eqb_eq in Hc.
Qed.

(** What is collinear within a tolerance is collinear within a larger one. *)
Lemma CCW_zero_mono p0 p1 p2 tol tol' :
  (0 <= tol)%Q -> (tol <= tol')%Q ->
  CCW p0 p1 p2 tol = 0 -> CCW p0 p1 p2 tol' = 0.
Proof.
  intros H0 Hle. unfold CCW.
  set (v1x := (vx p1 - vx p0)%Q). set (v1y := (vy p1 - vy p0)%Q).
  set (v2x := (vx p2 - vx p0)%Q). set (v2y := (vy p2 - vy p0)%Q).
  set (area := (v1x * v2y - v1y * v2x)%Q).
  set (base2 := glm_max (v1x * v1x + v1y * v1y)%Q (v2x * v2x + v2y * v2y)%Q).
  assert (Hb : (0 <= base2)%Q) by (apply glm_max_nonneg; nra).
  destruct (Qle_bool (area * area) (base2 * tol * tol)) eqn:E.
  - intros _. apply Qle_bool_iff in E.
    assert (E' : Qle_bool (area * area) (base2 * tol' * tol') = true).
    { apply Qle_bool_iff.
      assert (tol * tol <= tol' * tol')%Q by nra.
      assert (base2 * (tol * tol) <= base2 * (tol' * tol'))%Q by nra.
      lra. }
    now rewrite E'.
  - destruct (Qgtb area 0); discriminate.
Qed.

Lemma chosen_precision_nonneg polys precision :
  (0 <= chosen_precision polys precision)%Q.
Proof.
  unfold chosen_precision. destruct (Qltb precision 0) eqn:E.
  - destruct (fold_bound_spec (concat polys) 0%Q) as (H & _).
    cbn zeta in H. unfold bound_of, kTolerance.
    apply Qmult_le_0_compat; [exact H|done].
  - unfold Qltb in E. apply negb_false_iff, Qle_bool_iff in E. exact E.
Qed.

Lemma vertPos_in l idx :
  idx ∈ map pv_idx l -> vertPos l idx ∈ map pv_pos l.
Proof.
  induction l as [|v l IH]; cbn [map vertPos]; intros H.
  - now apply elem_of_nil in H.
  - destruct (Z.eqb_spec (pv_idx v) idx) as [E|E].
    + apply elem_of_cons. now left.
    + apply elem_of_cons in H as [H|H]; [congruence|].
      apply elem_of_cons. right. now apply IH.
Qed.

Lemma index_polys_flat polygons : forall k,
  map pv_pos (concat (index_polys k polygons)) = concat polygons /\
  map pv_idx (concat (index_polys k polygons))
  = seqZ k (Z.of_nat (length (concat polygons))).
Proof.
  induction polygons as [|poly polygons IH]; intros k; [done|].
  cbn [index_polys concat]. rewrite !map_app, length_app, Nat2Z.inj_add.
  destruct (IH (k + Z.of_nat (length poly))) as [-> ->].
  destruct (index_poly_spec poly k) as [-> ->].
  split; [done|]. rewrite seqZ_app by lia. reflexivity.
Qed.

(** The output and the arena hold verts of the input after the constructor
    and after [Triangulate]. *)
Lemma out_in_stages fuel cfg polys st0 u st1 counts st2 :
  lift (Monotones_ctor fuel cfg polys) st0 = Ret u st1 ->
  Triangulate fuel st1 = Ret counts st2 ->
  out_in (input_pts polys) st0 -> out_in (input_pts polys) st2.
Proof.
  set (P := input_pts polys). intros E1 E2 H0.
  assert (HL : forall A (m : MM A),
             keeps (inv_rel (arena_in P)) m -> keeps (inv_rel (out_in P)) (lift m))
    by (intros A m; apply out_in_lift).
  assert (K1 : keeps (inv_rel (out_in P)) (lift (Monotones_ctor fuel cfg polys))).
  { apply HL. rewrite Monotones_ctor_eq. apply keeps_bind; tc.
    - apply arena_Monotones_init, input_pts_all.
    - intros _. apply (rr_Monotones_sweeps (inv_rel (arena_in P))). }
  pose proof (rt_Triangulate (inv_rel (arena_in P)) (inv_rel (out_in P)) HL
                (out_in_AddTriangle P) fuel) as K2.
  apply (keeps_Ret _ _ _ _ _ K2 E2), (keeps_Ret _ _ _ _ _ K1 E1), H0.
Qed.

(** On input that is collinear within the precision in use, [CheckGeometry]
    finds nothing to object to: a [geometryErr] that leaves [TriangulateIdx]
    was thrown by the constructor. *)
Lemma collinear_geometryErr fuel cfg polys precision :
  collinear_within (chosen_precision polys precision)
    (map pv_pos (concat polys)) = true ->
  TriangulateIdx fuel cfg polys precision = Exc geometryErr tt ->
  MANIFOLD_DEBUG cfg = true /\ processOverlaps (params cfg) = false /\
  exists s,
    Monotones_ctor fuel cfg polys (empty_Monotones precision)
    = Exc geometryErr s.
Proof.
  intros Hcol H. unfold TriangulateIdx in H.
  destruct (TriangulateIdx_try fuel cfg polys
              (mkTState (empty_Monotones precision) []))
    as [u st|e st| |] eqn:E; try discriminate.
  destruct (MANIFOLD_DEBUG cfg) eqn:Ed; [|discriminate].
  injection H as ->. split; [done|].
  unfold TriangulateIdx_try in E.
  apply bind_Exc in E as [E|(u1 & st1 & E1 & E)].
  - unfold lift in E. cbn [mono] in E.
    destruct (Monotones_ctor fuel cfg polys (empty_Monotones precision))
      as [u s|e s| |] eqn:Ec; try discriminate.
    injection E as -> _. split; [|eauto].
    refine (th_Monotones_ctor
              (fun e => e = geometryErr -> processOverlaps (params cfg) = false)
              cfg _ _ fuel polys _ _ _ Ec eq_refl); [auto|discriminate].
  - exfalso.
    apply bind_Exc in E as [E|(counts & st2 & E2 & E)];
      [apply throws_Triangulate in E; discriminate|].
    pose proof (out_in_stages _ _ _ _ _ _ _ _ E1 E2 (out_in_empty _ _))
      as [_ Hin].
    apply lift_Ret in E1 as (s1 & E1 & ->). cbn [mono triangles] in *.
    apply ctor_precision in E1.
    pose proof (keeps_Ret same_ringT _ _ _ _ (keeps_Triangulate fuel) E2)
      as [Hp _]. cbn [mono] in Hp.
    rewrite Ed in E. destruct (intermediateChecks (params cfg)); [|discriminate].
    apply bind_Exc in E as [E|(tris & st3 & E3 & E)]; [discriminate|].
    injection E3 as <- <-.
    apply bind_Exc in E as [E|(u4 & st4 & E4 & E)].
    { apply (throws_CheckTopology (fun e => e = topologyErr)) in E;
        [discriminate|done]. }
    destruct (processOverlaps (params cfg)); cbn [negb] in E; [discriminate|].
    apply bind_Exc in E as [E|(p & st6 & E6 & E)].
    { unfold lift, gets in E. discriminate. }
    unfold CheckTopology in E4.
    apply bind_Ret in E4 as (openEdges & st5 & E5 & E4).
    destruct (Polygons2Edges polys) as [oe|]; [|discriminate].
    injection E5 as <- <-.
    apply CheckTopology_edges_Ret in E4 as (-> & _).
    apply lift_Ret in E6 as (s6 & E6 & ->). injection E6 as <- <-.
    unfold GetPrecision in E. rewrite Hp, E1 in E.
    unfold CheckGeometry, ASSERT in E.
    set (eps := chosen_precision polys precision) in *.
    assert (Hall : forallb (fun '(a, b, c) =>
                CCW (vertPos (rev (concat polys)) a)
                    (vertPos (rev (concat polys)) b)
                    (vertPos (rev (concat polys)) c) (2 * eps) >=? 0)
              (triangles st2) = true).
    { apply forallb_forall. intros [[a b] c] Ht.
      rewrite Forall_forall in Hin. apply list_elem_of_In, Hin in Ht.
      cbn in Ht. rewrite input_pts_idx in Ht.
      assert (Hw : forall i, i ∈ map pv_idx (concat polys) ->
                vertPos (rev (concat polys)) i ∈ map pv_pos (concat polys)).
      { intros i Hi.
        assert (Hi' : i ∈ map pv_idx (rev (concat polys))).
        { apply list_elem_of_In. rewrite map_rev. apply -> in_rev.
          now apply list_elem_of_In. }
        apply vertPos_in in Hi'. rewrite map_rev in Hi'.
        apply list_elem_of_In. apply list_elem_of_In, in_rev in Hi'.
        exact Hi'. }
      destruct Ht as (Ha & Hb & Hc).
      pose proof (collinear_within_spec _ _ _ _ _ Hcol
                    (Hw _ Ha) (Hw _ Hb) (Hw _ Hc)) as Hz.
      apply (CCW_zero_mono _ _ _ _ (2 * eps)%Q) in Hz;
        [now rewrite Hz| |];
        pose proof (chosen_precision_nonneg polys precision); fold eps in H; lra. }
    rewrite Hall in E. discriminate.
Qed.

(** C8 (as amended).  On polygons whose points are all collinear within the
    precision [eps] that the constructor settles on, in every build and with
    every setting of the parameters: each triangle that [Triangulate]
    returns has its three corners among the input points and is degenerate,
    collinear within [eps] and within the [2 * eps] of the final check; so
    that check does not object, and a [geometryErr] that leaves [Triangulate]
    is one that the sweeps of the constructor threw, in a build with
    [MANIFOLD_DEBUG] and with [processOverlaps] unset.  With
    [processOverlaps] set, or in a build without [MANIFOLD_DEBUG], no
    [geometryErr] is raised. *)
Theorem collinear_polygon_degenerate fuel cfg polygons precision :
  let polys := index_polys 0 polygons in
  let eps := chosen_precision polys precision in
  collinear_within eps (concat polygons) = true ->
  (forall tris,
      Triangulate_polygons fuel cfg polygons precision = Ret tris tt ->
      forall a b c, (a, b, c) ∈ tris ->
        exists pa pb pc,
          concat polygons !! Z.to_nat a = Some pa /\
          concat polygons !! Z.to_nat b = Some pb /\
          concat polygons !! Z.to_nat c = Some pc /\
          CCW pa pb pc eps = 0 /\ CCW pa pb pc (2 * eps) = 0) /\
  (Triangulate_polygons fuel cfg polygons precision = Exc geometryErr tt ->
   MANIFOLD_DEBUG cfg = true /\ processOverlaps (params cfg) = false /\
   exists s,
     Monotones_ctor fuel cfg polys (empty_Monotones precision)
     = Exc geometryErr s) /\
  (processOverlaps (params cfg) = true \/ MANIFOLD_DEBUG cfg = false ->
   Triangulate_polygons fuel cfg polygons precision <> Exc geometryErr tt).
Proof.
  intros polys eps Hcol.
  destruct (index_polys_flat polygons 0) as [Hpos Hidx]. fold polys in Hpos, Hidx.
  assert (Hcol' : collinear_within eps (map pv_pos (concat polys)) = true)
    by now rewrite Hpos.
  assert (Hgeo := collinear_geometryErr fuel cfg polys precision Hcol').
  fold (Triangulate_polygons fuel cfg polygons precision) in Hgeo.
  split; [|split; [exact Hgeo|]].
  - intros tris H a b c Hin. unfold Triangulate_polygons in H.
    fold polys in H. unfold TriangulateIdx in H.
    pose proof (out_in_try fuel cfg polys
                  (mkTState (empty_Monotones precision) [])) as K.
    unfold holds_after in K.
    assert (Ht : Forall (tri_in (input_pts polys)) tris).
    { destruct (TriangulateIdx_try fuel cfg polys
                  (mkTState (empty_Monotones precision) []))
        as [u st|e st| |]; try discriminate.
      - injection H as <-. now apply K, out_in_empty.
      - destruct (MANIFOLD_DEBUG cfg); [discriminate|].
        injection H as <-. now apply K, out_in_empty. }
    rewrite Forall_forall in Ht. specialize (Ht _ Hin). cbn in Ht.
    rewrite input_pts_idx, Hidx, !elem_of_seqZ in Ht.
    destruct Ht as (Ha & Hb & Hc).
    assert (Hl : forall i, 0 <= i < 0 + Z.of_nat (length (concat polygons)) ->
              exists p, concat polygons !! Z.to_nat i = Some p /\
                        p ∈ concat polygons).
    { intros i Hi.
      destruct (lookup_lt_is_Some_2 (concat polygons) (Z.to_nat i)) as [p Hp];
        [lia|].
      exists p. split; [done|]. eapply list_elem_of_lookup_2, Hp. }
    destruct (Hl _ Ha) as (pa & Ea & Ia), (Hl _ Hb) as (pb & Eb & Ib),
      (Hl _ Hc) as (pc & Ec & Ic).
    exists pa, pb, pc. do 3 (split; [done|]).
    pose proof (collinear_within_spec _ _ _ _ _ Hcol Ia Ib Ic) as Hz.
    split; [exact Hz|].
    pose proof (chosen_precision_nonneg polys precision) as Hn. fold eps in Hn.
    apply (CCW_zero_mono _ _ _ eps); [done|lra|done].
  - intros Hsoft Hex. destruct (Hgeo Hex) as (Hd & Ho & _).
    destruct Hsoft; congruence.
Qed.

Lemma collinear_polygon_degenerate_witness :
  collinear_within (1 # 10000) (concat collinear_quad) = true /\
  Triangulate_polygons 100 strict_checked collinear_quad (1 # 10000)
  = Exc geometryErr tt /\
  (exists s,
      Monotones_ctor 100 strict_checked (index_polys 0 collinear_quad)
        (empty_Monotones (1 # 10000)) = Exc geometryErr s) /\
  Triangulate_polygons 100 soft_checked collinear_quad (1 # 10000)
  <> Exc geometryErr tt.
Proof.
  assert (Hc : collinear_within (1 # 10000) (concat collinear_quad) = true)
    by (vm_compute; reflexivity).
  assert (E : Triangulate_polygons 100 strict_checked collinear_quad (1 # 10000)
              = Exc geometryErr tt) by (vm_compute; reflexivity).
  split; [exact Hc|]. split; [exact E|]. split.
  - exact (proj2 (proj2 (proj1 (proj2
             (collinear_polygon_degenerate 100 strict_checked collinear_quad
                (1 # 10000) Hc)) E))).
  - apply (proj2 (proj2
             (collinear_polygon_degenerate 100 soft_checked collinear_quad
                (1 # 10000) Hc))).
    left. reflexivity.
Defined.

(** C8 (as stated) fails: the collinear triangle yields one triangle and no
    error, in strict mode as in soft-fail mode, with [MANIFOLD_DEBUG] and
    without. *)
Lemma collinear_triangle_counterexample :
  collinear_within (1 # 10000) (concat collinear_triangle) = true /\
  Triangulate_polygons 100 strict_checked collinear_triangle (1 # 10000)
  = Ret [(2, 0, 1)] tt /\
  Triangulate_polygons 100 soft_checked collinear_triangle (1 # 10000)
  = Ret [(2, 0, 1)] tt /\
  Triangulate_polygons 100 (release (mkParams false true false false))
    collinear_triangle (1 # 10000)
  = Ret [(2, 0, 1)] tt.
Proof. repeat split; vm_compute; reflexivity. Qed.

(** ** The ring that the constructor builds *)

(** The slots of the loops that the polygons become: the verts get the
    slots [0], [1], ... in input order, and a polygon without verts makes
    no loop. *)
Fixpoint loops_from (k : nat) (polys : PolygonsIdx) : list (list nat) :=
  match polys with
  | [] => []
  | poly :: polys' =>
      match poly with
      | [] => loops_from k polys'
      | _ :: _ => seq k (length poly) :: loops_from (k + length poly) polys'
      end
  end.

Lemma concat_loops_from polys : forall k,
  concat (loops_from k polys) = seq k (length (concat polys)).
Proof.
  induction polys as [|poly polys IH]; intros k; [done|].
  cbn [loops_from concat]. rewrite length_app, seq_app, <- IH.
  destruct poly; [|done]. cbn. now rewrite Nat.add_0_r.
Qed.

Lemma loops_from_nonempty polys : forall k,
  Forall (fun poly => poly <> []) polys ->
  loops_from k polys
  = (fix go k (ls : list nat) :=
       match ls with
       | [] => []
       | n :: ls' => seq k n :: go (k + n)%nat ls'
       end) k (map length polys).
Proof.
  induction polys as [|poly polys IH]; intros k H; [done|].
  inversion H as [|? ? Hp Hps]; subst. cbn [loops_from map].
  destruct poly; [done|]. now rewrite IH.
Qed.

Lemma length_loops_from polys : forall k,
  Forall (fun poly => poly <> []) polys ->
  map length (loops_from k polys) = map length polys.
Proof.
  induction polys as [|poly polys IH]; intros k H; [done|].
  inversion H as [|? ? Hp Hps]; subst. cbn [loops_from map].
  destruct poly; [done|]. cbn [map]. now rewrite length_seq, IH.
Qed.

Lemma vinsert_end r s :
  vinsert vEnd r s
  = Ret (vAt (length (verts s)))
        (mkMonotones (verts s ++ [r]) (monotones_ s ++ [length (verts s)])
                     (edges s) (activeEdges_ s) (inactiveEdges_ s)
                     (precision_ s)).
Proof.
  unfold vinsert, vposition, bind, gets, modify, ret, with_monotones,
    with_verts. cbn. now rewrite insert_before_None.
Qed.

Lemma Link_fwd a b s :
  (a < length (verts s))%nat -> (b < length (verts s))%nat ->
  exists s', Link (vAt a) (vAt b) s = Ret tt s'.
Proof.
  intros Ha Hb. unfold Link, bind, vert_upd.
  destruct (lookup_lt_is_Some_2 _ _ Ha) as [ra Ea]. rewrite Ea. cbn.
  assert (Hb' : (b < length (<[a := set_right (vAt b) ra]> (verts s)))%nat)
    by now rewrite length_insert.
  destruct (lookup_lt_is_Some_2 _ _ Hb') as [rb Eb]. rewrite Eb. eauto.
Qed.

Lemma map_pt_of_insert l n r (f : VertAdj -> VertAdj) :
  l !! n = Some r -> pt_of (f r) = pt_of r ->
  map pt_of (<[n := f r]> l) = map pt_of l.
Proof.
  intros E Hf. change (pt_of <$> <[n := f r]> l = pt_of <$> l).
  rewrite list_fmap_insert, Hf. apply list_insert_id.
  now rewrite list_lookup_fmap, E.
Qed.

Lemma Link_pts l r s u s' :
  Link l r s = Ret u s' -> map pt_of (verts s') = map pt_of (verts s).
Proof.
  unfold Link. intros H. apply bind_Ret in H as (u0 & s0 & E0 & H).
  apply vert_upd_Ret in E0 as (a & ra & -> & Ea & ->).
  apply vert_upd_Ret in H as (b & rb & -> & Eb & ->). cbn in *.
  rewrite (map_pt_of_insert _ _ _ _ Eb) by now destruct rb.
  now rewrite (map_pt_of_insert _ _ _ _ Ea) by now destruct ra.
Qed.

Definition pv_pt (pv : PolyVert) : vec2 * Z := (pv_pos pv, pv_idx pv).

(** The verts of a polygon after its first one: each is appended and linked
    to the one before. *)
Lemma add_poly_verts_chain poly : forall st cur bound s,
  length (verts s) = S cur ->
  exists s',
    add_poly_verts poly false (vAt st) (vAt cur) (vAt cur) bound s
    = Ret (vAt st, vAt (cur + length poly), vAt (cur + length poly),
           fold_left step_bound poly bound) s' /\
    length (verts s') = (S cur + length poly)%nat /\
    monotones_ s' = monotones_ s ++ seq (S cur) (length poly) /\
    map pt_of (verts s') = map pt_of (verts s) ++ map pv_pt poly /\
    precision_ s' = precision_ s /\
    (forall i, (i < cur)%nat -> right_of s' i = right_of s i) /\
    (forall i, (i <= cur)%nat -> left_of s' i = left_of s i) /\
    (forall i, (cur <= i < cur + length poly)%nat ->
               right_of s' i = vAt (S i) /\ left_of s' (S i) = vAt i).
Proof.
  induction poly as [|pv poly IH]; intros st cur bound s Hlen.
  - exists s. cbn [add_poly_verts length fold_left seq map].
    rewrite !Nat.add_0_r, !app_nil_r. repeat split; try done. lia. lia.
  - cbn [add_poly_verts]. rewrite (bind_of_Ret _ _ _ _ _ (vinsert_end _ s)).
    pose proof (vinsert_Ret _ _ _ _ _ (vinsert_end
                  (mkVertAdj (pv_pos pv) (pv_idx pv) 0 vEnd vEnd
                             eActiveEnd eNone) s))
      as (_ & _ & _ & _ & Hl1 & Hr1).
    set (s1 := mkMonotones _ _ _ _ _ _) in *.
    rewrite Hlen in *.
    assert (Hlen1 : length (verts s1) = S (S cur))
      by (unfold s1; cbn; rewrite length_app, Hlen; cbn; lia).
    destruct (Link_fwd cur (S cur) s1) as [s2 E2]; [lia|lia|].
    rewrite (bind_of_Ret _ _ _ _ _ E2).
    pose proof (Link_pts _ _ _ _ _ E2) as Hpts2.
    apply Link_Ret in E2
      as (a & b & [= <-] & [= <-] & _ & _ & Hlen2 & Hm2 & Hp2 & Hl2 & Hr2).
    destruct (IH st (S cur) (step_bound bound pv) s2) as
      (s' & E & Hlen' & Hm' & Hpts' & Hp' & Hr' & Hl' & Hch');
      [congruence|].
    exists s'. cbn [length fold_left].
    replace (cur + S (length poly))%nat with (S cur + length poly)%nat by lia.
    split; [exact E|]. split; [lia|]. split.
    { rewrite Hm', Hm2. unfold s1. cbn [monotones_ seq].
      rewrite <- app_assoc. cbn [app]. congruence. }
    split.
    { rewrite Hpts', Hpts2. unfold s1. cbn [verts map].
      now rewrite map_app, <- app_assoc. }
    split; [rewrite Hp', Hp2; reflexivity|].
    split; [|split].
    + intros i Hi. rewrite Hr' by lia. rewrite Hr2. unfold upd.
      case_decide; [lia|]. rewrite Hr1. unfold upd. case_decide; [lia|done].
    + intros i Hi. rewrite Hl' by lia. rewrite Hl2. unfold upd.
      case_decide; [lia|]. rewrite Hl1. unfold upd. case_decide; [lia|done].
    + intros i Hi. destruct (decide (i = cur)) as [->|Hne].
      * rewrite Hr', Hl' by lia. rewrite Hr2, Hl2. unfold upd.
        repeat case_decide; try lia. done.
      * apply Hch'. lia.
Qed.

(** A polygon with verts: its first vert starts a new chain. *)
Lemma add_poly_verts_first pv poly start last current bound s :
  exists s',
    let n := length (verts s) in
    add_poly_verts (pv :: poly) true start last current bound s
    = Ret (vAt n, vAt (n + length poly), vAt (n + length poly),
           fold_left step_bound (pv :: poly) bound) s' /\
    length (verts s') = (n + S (length poly))%nat /\
    monotones_ s' = monotones_ s ++ seq n (S (length poly)) /\
    map pt_of (verts s') = map pt_of (verts s) ++ map pv_pt (pv :: poly) /\
    precision_ s' = precision_ s /\
    (forall i, (i < n)%nat ->
               right_of s' i = right_of s i /\ left_of s' i = left_of s i) /\
    (forall i, (n <= i < n + length poly)%nat ->
               right_of s' i = vAt (S i) /\ left_of s' (S i) = vAt i).
Proof.
  cbn [add_poly_verts]. rewrite (bind_of_Ret _ _ _ _ _ (vinsert_end _ s)).
  pose proof (vinsert_Ret _ _ _ _ _ (vinsert_end
                (mkVertAdj (pv_pos pv) (pv_idx pv) 0 vEnd vEnd
                           eActiveEnd eNone) s))
    as (_ & _ & _ & _ & Hl1 & Hr1).
  set (s1 := mkMonotones _ _ _ _ _ _) in *.
  set (n := length (verts s)) in *.
  assert (Hlen1 : length (verts s1) = S n)
    by (unfold s1; cbn; rewrite length_app; cbn; lia).
  rewrite (bind_of_Ret _ _ _ tt s1) by reflexivity.
  destruct (add_poly_verts_chain poly n n (step_bound bound pv) s1 Hlen1)
    as (s' & E & Hlen' & Hm' & Hpts' & Hp' & Hr' & Hl' & Hch').
  exists s'. cbn zeta. split; [exact E|]. split; [lia|]. split.
  { rewrite Hm'. unfold s1. cbn [monotones_ seq]. now rewrite <- app_assoc. }
  split.
  { rewrite Hpts'. unfold s1. cbn [verts map].
    now rewrite map_app, <- app_assoc. }
  split; [rewrite Hp'; reflexivity|]. split; [|exact Hch'].
  intros i Hi. rewrite Hr', Hl' by lia. rewrite Hr1, Hl1. unfold upd.
  fold n. repeat case_decide; try lia. done.
Qed.

Lemma seg_ext s s' l : forall a,
  (forall i, i ∈ a :: l ->
             right_of s' i = right_of s i /\ left_of s' i = left_of s i) ->
  seg s a l -> seg s' a l.
Proof.
  induction l as [|b l IH]; intros a H; cbn [seg]; [done|].
  intros [[H1 H2] H3]. split.
  - split.
    + rewrite (proj1 (H a ltac:(left))). exact H1.
    + rewrite (proj2 (H b ltac:(right; left))). exact H2.
  - apply IH; [|exact H3]. intros i Hi. apply H. now right.
Qed.

Lemma is_loop_ext s s' c :
  (forall i, i ∈ c ->
             right_of s' i = right_of s i /\ left_of s' i = left_of s i) ->
  is_loop s c -> is_loop s' c.
Proof.
  destruct c as [|a l]; [done|]. cbn [is_loop]. intros H.
  apply seg_ext. intros i Hi. apply H.
  apply elem_of_cons in Hi as [->|Hi]; [left|].
  apply elem_of_app in Hi as [Hi|Hi]; [now right|].
  apply list_elem_of_singleton in Hi as ->. left.
Qed.

Lemma seg_chain s len : forall a,
  (forall i, (a <= i < a + len)%nat ->
             right_of s i = vAt (S i) /\ left_of s (S i) = vAt i) ->
  seg s a (seq (S a) len).
Proof.
  induction len as [|len IH]; intros a H; cbn [seq seg]; [done|].
  split; [apply H; lia|]. apply IH. intros i Hi. apply H. lia.
Qed.

Lemma last_seq len : forall a, List.last (seq (S a) len) a = (a + len)%nat.
Proof.
  induction len as [|len IH]; intros a; [cbn; lia|].
  cbn [seq]. rewrite List_last_cons, IH. lia.
Qed.

Lemma chain_loop s n len :
  (forall i, (n <= i < n + len)%nat ->
             right_of s i = vAt (S i) /\ left_of s (S i) = vAt i) ->
  right_of s (n + len) = vAt n -> left_of s n = vAt (n + len)%nat ->
  is_loop s (seq n (S len)).
Proof.
  intros Hch Hr Hl. cbn [seq is_loop]. apply seg_snoc. split.
  - now apply seg_chain.
  - rewrite last_seq. split; done.
Qed.

(** Between two polygons: the verts so far are the first [n] slots, in
    input order, and the polygons so far are the closed loops [loops]. *)
Definition built (s : Monotones) (n : nat) (pts : list (vec2 * Z))
    (loops : list (list nat)) : Prop :=
  length (verts s) = n /\ monotones_ s = seq 0 n /\
  map pt_of (verts s) = pts /\
  Forall (is_loop s) loops /\
  Forall (Forall (fun i => (i < n)%nat)) loops.

Lemma add_polys_built polys : forall start last current bound s n pts loops,
  built s n pts loops ->
  (n = O -> forall rest, polys <> [] :: rest) ->
  (n <> O -> exists st cur,
      start = vAt st /\ current = vAt cur /\ (st < n)%nat /\ (cur < n)%nat /\
      right_of s cur = vAt st /\ left_of s st = vAt cur) ->
  exists s',
    add_polys polys start last current bound s
    = Ret (fold_left step_bound (concat polys) bound) s' /\
    precision_ s' = precision_ s /\
    built s' (n + length (concat polys)) (pts ++ map pv_pt (concat polys))
          (loops ++ loops_from n polys).
Proof.
  induction polys as [|poly polys IH];
    intros start last current bound s n pts loops Hb H0 Hn.
  { exists s. cbn. rewrite Nat.add_0_r, !app_nil_r. done. }
  destruct Hb as (Hlen & Hm & Hpts & Hloops & Hlt).
  destruct poly as [|pv poly].
  - destruct (decide (n = O)) as [Hz|Hnz]; [now destruct (H0 Hz polys)|].
    destruct (Hn Hnz) as (st & cur & -> & -> & Hst & Hcur & Hr & Hl).
    cbn [add_polys add_poly_verts].
    rewrite (bind_of_Ret _ _ _ (vAt st, last, vAt cur, bound) s)
      by reflexivity.
    cbv beta iota.
    destruct (Link_fwd cur st s) as [s2 E2]; [lia|lia|].
    rewrite (bind_of_Ret _ _ _ _ _ E2).
    pose proof (Link_pts _ _ _ _ _ E2) as Hpts2.
    apply Link_Ret in E2
      as (a & b & [= <-] & [= <-] & _ & _ & Hlen2 & Hm2 & Hp2 & Hl2 & Hr2).
    assert (Hsame : forall i, right_of s2 i = right_of s i /\
                              left_of s2 i = left_of s i).
    { intros i. rewrite Hr2, Hl2. unfold upd.
      split; case_decide; congruence. }
    destruct (IH (vAt st) last (vAt cur) bound s2 n pts loops)
      as (s' & E & Hp' & Hb').
    + repeat split; try congruence.
      eapply Forall_impl; [exact Hloops|]. intros c. apply is_loop_ext.
      intros i _. apply Hsame.
    + intros Hz. done.
    + intros _. exists st, cur. repeat split; try done.
      * now rewrite (proj1 (Hsame cur)).
      * now rewrite (proj2 (Hsame st)).
    + exists s'. cbn [concat loops_from app]. split; [exact E|].
      split; [congruence|exact Hb'].
  - cbn [add_polys].
    destruct (add_poly_verts_first pv poly start last current bound s)
      as (s1 & E1 & Hlen1 & Hm1 & Hpts1 & Hp1 & Hold1 & Hch1).
    cbn zeta in *. rewrite Hlen in *.
    rewrite (bind_of_Ret _ _ _ _ _ E1). cbv beta iota.
    destruct (Link_fwd (n + length poly) n s1) as [s2 E2]; [lia|lia|].
    rewrite (bind_of_Ret _ _ _ _ _ E2).
    pose proof (Link_pts _ _ _ _ _ E2) as Hpts2.
    apply Link_Ret in E2
      as (a & b & [= <-] & [= <-] & _ & _ & Hlen2 & Hm2 & Hp2 & Hl2 & Hr2).
    destruct (IH (vAt n) (vAt (n + length poly)) (vAt (n + length poly))
                 (fold_left step_bound (pv :: poly) bound) s2
                 (n + S (length poly))%nat
                 (pts ++ map pv_pt (pv :: poly))
                 (loops ++ [seq n (S (length poly))]))
      as (s' & E & Hp' & Hb').
    + split; [congruence|]. split.
      { rewrite Hm2, Hm1, Hm. now rewrite seq_app. }
      split; [congruence|]. split.
      * apply Forall_app. split.
        -- rewrite Forall_forall in Hloops, Hlt. apply Forall_forall.
           intros c Hc. apply (is_loop_ext s); [|now apply Hloops].
           intros i Hi. pose proof (Hlt c Hc) as Hci.
           rewrite Forall_forall in Hci. specialize (Hci i Hi).
           rewrite Hr2, Hl2. unfold upd.
           split; (case_decide; [lia|]); now apply Hold1.
        -- constructor; [|constructor]. apply chain_loop.
           ++ intros i Hi. rewrite Hr2, Hl2. unfold upd.
              split; (case_decide; [lia|]); now apply Hch1.
           ++ rewrite Hr2. unfold upd. now rewrite decide_True.
           ++ rewrite Hl2. unfold upd. now rewrite decide_True.
      * apply Forall_app. split.
        -- eapply Forall_impl; [exact Hlt|]. intros c Hc.
           eapply Forall_impl; [exact Hc|]. intros i. cbn. lia.
        -- constructor; [|constructor]. apply Forall_forall.
           intros i Hi%list_elem_of_In%in_seq. lia.
    + intros Hz. lia.
    + intros _. exists n, (n + length poly)%nat.
      repeat split; try done; try lia.
      * rewrite Hr2. unfold upd. now rewrite decide_True.
      * rewrite Hl2. unfold upd. now rewrite decide_True.
    + exists s'. cbn [concat loops_from]. split.
      { rewrite E. now rewrite fold_left_app. }
      split; [congruence|].
      rewrite length_app, map_app. cbn [length] in *.
      replace (n + (S (length poly) + length (concat polys)))%nat
        with (n + S (length poly) + length (concat polys))%nat by lia.
      now rewrite <- !app_assoc in Hb'.
Qed.

(** The ring as the constructor builds it.  Unless the first polygon has no
    vert, the constructor's loops run to completion: the verts of the list
    are the input verts in input order, every polygon with verts has become
    one closed loop of [right] links through its verts in input order, and
    a polygon without verts (after the first) has left no trace.  When the
    first polygon has no vert, [Link] is applied to iterators that
    designate nothing. *)
Theorem Monotones_init_loops polys precision :
  ((forall rest, polys <> [] :: rest) ->
   exists s,
     Monotones_init polys (empty_Monotones precision) = Ret tt s /\
     map pt_of (verts s) = input_pts polys /\
     monotones_ s = seq 0 (length (concat polys)) /\
     Forall (is_loop s) (loops_from 0 polys) /\
     concat (loops_from 0 polys) = monotones_ s /\
     (Forall (fun poly => poly <> []) polys ->
      map length (loops_from 0 polys) = map length polys) /\
     precision_ s = chosen_precision polys precision) /\
  (forall rest s, Monotones_init ([] :: rest) s = Undef).
Proof.
  split; [|reflexivity].
  intros Hfirst.
  destruct (add_polys_built polys vNone vNone vNone 0%Q
              (empty_Monotones precision) O [] [])
    as (s1 & E & Hp & Hlen & Hm & Hpts & Hloops & _).
  { repeat split; constructor. }
  { intros _. exact Hfirst. }
  { intros H. done. }
  cbn [app Nat.add] in *. unfold Monotones_init.
  rewrite (bind_of_Ret _ _ _ _ _ E).
  rewrite (bind_of_Ret _ _ _ (precision_ s1) s1) by reflexivity.
  rewrite Hp. cbn [precision_ empty_Monotones].
  unfold chosen_precision, bound_of.
  destruct (Qltb precision 0) eqn:Eq.
  - eexists. split; [reflexivity|]. cbn.
    split; [exact Hpts|]. split; [exact Hm|]. split.
    { eapply Forall_impl; [exact Hloops|]. intros c. now apply is_loop_ext. }
    split; [rewrite concat_loops_from; congruence|].
    split; [apply length_loops_from|reflexivity].
  - exists s1. split; [reflexivity|].
    split; [exact Hpts|]. split; [exact Hm|]. split; [exact Hloops|].
    split; [rewrite concat_loops_from; congruence|].
    split; [apply length_loops_from|exact Hp].
Qed.

Lemma Monotones_init_loops_witness :
  exists s,
    Monotones_init (index_polys 0 holed_square) (empty_Monotones (1 # 10000))
    = Ret tt s /\
    map pt_of (verts s) = input_pts (index_polys 0 holed_square) /\
    monotones_ s = seq 0 8 /\
    Forall (is_loop s) [[0; 1; 2; 3]; [4; 5; 6; 7]]%nat.
Proof.
  destruct (proj1 (Monotones_init_loops (index_polys 0 holed_square)
                     (1 # 10000)))
    as (s & H1 & H2 & H3 & H4 & _).
  - intros rest. discriminate.
  - exists s. repeat split; assumption.
Defined.

(** ** The forward sweep reorders the list *)

(** [SweepForward] only moves verts within the list ([splice]): however it
    ends, the list is a permutation of what it was, and positions, mesh
    indices and [left]/[right] links of all verts, and the precision, are
    untouched.  The list is understood to hold distinct nodes, as every
    list built by the constructor does. *)
Theorem SweepForward_reorders fuel cfg s :
  ring_wf s ->
  forall s',
    (exists r, SweepForward fuel cfg s = Ret r s') \/
    (exists e, SweepForward fuel cfg s = Exc e s') ->
    monotones_ s' ≡ₚ monotones_ s /\
    map core (verts s') = map core (verts s) /\
    precision_ s' = precision_ s.
Proof.
  intros Hwf s' H.
  assert (K : same_ring s s' /\ ring_wf s').
  { destruct H as [[r H]|[e H]].
    - split.
      + exact (keeps_Ret same_ring _ _ _ _ (keeps_SweepForward fuel cfg) H).
      + exact (keeps_Ret (inv_rel ring_wf) _ _ _ _
                 (rr_SweepForward (inv_rel ring_wf) fuel cfg) H Hwf).
    - split.
      + exact (keeps_Exc same_ring _ _ _ _ (keeps_SweepForward fuel cfg) H).
      + exact (keeps_Exc (inv_rel ring_wf) _ _ _ _
                 (rr_SweepForward (inv_rel ring_wf) fuel cfg) H Hwf). }
  destruct K as [(Hp & Hc & Hm) [Hnd' _]]. destruct Hwf as [Hnd _].
  split; [|done]. now apply NoDup_Permutation.
Qed.

(** The clockwise triangle above the counter-clockwise one, as the forward
    sweep leaves it when it gives up. *)
Definition cw_above_ccw_swept : Monotones :=
  Eval vm_compute in
    state_of (SweepForward 100 soft_checked cw_above_ccw_ring).

Lemma SweepForward_reorders_witness :
  monotones_ cw_above_ccw_ring = [0; 1; 2; 3; 4; 5]%nat /\
  monotones_ cw_above_ccw_swept = [4; 3; 5; 0; 1; 2]%nat /\
  monotones_ cw_above_ccw_swept ≡ₚ monotones_ cw_above_ccw_ring /\
  map core (verts cw_above_ccw_swept) = map core (verts cw_above_ccw_ring) /\
  precision_ cw_above_ccw_swept = precision_ cw_above_ccw_ring.
Proof.
  split; [reflexivity|]. split; [reflexivity|].
  apply (SweepForward_reorders 100 soft_checked cw_above_ccw_ring).
  - split.
    + apply (bool_decide_unpack _). vm_compute. exact I.
    + apply Forall_forall. cbn. repeat constructor.
  - left. exists true. vm_compute. reflexivity.
Defined.

(** ** Triangulation after a soft failure *)

(** When the forward sweep gives up, the constructor returns at once and
    [Triangulate] works on the input polygons themselves: if each has three
    verts or more it returns without an exception, with [n - 2] triangles
    for every polygon of [n] verts. *)
Theorem overlap_fallback_count fuel fuel' cfg polys precision s0 s' tr :
  Forall (fun poly => (3 <= length poly)%nat) polys ->
  Monotones_init polys (empty_Monotones precision) = Ret tt s0 ->
  SweepForward fuel cfg s0 = Ret true s' ->
  (length (concat polys) < fuel')%nat ->
  Monotones_ctor fuel cfg polys (empty_Monotones precision) = Ret tt s' /\
  exists counts st' new,
    Triangulate fuel' (mkTState s' tr) = Ret counts st' /\
    counts ≡ₚ map (fun poly => Z.of_nat (length poly) - 2) polys /\
    triangles st' = tr ++ new /\
    Z.of_nat (length new)
    = Z.of_nat (length (concat polys)) - 2 * Z.of_nat (length polys).
Proof.
  intros H3 Hinit Hsweep Hfuel.
  assert (Hne : Forall (fun poly : SimplePolygonIdx => poly <> []) polys).
  { eapply Forall_impl; [exact H3|]. intros [|? ?]; cbn; [lia|done]. }
  split.
  { unfold Monotones_ctor. rewrite (bind_of_Ret _ _ _ _ _ Hinit).
    now rewrite (bind_of_Ret _ _ _ _ _ Hsweep). }
  destruct (proj1 (Monotones_init_loops polys precision))
    as (s & E & _ & Hm & Hloops & Hcat & Hlens & _).
  { intros rest ->. inversion Hne; done. }
  rewrite Hinit in E. injection E as <-. specialize (Hlens Hne).
  pose proof (keeps_Ret same_ring _ _ _ _ (keeps_SweepForward fuel cfg) Hsweep)
    as Hsame.
  assert (Hwf0 : ring_wf s0).
  { exact (keeps_Ret (inv_rel ring_wf) _ _ _ _ (wf_Monotones_init polys)
             Hinit (ring_wf_empty precision)). }
  assert (Hwf : ring_wf s').
  { exact (keeps_Ret (inv_rel ring_wf) _ _ _ _
             (rr_SweepForward (inv_rel ring_wf) fuel cfg) Hsweep Hwf0). }
  assert (Hperm : monotones_ s' ≡ₚ monotones_ s0).
  { apply NoDup_Permutation; [apply Hwf|apply Hwf0|apply Hsame]. }
  assert (Hring : ring_of_loops s' (loops_from 0 polys)).
  { split; [|split; [|split]].
    - eapply Forall_impl; [exact Hloops|]. intros [|a l]; [done|].
      cbn [is_loop]. now apply seg_same_ring.
    - apply Forall_forall. intros c Hc.
      apply (list_elem_of_fmap_2 length) in Hc.
      change (length c ∈ map length (loops_from 0 polys)) in Hc.
      rewrite Hlens in Hc.
      apply list_elem_of_fmap in Hc as (poly & -> & Hpoly).
      rewrite Forall_forall in H3. now apply H3.
    - now rewrite Hcat, Hperm.
    - apply Hwf. }
  assert (Hlen : length (monotones_ s') = length (concat polys)).
  { rewrite (Permutation_length Hperm), Hm. apply length_seq. }
  destruct (Triangulate_total fuel' (mkTState s' tr) _ Hring)
    as (counts & st' & E & Hp); [cbn [mono]; lia|].
  destruct (Triangulate_counted _ _ _ _ E) as (new & Ht & Hn & Hsum & _).
  exists counts, st', new. split; [exact E|].
  assert (Hmap : map (fun c : list nat => Z.of_nat (length c) - 2)
                     (loops_from 0 polys)
                 = map (fun poly : SimplePolygonIdx =>
                          Z.of_nat (length poly) - 2) polys).
  { transitivity (map (fun n => Z.of_nat n - 2)
                      (map length (loops_from 0 polys))).
    - now rewrite map_map.
    - rewrite Hlens. now rewrite map_map. }
  split; [etransitivity; [exact Hp|]; apply Permutation_refl'; exact Hmap|].
  split; [exact Ht|].
  rewrite Hn, Hsum. cbn [mono]. rewrite Hlen.
  apply Permutation_length in Hp. rewrite length_map in Hp. rewrite Hp.
  assert (length (loops_from 0 polys) = length polys).
  { rewrite <- (length_map length (loops_from 0 polys)), Hlens.
    apply length_map. }
  lia.
Qed.

Definition cw_soft : Monotones :=
  Eval vm_compute in state_of (SweepForward 100 soft_checked cw_ring).

Lemma overlap_fallback_count_witness :
  Monotones_ctor 100 soft_checked (index_polys 0 cw_triangle)
    (empty_Monotones (1 # 10000)) = Ret tt cw_soft /\
  exists counts st' new,
    Triangulate 100 (mkTState cw_soft []) = Ret counts st' /\
    counts ≡ₚ [1] /\
    triangles st' = [] ++ new /\
    Z.of_nat (length new) = 1.
Proof.
  apply (overlap_fallback_count 100 100 soft_checked
           (index_polys 0 cw_triangle) (1 # 10000) cw_ring cw_soft []).
  - repeat constructor.
  - vm_compute. reflexivity.
  - vm_compute. reflexivity.
  - vm_compute. lia.
Defined.

(** ** What [SplitVerts] does to the ring *)

Lemma length_insert_before q n l :
  match q with Some m => m ∈ l | None => True end ->
  length (insert_before q n l) = S (length l).
Proof.
  destruct q as [m|]; [|intros _; rewrite insert_before_None, length_app;
                         cbn; lia].
  induction l as [|a l IH]; intros H; [inversion H|]. cbn.
  destruct (decide (a = m)) as [->|Hne]; [done|]. cbn. f_equal. apply IH.
  apply elem_of_cons in H as [->|H]; done.
Qed.

Lemma index_of_app s s' r x :
  verts s' = verts s ++ [r] -> (x < length (verts s))%nat ->
  index_of s' x = index_of s x.
Proof. intros E Hx. unfold index_of. now rewrite E, lookup_app_l. Qed.

Lemma index_of_last s s' r :
  verts s' = verts s ++ [r] -> index_of s' (length (verts s)) = index r.
Proof.
  intros E. unfold index_of. rewrite E, lookup_app_r, Nat.sub_diag by lia.
  reflexivity.
Qed.

(** [monotones_.insert(p, r)] at a position of the list. *)
Lemma vinsert_facts p r s :
  match p with vAt q => q ∈ monotones_ s | vEnd => True | vNone => False end ->
  exists s',
    vinsert p r s = Ret (vAt (length (verts s))) s' /\
    verts s' = verts s ++ [r] /\
    length (monotones_ s') = S (length (monotones_ s)).
Proof.
  intros Hp. unfold vinsert, vposition, bind, gets, modify, ret.
  destruct p as [q| |]; [| |done].
  - rewrite (proj2 (list_mem_true q (monotones_ s)) Hp).
    eexists. split; [reflexivity|]. cbn. split; [done|].
    now apply length_insert_before.
  - eexists. split; [reflexivity|]. cbn. split; [done|].
    now apply length_insert_before.
Qed.

Lemma vnext_facts m s :
  m ∈ monotones_ s ->
  exists w,
    vnext (vAt m) s = Ret w s /\
    match w with vAt q => q ∈ monotones_ s | vEnd => True | vNone => False end.
Proof.
  intros Hm. unfold vnext, bind, gets, of_option, ret.
  induction (monotones_ s) as [|a l IH]; [inversion Hm|]. cbn [list_next].
  destruct (decide (a = m)) as [->|Hne].
  - exists (v_of (head l)). split; [done|].
    destruct l as [|b l]; cbn; [done|]. right. left.
  - apply elem_of_cons in Hm as [->|Hm]; [done|].
    destruct (IH Hm) as (w & E & Hw). exists w.
    destruct (list_next l m) as [o|]; [|done]. split; [exact E|].
    destruct w; try done. now right.
Qed.

(** An update of one vert that leaves its position and mesh index alone. *)
Lemma vert_upd_facts n f s :
  (n < length (verts s))%nat ->
  (forall r, core (f r) = core r) ->
  exists s' r,
    vert_upd (vAt n) f s = Ret tt s' /\ verts s !! n = Some r /\
    length (verts s') = length (verts s) /\
    monotones_ s' = monotones_ s /\
    precision_ s' = precision_ s /\
    map pt_of (verts s') = map pt_of (verts s) /\
    index_of s' n = index (f r) /\
    (forall x, x <> n -> index_of s' x = index_of s x) /\
    (forall x, left_of s' x = left_of s x) /\
    (forall x, right_of s' x = right_of s x).
Proof.
  intros Hn Hf. unfold vert_upd.
  destruct (lookup_lt_is_Some_2 _ _ Hn) as [r E]. rewrite E.
  assert (Hc : pt_of (f r) = pt_of r /\ left (f r) = left r /\
               right (f r) = right r).
  { specialize (Hf r). unfold core in Hf. unfold pt_of.
    injection Hf as -> -> -> ->. done. }
  destruct Hc as (Hc1 & Hc2 & Hc3).
  eexists _, r. split; [reflexivity|]. split; [done|]. cbn.
  split; [apply length_insert|]. split; [done|]. split; [done|].
  split; [now apply map_pt_of_insert|]. unfold index_of. cbn.
  split; [now rewrite list_lookup_insert_eq|].
  split; [intros x Hx; now rewrite list_lookup_insert_ne|]. split.
  - intros x. rewrite (left_of_insert _ _ _ _ _ E). case_decide; [|done].
    subst x. unfold left_of. now rewrite E.
  - intros x. rewrite (right_of_insert _ _ _ _ _ E). case_decide; [|done].
    subst x. unfold right_of. now rewrite E.
Qed.

Lemma Link_facts a b s :
  (a < length (verts s))%nat -> (b < length (verts s))%nat ->
  exists s',
    Link (vAt a) (vAt b) s = Ret tt s' /\
    length (verts s') = length (verts s) /\
    monotones_ s' = monotones_ s /\
    precision_ s' = precision_ s /\
    map pt_of (verts s') = map pt_of (verts s) /\
    (forall x, index_of s' x = index_of s x) /\
    (forall x, left_of s' x = upd (left_of s) b (vAt a) x) /\
    (forall x, right_of s' x = upd (right_of s) a (vAt b) x).
Proof.
  intros Ha Hb. destruct (Link_fwd a b s Ha Hb) as [s' E]. exists s'.
  pose proof (Link_pts _ _ _ _ _ E) as Hpts.
  pose proof (Link_Ret _ _ _ _ _ E)
    as (a' & b' & [= <-] & [= <-] & _ & _ & Hlen & Hm & Hp & Hl & Hr).
  repeat split; try done.
  intros x. unfold Link in E. apply bind_Ret in E as (u & s1 & E1 & E2).
  apply vert_upd_Ret in E1 as (a' & ra & [= <-] & Ea & ->).
  apply vert_upd_Ret in E2 as (b' & rb & [= <-] & Eb & ->).
  unfold index_of. cbn in *.
  destruct (decide (x = b)) as [->|Hxb].
  - rewrite list_lookup_insert_eq
      by (rewrite length_insert; eapply lookup_lt_Some, Ea || lia).
    destruct (decide (b = a)) as [->|Hba].
    + rewrite list_lookup_insert_eq in Eb by (eapply lookup_lt_Some, Ea).
      injection Eb as <-. now rewrite Ea.
    + rewrite list_lookup_insert_ne in Eb by congruence. now rewrite Eb.
  - rewrite list_lookup_insert_ne by congruence.
    destruct (decide (x = a)) as [->|Hxa].
    + rewrite list_lookup_insert_eq by (eapply lookup_lt_Some, Ea).
      now rewrite Ea.
    + now rewrite list_lookup_insert_ne by congruence.
Qed.

Lemma lookup_pt_of s s' x V :
  map pt_of (verts s') = map pt_of (verts s) ->
  verts s' !! x = Some V ->
  exists V0, verts s !! x = Some V0 /\ pt_of V0 = pt_of V.
Proof.
  intros H E.
  assert (H0 : map pt_of (verts s') !! x = Some (pt_of V))
    by (rewrite list_lookup_fmap, E; done).
  rewrite H, list_lookup_fmap in H0.
  destruct (verts s !! x) as [V0|]; [|done]. cbn in H0.
  exists V0. split; [reflexivity|congruence].
Qed.

Ltac chase Hs :=
  repeat (progress (unfold upd; Hs));
  repeat (case_decide; try lia; try congruence).

(** [SplitVerts(north, south)] on two verts of a ring that satisfies the
    invariant of the links returns, and it adds exactly two verts at the end
    of the arena: [northEast], a copy of [north] which it returns, and
    [southEast], a copy of [south], both marked processed.  It makes
    [south.right = north] and [northEast.right = southEast]; unless [south]
    is the left neighbour of [north], [northEast] takes the place of
    [north] after [north.left], and [southEast] the place of [south] before
    [south.right].  No other link changes, and the invariant holds again. *)
Theorem SplitVerts_rewires n m s :
  links_inv s -> n ∈ monotones_ s -> m ∈ monotones_ s ->
  let k := length (verts s) in
  exists s' N S0,
    SplitVerts (vAt n) (vAt m) s = Ret (vAt k) s' /\
    verts s !! n = Some N /\ verts s !! m = Some S0 /\
    length (verts s') = (k + 2)%nat /\
    length (monotones_ s') = (length (monotones_ s) + 2)%nat /\
    (forall x, x ∈ monotones_ s' <-> x = k \/ x = S k \/ x ∈ monotones_ s) /\
    map pt_of (verts s') = map pt_of (verts s) ++ [pt_of N; pt_of S0] /\
    precision_ s' = precision_ s /\
    index_of s' k < 0 /\ index_of s' (S k) < 0 /\
    right_of s' m = vAt n /\ left_of s' n = vAt m /\
    right_of s' k = vAt (S k) /\ left_of s' (S k) = vAt k /\
    (left_of s n <> vAt m ->
       left_of s' k = left_of s n /\
       right_of s' (S k) = right_of s m /\
       right_of s' (idx_of (left_of s n)) = vAt k /\
       left_of s' (idx_of (right_of s m)) = vAt (S k)) /\
    (forall x, x ∈ monotones_ s -> x <> m -> vAt x <> left_of s n ->
               right_of s' x = right_of s x) /\
    (forall x, x ∈ monotones_ s -> x <> n -> vAt x <> right_of s m ->
               left_of s' x = left_of s x) /\
    links_inv s'.
Proof.
  intros Hinv Hn Hm k.
  pose proof (links_inv_lt _ _ Hinv Hn) as Hnk.
  pose proof (links_inv_lt _ _ Hinv Hm) as Hmk. fold k in Hnk, Hmk.
  destruct (Hinv n Hn) as (nl & nr & HLn & HRn & Pnl & Pnr & HRnl & HLnr).
  destruct (Hinv m Hm) as (ml & mr & HLm & HRm & Pml & Pmr & HRml & HLmr).
  pose proof (links_inv_lt _ _ Hinv Pnl) as Hnlk.
  pose proof (links_inv_lt _ _ Hinv Pmr) as Hmrk. fold k in Hnlk, Hmrk.
  destruct (lookup_lt_is_Some_2 _ _ Hnk) as [N EN].
  destruct (lookup_lt_is_Some_2 _ _ Hmk) as [S0 ES].
  assert (ELN : left N = vAt nl) by (unfold left_of in HLn; now rewrite EN in HLn).
  assert (ERN : right N = vAt nr) by (unfold right_of in HRn; now rewrite EN in HRn).
  (* northEast *)
  destruct (vinsert_facts (vAt n) N s Hn) as (s1 & E1 & Ev1 & Elm1).
  pose proof (vinsert_Ret _ _ _ _ _ E1) as (_ & _ & Ep1 & Em1 & Hl1 & Hr1).
  fold k in E1, Em1, Hl1, Hr1. rewrite ELN in Hl1. rewrite ERN in Hr1.
  assert (Hlen1 : length (verts s1) = S k)
    by (rewrite Ev1, length_app; cbn; lia).
  assert (EN1 : verts s1 !! n = Some N) by (rewrite Ev1, lookup_app_l; done).
  destruct (Link_facts nl k s1) as
    (s2 & E2 & Hlen2 & Hm2 & Hp2 & Hpts2 & Hi2 & Hl2 & Hr2); [lia|lia|].
  destruct (vert_upd_facts k (SetProcessed true) s2)
    as (s3 & r3 & E3 & Er3 & Hlen3 & Hm3 & Hp3 & Hpts3 & Hi3 & Hio3 & Hl3 & Hr3);
    [lia|apply core_SetProcessed|].
  (* southEast *)
  assert (Hm3' : m ∈ monotones_ s3).
  { rewrite Hm3, Hm2. apply Em1. now right. }
  destruct (lookup_lt_is_Some_2 (verts s3) m) as [S1 ES1]; [lia|].
  destruct (vnext_facts m s3 Hm3') as (after & E4 & Hafter).
  destruct (vinsert_facts after S1 s3 Hafter) as (s4 & E5 & Ev5 & Elm5).
  pose proof (vinsert_Ret _ _ _ _ _ E5) as (_ & _ & Ep5 & Em5 & Hl5 & Hr5).
  rewrite Hlen3, Hlen2, Hlen1 in E5, Em5, Hl5, Hr5.
  assert (ELS1 : left S1 = left_of s3 m) by (unfold left_of; now rewrite ES1).
  assert (ERS1 : right S1 = right_of s3 m) by (unfold right_of; now rewrite ES1).
  rewrite ELS1 in Hl5. rewrite ERS1 in Hr5.
  assert (Hlen4 : length (verts s4) = S (S k))
    by (rewrite Ev5, length_app; cbn; lia).
  assert (ES4 : verts s4 !! m = Some S1) by (rewrite Ev5, lookup_app_l; [done|lia]).
  assert (HR3m : right_of s3 m = if decide (m = nl) then vAt k else vAt mr).
  { rewrite Hr3, Hr2. unfold upd. case_decide; [done|].
    rewrite Hr1. unfold upd. case_decide; [lia|done]. }
  set (sr := if decide (m = nl) then k else mr).
  assert (Hsr : right S1 = vAt sr).
  { rewrite ERS1, HR3m. unfold sr. now case_decide. }
  assert (Hsrk : (sr < S (S k))%nat) by (unfold sr; case_decide; lia).
  destruct (Link_facts (S k) sr s4) as
    (s5 & E6 & Hlen5 & Hm5 & Hp5 & Hpts5 & Hi5 & Hl6 & Hr6); [lia|lia|].
  destruct (vert_upd_facts (S k) (SetProcessed true) s5)
    as (s6 & r6 & E7 & Er6 & Hlen6 & Hm6 & Hp6 & Hpts6 & Hi6 & Hio6 & Hl7 & Hr7);
    [lia|apply core_SetProcessed|].
  destruct (Link_facts m n s6) as
    (s7 & E8 & Hlen7 & Hm7 & Hp7 & Hpts7 & Hi7 & Hl8 & Hr8); [lia|lia|].
  destruct (Link_facts k (S k) s7) as
    (s8 & E9 & Hlen8 & Hm8 & Hp8 & Hpts8 & Hi8 & Hl9 & Hr9); [lia|lia|].
  assert (ESplit : SplitVerts (vAt n) (vAt m) s = Ret (vAt k) s8).
  { unfold SplitVerts.
    rewrite (bind_of_Ret _ _ _ N s) by (unfold vert_at; now rewrite EN).
    rewrite (bind_of_Ret _ _ _ S0 s) by (unfold vert_at; now rewrite ES).
    rewrite (bind_of_Ret _ _ _ _ _ E1).
    rewrite (bind_of_Ret _ _ _ N s1) by (unfold vert_at; now rewrite EN1).
    rewrite ELN, (bind_of_Ret _ _ _ _ _ E2), (bind_of_Ret _ _ _ _ _ E3).
    rewrite (bind_of_Ret _ _ _ S1 s3) by (unfold vert_at; now rewrite ES1).
    rewrite (bind_of_Ret _ _ _ _ _ E4), (bind_of_Ret _ _ _ _ _ E5).
    rewrite (bind_of_Ret _ _ _ S1 s4) by (unfold vert_at; now rewrite ES4).
    rewrite Hsr, (bind_of_Ret _ _ _ _ _ E6), (bind_of_Ret _ _ _ _ _ E7).
    rewrite (bind_of_Ret _ _ _ _ _ E8), (bind_of_Ret _ _ _ _ _ E9).
    reflexivity. }
  exists s8, N, S0. split; [exact ESplit|]. split; [exact EN|].
  split; [exact ES|].
  split; [lia|].
  split; [rewrite Hm8, Hm7, Hm6, Hm5, Elm5, Hm3, Hm2, Elm1; lia|].
  split.
  { intros x. rewrite Hm8, Hm7, Hm6, Hm5, Em5, Hm3, Hm2, Em1. tauto. }
  split.
  { rewrite Hpts8, Hpts7, Hpts6, Hpts5, Ev5, map_app, Hpts3, Hpts2, Ev1,
      map_app, <- app_assoc. cbn [map app]. do 3 f_equal.
    destruct (lookup_pt_of s2 s3 m S1 Hpts3 ES1) as (V2 & EV2 & <-).
    destruct (lookup_pt_of s1 s2 m V2 Hpts2 EV2) as (V1 & EV1 & <-).
    rewrite Ev1, lookup_app_l in EV1 by lia. congruence. }
  split; [congruence|].
  split.
  { rewrite Hi8, Hi7, Hio6, Hi5 by lia.
    rewrite (index_of_app s3 s4 S1 k Ev5) by lia. rewrite Hi3.
    unfold SetProcessed. destruct (Z.eqb_spec (index r3) (-2)) as [->|_];
      cbn; lia. }
  split.
  { rewrite Hi8, Hi7, Hi6. unfold SetProcessed.
    destruct (Z.eqb_spec (index r6) (-2)) as [->|_]; cbn; lia. }
  pose proof (keeps_Ret ring_ok _ _ _ _ (keeps_SplitVerts (vAt n) (vAt m))
                ESplit) as [_ Hinv'].
  assert (HR : forall x, right_of s8 x
             = if decide (x = k) then vAt (S k)
               else if decide (x = m) then vAt n
               else if decide (x = S k) then vAt sr
               else if decide (x = nl) then vAt k
               else right_of s x).
  { intros x. rewrite Hr9; unfold upd. rewrite Hr8; unfold upd.
    rewrite Hr7, Hr6; unfold upd. rewrite Hr5; unfold upd.
    rewrite !Hr3, !Hr2; unfold upd. rewrite !Hr1; unfold upd. unfold sr.
    repeat case_decide; try lia; try congruence. }
  assert (HL : forall x, left_of s8 x
             = if decide (x = S k) then vAt k
               else if decide (x = n) then vAt m
               else if decide (x = sr) then vAt (S k)
               else if decide (x = k) then vAt nl
               else left_of s x).
  { intros x. rewrite Hl9; unfold upd. rewrite Hl8; unfold upd.
    rewrite Hl7, Hl6; unfold upd. rewrite Hl5; unfold upd.
    rewrite !Hl3, !Hl2; unfold upd. rewrite !Hl1; unfold upd. unfold sr.
    repeat case_decide; try lia; try congruence. }
  split; [rewrite HR; repeat case_decide; try lia; done|].
  split; [rewrite HL; repeat case_decide; try lia; done|].
  split; [rewrite HR; repeat case_decide; try lia; done|].
  split; [rewrite HL; repeat case_decide; try lia; done|].
  split.
  { intros Hgen. rewrite HLn in Hgen.
    assert (Hnlm : m <> nl) by congruence.
    assert (Esr : sr = mr) by (unfold sr; now case_decide).
    assert (Hmrn : mr <> n).
    { intros ->. rewrite HLmr in HLn. congruence. }
    rewrite HLn, HRm. cbn [idx_of]. rewrite !HR, !HL, Esr.
    repeat split; repeat case_decide; try lia; try congruence. }
  split.
  { intros x Hx Hxm Hxnl. rewrite HLn in Hxnl.
    pose proof (links_inv_lt _ _ Hinv Hx) as Hxk. fold k in Hxk.
    rewrite HR. repeat case_decide; try lia; try congruence. }
  split; [|now apply Hinv'].
  intros x Hx Hxn Hxmr. rewrite HRm in Hxmr.
  pose proof (links_inv_lt _ _ Hinv Hx) as Hxk. fold k in Hxk.
  rewrite HL. unfold sr. repeat case_decide; try lia; try congruence.
Qed.

Lemma SplitVerts_rewires_witness :
  exists s',
    SplitVerts (vAt 0) (vAt 5) holed_ring = Ret (vAt 8) s' /\
    length (monotones_ s') = 10%nat /\
    right_of s' 5 = vAt 0 /\ left_of s' 0 = vAt 5 /\
    right_of s' 8 = vAt 9 /\ left_of s' 9 = vAt 8 /\
    left_of s' 8 = vAt 3 /\ right_of s' 9 = vAt 6 /\
    links_inv s'.
Proof.
  assert (Hinit : Monotones_init (index_polys 0 holed_square)
                    (empty_Monotones (1 # 10000)) = Ret tt holed_ring)
    by (vm_compute; reflexivity).
  pose proof (proj1 (Monotones_init_spec _ _ _ _ Hinit)) as Hinv.
  assert (H0 : 0%nat ∈ monotones_ holed_ring)
    by (apply (bool_decide_unpack _); vm_compute; exact I).
  assert (H5 : 5%nat ∈ monotones_ holed_ring)
    by (apply (bool_decide_unpack _); vm_compute; exact I).
  destruct (SplitVerts_rewires 0 5 holed_ring Hinv H0 H5)
    as (s' & N & S0 & E & _ & _ & _ & Hlen & _ & _ & _ & _ & _ &
        H1 & H2 & H3 & H4 & Hgen & _ & _ & Hinv').
  destruct Hgen as (H6 & H7 & _); [vm_compute; discriminate|].
  exists s'. repeat split; try assumption.
Defined.

(** ** Input without verts *)

(** Without any polygon the result is empty, in every build and for all
    parameters.  A first polygon without verts is outside the defined
    behaviour: the constructor applies [Link] to iterators that were never
    set. *)
Theorem empty_input fuel cfg precision :
  TriangulateIdx (S fuel) cfg [] precision = Ret [] tt /\
  Triangulate_polygons (S fuel) cfg [] precision = Ret [] tt /\
  (forall rest, TriangulateIdx fuel cfg ([] :: rest) precision = Undef) /\
  (forall rest,
      Triangulate_polygons fuel cfg ([] :: rest) precision = Undef).
Proof.
  assert (H : TriangulateIdx (S fuel) cfg [] precision = Ret [] tt).
  { destruct cfg as [d [v i o e]]. unfold TriangulateIdx, TriangulateIdx_try.
    unfold lift, bind, Monotones_ctor, Monotones_init, bind. cbn.
    destruct (Qltb precision 0), d, v, i, o; reflexivity. }
  split; [exact H|]. split; [exact H|]. split; reflexivity.
Qed.

(** ** [params.verbose] and [params.suppressErrors] do not change the result

    Under [params.verbose], [Check] walks the loops and marks every vert it
    passes as processed, which a run without it does not do.  The marks are
    wiped before anything reads them: by the [SetProcessed(false)] of all
    verts at the head of [SweepBack], and by the assignment of [index] at
    the head of [Triangulate]. *)

(** The parameters without the two that only matter for what is printed. *)
Definition quiet (cfg : Config) : Config :=
  mkConfig (MANIFOLD_DEBUG cfg)
           (mkParams false (intermediateChecks (params cfg))
                     (processOverlaps (params cfg)) false).

Lemma SweepForward_loop_quiet fuel cfg : forall sv s,
  SweepForward_loop fuel cfg sv s = SweepForward_loop fuel (quiet cfg) sv s.
Proof.
  destruct cfg as [d [v i o e]]. unfold quiet. cbn [MANIFOLD_DEBUG params
    intermediateChecks processOverlaps].
  induction fuel as [|fuel IH]; intros sv s; [reflexivity|].
  cbn [SweepForward_loop]. destruct (bool_decide (insertAt sv = vEnd));
    [reflexivity|].
  change (SweepForward_step (mkConfig d (mkParams v i o e)) sv)
    with (SweepForward_step (mkConfig d (mkParams false i o false)) sv).
  apply bind_ext. intros [b|sv'] s'; [reflexivity|apply IH].
Qed.

Lemma SweepForward_quiet fuel cfg s :
  SweepForward fuel cfg s = SweepForward fuel (quiet cfg) s.
Proof.
  unfold SweepForward. apply bind_ext. intros sv s'.
  apply SweepForward_loop_quiet.
Qed.

Lemma SweepBack_loop_quiet fuel cfg : forall v s,
  SweepBack_loop fuel cfg v s = SweepBack_loop fuel (quiet cfg) v s.
Proof.
  destruct cfg as [d [vb i o e]]. unfold quiet. cbn [MANIFOLD_DEBUG params
    intermediateChecks processOverlaps].
  induction fuel as [|fuel IH]; intros v s; [reflexivity|].
  cbn [SweepBack_loop]. apply bind_ext. intros b s1.
  destruct (bool_decide (v = b)); [reflexivity|].
  apply bind_ext. intros v' s2.
  change (SweepBack_step (mkConfig d (mkParams vb i o e)) v')
    with (SweepBack_step (mkConfig d (mkParams false i o false)) v').
  apply bind_ext. intros [b'|v''] s'; [reflexivity|apply IH].
Qed.

Lemma SweepBack_quiet fuel cfg s :
  SweepBack fuel cfg s = SweepBack fuel (quiet cfg) s.
Proof.
  unfold SweepBack. apply bind_ext. intros ring s1.
  apply bind_ext. intros u s2. apply SweepBack_loop_quiet.
Qed.

Lemma post_checks_quiet cfg polys :
  post_checks cfg polys = post_checks (quiet cfg) polys.
Proof. destruct cfg as [d [v i o e]]. reflexivity. Qed.

(** *** Marks *)

(** Two verts that differ at most in the flag held by [index], neither or
    both carrying the skip mark. *)
Definition same_but_flag (V V' : VertAdj) : Prop :=
  set_index 0 V' = set_index 0 V /\ (index V' = -2 <-> index V = -2).

(** [marks s s']: [s'] is [s] up to the processed flags of its verts. *)
Definition marks (s s' : Monotones) : Prop :=
  monotones_ s' = monotones_ s /\ edges s' = edges s /\
  activeEdges_ s' = activeEdges_ s /\ inactiveEdges_ s' = inactiveEdges_ s /\
  precision_ s' = precision_ s /\
  Forall2 same_but_flag (verts s) (verts s').

Lemma same_but_flag_refl V : same_but_flag V V.
Proof. split; done. Qed.

Lemma same_but_flag_trans V1 V2 V3 :
  same_but_flag V1 V2 -> same_but_flag V2 V3 -> same_but_flag V1 V3.
Proof. intros [H1 H2] [H3 H4]. split; [congruence|tauto]. Qed.

Lemma SetProcessed_same_but_flag b V : same_but_flag V (SetProcessed b V).
Proof.
  unfold SetProcessed. destruct (Z.eqb_spec (index V) (-2)) as [E|E];
    [apply same_but_flag_refl|].
  split; [reflexivity|]. cbn. destruct b; split; (lia || done).
Qed.

Lemma same_but_flag_eq V V' :
  same_but_flag V V' -> index V' = index V -> V' = V.
Proof.
  intros [H _] E. destruct V, V'. unfold set_index in H. cbn in *.
  injection H as -> -> -> -> -> ->. now subst.
Qed.

Lemma SetProcessed_false_respects V V' :
  same_but_flag V V' -> SetProcessed false V' = SetProcessed false V.
Proof.
  intros H. pose proof H as [H1 H2]. unfold SetProcessed.
  destruct (Z.eqb_spec (index V') (-2)) as [E'|E'],
           (Z.eqb_spec (index V) (-2)) as [E|E]; try tauto.
  apply same_but_flag_eq; [done|congruence].
Qed.

Lemma set_index_respects i V V' :
  same_but_flag V V' -> set_index i V' = set_index i V.
Proof.
  intros [H _]. destruct V, V'. unfold set_index in *. cbn in *.
  injection H as -> -> -> -> -> ->. reflexivity.
Qed.

#[global] Instance marks_preorder : PreOrder marks.
Proof.
  split.
  - intros s. repeat split; try done.
    apply Forall2_same_length_lookup. split; [done|].
    intros i x y Hx Hy. replace y with x by congruence.
    apply same_but_flag_refl.
  - intros a b c (H1 & H2 & H3 & H4 & H5 & H6) (K1 & K2 & K3 & K4 & K5 & K6).
    repeat split; try congruence.
    eapply Forall2_trans; [|exact H6|exact K6].
    intros x y z. apply same_but_flag_trans.
Qed.

Lemma marks_vert_at v : keeps marks (vert_at v).
Proof.
  intros s. unfold holds_after, vert_at.
  destruct v; try done. destruct (verts s !! n); try done; reflexivity.
Qed.

Lemma marks_mark v b : keeps marks (vert_upd v (SetProcessed b)).
Proof.
  intros s. unfold holds_after, vert_upd.
  destruct v as [n| |]; try done.
  destruct (verts s !! n) as [r|] eqn:E; try done.
  repeat split; try done. cbn.
  apply Forall2_same_length_lookup. split; [now rewrite length_insert|].
  intros i x y Hx Hy. destruct (decide (i = n)) as [->|Hne].
  - rewrite list_lookup_insert_eq in Hy by (eapply lookup_lt_Some, E).
    replace x with r by congruence. injection Hy as <-.
    apply SetProcessed_same_but_flag.
  - rewrite list_lookup_insert_ne in Hy by done.
    replace y with x by congruence. apply same_but_flag_refl.
Qed.

Lemma marks_find_unprocessed l : keeps marks (find_unprocessed l).
Proof.
  induction l; cbn [find_unprocessed];
    repeat (first [apply marks_vert_at | assumption | keeps_step]).
Qed.

Lemma marks_Check_walk fuel start :
  forall v, keeps marks (Check_walk fuel start v).
Proof.
  induction fuel; intros; cbn [Check_walk];
    repeat (first [apply marks_vert_at | apply marks_mark | apply IHfuel
                  | keeps_step]).
Qed.

Lemma marks_Check_monotones fuel :
  forall start, keeps marks (Check_monotones fuel start).
Proof.
  induction fuel; intros; cbn [Check_monotones];
    repeat (first [apply marks_vert_at | apply marks_mark | apply IHfuel
                  | apply marks_Check_walk | apply marks_find_unprocessed
                  | keeps_step]).
Qed.

(** What [Check] does beyond the run without [verbose] is to set marks. *)
Lemma Check_quiet fuel cfg s :
  match Check fuel cfg s with
  | Ret u s_v =>
      exists s_n, Check fuel (quiet cfg) s = Ret u s_n /\ marks s_n s_v
  | Exc e _ => exists s_n, Check fuel (quiet cfg) s = Exc e s_n
  | _ => True
  end.
Proof.
  destruct cfg as [d [v i o e]]. unfold Check, quiet.
  cbn [MANIFOLD_DEBUG params intermediateChecks processOverlaps verbose].
  destruct d; [|exists s; split; reflexivity].
  destruct i; cbn [negb]; [|exists s; split; reflexivity].
  set (walk := (start <- vbegin ;; Check_monotones fuel start)).
  assert (Hk : keeps marks walk).
  { unfold walk. apply keeps_bind; tc; [apply keeps_gets; tc|].
    intros start. apply marks_Check_monotones. }
  assert (Ht : no_throw walk).
  { unfold walk. apply throws_bind; [apply throws_gets|].
    intros start. apply th_Check_monotones. }
  destruct ((ring <- gets monotones_ ;; Check_verts ring ;;
             (if v then walk else ret tt)) s) as [u s_v|e' s_v| |] eqn:E;
    try done.
  - apply bind_Ret in E as (ring & s0 & E0 & E). injection E0 as <- <-.
    apply bind_Ret in E as (u1 & s1 & E1 & E).
    exists s1. split.
    + rewrite (bind_of_Ret _ _ _ (monotones_ s) s) by reflexivity.
      rewrite (bind_of_Ret _ _ _ _ _ E1). destruct u. reflexivity.
    + destruct v; [|injection E as _ <-; reflexivity].
      exact (keeps_Ret marks _ _ _ _ Hk E).
  - apply bind_Exc in E as [E|(ring & s0 & E0 & E)]; [discriminate|].
    injection E0 as <- <-.
    apply bind_Exc in E as [E|(u1 & s1 & E1 & E)].
    + exists s_v.
      rewrite (bind_of_Ret _ _ _ (monotones_ s) s) by reflexivity.
      unfold bind. now rewrite E.
    + destruct v; [destruct (Ht _ _ _ E)|discriminate].
Qed.

(** *** The marks are wiped *)

(** [erased_on D s s']: [s'] is [s] up to the flags of verts outside [D]. *)
Definition erased_on (D : list nat) (s s' : Monotones) : Prop :=
  monotones_ s' = monotones_ s /\ edges s' = edges s /\
  activeEdges_ s' = activeEdges_ s /\ inactiveEdges_ s' = inactiveEdges_ s /\
  precision_ s' = precision_ s /\
  length (verts s') = length (verts s) /\
  forall i V V', verts s !! i = Some V -> verts s' !! i = Some V' ->
                 same_but_flag V V' /\ (i ∈ D -> V' = V).

Lemma marks_erased_on s s' : marks s s' -> erased_on [] s s'.
Proof.
  intros (H1 & H2 & H3 & H4 & H5 & H6).
  apply Forall2_same_length_lookup in H6 as [H6 H7].
  do 5 (split; [done|]). split; [done|].
  intros i V V' E E'. split; [eapply H7; eassumption|].
  intros H. inversion H.
Qed.

Lemma erased_on_all D s s' :
  erased_on D s s' ->
  (forall i, (i < length (verts s))%nat -> i ∈ D) ->
  s' = s.
Proof.
  intros (H1 & H2 & H3 & H4 & H5 & H6 & H7) Hall.
  assert (Hv : verts s' = verts s).
  { apply list_eq. intros i.
    destruct (verts s !! i) as [V|] eqn:E.
    - assert (Hi : (i < length (verts s'))%nat)
        by (rewrite H6; eapply lookup_lt_Some, E).
      destruct (lookup_lt_is_Some_2 _ _ Hi) as [V' E']. rewrite E'.
      f_equal. apply (H7 i V V' E E'). apply Hall.
      eapply lookup_lt_Some, E.
    - apply lookup_ge_None. rewrite H6. now apply lookup_ge_None. }
  destruct s, s'. cbn in *. congruence.
Qed.

(** An update that does not see the flag, applied to the same vert of
    both. *)
Lemma erase_step (f : VertAdj -> VertAdj) a D s s' :
  (forall V V', same_but_flag V V' -> f V' = f V) ->
  erased_on D s s' ->
  match vert_upd (vAt a) f s, vert_upd (vAt a) f s' with
  | Ret _ s1, Ret _ s1' =>
      erased_on (a :: D) s1 s1' /\ length (verts s1) = length (verts s)
  | Undef, Undef => True
  | _, _ => False
  end.
Proof.
  intros Hf (H1 & H2 & H3 & H4 & H5 & H6 & H7). unfold vert_upd.
  destruct (verts s !! a) as [V|] eqn:E.
  - assert (Hi : (a < length (verts s'))%nat)
      by (rewrite H6; eapply lookup_lt_Some, E).
    destruct (lookup_lt_is_Some_2 _ _ Hi) as [V' E']. rewrite E'.
    split; [|apply length_insert].
    do 5 (split; [done|]). cbn. split; [now rewrite !length_insert|].
    intros i W W' EW EW'.
    destruct (decide (i = a)) as [->|Hne].
    + rewrite list_lookup_insert_eq in EW by (eapply lookup_lt_Some, E).
      rewrite list_lookup_insert_eq in EW' by done.
      injection EW as <-. injection EW' as <-.
      assert (Heq : f V' = f V) by (apply Hf, (H7 a V V' E E')).
      rewrite Heq. split; [apply same_but_flag_refl|done].
    + rewrite list_lookup_insert_ne in EW, EW' by done.
      split; [eapply H7; eassumption|].
      intros Hi'. apply (H7 i W W' EW EW').
      apply elem_of_cons in Hi' as [?|?]; done.
  - assert (E' : verts s' !! a = None).
    { apply lookup_ge_None. rewrite H6. now apply lookup_ge_None. }
    now rewrite E'.
Qed.

Lemma SetProcessed_all_erases l : forall D s s',
  erased_on D s s' ->
  (forall i, (i < length (verts s))%nat -> i ∈ D \/ i ∈ l) ->
  SetProcessed_all false l s' = SetProcessed_all false l s.
Proof.
  induction l as [|a l IH]; intros D s s' He Hall.
  - cbn. f_equal. apply (erased_on_all D); [done|].
    intros i Hi. destruct (Hall i Hi) as [H|H]; [done|inversion H].
  - cbn [SetProcessed_all]. unfold bind.
    pose proof (erase_step (SetProcessed false) a D s s'
                  SetProcessed_false_respects He) as Hs.
    destruct (vert_upd (vAt a) (SetProcessed false) s) as [u s1|e s1| |],
             (vert_upd (vAt a) (SetProcessed false) s') as [u' s1'|e' s1'| |];
      try done.
    destruct Hs as [Hs Hlen]. apply (IH (a :: D)); [done|].
    intros i Hi. rewrite Hlen in Hi. rewrite elem_of_cons.
    destruct (Hall i Hi) as [H|H]; [tauto|].
    apply elem_of_cons in H. tauto.
Qed.

Lemma assign_index_erases l : forall k D s s',
  erased_on D s s' ->
  (forall i, (i < length (verts s))%nat -> i ∈ D \/ i ∈ l) ->
  assign_index k l s' = assign_index k l s.
Proof.
  induction l as [|a l IH]; intros k D s s' He Hall.
  - cbn. f_equal. apply (erased_on_all D); [done|].
    intros i Hi. destruct (Hall i Hi) as [H|H]; [done|inversion H].
  - cbn [assign_index]. unfold bind.
    pose proof (erase_step (set_index k) a D s s'
                  (set_index_respects k) He) as Hs.
    destruct (vert_upd (vAt a) (set_index k) s) as [u s1|e s1| |],
             (vert_upd (vAt a) (set_index k) s') as [u' s1'|e' s1'| |];
      try done.
    destruct Hs as [Hs Hlen]. apply (IH (k + 1) (a :: D)); [done|].
    intros i Hi. rewrite Hlen in Hi. rewrite elem_of_cons.
    destruct (Hall i Hi) as [H|H]; [tauto|].
    apply elem_of_cons in H. tauto.
Qed.

(** *** Every vert of the arena is in the list *)

Definition all_in (s : Monotones) : Prop :=
  forall i, (i < length (verts s))%nat -> i ∈ monotones_ s.

Lemma all_in_vert_upd v f : keeps (inv_rel all_in) (vert_upd v f).
Proof.
  intros s. unfold holds_after, vert_upd.
  destruct v; try done. destruct (verts s !! n) eqn:E; try done.
  intros H i Hi. cbn in *. rewrite length_insert in Hi. now apply H.
Qed.

Lemma all_in_vinsert p r : keeps (inv_rel all_in) (vinsert p r).
Proof.
  intros s. unfold holds_after.
  destruct (vinsert p r s) as [v s'|e s'| |] eqn:E; try done.
  - apply vinsert_Ret in E as (_ & Ev & _ & Em & _). intros H i Hi.
    rewrite Ev, length_app in Hi. cbn in Hi. apply Em.
    destruct (decide (i = length (verts s))); [now left|right].
    apply H. lia.
  - now apply (throws_vinsert (fun _ => False)) in E.
Qed.

Lemma all_in_vert_at v : keeps (inv_rel all_in) (vert_at v).
Proof.
  intros s. unfold holds_after, vert_at.
  destruct v; try done. destruct (verts s !! n); done.
Qed.

Lemma all_in_vnext v : keeps (inv_rel all_in) (vnext v).
Proof.
  intros s. unfold holds_after, vnext, bind, gets, of_option, ret, undef.
  destruct v; try done. destruct (list_next (monotones_ s) n); done.
Qed.

Lemma all_in_Link a b : keeps (inv_rel all_in) (Link a b).
Proof. unfold Link. apply keeps_bind; tc; intros; apply all_in_vert_upd. Qed.

Lemma all_in_vsplice p v : keeps (inv_rel all_in) (vsplice p v).
Proof.
  assert (H : forall s q n,
            match q with Some m => m ∈ monotones_ s | None => True end ->
            q <> Some n ->
            all_in s -> n ∈ monotones_ s ->
            all_in (with_monotones
                      (fun l => insert_before q n (list_remove n l)) s)).
  { intros s q n Hq Hqn Hs Hn i Hi. cbn in *.
    apply elem_of_insert_before.
    - destruct q as [m|]; [|done]. apply elem_of_list_remove.
      split; [done|congruence].
    - destruct (decide (i = n)); [now left|right].
      apply elem_of_list_remove. split; [now apply Hs|done]. }
  intros s. unfold holds_after, vsplice, vposition, bind, gets, ret, undef,
    modify.
  destruct p as [m| |]; try done.
  - destruct (list_mem m (monotones_ s)) eqn:Em; try done.
    destruct v as [n| |]; try done.
    destruct (list_mem n (monotones_ s)) eqn:En; try done. cbn [negb].
    destruct (decide (Some m = Some n)); [done|].
    intros Hs. apply H; try done; now apply list_mem_true.
  - destruct v as [n| |]; try done.
    destruct (list_mem n (monotones_ s)) eqn:En; try done. cbn [negb].
    destruct (decide (None = Some n)); [done|].
    intros Hs. apply H; try done. now apply list_mem_true.
Qed.

Lemma all_in_SplitVerts north south :
  keeps (inv_rel all_in) (SplitVerts north south).
Proof.
  unfold SplitVerts.
  repeat (first [ apply all_in_vert_upd | apply all_in_Link
                | apply all_in_vinsert | apply all_in_vert_at
                | apply all_in_vnext | apply keeps_ret; tc
                | apply keeps_bind; tc; [|intros ?] ]).
Qed.

#[global] Instance all_in_RingRel : RingRel (inv_rel all_in).
Proof.
  split.
  - apply _.
  - intros v f _. apply all_in_vert_upd.
  - intros e f s. unfold holds_after, edge_upd.
    destruct e; try done. destruct (edges s !! n) eqn:E; try done.
    intros H. exact H.
  - intros f. apply keeps_modify; tc. intros s H. exact H.
  - intros f. apply keeps_modify; tc. intros s H. exact H.
  - intros f. apply keeps_modify; tc. intros s H. exact H.
  - apply all_in_vsplice.
  - apply all_in_SplitVerts.
Qed.

Lemma all_in_add_poly_verts poly :
  forall f a b c d, keeps (inv_rel all_in) (add_poly_verts poly f a b c d).
Proof.
  induction poly; intros; cbn [add_poly_verts];
    repeat (first [ apply all_in_vinsert | apply all_in_Link | apply IHpoly
                  | keeps_step ]).
Qed.

Lemma all_in_add_polys polys :
  forall a b c d, keeps (inv_rel all_in) (add_polys polys a b c d).
Proof.
  induction polys; intros; cbn [add_polys];
    repeat (first [ apply all_in_add_poly_verts | apply all_in_Link
                  | apply IHpolys | keeps_step ]).
Qed.

Lemma all_in_Monotones_init polys : keeps (inv_rel all_in) (Monotones_init polys).
Proof.
  unfold Monotones_init.
  repeat (first [ apply all_in_add_polys | keeps_step
                | apply keeps_modify; tc; intros s H; exact H ]).
Qed.

Lemma all_in_empty p : all_in (empty_Monotones p).
Proof. intros i Hi. cbn in Hi. lia. Qed.

Lemma marks_covered s s' :
  marks s s' -> all_in s ->
  forall i, (i < length (verts s))%nat -> i ∈ [] \/ i ∈ monotones_ s.
Proof. intros _ H i Hi. right. now apply H. Qed.

(** [SweepBack] starts by clearing the marks of all verts of the list. *)
Lemma SweepBack_erases fuel cfg s s' :
  marks s s' -> all_in s -> SweepBack fuel cfg s' = SweepBack fuel cfg s.
Proof.
  intros Hm Ha. unfold SweepBack.
  rewrite (bind_of_Ret _ _ _ (monotones_ s') s') by reflexivity.
  rewrite (bind_of_Ret _ _ _ (monotones_ s) s) by reflexivity.
  rewrite (proj1 Hm). unfold bind.
  now rewrite (SetProcessed_all_erases _ [] s s' (marks_erased_on _ _ Hm)
                 (marks_covered _ _ Hm Ha)).
Qed.

(** [Triangulate] starts by assigning [index] in all verts of the list. *)
Lemma Triangulate_erases fuel s s' tr :
  marks s s' -> all_in s ->
  Triangulate fuel (mkTState s' tr) = Triangulate fuel (mkTState s tr).
Proof.
  intros Hm Ha. unfold Triangulate.
  rewrite (bind_of_Ret _ _ _ (monotones_ s') (mkTState s' tr)) by reflexivity.
  rewrite (bind_of_Ret _ _ _ (monotones_ s) (mkTState s tr)) by reflexivity.
  rewrite (proj1 Hm). unfold bind at 1 3. unfold lift at 1 3.
  cbn [mono triangles].
  now rewrite (assign_index_erases _ 1 [] s s' (marks_erased_on _ _ Hm)
                 (marks_covered _ _ Hm Ha)).
Qed.

Lemma Triangulate_erases_bind {A} fuel s s' tr (k : list Z -> TM A) :
  marks s s' -> all_in s ->
  bind (Triangulate fuel) k (mkTState s' tr)
  = bind (Triangulate fuel) k (mkTState s tr).
Proof.
  intros Hm Ha. unfold bind. now rewrite (Triangulate_erases fuel s s' tr Hm Ha).
Qed.

(** The constructor with and without [verbose]: the same, up to marks. *)
Lemma Monotones_ctor_quiet fuel cfg polys precision :
  match Monotones_ctor fuel cfg polys (empty_Monotones precision) with
  | Ret u s_v =>
      exists s_n,
        Monotones_ctor fuel (quiet cfg) polys (empty_Monotones precision)
        = Ret u s_n /\ marks s_n s_v /\ all_in s_n
  | Exc e _ =>
      exists s_n,
        Monotones_ctor fuel (quiet cfg) polys (empty_Monotones precision)
        = Exc e s_n
  | _ => True
  end.
Proof.
  set (s := empty_Monotones precision).
  assert (Hall : forall (m : MM unit) u s', 
             m = Monotones_ctor fuel (quiet cfg) polys ->
             m s = Ret u s' -> all_in s').
  { intros m u s' -> E.
    assert (K : keeps (inv_rel all_in)
                  (Monotones_ctor fuel (quiet cfg) polys)).
    { rewrite Monotones_ctor_eq. apply keeps_bind; tc.
      - apply all_in_Monotones_init.
      - intros _. apply (rr_Monotones_sweeps (inv_rel all_in)). }
    exact (keeps_Ret _ _ _ _ _ K E (all_in_empty precision)). }
  destruct (Monotones_ctor fuel cfg polys s) as [u s_v|e s_v| |] eqn:E;
    try done.
  - unfold Monotones_ctor in E.
    apply bind_Ret in E as (u0 & s0 & E0 & E).
    apply bind_Ret in E as (fail & s1 & E1 & E).
    rewrite SweepForward_quiet in E1.
    assert (Eq : Monotones_ctor fuel (quiet cfg) polys s
                 = (if fail then ret tt
                    else Check fuel (quiet cfg) ;;
                         fail <- SweepBack fuel (quiet cfg) ;;
                         if fail then ret tt else Check fuel (quiet cfg)) s1).
    { unfold Monotones_ctor. rewrite (bind_of_Ret _ _ _ _ _ E0).
      now rewrite (bind_of_Ret _ _ _ _ _ E1). }
    destruct fail.
    + injection E as <- <-. exists s1.
      split; [exact Eq|]. split; [reflexivity|].
      eapply Hall; [reflexivity|exact Eq].
    + apply bind_Ret in E as (u2 & s2v & E2 & E).
      pose proof (Check_quiet fuel cfg s1) as H2. rewrite E2 in H2.
      destruct H2 as (s2n & E2n & Hm2).
      assert (Ha2 : all_in s2n).
      { assert (K : keeps (inv_rel all_in)
                      (Monotones_init polys ;; SweepForward fuel (quiet cfg) ;;
                       Check fuel (quiet cfg))).
        { apply keeps_bind; tc; [apply all_in_Monotones_init|]. intros _.
          apply keeps_bind; tc;
            [apply (rr_SweepForward (inv_rel all_in))|]. intros _.
          apply (rr_Check (inv_rel all_in)). }
        refine (keeps_Ret _ _ s u2 s2n K _ (all_in_empty precision)).
        rewrite (bind_of_Ret _ _ _ _ _ E0), (bind_of_Ret _ _ _ _ _ E1).
        exact E2n. }
      apply bind_Ret in E as (fail' & s3 & E3 & E).
      rewrite (SweepBack_erases _ _ _ _ Hm2 Ha2), SweepBack_quiet in E3.
      rewrite (bind_of_Ret _ _ _ _ _ E2n), (bind_of_Ret _ _ _ _ _ E3) in Eq.
      destruct fail'.
      * injection E as <- <-. exists s3. split; [exact Eq|].
        split; [reflexivity|]. eapply Hall; [reflexivity|exact Eq].
      * pose proof (Check_quiet fuel cfg s3) as H4. rewrite E in H4.
        destruct H4 as (s4n & E4n & Hm4). exists s4n.
        rewrite E4n in Eq. split; [exact Eq|]. split; [exact Hm4|].
        eapply Hall; [reflexivity|exact Eq].
  - unfold Monotones_ctor in E.
    apply bind_Exc in E as [E|(u0 & s0 & E0 & E)].
    { now apply (throws_Monotones_init (fun _ => False)) in E. }
    unfold Monotones_ctor. rewrite (bind_of_Ret _ _ _ _ _ E0).
    apply bind_Exc in E as [E|(fail & s1 & E1 & E)].
    { rewrite SweepForward_quiet in E. exists s_v. unfold bind.
      now rewrite E. }
    rewrite SweepForward_quiet in E1. rewrite (bind_of_Ret _ _ _ _ _ E1).
    destruct fail; [discriminate|].
    apply bind_Exc in E as [E|(u2 & s2v & E2 & E)].
    { pose proof (Check_quiet fuel cfg s1) as H2. rewrite E in H2.
      destruct H2 as (s2n & E2n). exists s2n. unfold bind.
      now rewrite E2n. }
    pose proof (Check_quiet fuel cfg s1) as H2. rewrite E2 in H2.
    destruct H2 as (s2n & E2n & Hm2).
    assert (Ha2 : all_in s2n).
    { assert (K : keeps (inv_rel all_in)
                    (Monotones_init polys ;; SweepForward fuel (quiet cfg) ;;
                     Check fuel (quiet cfg))).
      { apply keeps_bind; tc; [apply all_in_Monotones_init|]. intros _.
        apply keeps_bind; tc;
          [apply (rr_SweepForward (inv_rel all_in))|]. intros _.
        apply (rr_Check (inv_rel all_in)). }
      refine (keeps_Ret _ _ s u2 s2n K _ (all_in_empty precision)).
      rewrite (bind_of_Ret _ _ _ _ _ E0), (bind_of_Ret _ _ _ _ _ E1).
      exact E2n. }
    rewrite (bind_of_Ret _ _ _ _ _ E2n).
    apply bind_Exc in E as [E|(fail' & s3 & E3 & E)].
    { rewrite (SweepBack_erases _ _ _ _ Hm2 Ha2), SweepBack_quiet in E.
      exists s_v. unfold bind. now rewrite E. }
    rewrite (SweepBack_erases _ _ _ _ Hm2 Ha2), SweepBack_quiet in E3.
    rewrite (bind_of_Ret _ _ _ _ _ E3).
    destruct fail'; [discriminate|].
    pose proof (Check_quiet fuel cfg s3) as H4. rewrite E in H4.
    exact H4.
Qed.

Lemma TriangulateIdx_try_quiet fuel cfg polys precision :
  let st0 := mkTState (empty_Monotones precision) [] in
  match TriangulateIdx_try fuel cfg polys st0 with
  | Ret u st =>
      exists st', TriangulateIdx_try fuel (quiet cfg) polys st0 = Ret u st' /\
                  triangles st' = triangles st
  | Exc e st =>
      exists st', TriangulateIdx_try fuel (quiet cfg) polys st0 = Exc e st' /\
                  triangles st' = triangles st
  | _ => True
  end.
Proof.
  intros st0.
  change (TriangulateIdx_try fuel cfg polys)
    with (lift (Monotones_ctor fuel cfg polys) ;; Triangulate fuel ;;
          post_checks cfg polys).
  change (TriangulateIdx_try fuel (quiet cfg) polys)
    with (lift (Monotones_ctor fuel (quiet cfg) polys) ;; Triangulate fuel ;;
          post_checks (quiet cfg) polys).
  rewrite <- post_checks_quiet.
  set (R := Triangulate fuel ;; post_checks cfg polys).
  pose proof (Monotones_ctor_quiet fuel cfg polys precision) as H.
  assert (Hl : forall c,
             (lift (Monotones_ctor fuel c polys) ;; R) st0
             = match Monotones_ctor fuel c polys (empty_Monotones precision)
               with
               | Ret _ s => R (mkTState s [])
               | Exc e s => Exc e (mkTState s [])
               | Undef => Undef
               | Diverge => Diverge
               end).
  { intros c. unfold bind, lift, st0. cbn [mono triangles].
    now destruct (Monotones_ctor fuel c polys (empty_Monotones precision)). }
  rewrite !Hl.
  destruct (Monotones_ctor fuel cfg polys (empty_Monotones precision))
    as [u s_v|e s_v| |]; try done.
  - destruct H as (s_n & -> & Hm & Ha).
    assert (ER : R (mkTState s_v []) = R (mkTState s_n [])).
    { unfold R, bind. now rewrite (Triangulate_erases fuel s_n s_v [] Hm Ha). }
    rewrite ER.
    destruct (R (mkTState s_n [])) as [u' st|e st| |]; try done;
      exists st; done.
  - destruct H as (s_n & ->). eexists. split; reflexivity.
Qed.

(** The outcome is one that a caller sees: a result or an exception. *)
Definition finished {S A} (o : outcome S A) : Prop :=
  match o with Ret _ _ | Exc _ _ => True | _ => False end.

(** [params.verbose] and [params.suppressErrors] have no influence on what
    [TriangulateIdx] returns or throws: a run with them gives what the run
    without them gives, and two runs that differ in nothing else agree. *)
Theorem verbose_irrelevant fuel cfg polys precision :
  (finished (TriangulateIdx fuel cfg polys precision) ->
   TriangulateIdx fuel (quiet cfg) polys precision
   = TriangulateIdx fuel cfg polys precision) /\
  (forall cfg',
      MANIFOLD_DEBUG cfg' = MANIFOLD_DEBUG cfg ->
      intermediateChecks (params cfg') = intermediateChecks (params cfg) ->
      processOverlaps (params cfg') = processOverlaps (params cfg) ->
      finished (TriangulateIdx fuel cfg polys precision) ->
      finished (TriangulateIdx fuel cfg' polys precision) ->
      TriangulateIdx fuel cfg' polys precision
      = TriangulateIdx fuel cfg polys precision).
Proof.
  assert (H : forall cfg,
             finished (TriangulateIdx fuel cfg polys precision) ->
             TriangulateIdx fuel (quiet cfg) polys precision
             = TriangulateIdx fuel cfg polys precision).
  { clear cfg. intros cfg Hf. unfold TriangulateIdx in *.
    pose proof (TriangulateIdx_try_quiet fuel cfg polys precision) as H.
    cbn zeta in H.
    change (MANIFOLD_DEBUG (quiet cfg)) with (MANIFOLD_DEBUG cfg).
    destruct (TriangulateIdx_try fuel cfg polys
                (mkTState (empty_Monotones precision) []))
      as [u st|e st| |]; try done.
    - destruct H as (st' & -> & ->). reflexivity.
    - destruct H as (st' & -> & ->). reflexivity. }
  split; [apply H|].
  intros cfg' Hd Hi Ho Hf Hf'.
  rewrite <- (H cfg Hf), <- (H cfg' Hf'). unfold quiet.
  now rewrite Hd, Hi, Ho.
Qed.

Definition verbose_checked : Config :=
  mkConfig true (mkParams true true false true).

Lemma verbose_irrelevant_witness :
  TriangulateIdx 100 verbose_checked (index_polys 0 holed_square) (-1)
  = Ret [(4, 0, 1); (7, 4, 1); (6, 7, 1); (2, 6, 1);
         (5, 0, 4); (2, 5, 6); (3, 5, 2); (3, 0, 5)] tt /\
  TriangulateIdx 100 (quiet verbose_checked) (index_polys 0 holed_square) (-1)
  = TriangulateIdx 100 verbose_checked (index_polys 0 holed_square) (-1).
Proof.
  assert (E : TriangulateIdx 100 verbose_checked
                (index_polys 0 holed_square) (-1)
              = Ret [(4, 0, 1); (7, 4, 1); (6, 7, 1); (2, 6, 1);
                     (5, 0, 4); (2, 5, 6); (3, 5, 2); (3, 0, 5)] tt)
    by (vm_compute; reflexivity).
  split; [exact E|].
  apply (proj1 (verbose_irrelevant 100 verbose_checked
                  (index_polys 0 holed_square) (-1))).
  rewrite E. exact I.
Defined.

(** ** Fewer checks, same result

    The assertions of a build with [MANIFOLD_DEBUG] only ever stop a run:
    a run that gets through them returns what a run with fewer of them
    returns, up to a build without [MANIFOLD_DEBUG], where the parameters
    have no effect at all. *)

(** The overlap checks of the sweeps throw. *)
Definition throwing (cfg : Config) : bool :=
  MANIFOLD_DEBUG cfg && negb (processOverlaps (params cfg)).

(** [Check], [CheckTopology] and [CheckGeometry] are run. *)
Definition checking (cfg : Config) : bool :=
  MANIFOLD_DEBUG cfg && intermediateChecks (params cfg).

(** [Check] walks the loops. *)
Definition walking (cfg : Config) : bool :=
  checking cfg && verbose (params cfg).

(** [fewer_checks cfg cfg']: whatever [cfg'] checks, [cfg] checks. *)
Definition fewer_checks (cfg cfg' : Config) : Prop :=
  (MANIFOLD_DEBUG cfg' = true -> MANIFOLD_DEBUG cfg = true) /\
  (throwing cfg' = true -> throwing cfg = true) /\
  (checking cfg' = true -> checking cfg = true) /\
  (walking cfg' = true -> walking cfg = true).

(** [osim ex m m']: what [m] returns, [m'] returns; with [ex], [m'] also
    throws what [m] throws and is undefined or divergent where [m] is. *)
Definition osim {S A} (ex : bool) (m m' : M S A) : Prop :=
  forall s, match m s with
            | Ret a s' => m' s = Ret a s'
            | _ => ex = true -> m' s = m s
            end.

Lemma osim_refl {S A} ex (m : M S A) : osim ex m m.
Proof. intros s. now destruct (m s). Qed.

Lemma osim_bind {S A B} ex (m m' : M S A) (k k' : A -> M S B) :
  osim ex m m' -> (forall a, osim ex (k a) (k' a)) ->
  osim ex (bind m k) (bind m' k').
Proof.
  intros Hm Hk s. specialize (Hm s). unfold bind.
  destruct (m s) as [a s1|e s1| |].
  - rewrite Hm. apply Hk.
  - intros Hex. now rewrite (Hm Hex).
  - intros Hex. now rewrite (Hm Hex).
  - intros Hex. now rewrite (Hm Hex).
Qed.

Lemma osim_Ret {S A} ex (m m' : M S A) s a s' :
  osim ex m m' -> m s = Ret a s' -> m' s = Ret a s'.
Proof. intros H E. specialize (H s). now rewrite E in H. Qed.

Lemma osim_eq {S A} (m m' : M S A) s : osim true m m' -> m' s = m s.
Proof.
  intros H. specialize (H s). destruct (m s); [congruence|auto..].
Qed.

Ltac sim_step :=
  lazymatch goal with
  | |- osim _ (bind _ _) (bind _ _) => apply osim_bind; [|intros ?]
  | |- osim _ (if ?b then _ else _) _ => destruct b
  | |- osim _ (match ?x with _ => _ end) _ => destruct x
  end.

Ltac sim_auto tac := repeat (first [apply osim_refl | tac | sim_step]).

Section FewerChecks.
Context (ex : bool) (cfg cfg' : Config).
Hypothesis throwing_fewer : throwing cfg' = true -> throwing cfg = true.
Hypothesis throwing_same : ex = true -> throwing cfg = throwing cfg'.

Lemma osim_OVERLAP_ASSERT {A} c (k k' : MM (bool + A)) :
  osim ex k k' ->
  osim ex (OVERLAP_ASSERT cfg c k) (OVERLAP_ASSERT cfg' c k').
Proof.
  intros Hk s. destruct c.
  - rewrite !OVERLAP_ASSERT_true. apply Hk.
  - rewrite !OVERLAP_ASSERT_false. unfold overlap_failure.
    fold (throwing cfg) (throwing cfg').
    destruct (throwing cfg) eqn:E, (throwing cfg') eqn:E'; try done.
    + intros Hex. specialize (throwing_same Hex). congruence.
    + specialize (throwing_fewer eq_refl). congruence.
Qed.

Lemma osim_skip_vert v sv : osim ex (skip_vert cfg v sv) (skip_vert cfg' v sv).
Proof.
  unfold skip_vert. sim_auto ltac:(apply osim_OVERLAP_ASSERT).
Qed.

Lemma osim_SweepForward_step sv :
  osim ex (SweepForward_step cfg sv) (SweepForward_step cfg' sv).
Proof.
  unfold SweepForward_step.
  sim_auto ltac:(first [apply osim_OVERLAP_ASSERT | apply osim_skip_vert]).
Qed.

Lemma osim_SweepForward_loop fuel : forall sv,
  osim ex (SweepForward_loop fuel cfg sv) (SweepForward_loop fuel cfg' sv).
Proof.
  induction fuel as [|fuel IH]; intros sv; cbn [SweepForward_loop];
    sim_auto ltac:(first [apply osim_SweepForward_step | apply IH]).
Qed.

Lemma osim_SweepForward fuel :
  osim ex (SweepForward fuel cfg) (SweepForward fuel cfg').
Proof.
  unfold SweepForward. sim_auto ltac:(apply osim_SweepForward_loop).
Qed.

Lemma osim_SweepBack_dispatch v ty :
  osim ex (SweepBack_dispatch cfg v ty) (SweepBack_dispatch cfg' v ty).
Proof.
  unfold SweepBack_dispatch. sim_auto ltac:(apply osim_OVERLAP_ASSERT).
Qed.

Lemma osim_SweepBack_step v :
  osim ex (SweepBack_step cfg v) (SweepBack_step cfg' v).
Proof.
  unfold SweepBack_step. sim_auto ltac:(apply osim_SweepBack_dispatch).
Qed.

Lemma osim_SweepBack_loop fuel : forall v,
  osim ex (SweepBack_loop fuel cfg v) (SweepBack_loop fuel cfg' v).
Proof.
  induction fuel as [|fuel IH]; intros v; cbn [SweepBack_loop];
    sim_auto ltac:(first [apply osim_SweepBack_step | apply IH]).
Qed.

Lemma osim_SweepBack fuel : osim ex (SweepBack fuel cfg) (SweepBack fuel cfg').
Proof.
  unfold SweepBack. sim_auto ltac:(apply osim_SweepBack_loop).
Qed.

End FewerChecks.

Lemma marks_Check_verts l : keeps marks (Check_verts l).
Proof.
  induction l; cbn [Check_verts];
    repeat (first [apply marks_vert_at | apply marks_mark | assumption
                  | keeps_step]).
Qed.

Lemma marks_walk fuel :
  keeps marks (start <- vbegin ;; Check_monotones fuel start).
Proof.
  apply keeps_bind; tc; [apply keeps_gets; tc|].
  intros start. apply marks_Check_monotones.
Qed.

Lemma Check_cases fuel cfg s :
  Check fuel cfg s
  = if checking cfg
    then (ring <- gets monotones_ ;; Check_verts ring ;;
          if verbose (params cfg)
          then start <- vbegin ;; Check_monotones fuel start
          else ret tt) s
    else Ret tt s.
Proof.
  unfold Check, checking.
  destruct (MANIFOLD_DEBUG cfg), (intermediateChecks (params cfg)); reflexivity.
Qed.

Lemma marks_Check fuel cfg : keeps marks (Check fuel cfg).
Proof.
  unfold Check.
  repeat (first [apply marks_Check_verts | apply marks_walk
                | apply keeps_gets; tc | keeps_step]).
Qed.

(** [Check] under fewer checks: it returns if it returned, and leaves the
    same state up to the flags. *)
Lemma Check_fewer fuel cfg cfg' s u s_c :
  fewer_checks cfg cfg' ->
  Check fuel cfg s = Ret u s_c ->
  exists s', Check fuel cfg' s = Ret u s' /\ marks s' s_c.
Proof.
  intros (_ & _ & Hc & Hw) E.
  pose proof (keeps_Ret marks _ _ _ _ (marks_Check fuel cfg) E) as Hm.
  rewrite (Check_cases fuel cfg') . destruct u.
  destruct (checking cfg') eqn:Ec'; [|exists s; done].
  rewrite Check_cases, (Hc eq_refl) in E.
  apply bind_Ret in E as (ring & s0 & E0 & E). injection E0 as <- <-.
  apply bind_Ret in E as (u1 & s1 & E1 & E).
  rewrite (bind_of_Ret _ _ _ (monotones_ s) s) by reflexivity.
  rewrite (bind_of_Ret _ _ _ _ _ E1).
  destruct (verbose (params cfg')) eqn:Ev'.
  - assert (Ev : verbose (params cfg) = true).
    { unfold walking in Hw. rewrite Ec', Ev', (Hc eq_refl) in Hw.
      now apply Hw. }
    rewrite Ev in E. exists s_c. split; [exact E|reflexivity].
  - exists s1. split; [reflexivity|].
    destruct (verbose (params cfg)).
    + exact (keeps_Ret marks _ _ _ _ (marks_walk fuel) E).
    + injection E as <-. reflexivity.
Qed.

Lemma post_checks_same cfg polys st u st' :
  post_checks cfg polys st = Ret u st' -> st' = st.
Proof.
  unfold post_checks. intros H.
  destruct (MANIFOLD_DEBUG cfg); [|now injection H as _ <-].
  destruct (intermediateChecks (params cfg)); [|now injection H as _ <-].
  apply bind_Ret in H as (tris & st1 & E1 & H). injection E1 as <- <-.
  apply bind_Ret in H as (u2 & st2 & E2 & H).
  unfold CheckTopology in E2.
  apply bind_Ret in E2 as (oe & st3 & E3 & E2).
  destruct (Polygons2Edges polys); [|discriminate]. injection E3 as <- <-.
  apply CheckTopology_edges_Ret in E2 as (-> & _).
  destruct (processOverlaps (params cfg)); cbn [negb] in H;
    [now injection H as _ <-|].
  apply bind_Ret in H as (p & st4 & E4 & H).
  apply lift_Ret in E4 as (s4 & E4 & ->). injection E4 as <- <-.
  unfold CheckGeometry in H. apply ASSERT_Ret in H as [_ ->].
  now destruct st.
Qed.

Lemma post_checks_fewer cfg cfg' polys st u st' :
  fewer_checks cfg cfg' ->
  post_checks cfg polys st = Ret u st' ->
  post_checks cfg' polys st = Ret u st'.
Proof.
  intros (_ & Ht & Hc & _) H.
  pose proof (post_checks_same _ _ _ _ _ H) as ->. destruct u.
  unfold post_checks, checking, throwing in *.
  destruct (MANIFOLD_DEBUG cfg') eqn:Ed'; [|reflexivity].
  destruct (intermediateChecks (params cfg')) eqn:Ei'; [|reflexivity].
  cbn [andb] in Hc, Ht.
  apply andb_true_iff in Hc as [Ed Ei]; [|reflexivity].
  rewrite Ed, Ei in H.
  apply bind_Ret in H as (tris & st1 & E1 & H). injection E1 as <- <-.
  apply bind_Ret in H as (u2 & st2 & E2 & H).
  pose proof E2 as E2'. unfold CheckTopology in E2'.
  apply bind_Ret in E2' as (oe & st3 & E3 & E2').
  destruct (Polygons2Edges polys); [|discriminate]. injection E3 as <- <-.
  apply CheckTopology_edges_Ret in E2' as (-> & _). destruct u2.
  rewrite (bind_of_Ret _ _ _ (triangles st) st) by reflexivity.
  rewrite (bind_of_Ret _ _ _ _ _ E2).
  destruct (processOverlaps (params cfg')) eqn:Eo'; cbn [negb];
    [reflexivity|].
  cbn [negb] in Ht. apply andb_true_iff in Ht as [_ Eo]; [|reflexivity].
  apply negb_true_iff in Eo. rewrite Eo in H. exact H.
Qed.

(** The constructor under fewer checks. *)
Lemma Monotones_ctor_fewer fuel cfg cfg' polys precision u s_c :
  fewer_checks cfg cfg' ->
  Monotones_ctor fuel cfg polys (empty_Monotones precision) = Ret u s_c ->
  exists s',
    Monotones_ctor fuel cfg' polys (empty_Monotones precision) = Ret u s' /\
    marks s' s_c /\ all_in s'.
Proof.
  intros Hf E. pose proof Hf as (_ & Ht & _).
  set (s := empty_Monotones precision) in *.
  assert (Hno : false = true -> throwing cfg = throwing cfg') by done.
  assert (Hall : forall u s',
             Monotones_ctor fuel cfg' polys s = Ret u s' -> all_in s').
  { intros u' s' E'.
    assert (K : keeps (inv_rel all_in) (Monotones_ctor fuel cfg' polys)).
    { rewrite Monotones_ctor_eq. apply keeps_bind; tc.
      - apply all_in_Monotones_init.
      - intros _. apply (rr_Monotones_sweeps (inv_rel all_in)). }
    exact (keeps_Ret _ _ _ _ _ K E' (all_in_empty precision)). }
  unfold Monotones_ctor in E.
  apply bind_Ret in E as (u0 & s0 & E0 & E).
  apply bind_Ret in E as (fail & s1 & E1 & E).
  apply (osim_Ret _ _ _ _ _ _ (osim_SweepForward false cfg cfg' Ht Hno fuel))
    in E1.
  assert (Eq : Monotones_ctor fuel cfg' polys s
               = (if fail then ret tt
                  else Check fuel cfg' ;;
                       fail <- SweepBack fuel cfg' ;;
                       if fail then ret tt else Check fuel cfg') s1).
  { unfold Monotones_ctor. rewrite (bind_of_Ret _ _ _ _ _ E0).
    now rewrite (bind_of_Ret _ _ _ _ _ E1). }
  destruct fail.
  - injection E as <- <-. exists s1.
    split; [exact Eq|]. split; [reflexivity|]. eapply Hall, Eq.
  - apply bind_Ret in E as (u2 & s2c & E2 & E).
    destruct (Check_fewer _ _ _ _ _ _ Hf E2) as (s2 & E2' & Hm2).
    assert (Ha2 : all_in s2).
    { assert (K : keeps (inv_rel all_in)
                    (Monotones_init polys ;; SweepForward fuel cfg' ;;
                     Check fuel cfg')).
      { apply keeps_bind; tc; [apply all_in_Monotones_init|]. intros _.
        apply keeps_bind; tc;
          [apply (rr_SweepForward (inv_rel all_in))|]. intros _.
        apply (rr_Check (inv_rel all_in)). }
      refine (keeps_Ret _ _ s u2 s2 K _ (all_in_empty precision)).
      rewrite (bind_of_Ret _ _ _ _ _ E0), (bind_of_Ret _ _ _ _ _ E1).
      exact E2'. }
    apply bind_Ret in E as (fail' & s3 & E3 & E).
    rewrite (SweepBack_erases _ _ _ _ Hm2 Ha2) in E3.
    apply (osim_Ret _ _ _ _ _ _ (osim_SweepBack false cfg cfg' Ht Hno fuel))
      in E3.
    rewrite (bind_of_Ret _ _ _ _ _ E2'), (bind_of_Ret _ _ _ _ _ E3) in Eq.
    destruct fail'.
    + injection E as <- <-. exists s3. split; [exact Eq|].
      split; [reflexivity|]. eapply Hall, Eq.
    + destruct (Check_fewer _ _ _ _ _ _ Hf E) as (s4 & E4 & Hm4).
      exists s4. rewrite E4 in Eq. split; [exact Eq|].
      split; [exact Hm4|]. eapply Hall, Eq.
Qed.

Lemma osim_lift {A} ex (m m' : MM A) : osim ex m m' -> osim ex (lift m) (lift m').
Proof.
  intros H st. specialize (H (mono st)). unfold lift.
  destruct (m (mono st)) as [a s1|e s1| |].
  - now rewrite H.
  - intros Hex. now rewrite (H Hex).
  - intros Hex. now rewrite (H Hex).
  - intros Hex. now rewrite (H Hex).
Qed.

(** Without [MANIFOLD_DEBUG] the parameters are not read. *)
Lemma release_try fuel cfg cfg' polys st :
  MANIFOLD_DEBUG cfg = false -> MANIFOLD_DEBUG cfg' = false ->
  TriangulateIdx_try fuel cfg' polys st = TriangulateIdx_try fuel cfg polys st.
Proof.
  intros Hd Hd'.
  assert (Ht : throwing cfg' = true -> throwing cfg = true)
    by (unfold throwing; rewrite Hd'; discriminate).
  assert (Hs : true = true -> throwing cfg = throwing cfg')
    by (unfold throwing; now rewrite Hd, Hd').
  assert (Hc : osim true (Check fuel cfg) (Check fuel cfg')).
  { intros s. rewrite !Check_cases. unfold checking. now rewrite Hd, Hd'. }
  assert (Hctor : osim true (Monotones_ctor fuel cfg polys)
                            (Monotones_ctor fuel cfg' polys)).
  { unfold Monotones_ctor.
    sim_auto ltac:(first [ apply (osim_SweepForward true cfg cfg' Ht Hs)
                         | apply (osim_SweepBack true cfg cfg' Ht Hs)
                         | apply Hc ]). }
  apply osim_eq. unfold TriangulateIdx_try. rewrite Hd, Hd'.
  sim_auto ltac:(apply osim_lift, Hctor).
Qed.

(** A run that returns a result returns it under fewer checks as well: with
    [intermediateChecks] or [verbose] switched off, with [processOverlaps]
    switched on, or in a build without [MANIFOLD_DEBUG]; and in such a
    build the parameters have no effect at all. *)
Theorem fewer_checks_same_result fuel cfg cfg' polys precision :
  (fewer_checks cfg cfg' ->
   forall tris,
     TriangulateIdx fuel cfg polys precision = Ret tris tt ->
     TriangulateIdx fuel cfg' polys precision = Ret tris tt) /\
  (MANIFOLD_DEBUG cfg = false -> MANIFOLD_DEBUG cfg' = false ->
   TriangulateIdx fuel cfg' polys precision
   = TriangulateIdx fuel cfg polys precision).
Proof.
  assert (Hrel : MANIFOLD_DEBUG cfg = false -> MANIFOLD_DEBUG cfg' = false ->
                 TriangulateIdx fuel cfg' polys precision
                 = TriangulateIdx fuel cfg polys precision).
  { intros Hd Hd'. unfold TriangulateIdx.
    now rewrite (release_try fuel cfg cfg' polys _ Hd Hd'), Hd, Hd'. }
  split; [|exact Hrel].
  intros Hf tris H.
  destruct (MANIFOLD_DEBUG cfg) eqn:Hd.
  2:{ destruct (MANIFOLD_DEBUG cfg') eqn:Hd'.
      - destruct Hf as (Hf & _). specialize (Hf Hd'). congruence.
      - now rewrite Hrel. }
  unfold TriangulateIdx in H. rewrite Hd in H.
  destruct (TriangulateIdx_try fuel cfg polys
              (mkTState (empty_Monotones precision) []))
    as [u st|e st| |] eqn:E; try discriminate.
  injection H as <-.
  change (TriangulateIdx_try fuel cfg polys)
    with (lift (Monotones_ctor fuel cfg polys) ;; Triangulate fuel ;;
          post_checks cfg polys) in E.
  apply bind_Ret in E as (u0 & st0 & E0 & E).
  apply lift_Ret in E0 as (s_c & E0 & ->). cbn [triangles] in E.
  destruct (Monotones_ctor_fewer _ _ _ _ _ _ _ Hf E0) as (s' & E0' & Hm & Ha).
  rewrite (Triangulate_erases_bind fuel s' s_c [] _ Hm Ha) in E.
  apply bind_Ret in E as (counts & st2 & E2 & E).
  apply (post_checks_fewer _ _ _ _ _ _ Hf) in E.
  assert (Etry : TriangulateIdx_try fuel cfg' polys
                   (mkTState (empty_Monotones precision) []) = Ret u st).
  { change (TriangulateIdx_try fuel cfg' polys)
      with (lift (Monotones_ctor fuel cfg' polys) ;; Triangulate fuel ;;
            post_checks cfg' polys).
    rewrite (bind_of_Ret _ _ _ u0 (mkTState s' []))
      by (unfold lift; cbn; now rewrite E0').
    now rewrite (bind_of_Ret _ _ _ _ _ E2). }
  unfold TriangulateIdx. now rewrite Etry.
Qed.

Lemma fewer_checks_same_result_witness :
  TriangulateIdx 100 strict_checked (index_polys 0 holed_square) (-1)
  = Ret [(4, 0, 1); (7, 4, 1); (6, 7, 1); (2, 6, 1);
         (5, 0, 4); (2, 5, 6); (3, 5, 2); (3, 0, 5)] tt /\
  TriangulateIdx 100 (release (mkParams true false true false))
    (index_polys 0 holed_square) (-1)
  = Ret [(4, 0, 1); (7, 4, 1); (6, 7, 1); (2, 6, 1);
         (5, 0, 4); (2, 5, 6); (3, 5, 2); (3, 0, 5)] tt.
Proof.
  assert (E : TriangulateIdx 100 strict_checked
                (index_polys 0 holed_square) (-1)
              = Ret [(4, 0, 1); (7, 4, 1); (6, 7, 1); (2, 6, 1);
                     (5, 0, 4); (2, 5, 6); (3, 5, 2); (3, 0, 5)] tt)
    by (vm_compute; reflexivity).
  split; [exact E|].
  apply (proj1 (fewer_checks_same_result 100 strict_checked
                  (release (mkParams true false true false))
                  (index_polys 0 holed_square) (-1))); [|exact E].
  repeat split; discriminate.
Defined.
